(** * BusTub buffer pool core: LRU-K replacer, extendible hash table,
      buffer pool manager instance.

    A shallow embedding of the three C++ translation units
    (lru_k_replacer.cpp, extendible_hash_table.cpp,
    buffer_pool_manager_instance.cpp) and the properties of their
    natural-language specification.

    Conventions of the embedding.
    - [size_t] values are integers of [Z] reduced modulo 2^64 wherever the
      code performs arithmetic on them; [int] values are integers of [Z],
      and an [int] operation that can overflow is marked where it occurs.
    - A computation that the C++ program does not complete normally (a failed
      BUSTUB_ASSERT, undefined behaviour such as [front()] of an empty list,
      an out-of-bounds [operator[]], a shift outside the width of [int], or a
      loop that is given too little fuel) yields [None]; a normal return
      yields [Some] of the returned value and of the state after the call.
    - The mutexes are not modelled: every member function runs under its
      object's latch from its first to its last statement. *)

From Stdlib Require Import ZArith Lia List Bool.
From stdpp Require Import base tactics numbers option list.

Local Open Scope Z_scope.

(** ** Machine integers *)

Definition SIZE_MAX : Z := 2 ^ 64 - 1.
Definition INT_MAX : Z := 2 ^ 31 - 1.
Definition INT_MIN : Z := - 2 ^ 31.

(** Conversion to [size_t], and the result of [size_t] arithmetic. *)
Definition size_t (x : Z) : Z := x mod 2 ^ 64.

(** The result of [int] arithmetic: undefined when it leaves the range. *)
Definition int_checked (x : Z) : option Z :=
  if (INT_MIN <=? x) && (x <=? INT_MAX) then Some x else None.

(** Two's-complement wrap-around of a 32-bit [int]. *)
Definition int_wrap (x : Z) : Z := (x + 2 ^ 31) mod 2 ^ 32 - 2 ^ 31.

(** [using frame_id_t = int;  const frame_id_t INVALID_FRAME_ID = -1;] *)
Abbreviation frame_id_t := Z.
Definition INVALID_FRAME_ID : frame_id_t := -1.

(** [page_id_t] is a 32-bit [int]. *)
Abbreviation page_id_t := Z.

(** * LRU-K replacer *)

Module LRUKReplacer.

(** [struct FrameInfo]: the access history, oldest first, and the evictable
    flag.  The default constructor leaves the list empty and the flag false. *)
Record FrameInfo : Type := mkFrameInfo {
  access_timestamps : list Z;
  evictable : bool
}.

Definition FrameInfo_default : FrameInfo :=
  {| access_timestamps := []; evictable := false |}.

(** The replacer object.  [frame_map_] is a [std::unordered_map]; it is kept
    as an association list whose order is the iteration order of the map,
    about which nothing is assumed. *)
Record t : Type := mk {
  frame_map_ : list (frame_id_t * FrameInfo);
  current_timestamp_ : Z;
  curr_size_ : Z;
  replacer_size_ : Z;
  k_ : Z
}.

Definition set_frame_map (m : list (frame_id_t * FrameInfo)) (r : t) : t :=
  {| frame_map_ := m; current_timestamp_ := current_timestamp_ r;
     curr_size_ := curr_size_ r; replacer_size_ := replacer_size_ r;
     k_ := k_ r |}.

Definition set_current_timestamp (ts : Z) (r : t) : t :=
  {| frame_map_ := frame_map_ r; current_timestamp_ := ts;
     curr_size_ := curr_size_ r; replacer_size_ := replacer_size_ r;
     k_ := k_ r |}.

Definition set_curr_size (n : Z) (r : t) : t :=
  {| frame_map_ := frame_map_ r; current_timestamp_ := current_timestamp_ r;
     curr_size_ := n; replacer_size_ := replacer_size_ r; k_ := k_ r |}.

(** [frame_map_.find(fid)] *)
Fixpoint fm_find (fid : frame_id_t) (m : list (frame_id_t * FrameInfo))
  : option FrameInfo :=
  match m with
  | [] => None
  | (g, fi) :: m' => if g =? fid then Some fi else fm_find fid m'
  end.

(** [frame_map_.erase(fid)]: the keys of a map are distinct, so at most one
    record goes. *)
Definition fm_erase (fid : frame_id_t) (m : list (frame_id_t * FrameInfo))
  : list (frame_id_t * FrameInfo) :=
  List.filter (fun e => negb (fst e =? fid)) m.

(** [auto &fi = frame_map_[fid]; fi = f(fi);] : the record is created with
    the default constructor when the key is absent (where a new record
    stands in the iteration order is not specified; it is put last). *)
Fixpoint fm_access (fid : frame_id_t) (f : FrameInfo -> FrameInfo)
  (m : list (frame_id_t * FrameInfo)) : list (frame_id_t * FrameInfo) :=
  match m with
  | [] => [(fid, f FrameInfo_default)]
  | (g, fi) :: m' =>
      if g =? fid then (g, f fi) :: m' else (g, fi) :: fm_access fid f m'
  end.

(** Constructor: [BUSTUB_ASSERT(k_ >= 1, ...)]. *)
Definition new_ (num_frames k : Z) : option t :=
  if 1 <=? k then
    Some {| frame_map_ := []; current_timestamp_ := 0; curr_size_ := 0;
            replacer_size_ := num_frames; k_ := k |}
  else None.

(** The three locals of the scan loop of [Evict]. *)
Record scan_state : Type := mkScan {
  victim_fid : frame_id_t;
  max_backward_dist : Z;
  earliest_first_ts : Z
}.

Definition scan_init : scan_state :=
  {| victim_fid := INVALID_FRAME_ID; max_backward_dist := 0;
     earliest_first_ts := SIZE_MAX |}.

(** [ts_list.front()], undefined on an empty list. *)
Definition front (ts_list : list Z) : option Z := head ts_list.

(** One iteration of [for (const auto &[fid, finfo] : frame_map_)]. *)
Definition scan_entry (k current_timestamp : Z) (st : scan_state)
  (e : frame_id_t * FrameInfo) : option scan_state :=
  let '(fid, finfo) := e in
  if negb (evictable finfo) then Some st
  else
    let ts_list := access_timestamps finfo in
    if Z.of_nat (length ts_list) <? k then
      let backward_dist := SIZE_MAX in
      first_ts ← front ts_list;
      if max_backward_dist st <? backward_dist then
        Some {| victim_fid := fid; max_backward_dist := backward_dist;
                earliest_first_ts := first_ts |}
      else if (backward_dist =? max_backward_dist st)
              && (first_ts <? earliest_first_ts st) then
        Some {| victim_fid := fid;
                max_backward_dist := max_backward_dist st;
                earliest_first_ts := first_ts |}
      else Some st
    else
      kth_ts ← front ts_list;
      let backward_dist := size_t (current_timestamp - kth_ts) in
      if max_backward_dist st <? backward_dist then
        Some {| victim_fid := fid; max_backward_dist := backward_dist;
                earliest_first_ts := earliest_first_ts st |}
      else Some st.

Fixpoint scan (k current_timestamp : Z) (st : scan_state)
  (m : list (frame_id_t * FrameInfo)) : option scan_state :=
  match m with
  | [] => Some st
  | e :: m' =>
      st' ← scan_entry k current_timestamp st e;
      scan k current_timestamp st' m'
  end.

(** [auto Evict(frame_id_t *frame_id) -> bool] : the result is [Some fid]
    for [true] with [*frame_id = fid], and [None] for [false]. *)
Definition Evict (r : t) : option (option frame_id_t * t) :=
  if curr_size_ r =? 0 then Some (None, r)
  else
    st ← scan (k_ r) (current_timestamp_ r) scan_init (frame_map_ r);
    if victim_fid st =? INVALID_FRAME_ID then None
    else
      Some (Some (victim_fid st),
            set_curr_size (size_t (curr_size_ r - 1))
              (set_frame_map (fm_erase (victim_fid st) (frame_map_ r)) r)).

(** The body of [RecordAccess] on the record of the frame. *)
Definition push_timestamp (k current_timestamp : Z) (fi : FrameInfo)
  : FrameInfo :=
  let ts := access_timestamps fi ++ [current_timestamp] in
  {| access_timestamps := if k <? Z.of_nat (length ts) then tail ts else ts;
     evictable := evictable fi |}.

(** [void RecordAccess(frame_id_t frame_id)] *)
Definition RecordAccess (frame_id : frame_id_t) (r : t) : option t :=
  if size_t frame_id <? replacer_size_ r then
    Some (set_current_timestamp (size_t (current_timestamp_ r + 1))
            (set_frame_map
               (fm_access frame_id
                  (push_timestamp (k_ r) (current_timestamp_ r))
                  (frame_map_ r)) r))
  else None.

Definition with_evictable (b : bool) (fi : FrameInfo) : FrameInfo :=
  {| access_timestamps := access_timestamps fi; evictable := b |}.

(** [void SetEvictable(frame_id_t frame_id, bool set_evictable)] *)
Definition SetEvictable (frame_id : frame_id_t) (set_evictable : bool)
  (r : t) : option t :=
  if size_t frame_id <? replacer_size_ r then
    match fm_find frame_id (frame_map_ r) with
    | None => Some r
    | Some frame_info =>
        if eqb (evictable frame_info) set_evictable then Some r
        else
          let n := if set_evictable then size_t (curr_size_ r + 1)
                   else size_t (curr_size_ r - 1) in
          Some (set_frame_map
                  (fm_access frame_id (with_evictable set_evictable)
                     (frame_map_ r))
                  (set_curr_size n r))
    end
  else None.

(** [void Remove(frame_id_t frame_id)] *)
Definition Remove (frame_id : frame_id_t) (r : t) : option t :=
  if size_t frame_id <? replacer_size_ r then
    match fm_find frame_id (frame_map_ r) with
    | None => Some r
    | Some frame_info =>
        if evictable frame_info then
          Some (set_frame_map (fm_erase frame_id (frame_map_ r))
                  (set_curr_size (size_t (curr_size_ r - 1)) r))
        else None
    end
  else None.

(** [auto Size() -> size_t] *)
Definition Size (r : t) : Z := curr_size_ r.

End LRUKReplacer.

(** * Extendible hash table *)

Module ExtendibleHashTable.

Section Table.

Context {K V : Type} `{EqDecision K}.

(** [std::hash<K>()(key)], left open; its value is taken as a [size_t]. *)
Variable hash : K -> Z.

(** [class Bucket] *)
Record Bucket : Type := mkBucket {
  kv_pairs_ : list (K * V);
  max_size_ : Z;
  local_depth_ : Z
}.

Definition set_kv_pairs (l : list (K * V)) (b : Bucket) : Bucket :=
  {| kv_pairs_ := l; max_size_ := max_size_ b;
     local_depth_ := local_depth_ b |}.

Definition SetLocalDepth (depth : Z) (b : Bucket) : Bucket :=
  {| kv_pairs_ := kv_pairs_ b; max_size_ := max_size_ b;
     local_depth_ := depth |}.

Definition IsFull (b : Bucket) : bool :=
  max_size_ b <=? Z.of_nat (length (kv_pairs_ b)).

(** The loop of [Bucket::Find]. *)
Fixpoint kv_find (key : K) (l : list (K * V)) : option V :=
  match l with
  | [] => None
  | (k, v) :: l' => if decide (k = key) then Some v else kv_find key l'
  end.

(** The loop of [Bucket::Remove]: erase the first pair with the key. *)
Fixpoint kv_remove (key : K) (l : list (K * V)) : bool * list (K * V) :=
  match l with
  | [] => (false, [])
  | (k, v) :: l' =>
      if decide (k = key) then (true, l')
      else let '(found, r) := kv_remove key l' in (found, (k, v) :: r)
  end.

(** The first loop of [Bucket::Insert]: overwrite the first pair with the
    key. *)
Fixpoint kv_overwrite (key : K) (value : V) (l : list (K * V))
  : bool * list (K * V) :=
  match l with
  | [] => (false, [])
  | (k, v) :: l' =>
      if decide (k = key) then (true, (k, value) :: l')
      else let '(found, r) := kv_overwrite key value l' in
           (found, (k, v) :: r)
  end.

(** [bool Bucket::Find(const K &key, V &value)] : [Some v] stands for
    [true] with [value = v]. *)
Definition Bucket_Find (key : K) (b : Bucket) : option V :=
  kv_find key (kv_pairs_ b).

(** [bool Bucket::Remove(const K &key)] *)
Definition Bucket_Remove (key : K) (b : Bucket) : bool * Bucket :=
  let '(found, l) := kv_remove key (kv_pairs_ b) in
  (found, set_kv_pairs l b).

(** [bool Bucket::Insert(const K &key, const V &value)] *)
Definition Bucket_Insert (key : K) (value : V) (b : Bucket)
  : bool * Bucket :=
  let '(found, l) := kv_overwrite key value (kv_pairs_ b) in
  if found then (true, set_kv_pairs l b)
  else if IsFull b then (false, b)
  else (true, set_kv_pairs (kv_pairs_ b ++ [(key, value)]) b).

(** The table.  A [Bucket *] is the index of the bucket in [heap], the
    arena of the buckets allocated so far ([new Bucket] appends to it), so
    that directory slots holding the same pointer share one bucket. *)
Record t : Type := mk {
  heap : list Bucket;
  dir_ : list nat;
  global_depth_ : Z;
  bucket_size_ : Z;
  num_buckets_ : Z
}.

Definition set_heap (h : list Bucket) (ht : t) : t :=
  {| heap := h; dir_ := dir_ ht; global_depth_ := global_depth_ ht;
     bucket_size_ := bucket_size_ ht; num_buckets_ := num_buckets_ ht |}.

(** Constructor. *)
Definition new_ (bucket_size : Z) : t :=
  {| heap := [ {| kv_pairs_ := []; max_size_ := bucket_size;
                  local_depth_ := 0 |} ];
     dir_ := [0%nat]; global_depth_ := 0; bucket_size_ := bucket_size;
     num_buckets_ := 1 |}.

(** [1 << n] on [int]: defined when the result fits (a shift into the sign
    bit is left undefined, as it is followed by [- 1] in [IndexOf]). *)
Definition int_shl1 (n : Z) : option Z :=
  if (0 <=? n) && (n <=? 30) then Some (Z.shiftl 1 n) else None.

(** [size_t IndexOf(const K &key)] *)
Definition IndexOf (global_depth : Z) (key : K) : option Z :=
  p ← int_shl1 global_depth;
  let mask := p - 1 in
  Some (Z.land (size_t (hash key)) mask).

(** Step 4 of [SplitBucket]: the loop that repoints directory slots. *)
Definition repoint (bucket new_bucket : nat) (split_mask : Z)
  (dir : list nat) : list nat :=
  imap (fun i p =>
          if (p =? bucket)%nat then
            if negb (Z.land (Z.of_nat i) split_mask =? 0) then new_bucket
            else p
          else p) dir.

(** Step 5 of [SplitBucket]: the loop over the pairs of the split bucket.
    The result is the list left in the old bucket and the new bucket. *)
Fixpoint rehash (dir : list nat) (global_depth : Z) (new_bucket : nat)
  (l : list (K * V)) (nb : Bucket) : option (list (K * V) * Bucket) :=
  match l with
  | [] => Some ([], nb)
  | (key, value) :: l' =>
      target_index ← IndexOf global_depth key;
      p ← dir !! Z.to_nat target_index;
      if (p =? new_bucket)%nat then
        rehash dir global_depth new_bucket l'
          (snd (Bucket_Insert key value nb))
      else
        '(kept, nb') ← rehash dir global_depth new_bucket l' nb;
        Some ((key, value) :: kept, nb')
  end.

(** [void SplitBucket(Bucket *bucket)] *)
Definition SplitBucket (bucket : nat) (ht : t) : option t :=
  b ← heap ht !! bucket;
  (* step 1 *)
  let grow := local_depth_ b =? global_depth_ ht in
  let dir1 := if grow then dir_ ht ++ dir_ ht else dir_ ht in
  global_depth1 ←
    (if grow then int_checked (global_depth_ ht + 1)
     else Some (global_depth_ ht));
  (* step 2 *)
  new_local_depth ← int_checked (local_depth_ b + 1);
  let b2 := SetLocalDepth new_local_depth b in
  (* step 3 *)
  let new_bucket := length (heap ht) in
  let nb := {| kv_pairs_ := []; max_size_ := bucket_size_ ht;
               local_depth_ := new_local_depth |} in
  num_buckets ← int_checked (num_buckets_ ht + 1);
  (* step 4 *)
  let split_bit := new_local_depth - 1 in
  split_mask ← int_shl1 split_bit;
  let dir4 := repoint bucket new_bucket split_mask dir1 in
  (* step 5 *)
  '(kept, nb') ← rehash dir4 global_depth1 new_bucket (kv_pairs_ b2) nb;
  Some {| heap := <[bucket := set_kv_pairs kept b2]> (heap ht) ++ [nb'];
          dir_ := dir4; global_depth_ := global_depth1;
          bucket_size_ := bucket_size_ ht;
          num_buckets_ := num_buckets |}.

(** [bool Find(const K &key, V &value)] *)
Definition Find (key : K) (ht : t) : option (option V) :=
  index ← IndexOf (global_depth_ ht) key;
  if Z.of_nat (length (dir_ ht)) <=? index then Some None
  else
    p ← dir_ ht !! Z.to_nat index;
    b ← heap ht !! p;
    Some (Bucket_Find key b).

(** [bool Remove(const K &key)] *)
Definition Remove (key : K) (ht : t) : option (bool * t) :=
  index ← IndexOf (global_depth_ ht) key;
  if Z.of_nat (length (dir_ ht)) <=? index then Some (false, ht)
  else
    p ← dir_ ht !! Z.to_nat index;
    b ← heap ht !! p;
    let '(found, b') := Bucket_Remove key b in
    Some (found, set_heap (<[p := b']> (heap ht)) ht).

(** [void Insert(const K &key, const V &value)] : [fuel] bounds the number
    of iterations of [while (true)]. *)
Fixpoint Insert (fuel : nat) (key : K) (value : V) (ht : t) : option t :=
  match fuel with
  | O => None
  | S fuel' =>
      index ← IndexOf (global_depth_ ht) key;
      target_bucket ← dir_ ht !! Z.to_nat index;
      b ← heap ht !! target_bucket;
      let '(ok, b') := Bucket_Insert key value b in
      if ok then Some (set_heap (<[target_bucket := b']> (heap ht)) ht)
      else
        ht' ← SplitBucket target_bucket ht;
        Insert fuel' key value ht'
  end.

Definition GetGlobalDepth (ht : t) : Z := global_depth_ ht.

Definition GetLocalDepth (dir_index : Z) (ht : t) : option Z :=
  if (0 <=? dir_index) && (dir_index <? Z.of_nat (length (dir_ ht))) then
    p ← dir_ ht !! Z.to_nat dir_index;
    b ← heap ht !! p;
    Some (local_depth_ b)
  else None.

Definition GetNumBuckets (ht : t) : Z := num_buckets_ ht.

(** [~ExtendibleHashTable()]: the set [unique_buckets] of the pointers found
    in the directory; the destructor deletes each of its members once. *)
Definition unique_buckets (ht : t) : list nat := remove_dups (dir_ ht).

End Table.

Arguments Bucket : clear implicits.
Arguments t : clear implicits.

End ExtendibleHashTable.

(** * Buffer pool manager *)

Module BufferPoolManagerInstance.

(** Modelled from the spec: common/config.h is not among the sources.
    [INVALID_PAGE_ID] is the reserved identifier that denotes "no page";
    BusTub defines it as -1. *)
Definition INVALID_PAGE_ID : page_id_t := -1.

(** Modelled from the spec: storage/page/page.h is not among the sources.
    A frame is a fixed-size byte buffer with the identifier of the page it
    holds, a pin count (an [int]) and a dirty flag. *)
Record Page : Type := mkPage {
  data_ : list Z;
  page_id_ : page_id_t;
  pin_count_ : Z;
  is_dirty_ : bool
}.

Definition set_dirty (d : bool) (p : Page) : Page :=
  {| data_ := data_ p; page_id_ := page_id_ p; pin_count_ := pin_count_ p;
     is_dirty_ := d |}.

Definition set_pin_count (n : Z) (p : Page) : Page :=
  {| data_ := data_ p; page_id_ := page_id_ p; pin_count_ := n;
     is_dirty_ := is_dirty_ p |}.

(** Modelled from the spec: the caller of [NewPgImp] or [FetchPgImp] reads
    and writes the buffer of the page through the pointer it is given. *)
Definition set_data (buf : list Z) (p : Page) : Page :=
  {| data_ := buf; page_id_ := page_id_ p; pin_count_ := pin_count_ p;
     is_dirty_ := is_dirty_ p |}.

(** Modelled from the spec: [Page::ResetMemory] zeroes the buffer. *)
Definition zeroed (buf : list Z) : list Z := List.map (fun _ => 0) buf.

(** Modelled from the spec: the frames of a new pool are empty (zeroed
    buffer, sentinel id, pin count zero, clean). *)
Definition Page_default (page_size : nat) : Page :=
  {| data_ := replicate page_size 0; page_id_ := INVALID_PAGE_ID;
     pin_count_ := 0; is_dirty_ := false |}.

(** Modelled from the spec: the disk manager is an external collaborator.
    It is kept as the sequence of the buffers written so far, oldest first;
    reading a page yields the buffer of its most recent write, and leaves
    a zeroed buffer when the page was never written. *)
Record DiskManager : Type := mkDisk {
  writes_ : list (page_id_t * list Z)
}.

Definition WritePage (page_id : page_id_t) (buf : list Z) (d : DiskManager)
  : DiskManager :=
  {| writes_ := writes_ d ++ [(page_id, buf)] |}.

Fixpoint last_write (page_id : page_id_t) (w : list (page_id_t * list Z))
  (acc : option (list Z)) : option (list Z) :=
  match w with
  | [] => acc
  | (p, buf) :: w' =>
      last_write page_id w' (if p =? page_id then Some buf else acc)
  end.

Definition ReadPage (page_id : page_id_t) (buf : list Z) (d : DiskManager)
  : list Z :=
  match last_write page_id (writes_ d) None with
  | Some b => b
  | None => zeroed buf
  end.

Section Pool.

(** [std::hash<page_id_t>] *)
Variable hash : page_id_t -> Z.

Local Abbreviation HashTable := (ExtendibleHashTable.t page_id_t frame_id_t).

(** The pool.  [pool_size_] is the length of [pages_]; [deallocated_] is the
    sequence of the identifiers handed to [DeallocatePage], oldest first. *)
Record t : Type := mk {
  pages_ : list Page;
  page_table_ : HashTable;
  replacer_ : LRUKReplacer.t;
  free_list_ : list frame_id_t;
  next_page_id_ : page_id_t;
  disk_manager_ : DiskManager;
  deallocated_ : list page_id_t
}.

Definition pool_size_ (s : t) : Z := Z.of_nat (length (pages_ s)).

Definition set_pages (ps : list Page) (s : t) : t :=
  {| pages_ := ps; page_table_ := page_table_ s; replacer_ := replacer_ s;
     free_list_ := free_list_ s; next_page_id_ := next_page_id_ s;
     disk_manager_ := disk_manager_ s; deallocated_ := deallocated_ s |}.

Definition set_page_table (pt : HashTable) (s : t) : t :=
  {| pages_ := pages_ s; page_table_ := pt; replacer_ := replacer_ s;
     free_list_ := free_list_ s; next_page_id_ := next_page_id_ s;
     disk_manager_ := disk_manager_ s; deallocated_ := deallocated_ s |}.

Definition set_replacer (r : LRUKReplacer.t) (s : t) : t :=
  {| pages_ := pages_ s; page_table_ := page_table_ s; replacer_ := r;
     free_list_ := free_list_ s; next_page_id_ := next_page_id_ s;
     disk_manager_ := disk_manager_ s; deallocated_ := deallocated_ s |}.

Definition set_free_list (fl : list frame_id_t) (s : t) : t :=
  {| pages_ := pages_ s; page_table_ := page_table_ s;
     replacer_ := replacer_ s; free_list_ := fl;
     next_page_id_ := next_page_id_ s; disk_manager_ := disk_manager_ s;
     deallocated_ := deallocated_ s |}.

Definition set_next_page_id (n : page_id_t) (s : t) : t :=
  {| pages_ := pages_ s; page_table_ := page_table_ s;
     replacer_ := replacer_ s; free_list_ := free_list_ s;
     next_page_id_ := n; disk_manager_ := disk_manager_ s;
     deallocated_ := deallocated_ s |}.

Definition set_disk_manager (d : DiskManager) (s : t) : t :=
  {| pages_ := pages_ s; page_table_ := page_table_ s;
     replacer_ := replacer_ s; free_list_ := free_list_ s;
     next_page_id_ := next_page_id_ s; disk_manager_ := d;
     deallocated_ := deallocated_ s |}.

(** Modelled from the spec: [DeallocatePage] is declared in the absent
    header; it releases the on-disk identifier, which is recorded here. *)
Definition DeallocatePage (page_id : page_id_t) (s : t) : t :=
  {| pages_ := pages_ s; page_table_ := page_table_ s;
     replacer_ := replacer_ s; free_list_ := free_list_ s;
     next_page_id_ := next_page_id_ s; disk_manager_ := disk_manager_ s;
     deallocated_ := deallocated_ s ++ [page_id] |}.

(** [pages_[frame_id]], undefined outside the array. *)
Definition page_at (frame_id : frame_id_t) (ps : list Page) : option Page :=
  if frame_id <? 0 then None else ps !! Z.to_nat frame_id.

Definition store_page (frame_id : frame_id_t) (p : Page) (s : t) : t :=
  set_pages (<[Z.to_nat frame_id := p]> (pages_ s)) s.

(** Constructor.  [disk_manager] is the disk that the pool is given, with
    whatever was written to it before; [bucket_size] stands for the member
    [bucket_size_] of the absent header, [page_size] for the size of a page
    buffer.  The free list receives [static_cast<int>(i)] for every frame
    index [i]. *)
Definition new_ (pool_size : Z) (disk_manager : DiskManager)
  (replacer_k bucket_size : Z) (page_size : nat) : option t :=
  r ← LRUKReplacer.new_ pool_size replacer_k;
  Some {| pages_ := replicate (Z.to_nat pool_size) (Page_default page_size);
          page_table_ := ExtendibleHashTable.new_ bucket_size;
          replacer_ := r;
          free_list_ := int_wrap <$> seqZ 0 pool_size;
          next_page_id_ := 0;
          disk_manager_ := disk_manager;
          deallocated_ := [] |}.

(** The chain [if (!free_list_.empty()) ... else if (replacer_->Evict(..))
    ... else return nullptr] that opens [NewPgImp] (lines 45-64) and, word
    for word, the miss path of [FetchPgImp] (lines 103-122).  The result
    [None] stands for the [return nullptr] branch. *)
Definition find_frame (s : t) : option (option frame_id_t * t) :=
  match free_list_ s with
  | frame_id :: rest => Some (Some frame_id, set_free_list rest s)
  | [] =>
      '(evicted, r) ← LRUKReplacer.Evict (replacer_ s);
      match evicted with
      | Some frame_id =>
          let s1 := set_replacer r s in
          victim_page ← page_at frame_id (pages_ s1);
          let s2 :=
            if is_dirty_ victim_page then
              store_page frame_id (set_dirty false victim_page)
                (set_disk_manager
                   (WritePage (page_id_ victim_page) (data_ victim_page)
                      (disk_manager_ s1)) s1)
            else s1 in
          '(_, pt) ← ExtendibleHashTable.Remove hash (page_id_ victim_page)
                       (page_table_ s2);
          Some (Some frame_id, set_page_table pt s2)
      | None => Some (None, set_replacer r s)
      end
  end.

(** [auto NewPgImp(page_id_t *page_id) -> Page *] : the result
    [Some (frame_id, id)] stands for the pointer [&pages_[frame_id]] with
    [*page_id = id], and [None] for [nullptr].  [fuel] is handed to the
    insertion into the page table. *)
Definition NewPgImp (fuel : nat) (s : t)
  : option (option (frame_id_t * page_id_t) * t) :=
  '(found, s1) ← find_frame s;
  match found with
  | None => Some (None, s1)
  | Some frame_id =>
      (* AllocatePage: return next_page_id_++, on a std::atomic<int> *)
      let page_id := next_page_id_ s1 in
      let s2 := set_next_page_id (int_wrap (next_page_id_ s1 + 1)) s1 in
      page ← page_at frame_id (pages_ s2);
      let s3 :=
        store_page frame_id
          {| data_ := data_ page; page_id_ := page_id; pin_count_ := 1;
             is_dirty_ := false |} s2 in
      pt ← ExtendibleHashTable.Insert hash fuel page_id frame_id
             (page_table_ s3);
      r1 ← LRUKReplacer.RecordAccess frame_id (replacer_ s3);
      r2 ← LRUKReplacer.SetEvictable frame_id false r1;
      Some (Some (frame_id, page_id), set_replacer r2 (set_page_table pt s3))
  end.

(** [auto FetchPgImp(page_id_t page_id) -> Page *] *)
Definition FetchPgImp (fuel : nat) (page_id : page_id_t) (s : t)
  : option (option frame_id_t * t) :=
  hit ← ExtendibleHashTable.Find hash page_id (page_table_ s);
  match hit with
  | Some frame_id =>
      page ← page_at frame_id (pages_ s);
      pin_count ← int_checked (pin_count_ page + 1);
      let s1 := store_page frame_id (set_pin_count pin_count page) s in
      r1 ← LRUKReplacer.RecordAccess frame_id (replacer_ s1);
      r2 ← LRUKReplacer.SetEvictable frame_id false r1;
      Some (Some frame_id, set_replacer r2 s1)
  | None =>
      '(found, s1) ← find_frame s;
      match found with
      | None => Some (None, s1)
      | Some new_frame_id =>
          page ← page_at new_frame_id (pages_ s1);
          let buf := ReadPage page_id (data_ page) (disk_manager_ s1) in
          let s3 :=
            store_page new_frame_id
              {| data_ := buf; page_id_ := page_id; pin_count_ := 1;
                 is_dirty_ := false |} s1 in
          pt ← ExtendibleHashTable.Insert hash fuel page_id new_frame_id
                 (page_table_ s3);
          r1 ← LRUKReplacer.RecordAccess new_frame_id (replacer_ s3);
          r2 ← LRUKReplacer.SetEvictable new_frame_id false r1;
          Some (Some new_frame_id,
                set_replacer r2 (set_page_table pt s3))
      end
  end.

(** [auto UnpinPgImp(page_id_t page_id, bool is_dirty) -> bool] *)
Definition UnpinPgImp (page_id : page_id_t) (is_dirty : bool) (s : t)
  : option (bool * t) :=
  hit ← ExtendibleHashTable.Find hash page_id (page_table_ s);
  match hit with
  | None => Some (false, s)
  | Some frame_id =>
      page ← page_at frame_id (pages_ s);
      if pin_count_ page <=? 0 then Some (false, s)
      else
        let page1 := set_pin_count (pin_count_ page - 1) page in
        let page2 := if is_dirty then set_dirty true page1 else page1 in
        let s1 := store_page frame_id page2 s in
        if pin_count_ page2 =? 0 then
          r ← LRUKReplacer.SetEvictable frame_id true (replacer_ s1);
          Some (true, set_replacer r s1)
        else Some (true, s1)
  end.

(** [auto FlushPgImp(page_id_t page_id) -> bool] *)
Definition FlushPgImp (page_id : page_id_t) (s : t) : option (bool * t) :=
  if page_id =? INVALID_PAGE_ID then Some (false, s)
  else
    hit ← ExtendibleHashTable.Find hash page_id (page_table_ s);
    match hit with
    | None => Some (false, s)
    | Some frame_id =>
        page ← page_at frame_id (pages_ s);
        Some (true,
              store_page frame_id (set_dirty false page)
                (set_disk_manager
                   (WritePage page_id (data_ page) (disk_manager_ s)) s))
    end.

(** The loop [for (size_t i = 0; i < pool_size_; ++i)] of
    [FlushAllPgsImp], over the frames in index order. *)
Fixpoint flush_all_loop (ps : list Page) (d : DiskManager)
  : list Page * DiskManager :=
  match ps with
  | [] => ([], d)
  | page :: ps' =>
      if negb (page_id_ page =? INVALID_PAGE_ID) && is_dirty_ page then
        let '(ps'', d') :=
          flush_all_loop ps' (WritePage (page_id_ page) (data_ page) d) in
        (set_dirty false page :: ps'', d')
      else
        let '(ps'', d') := flush_all_loop ps' d in
        (page :: ps'', d')
  end.

(** [void FlushAllPgsImp()] *)
Definition FlushAllPgsImp (s : t) : t :=
  let '(ps, d) := flush_all_loop (pages_ s) (disk_manager_ s) in
  set_pages ps (set_disk_manager d s).

(** [auto DeletePgImp(page_id_t page_id) -> bool] *)
Definition DeletePgImp (page_id : page_id_t) (s : t) : option (bool * t) :=
  hit ← ExtendibleHashTable.Find hash page_id (page_table_ s);
  match hit with
  | None => Some (true, DeallocatePage page_id s)
  | Some frame_id =>
      page ← page_at frame_id (pages_ s);
      if 0 <? pin_count_ page then Some (false, s)
      else
        let s1 :=
          if is_dirty_ page then
            set_disk_manager
              (WritePage page_id (data_ page) (disk_manager_ s)) s
          else s in
        '(_, pt) ← ExtendibleHashTable.Remove hash page_id (page_table_ s1);
        r ← LRUKReplacer.Remove frame_id (replacer_ s1);
        let s2 := set_replacer r (set_page_table pt s1) in
        let s3 :=
          store_page frame_id
            {| data_ := zeroed (data_ page); page_id_ := INVALID_PAGE_ID;
               pin_count_ := 0; is_dirty_ := false |} s2 in
        let s4 := set_free_list (free_list_ s3 ++ [frame_id]) s3 in
        Some (true, DeallocatePage page_id s4)
  end.

End Pool.

End BufferPoolManagerInstance.

(** * Predicates of the specification *)

(** ** Replacer *)

(** Fewer than [k] recorded accesses: infinite backward k-distance. *)
Definition few_accesses (k : Z) (fi : LRUKReplacer.FrameInfo) : Prop :=
  Z.of_nat (length (LRUKReplacer.access_timestamps fi)) < k.

(** The number of records marked evictable. *)
Definition evictable_count (m : list (frame_id_t * LRUKReplacer.FrameInfo))
  : Z :=
  Z.of_nat
    (length (List.filter (fun e => LRUKReplacer.evictable (snd e)) m)).

(** Well-formed access history at time [now]: never empty, and made of
    earlier timestamps. *)
Definition history_ok (now : Z) (fi : LRUKReplacer.FrameInfo) : Prop :=
  LRUKReplacer.access_timestamps fi <> []
  /\ Forall (fun ts => 0 <= ts < now) (LRUKReplacer.access_timestamps fi).

(** The representation invariant of the replacer: [k >= 1]; the clock and
    the capacity are [size_t] values; the keys of the map are distinct
    [int]s that pass the range assertion; histories are well formed; and
    [curr_size_] counts the evictable records. *)
Record replacer_wf (r : LRUKReplacer.t) : Prop := mk_replacer_wf {
  wf_k : 1 <= LRUKReplacer.k_ r;
  wf_now : 0 <= LRUKReplacer.current_timestamp_ r <= SIZE_MAX;
  wf_capacity : LRUKReplacer.replacer_size_ r <= SIZE_MAX;
  wf_keys : NoDup (map fst (LRUKReplacer.frame_map_ r));
  wf_ids :
    Forall (fun e => INT_MIN <= fst e <= INT_MAX
                     /\ size_t (fst e) < LRUKReplacer.replacer_size_ r)
      (LRUKReplacer.frame_map_ r);
  wf_hist :
    Forall (fun e => history_ok (LRUKReplacer.current_timestamp_ r) (snd e))
      (LRUKReplacer.frame_map_ r);
  wf_size :
    LRUKReplacer.curr_size_ r = evictable_count (LRUKReplacer.frame_map_ r)
}.

(** The states of a replacer before its 64-bit clock wraps around: those
    obtained from a new replacer (for a capacity that is a [size_t]) by
    calls that return, on frame ids that are [int]s. *)
Inductive replacer_reachable : LRUKReplacer.t -> Prop :=
| reach_replacer_new num_frames k r :
    num_frames <= SIZE_MAX ->
    LRUKReplacer.new_ num_frames k = Some r ->
    replacer_reachable r
| reach_RecordAccess frame_id r r' :
    replacer_reachable r ->
    INT_MIN <= frame_id <= INT_MAX ->
    LRUKReplacer.current_timestamp_ r < SIZE_MAX ->
    LRUKReplacer.RecordAccess frame_id r = Some r' ->
    replacer_reachable r'
| reach_SetEvictable frame_id set_evictable r r' :
    replacer_reachable r ->
    LRUKReplacer.SetEvictable frame_id set_evictable r = Some r' ->
    replacer_reachable r'
| reach_Remove frame_id r r' :
    replacer_reachable r ->
    LRUKReplacer.Remove frame_id r = Some r' ->
    replacer_reachable r'
| reach_Evict r res r' :
    replacer_reachable r ->
    LRUKReplacer.Evict r = Some (res, r') ->
    replacer_reachable r'.

(** The order of the LRU-K policy between two records with oldest kept
    timestamps [a] and [b]: a record with fewer than [k] accesses is
    preferred to any record with at least [k]; within either class the
    smaller oldest kept timestamp is preferred. *)
Definition lruk_prefers (k : Z) (vi : LRUKReplacer.FrameInfo) (a : Z)
  (gi : LRUKReplacer.FrameInfo) (b : Z) : Prop :=
  (few_accesses k gi -> few_accesses k vi)
  /\ (few_accesses k vi -> few_accesses k gi -> a <= b)
  /\ (~ few_accesses k vi -> a <= b).

(** [lruk_choice k m v vi a]: within the records [m], the evictable record
    [vi] of frame [v], whose oldest kept timestamp is [a], is preferred to
    every evictable record. *)
Definition lruk_choice (k : Z)
  (m : list (frame_id_t * LRUKReplacer.FrameInfo))
  (v : frame_id_t) (vi : LRUKReplacer.FrameInfo) (a : Z) : Prop :=
  (v, vi) ∈ m
  /\ LRUKReplacer.evictable vi = true
  /\ LRUKReplacer.front (LRUKReplacer.access_timestamps vi) = Some a
  /\ forall g gi b,
       (g, gi) ∈ m ->
       LRUKReplacer.evictable gi = true ->
       LRUKReplacer.front (LRUKReplacer.access_timestamps gi) = Some b ->
       lruk_prefers k vi a gi b.

(** The invariant of the scan loop of [Evict] after the records [seen]. *)
Definition scan_inv (k now : Z)
  (seen : list (frame_id_t * LRUKReplacer.FrameInfo))
  (st : LRUKReplacer.scan_state) : Prop :=
  ((forall g gi, (g, gi) ∈ seen -> LRUKReplacer.evictable gi = false)
   /\ st = LRUKReplacer.scan_init)
  \/ exists v vi a,
       lruk_choice k seen v vi a
       /\ 0 <= a < now
       /\ LRUKReplacer.victim_fid st = v
       /\ ((few_accesses k vi
            /\ LRUKReplacer.max_backward_dist st = SIZE_MAX
            /\ LRUKReplacer.earliest_first_ts st = a)
           \/ (~ few_accesses k vi
               /\ LRUKReplacer.max_backward_dist st = now - a
               /\ LRUKReplacer.earliest_first_ts st = SIZE_MAX)).

(** ** Extendible hash table *)

Section TablePredicates.

Context {K V : Type} `{EqDecision K}.
Variable hash : K -> Z.

(** The invariant of the directory: it has [2 ^ global_depth_] slots, each
    of which holds an allocated bucket; local depths lie between zero and
    the global depth; and the slots that hold one bucket are congruent
    modulo two to the power of its local depth. *)
Record dir_inv (ht : ExtendibleHashTable.t K V) : Prop := mk_dir_inv {
  inv_depth : 0 <= ExtendibleHashTable.global_depth_ ht;
  inv_size :
    Z.of_nat (length (ExtendibleHashTable.dir_ ht))
    = 2 ^ ExtendibleHashTable.global_depth_ ht;
  inv_alloc :
    forall i p, ExtendibleHashTable.dir_ ht !! i = Some p ->
                (p < length (ExtendibleHashTable.heap ht))%nat;
  inv_local :
    forall p b, ExtendibleHashTable.heap ht !! p = Some b ->
                0 <= ExtendibleHashTable.local_depth_ b
                  <= ExtendibleHashTable.global_depth_ ht;
  inv_congr :
    forall i j p b,
      ExtendibleHashTable.dir_ ht !! i = Some p ->
      ExtendibleHashTable.dir_ ht !! j = Some p ->
      ExtendibleHashTable.heap ht !! p = Some b ->
      Z.of_nat i mod 2 ^ ExtendibleHashTable.local_depth_ b
      = Z.of_nat j mod 2 ^ ExtendibleHashTable.local_depth_ b
}.

(** The states of a table: those obtained from a new table by calls of
    [Insert] and [Remove] that return ([Find] does not change the table). *)
Inductive table_reachable : ExtendibleHashTable.t K V -> Prop :=
| reach_table_new bucket_size :
    table_reachable (ExtendibleHashTable.new_ bucket_size)
| reach_table_Insert fuel key value ht ht' :
    table_reachable ht ->
    ExtendibleHashTable.Insert hash fuel key value ht = Some ht' ->
    table_reachable ht'
| reach_table_Remove key ht found ht' :
    table_reachable ht ->
    ExtendibleHashTable.Remove hash key ht = Some (found, ht') ->
    table_reachable ht'
| reach_table_Find key ht found :
    table_reachable ht ->
    ExtendibleHashTable.Find hash key ht = Some found ->
    table_reachable ht.

(** No key twice in a bucket. *)
Definition keys_distinct (ht : ExtendibleHashTable.t K V) : Prop :=
  forall p b, ExtendibleHashTable.heap ht !! p = Some b ->
              NoDup (map fst (ExtendibleHashTable.kv_pairs_ b)).

(** Well-formed table: the directory invariant, a global depth within the
    range where [IndexOf] is defined, and no key twice in a bucket. *)
Record table_wf (ht : ExtendibleHashTable.t K V) : Prop := mk_table_wf {
  twf_dir : dir_inv ht;
  twf_depth : ExtendibleHashTable.global_depth_ ht <= 30;
  twf_keys : keys_distinct ht
}.

(** Every value stored in the table satisfies [P]. *)
Definition values_in (P : V -> Prop) (ht : ExtendibleHashTable.t K V)
  : Prop :=
  forall p b, ExtendibleHashTable.heap ht !! p = Some b ->
              Forall (fun kv => P (snd kv)) (ExtendibleHashTable.kv_pairs_ b).

End TablePredicates.

(** ** Buffer pool *)

(** The replacer holds frame [f] as evictable. *)
Definition holds_evictable (r : LRUKReplacer.t) (f : frame_id_t) : Prop :=
  exists fi,
    LRUKReplacer.fm_find f (LRUKReplacer.frame_map_ r) = Some fi
    /\ LRUKReplacer.evictable fi = true.

(** The relation between the pin count of frame [f] and the replacer: the
    pin count is not negative; with a record in the replacer, it is zero
    exactly when the record is evictable; without a record, it is zero. *)
Definition pin_inv_at (ps : list BufferPoolManagerInstance.Page)
  (r : LRUKReplacer.t) (f : frame_id_t) : Prop :=
  forall p,
    BufferPoolManagerInstance.page_at f ps = Some p ->
    0 <= BufferPoolManagerInstance.pin_count_ p
    /\ (forall fi,
          LRUKReplacer.fm_find f (LRUKReplacer.frame_map_ r) = Some fi ->
          (BufferPoolManagerInstance.pin_count_ p = 0
           <-> LRUKReplacer.evictable fi = true))
    /\ (LRUKReplacer.fm_find f (LRUKReplacer.frame_map_ r) = None ->
        BufferPoolManagerInstance.pin_count_ p = 0).

Section PoolPredicates.

Variable hash : page_id_t -> Z.

(** The states of a pool: those obtained from a new pool (whose size is a
    [size_t], on any disk) by calls of the six operations that return, and
    by the writes of the caller to the buffer of a page it has pinned,
    through the pointer that [NewPgImp] or [FetchPgImp] gave.  The list is
    the history of the frames that were handed to [RecordAccess], most
    recent first: a successful [NewPgImp] or [FetchPgImp] records an access
    to the frame it returns, and nothing else calls [RecordAccess]. *)
Inductive pool_reachable
  : list frame_id_t -> BufferPoolManagerInstance.t -> Prop :=
| reach_pool_new pool_size disk_manager replacer_k bucket_size page_size s :
    0 <= pool_size <= SIZE_MAX ->
    BufferPoolManagerInstance.new_ pool_size disk_manager replacer_k
      bucket_size page_size = Some s ->
    pool_reachable [] s
| reach_NewPg h s fuel f id s' :
    pool_reachable h s ->
    BufferPoolManagerInstance.NewPgImp hash fuel s = Some (Some (f, id), s') ->
    pool_reachable (f :: h) s'
| reach_NewPg_null h s fuel s' :
    pool_reachable h s ->
    BufferPoolManagerInstance.NewPgImp hash fuel s = Some (None, s') ->
    pool_reachable h s'
| reach_FetchPg h s fuel page_id f s' :
    pool_reachable h s ->
    BufferPoolManagerInstance.FetchPgImp hash fuel page_id s
    = Some (Some f, s') ->
    pool_reachable (f :: h) s'
| reach_FetchPg_null h s fuel page_id s' :
    pool_reachable h s ->
    BufferPoolManagerInstance.FetchPgImp hash fuel page_id s
    = Some (None, s') ->
    pool_reachable h s'
| reach_UnpinPg h s page_id is_dirty res s' :
    pool_reachable h s ->
    BufferPoolManagerInstance.UnpinPgImp hash page_id is_dirty s
    = Some (res, s') ->
    pool_reachable h s'
| reach_FlushPg h s page_id res s' :
    pool_reachable h s ->
    BufferPoolManagerInstance.FlushPgImp hash page_id s = Some (res, s') ->
    pool_reachable h s'
| reach_FlushAllPgs h s :
    pool_reachable h s ->
    pool_reachable h (BufferPoolManagerInstance.FlushAllPgsImp s)
| reach_DeletePg h s page_id res s' :
    pool_reachable h s ->
    BufferPoolManagerInstance.DeletePgImp hash page_id s = Some (res, s') ->
    pool_reachable h s'
| reach_write_data h s f p buf :
    pool_reachable h s ->
    BufferPoolManagerInstance.page_at f (BufferPoolManagerInstance.pages_ s)
    = Some p ->
    0 < BufferPoolManagerInstance.pin_count_ p ->
    length buf = length (BufferPoolManagerInstance.data_ p) ->
    pool_reachable h
      (BufferPoolManagerInstance.store_page f
         (BufferPoolManagerInstance.set_data buf p) s).

(** A frame index of the pool. *)
Definition frame_valid (s : BufferPoolManagerInstance.t) (f : frame_id_t)
  : Prop :=
  0 <= f < BufferPoolManagerInstance.pool_size_ s.

(** Well-formed pool: the page table is well formed and maps pages to
    frames of the pool, and the replacer was made for the size of the
    pool. *)
Record pool_wf (s : BufferPoolManagerInstance.t) : Prop := mk_pool_wf {
  pwf_table : table_wf (BufferPoolManagerInstance.page_table_ s);
  pwf_values :
    values_in (frame_valid s) (BufferPoolManagerInstance.page_table_ s);
  pwf_size :
    LRUKReplacer.replacer_size_ (BufferPoolManagerInstance.replacer_ s)
    = BufferPoolManagerInstance.pool_size_ s
}.

End PoolPredicates.

(** The condition of [FlushAllPgsImp] on a frame. *)
Definition needs_flush (p : BufferPoolManagerInstance.Page) : bool :=
  negb (BufferPoolManagerInstance.page_id_ p
        =? BufferPoolManagerInstance.INVALID_PAGE_ID)
  && BufferPoolManagerInstance.is_dirty_ p.

(** * Concrete states used by the examples *)

(** [std::hash<int>] as libstdc++ defines it: the value itself, converted to
    [size_t]. *)
Definition std_hash_int (k : Z) : Z := size_t k.

(** A replacer with [k = 2] for seven frames at time 4: frame 1 was accessed
    at times 0 and 3, frame 2 at time 1, frame 3 at time 2; frames 1 and 2
    are evictable. *)
Definition replacer_example : LRUKReplacer.t :=
  {| LRUKReplacer.frame_map_ :=
       [(1, {| LRUKReplacer.access_timestamps := [0; 3];
               LRUKReplacer.evictable := true |});
        (2, {| LRUKReplacer.access_timestamps := [1];
               LRUKReplacer.evictable := true |});
        (3, {| LRUKReplacer.access_timestamps := [2];
               LRUKReplacer.evictable := false |})];
     LRUKReplacer.current_timestamp_ := 4;
     LRUKReplacer.curr_size_ := 2;
     LRUKReplacer.replacer_size_ := 7;
     LRUKReplacer.k_ := 2 |}.

(** The replacer operations in sequence, for the scenarios. *)
Definition replacer_run
  (ops : list (LRUKReplacer.t -> option LRUKReplacer.t))
  (r : option LRUKReplacer.t) : option LRUKReplacer.t :=
  foldl (fun acc op => acc ≫= op) r ops.

(** Frames 1, 2, 3 accessed once each, in this order, with [k = 2], and
    marked evictable. *)
Definition replacer_once : option LRUKReplacer.t :=
  replacer_run
    [LRUKReplacer.RecordAccess 1; LRUKReplacer.RecordAccess 2;
     LRUKReplacer.RecordAccess 3;
     LRUKReplacer.SetEvictable 1 true; LRUKReplacer.SetEvictable 2 true;
     LRUKReplacer.SetEvictable 3 true]
    (LRUKReplacer.new_ 7 2).

(** Three accesses to each of frames 1, 2, 3 with [k = 2], ordered so that
    the second-to-last access of frame 2 is the oldest. *)
Definition replacer_thrice : option LRUKReplacer.t :=
  replacer_run
    [LRUKReplacer.RecordAccess 2; LRUKReplacer.RecordAccess 2;
     LRUKReplacer.RecordAccess 1; LRUKReplacer.RecordAccess 1;
     LRUKReplacer.RecordAccess 3; LRUKReplacer.RecordAccess 3;
     LRUKReplacer.RecordAccess 1; LRUKReplacer.RecordAccess 3;
     LRUKReplacer.RecordAccess 2;
     LRUKReplacer.SetEvictable 1 true; LRUKReplacer.SetEvictable 2 true;
     LRUKReplacer.SetEvictable 3 true]
    (LRUKReplacer.new_ 7 2).

(** Keys 1, 3, 7, 15, whose low bits are all ones, in buckets of two. *)
Definition table_ones : option (ExtendibleHashTable.t Z Z) :=
  foldl (fun acc '(key, value) =>
           acc ≫= ExtendibleHashTable.Insert std_hash_int 8 key value)
    (Some (ExtendibleHashTable.new_ 2))
    [(1, 10); (3, 30); (7, 70); (15, 150)].

(** A table with buckets of one pair after the insertion of key 1. *)
Definition table_one : ExtendibleHashTable.t Z Z :=
  Eval vm_compute in
    default (ExtendibleHashTable.new_ 1)
      (ExtendibleHashTable.Insert std_hash_int 8 1 10
         (ExtendibleHashTable.new_ 1)).

(** The same table after the insertion of key 3: two splits, the second
    with a doubling; slots 0 and 2 share a bucket. *)
Definition table_example : ExtendibleHashTable.t Z Z :=
  Eval vm_compute in
    default (ExtendibleHashTable.new_ 1)
      (ExtendibleHashTable.Insert std_hash_int 8 3 30 table_one).

Definition pool_empty : BufferPoolManagerInstance.t :=
  {| BufferPoolManagerInstance.pages_ := [];
     BufferPoolManagerInstance.page_table_ := ExtendibleHashTable.new_ 0;
     BufferPoolManagerInstance.replacer_ :=
       {| LRUKReplacer.frame_map_ := [];
          LRUKReplacer.current_timestamp_ := 0;
          LRUKReplacer.curr_size_ := 0;
          LRUKReplacer.replacer_size_ := 0;
          LRUKReplacer.k_ := 1 |};
     BufferPoolManagerInstance.free_list_ := [];
     BufferPoolManagerInstance.next_page_id_ := 0;
     BufferPoolManagerInstance.disk_manager_ :=
       {| BufferPoolManagerInstance.writes_ := [] |};
     BufferPoolManagerInstance.deallocated_ := [] |}.

(** The state that a call leaves, for the examples below. *)
Definition state_after {A : Type}
  (res : option (A * BufferPoolManagerInstance.t))
  : BufferPoolManagerInstance.t :=
  match res with
  | Some (_, s) => s
  | None => pool_empty
  end.

Definition state_after_replacer {A : Type}
  (res : option (A * LRUKReplacer.t)) : LRUKReplacer.t :=
  match res with
  | Some (_, r) => r
  | None => BufferPoolManagerInstance.replacer_ pool_empty
  end.

(** A pool of three frames, [k = 2], buckets of two pairs, pages of four
    bytes. *)
Definition pool_new : BufferPoolManagerInstance.t :=
  Eval vm_compute in
    default pool_empty
      (BufferPoolManagerInstance.new_ 3
         {| BufferPoolManagerInstance.writes_ := [] |} 2 2 4).

(** After [NewPgImp]: page 0 is pinned in frame 0. *)
Definition pool_pinned : BufferPoolManagerInstance.t :=
  Eval vm_compute in
    state_after (BufferPoolManagerInstance.NewPgImp std_hash_int 4 pool_new).

(** After [UnpinPgImp (0, true)]: frame 0 is dirty and evictable. *)
Definition pool_unpinned : BufferPoolManagerInstance.t :=
  Eval vm_compute in
    state_after
      (BufferPoolManagerInstance.UnpinPgImp std_hash_int 0 true pool_pinned).

(** After [DeletePgImp 0]: frame 0 is back on the free list. *)
Definition pool_deleted : BufferPoolManagerInstance.t :=
  Eval vm_compute in
    state_after
      (BufferPoolManagerInstance.DeletePgImp std_hash_int 0 pool_unpinned).

(** From [pool_unpinned], two more pages are created and unpinned clean:
    the free list is empty and the three frames are evictable. *)
Definition pool_second_pinned : BufferPoolManagerInstance.t :=
  Eval vm_compute in
    state_after
      (BufferPoolManagerInstance.NewPgImp std_hash_int 4 pool_unpinned).

Definition pool_second : BufferPoolManagerInstance.t :=
  Eval vm_compute in
    state_after
      (BufferPoolManagerInstance.UnpinPgImp std_hash_int 1 false
         pool_second_pinned).

Definition pool_third_pinned : BufferPoolManagerInstance.t :=
  Eval vm_compute in
    state_after
      (BufferPoolManagerInstance.NewPgImp std_hash_int 4 pool_second).

Definition pool_full : BufferPoolManagerInstance.t :=
  Eval vm_compute in
    state_after
      (BufferPoolManagerInstance.UnpinPgImp std_hash_int 2 false
         pool_third_pinned).

(** ** Access histories *)

(** A list of timestamps in strictly increasing order. *)
Definition increasing (ts : list Z) : Prop :=
  forall i j a b,
    ts !! i = Some a -> ts !! j = Some b -> (i < j)%nat -> a < b.

(** A history keeps at most [k] timestamps, oldest first. *)
Definition history_recent (k : Z) (fi : LRUKReplacer.FrameInfo) : Prop :=
  Z.of_nat (length (LRUKReplacer.access_timestamps fi)) <= k
  /\ increasing (LRUKReplacer.access_timestamps fi).

(** No timestamp is in the histories of two frames. *)
Definition histories_disjoint
  (m : list (frame_id_t * LRUKReplacer.FrameInfo)) : Prop :=
  forall g gi h hi ts,
    LRUKReplacer.fm_find g m = Some gi ->
    LRUKReplacer.fm_find h m = Some hi ->
    ts ∈ LRUKReplacer.access_timestamps gi ->
    ts ∈ LRUKReplacer.access_timestamps hi ->
    g = h.

(** ** Placement of the keys and of the buckets *)

Section TablePlacement.

Import ExtendibleHashTable.

Context {K V : Type} `{EqDecision K}.
Variable hash : K -> Z.

(** The directory slot of a key at a global depth: the low bits of its
    hash, which is what [IndexOf] computes where it is defined. *)
Definition slot_of (global_depth : Z) (key : K) : nat :=
  Z.to_nat (size_t (hash key) mod 2 ^ global_depth).

(** The value held for a key by the bucket of its directory slot. *)
Definition stored (ht : ExtendibleHashTable.t K V) (key : K) : option V :=
  p ← dir_ ht !! slot_of (global_depth_ ht) key;
  b ← heap ht !! p;
  kv_find key (kv_pairs_ b).

(** A key is only held by the bucket of its directory slot. *)
Definition keys_placed (ht : ExtendibleHashTable.t K V) : Prop :=
  forall p b key,
    heap ht !! p = Some b -> is_Some (kv_find key (kv_pairs_ b)) ->
    dir_ ht !! slot_of (global_depth_ ht) key = Some p.

(** Every bucket has the capacity the table was built with, and holds no
    more pairs than that. *)
Definition within_capacity (ht : ExtendibleHashTable.t K V) : Prop :=
  forall p b,
    heap ht !! p = Some b ->
    max_size_ b = bucket_size_ ht
    /\ Z.of_nat (length (kv_pairs_ b)) <= Z.max 0 (max_size_ b).

(** The slots of a bucket are all the slots of a residue class modulo two
    to the power of its local depth; every allocated bucket has a slot; and
    [num_buckets_] counts the allocated buckets. *)
Record buckets_inv (ht : ExtendibleHashTable.t K V) : Prop := mk_buckets_inv {
  binv_complete :
    forall i j p b,
      dir_ ht !! i = Some p -> heap ht !! p = Some b ->
      (j < length (dir_ ht))%nat ->
      Z.of_nat j mod 2 ^ local_depth_ b = Z.of_nat i mod 2 ^ local_depth_ b ->
      dir_ ht !! j = Some p;
  binv_referenced :
    forall p, (p < length (heap ht))%nat ->
              exists i, dir_ ht !! i = Some p;
  binv_count : num_buckets_ ht = Z.of_nat (length (heap ht))
}.

End TablePlacement.

(** [table_example] after the insertion of key 5, which joins key 1 in a
    bucket that must be split again. *)
Definition table_five : ExtendibleHashTable.t Z Z :=
  Eval vm_compute in
    default (ExtendibleHashTable.new_ 1)
      (ExtendibleHashTable.Insert std_hash_int 8 5 50 table_example).

(** [table_example] after the removal of key 3. *)
Definition table_without_three : ExtendibleHashTable.t Z Z :=
  Eval vm_compute in
    default (ExtendibleHashTable.new_ 1)
      (snd <$> ExtendibleHashTable.Remove std_hash_int 3 table_example).

(** A replacer with [k = 1] for seven frames: frame 1 is accessed, then
    frame 2, then frame 1 again, and both are marked evictable. *)
Definition replacer_lru : LRUKReplacer.t :=
  Eval vm_compute in
    default replacer_example
      (replacer_run
         [LRUKReplacer.RecordAccess 1; LRUKReplacer.RecordAccess 2;
          LRUKReplacer.RecordAccess 1;
          LRUKReplacer.SetEvictable 1 true; LRUKReplacer.SetEvictable 2 true]
         (LRUKReplacer.new_ 7 1)).

(** [replacer_example] after frame 3 is marked evictable. *)
Definition replacer_three_evictable : LRUKReplacer.t :=
  Eval vm_compute in
    default replacer_example
      (LRUKReplacer.SetEvictable 3 true replacer_example).

(** ** Consistency of the pool *)

Section PoolConsistency.

Import BufferPoolManagerInstance.

Variable hash : page_id_t -> Z.

(** The page table maps no page to frame [f]. *)
Definition frame_unmapped (s : BufferPoolManagerInstance.t) (f : frame_id_t)
  : Prop :=
  forall page_id,
    ExtendibleHashTable.Find hash page_id (page_table_ s) <> Some (Some f).

(** A frame as the constructor and [DeletePgImp] leave it: it holds no
    page, has no record in the replacer, and its buffer is zeroed. *)
Definition frame_free (s : BufferPoolManagerInstance.t) (f : frame_id_t)
  : Prop :=
  frame_unmapped s f
  /\ LRUKReplacer.fm_find f (LRUKReplacer.frame_map_ (replacer_ s)) = None
  /\ exists p,
       page_at f (pages_ s) = Some p
       /\ page_id_ p = INVALID_PAGE_ID
       /\ pin_count_ p = 0
       /\ is_dirty_ p = false
       /\ Forall (fun byte => byte = 0) (data_ p).

(** The invariant that ties the page table, the frames and the free list:
    the page table is a table built by [Insert] and [Remove]; the replacer
    has one record per frame at most; a page of the page table is held by
    the frame it is mapped to; and the free list has no duplicate and
    holds free frames only. *)
Record pool_inv (s : BufferPoolManagerInstance.t) : Prop := mk_pool_inv {
  pinv_table : table_reachable hash (page_table_ s);
  pinv_keys : NoDup (map fst (LRUKReplacer.frame_map_ (replacer_ s)));
  pinv_resident :
    forall page_id f,
      ExtendibleHashTable.Find hash page_id (page_table_ s) = Some (Some f) ->
      exists p, page_at f (pages_ s) = Some p /\ page_id_ p = page_id;
  pinv_free_nodup : NoDup (free_list_ s);
  pinv_free : forall f, f ∈ free_list_ s -> frame_free s f
}.

(** The acquisition of a frame as the specification words it, as a
    relation between the pool [s] before [NewPgImp] or the miss path of
    [FetchPgImp] and the pool [s'] after: [f] is the frame that is given to
    the page [page_id], [buf] the buffer that the frame ends with and
    [next] the next page identifier.  Either
    [f] is the head of the free list, and nothing is evicted, written or
    erased; or the free list is empty, [f] is the victim of [Evict], the
    buffer of the victim is written to disk exactly when the victim is
    dirty, and the page of the victim is removed from the page table
    before the new page is inserted. *)
Definition frame_acquired (fuel : nat) (s : BufferPoolManagerInstance.t)
  (f : frame_id_t) (page_id : page_id_t) (buf : list Z) (next : page_id_t)
  (s' : BufferPoolManagerInstance.t) : Prop :=
  pages_ s'
  = <[Z.to_nat f := {| data_ := buf; page_id_ := page_id; pin_count_ := 1;
                       is_dirty_ := false |}]> (pages_ s)
  /\ next_page_id_ s' = next
  /\ deallocated_ s' = deallocated_ s
  /\ ((free_list_ s = f :: free_list_ s'
       /\ disk_manager_ s' = disk_manager_ s
       /\ ExtendibleHashTable.Insert hash fuel page_id f (page_table_ s)
          = Some (page_table_ s')
       /\ exists r1,
            LRUKReplacer.RecordAccess f (replacer_ s) = Some r1
            /\ LRUKReplacer.SetEvictable f false r1 = Some (replacer_ s'))
      \/ (free_list_ s = [] /\ free_list_ s' = []
          /\ exists r victim found pt r1,
               LRUKReplacer.Evict (replacer_ s) = Some (Some f, r)
               /\ page_at f (pages_ s) = Some victim
               /\ disk_manager_ s'
                  = (if is_dirty_ victim
                     then WritePage (page_id_ victim) (data_ victim)
                            (disk_manager_ s)
                     else disk_manager_ s)
               /\ ExtendibleHashTable.Remove hash (page_id_ victim)
                    (page_table_ s) = Some (found, pt)
               /\ ExtendibleHashTable.Insert hash fuel page_id f pt
                  = Some (page_table_ s')
               /\ LRUKReplacer.RecordAccess f r = Some r1
               /\ LRUKReplacer.SetEvictable f false r1
                  = Some (replacer_ s'))).

End PoolConsistency.

(** From [pool_full], a fourth page takes frame 0, whose dirty page 0 is
    written back. *)
Definition pool_evicted : BufferPoolManagerInstance.t :=
  Eval vm_compute in
    state_after (BufferPoolManagerInstance.NewPgImp std_hash_int 4 pool_full).

(** From [pool_evicted], page 0 is fetched again, into frame 1. *)
Definition pool_refetched : BufferPoolManagerInstance.t :=
  Eval vm_compute in
    state_after
      (BufferPoolManagerInstance.FetchPgImp std_hash_int 4 0 pool_evicted).

(** From [pool_pinned], two more pages are created: the three frames are
    pinned. *)
Definition pool_all_pinned : BufferPoolManagerInstance.t :=
  Eval vm_compute in
    state_after
      (BufferPoolManagerInstance.NewPgImp std_hash_int 4
         (state_after
            (BufferPoolManagerInstance.NewPgImp std_hash_int 4 pool_pinned))).

(** From [pool_unpinned], page 0 is fetched: frame 0 is pinned again. *)
Definition pool_fetched : BufferPoolManagerInstance.t :=
  Eval vm_compute in
    state_after
      (BufferPoolManagerInstance.FetchPgImp std_hash_int 4 0 pool_unpinned).

(** From [pool_pinned], the caller of [NewPgImp] fills the buffer of
    page 0 through the pointer it holds. *)
Definition pool_filled : BufferPoolManagerInstance.t :=
  Eval vm_compute in
    BufferPoolManagerInstance.store_page 0
      (BufferPoolManagerInstance.set_data [1; 2; 3; 4]
         {| BufferPoolManagerInstance.data_ := [0; 0; 0; 0];
            BufferPoolManagerInstance.page_id_ := 0;
            BufferPoolManagerInstance.pin_count_ := 1;
            BufferPoolManagerInstance.is_dirty_ := false |})
      pool_pinned.

(** After [UnpinPgImp (0, true)]: frame 0 is dirty and evictable, with the
    buffer that the caller filled. *)
Definition pool_filled_unpinned : BufferPoolManagerInstance.t :=
  Eval vm_compute in
    state_after
      (BufferPoolManagerInstance.UnpinPgImp std_hash_int 0 true pool_filled).

(** From [pool_filled_unpinned], page 0 is fetched: frame 0 is pinned
    again. *)
Definition pool_filled_fetched : BufferPoolManagerInstance.t :=
  Eval vm_compute in
    state_after
      (BufferPoolManagerInstance.FetchPgImp std_hash_int 4 0
         pool_filled_unpinned).

(** From [pool_filled_unpinned], page 0 is deleted: frame 0 is back on the
    free list. *)
Definition pool_filled_deleted : BufferPoolManagerInstance.t :=
  Eval vm_compute in
    state_after
      (BufferPoolManagerInstance.DeletePgImp std_hash_int 0
         pool_filled_unpinned).

(** From [pool_filled_unpinned], two more pages are created and unpinned
    clean: the free list is empty and the three frames are evictable. *)
Definition pool_filled_full : BufferPoolManagerInstance.t :=
  Eval vm_compute in
    state_after
      (BufferPoolManagerInstance.UnpinPgImp std_hash_int 2 false
         (state_after
            (BufferPoolManagerInstance.NewPgImp std_hash_int 4
               (state_after
                  (BufferPoolManagerInstance.UnpinPgImp std_hash_int 1 false
                     (state_after
                        (BufferPoolManagerInstance.NewPgImp std_hash_int 4
                           pool_filled_unpinned))))))).

(** From [pool_filled_full], a fourth page takes frame 0: the buffer of
    page 0 is written to disk. *)
Definition pool_filled_evicted : BufferPoolManagerInstance.t :=
  Eval vm_compute in
    state_after
      (BufferPoolManagerInstance.NewPgImp std_hash_int 4 pool_filled_full).

(** From [pool_filled_evicted], page 0 is fetched again, into frame 1. *)
Definition pool_filled_refetched : BufferPoolManagerInstance.t :=
  Eval vm_compute in
    state_after
      (BufferPoolManagerInstance.FetchPgImp std_hash_int 4 0
         pool_filled_evicted).

(** * Properties of the LRU-K replacer *)

Section ReplacerFacts.

Import LRUKReplacer.

Implicit Types (r : LRUKReplacer.t) (m : list (frame_id_t * FrameInfo)).
Implicit Types (fid g : frame_id_t) (fi : FrameInfo).

(** ** The frame map *)

Lemma fm_find_access_eq fid f m :
  fm_find fid (fm_access fid f m)
  = Some (f (default FrameInfo_default (fm_find fid m))).
Proof.
  induction m as [|[g fi] m IH]; simpl.
  - by rewrite Z.eqb_refl.
  - destruct (Z.eqb_spec g fid) as [->|Hne]; simpl.
    + by rewrite Z.eqb_refl.
    + destruct (Z.eqb_spec g fid); [done|]. exact IH.
Qed.

Lemma fm_find_access_ne fid g f m :
  g <> fid -> fm_find g (fm_access fid f m) = fm_find g m.
Proof.
  intros Hne. induction m as [|[h fi] m IH]; simpl.
  - destruct (Z.eqb_spec fid g); congruence.
  - destruct (Z.eqb_spec h fid) as [->|Hh]; simpl.
    + destruct (Z.eqb_spec fid g); congruence.
    + destruct (Z.eqb_spec h g); [done|]. exact IH.
Qed.

Lemma fm_find_erase_eq fid m : fm_find fid (fm_erase fid m) = None.
Proof.
  induction m as [|[g fi] m IH]; simpl; [done|].
  destruct (Z.eqb_spec g fid) as [->|Hne]; simpl; [exact IH|].
  destruct (Z.eqb_spec g fid); [done|]. exact IH.
Qed.

Lemma fm_find_erase_ne fid g m :
  g <> fid -> fm_find g (fm_erase fid m) = fm_find g m.
Proof.
  intros Hne. induction m as [|[h fi] m IH]; simpl; [done|].
  destruct (Z.eqb_spec h fid) as [->|Hh]; simpl.
  - destruct (Z.eqb_spec fid g); [congruence|]. exact IH.
  - destruct (Z.eqb_spec h g); [done|]. exact IH.
Qed.

Lemma fm_find_elem fid fi m : fm_find fid m = Some fi -> (fid, fi) ∈ m.
Proof.
  induction m as [|[g gi] m IH]; simpl; [done|].
  destruct (Z.eqb_spec g fid) as [->|Hne].
  - intros [= ->]. apply list_elem_of_here.
  - intros H. apply list_elem_of_further, IH, H.
Qed.

Lemma fm_find_None fid m : fm_find fid m = None <-> fid ∉ map fst m.
Proof.
  induction m as [|[g gi] m IH]; cbn [fm_find map fst].
  - split; [intros _; apply not_elem_of_nil|done].
  - destruct (Z.eqb_spec g fid) as [->|Hne].
    + split; [done|]. intros Hn. exfalso. apply Hn, list_elem_of_here.
    + split.
      * intros Hf [Heq|Hin]%elem_of_cons; [congruence|].
        by apply IH in Hf.
      * intros Hn. apply IH. intros Hin. apply Hn.
        by apply list_elem_of_further.
Qed.

Lemma fm_elem_find fid fi m :
  NoDup (map fst m) -> (fid, fi) ∈ m -> fm_find fid m = Some fi.
Proof.
  induction m as [|[g gi] m IH]; simpl.
  - intros _ H. by apply elem_of_nil in H.
  - rewrite list.NoDup_cons. intros [Hg Hnd] [Heq|Hin]%elem_of_cons.
    + injection Heq as -> ->. by rewrite Z.eqb_refl.
    + destruct (Z.eqb_spec g fid) as [->|Hne]; [|by apply IH].
      exfalso. apply Hg. change fid with (fst (fid, fi)).
      apply list_elem_of_fmap_2, Hin.
Qed.

End ReplacerFacts.

Section ReplacerAccess.

Import LRUKReplacer.

Implicit Types (r : LRUKReplacer.t) (m : list (frame_id_t * FrameInfo)).
Implicit Types (fid g : frame_id_t) (fi : FrameInfo).

(** C2. For a frame id that passes the range assertion, [RecordAccess]
    returns normally; the record of the frame (the existing one, or a
    default-constructed one when the call creates it) gets the current
    timestamp appended and its oldest entry dropped when the length then
    exceeds [k]; the evictable flag is kept, so a record created by the call
    is non-evictable; the global timestamp is incremented (as a [size_t]);
    no other record and no other member changes. *)
Theorem RecordAccess_spec r fid :
  size_t fid < replacer_size_ r ->
  exists r',
    RecordAccess fid r = Some r'
    /\ (let old := default FrameInfo_default (fm_find fid (frame_map_ r)) in
        let appended := access_timestamps old ++ [current_timestamp_ r] in
        fm_find fid (frame_map_ r')
        = Some {| access_timestamps :=
                    if k_ r <? Z.of_nat (length appended)
                    then tail appended else appended;
                  evictable := evictable old |})
    /\ (fm_find fid (frame_map_ r) = None ->
        exists fi, fm_find fid (frame_map_ r') = Some fi
                   /\ evictable fi = false)
    /\ current_timestamp_ r' = size_t (current_timestamp_ r + 1)
    /\ (0 <= current_timestamp_ r < SIZE_MAX ->
        current_timestamp_ r' = current_timestamp_ r + 1)
    /\ (forall g, g <> fid ->
        fm_find g (frame_map_ r') = fm_find g (frame_map_ r))
    /\ curr_size_ r' = curr_size_ r
    /\ replacer_size_ r' = replacer_size_ r
    /\ k_ r' = k_ r.
Proof.
  intros Hrange. unfold RecordAccess.
  destruct (Z.ltb_spec (size_t fid) (replacer_size_ r)); [|lia].
  eexists. split; [reflexivity|]. cbn.
  rewrite fm_find_access_eq. unfold push_timestamp.
  repeat split.
  - intros ->. cbn. eexists. split; [reflexivity|]. done.
  - intros Hts. unfold size_t, SIZE_MAX in *.
    rewrite Z.mod_small; lia.
  - intros g Hg. by apply fm_find_access_ne.
Qed.

(** C10. For a frame id that passes the range assertion and has no record,
    [Remove] returns normally and leaves the replacer (map, evictable count
    and all) as it was.  The assertion on evictability is reached only with
    a record: in range, [Remove] fails exactly on a non-evictable record. *)
Theorem Remove_without_record r fid :
  size_t fid < replacer_size_ r ->
  (fm_find fid (frame_map_ r) = None -> Remove fid r = Some r)
  /\ (Remove fid r = None <->
      exists fi, fm_find fid (frame_map_ r) = Some fi
                 /\ evictable fi = false).
Proof.
  intros Hrange. unfold Remove.
  destruct (Z.ltb_spec (size_t fid) (replacer_size_ r)); [|lia].
  split.
  - by intros ->.
  - destruct (fm_find fid (frame_map_ r)) as [fi|].
    + destruct (evictable fi) eqn:He.
      * split; [done|]. intros (fi' & [= <-] & Hfi). congruence.
      * split; [|done]. intros _. by exists fi.
    + split; [done|]. by intros (fi & ? & _).
Qed.

End ReplacerAccess.

Section ReplacerEvict.

Import LRUKReplacer.

Implicit Types (r : LRUKReplacer.t) (m : list (frame_id_t * FrameInfo)).
Implicit Types (fid g : frame_id_t) (fi : FrameInfo).

Section Scan.

Variables (k now : Z).
Hypothesis Hnow : 0 <= now <= SIZE_MAX.

Lemma history_front fi :
  history_ok now fi ->
  exists b, front (access_timestamps fi) = Some b /\ 0 <= b < now.
Proof.
  intros [Hne Hall]. destruct (access_timestamps fi) as [|b ts]; [done|].
  exists b. split; [done|]. by apply list.Forall_cons in Hall as [? _].
Qed.

Lemma lruk_prefers_refl fi a : lruk_prefers k fi a fi a.
Proof. unfold lruk_prefers. repeat split; intros; try done; lia. Qed.

Lemma lruk_prefers_trans vi a gi b hi c :
  lruk_prefers k vi a gi b -> lruk_prefers k gi b hi c ->
  lruk_prefers k vi a hi c.
Proof.
  unfold lruk_prefers, few_accesses.
  intros (H1 & H2 & H3) (H4 & H5 & H6). repeat split; intros; try lia.
Qed.

(** Two choices among the same records have the same front timestamp: as
    every access has a timestamp of its own, the choice is one frame. *)
Lemma lruk_choice_front m v vi a v' vi' a' :
  lruk_choice k m v vi a -> lruk_choice k m v' vi' a' -> a = a'.
Proof.
  intros (Hin & Hev & Hfr & Hbest) (Hin' & Hev' & Hfr' & Hbest').
  destruct (Hbest v' vi' a' Hin' Hev' Hfr') as (H1 & H2 & H3).
  destruct (Hbest' v vi a Hin Hev Hfr) as (H1' & H2' & H3').
  unfold few_accesses in *. lia.
Qed.

Lemma lruk_choice_skip seen g gi v vi a :
  evictable gi = false ->
  lruk_choice k seen v vi a -> lruk_choice k (seen ++ [(g, gi)]) v vi a.
Proof.
  intros Hg (Hin & Hev & Hfr & Hbest). split; [|split; [done|split; [done|]]].
  - apply elem_of_app. by left.
  - intros h hi c [Hh|Hh%list_elem_of_singleton]%elem_of_app Hhe Hhf.
    + by apply (Hbest h).
    + injection Hh as -> ->. congruence.
Qed.

Lemma lruk_choice_keep seen g gi b v vi a :
  front (access_timestamps gi) = Some b ->
  lruk_prefers k vi a gi b ->
  lruk_choice k seen v vi a -> lruk_choice k (seen ++ [(g, gi)]) v vi a.
Proof.
  intros Hgf Hpref (Hin & Hev & Hfr & Hbest).
  split; [|split; [done|split; [done|]]].
  - apply elem_of_app. by left.
  - intros h hi c [Hh|Hh%list_elem_of_singleton]%elem_of_app Hhe Hhf.
    + by apply (Hbest h).
    + injection Hh as -> ->. rewrite Hgf in Hhf. by injection Hhf as ->.
Qed.

Lemma lruk_choice_switch seen g gi b v vi a :
  evictable gi = true ->
  front (access_timestamps gi) = Some b ->
  lruk_prefers k gi b vi a ->
  lruk_choice k seen v vi a -> lruk_choice k (seen ++ [(g, gi)]) g gi b.
Proof.
  intros Hge Hgf Hpref (Hin & Hev & Hfr & Hbest).
  split; [|split; [done|split; [done|]]].
  - apply elem_of_app. right. by apply list_elem_of_singleton.
  - intros h hi c [Hh|Hh%list_elem_of_singleton]%elem_of_app Hhe Hhf.
    + eapply lruk_prefers_trans; [exact Hpref|]. by apply (Hbest h).
    + injection Hh as -> ->. rewrite Hgf in Hhf. injection Hhf as ->.
      apply lruk_prefers_refl.
Qed.

Lemma lruk_choice_first seen g gi b :
  (forall h hi, (h, hi) ∈ seen -> evictable hi = false) ->
  evictable gi = true ->
  front (access_timestamps gi) = Some b ->
  lruk_choice k (seen ++ [(g, gi)]) g gi b.
Proof.
  intros Hnone Hge Hgf. split; [|split; [done|split; [done|]]].
  - apply elem_of_app. right. by apply list_elem_of_singleton.
  - intros h hi c [Hh|Hh%list_elem_of_singleton]%elem_of_app Hhe Hhf.
    + apply Hnone in Hh. congruence.
    + injection Hh as -> ->. rewrite Hgf in Hhf. injection Hhf as ->.
      apply lruk_prefers_refl.
Qed.

(** One iteration of the loop keeps the invariant, and does not fail on a
    well-formed history. *)
Lemma scan_entry_inv seen st g gi :
  history_ok now gi ->
  scan_inv k now seen st ->
  exists st', scan_entry k now st (g, gi) = Some st'
              /\ scan_inv k now (seen ++ [(g, gi)]) st'.
Proof.
  intros Hhist Hinv. unfold scan_entry.
  destruct (evictable gi) eqn:Hge; cbn [negb].
  2:{ exists st. split; [done|].
      destruct Hinv as [[Hnone ->]|(v & vi & a & Hch & Ha & Hv & Hcase)].
      - left. split; [|done].
        intros h hi [Hh|Hh%list_elem_of_singleton]%elem_of_app.
        + by apply (Hnone h).
        + by injection Hh as -> ->.
      - right. exists v, vi, a. split; [|done].
        by apply lruk_choice_skip. }
  destruct (history_front gi Hhist) as (b & Hgf & Hb).
  rewrite Hgf. cbn [mbind option_bind].
  assert (Hdist : size_t (now - b) = now - b).
  { unfold size_t, SIZE_MAX in *. apply Z.mod_small. lia. }
  rewrite Hdist.
  destruct (Z.ltb_spec (Z.of_nat (length (access_timestamps gi))) k)
    as [Hfew|Hmany].
  - (* fewer than k accesses: infinite distance *)
    destruct Hinv as [[Hnone ->]|(v & vi & a & Hch & Ha & Hv & Hcase)].
    + cbn. eexists. split; [reflexivity|]. right. exists g, gi, b.
      split; [by apply lruk_choice_first|]. do 2 (split; [done|]). by left.
    + destruct Hcase as [(Hvfew & Hmax & Hear)|(Hvmany & Hmax & Hear)].
      * rewrite Hmax, Hear.
        destruct (Z.ltb_spec SIZE_MAX SIZE_MAX); [lia|].
        rewrite Z.eqb_refl. cbn [andb].
        destruct (Z.ltb_spec b a) as [Hlt|Hge'].
        -- eexists. split; [reflexivity|]. right. exists g, gi, b.
           split; [|split; [done|split; [done|by left]]].
           eapply lruk_choice_switch; [done|done| |exact Hch].
           unfold lruk_prefers. repeat split; intros; try done; lia.
        -- exists st. split; [done|]. right. exists v, vi, a.
           split; [|split; [done|split; [done|by left]]].
           eapply lruk_choice_keep; [done| |exact Hch].
           unfold lruk_prefers. repeat split; intros; try done; lia.
      * assert (Hsw : lruk_prefers k gi b vi a).
        { unfold lruk_prefers. repeat split; intros; done. }
        rewrite Hmax, Hear.
        destruct (Z.ltb_spec (now - a) SIZE_MAX) as [Hlt|Hge'].
        -- eexists. split; [reflexivity|]. right. exists g, gi, b.
           split; [|split; [done|split; [done|by left]]].
           eapply lruk_choice_switch; [done|done|exact Hsw|exact Hch].
        -- destruct (Z.eqb_spec SIZE_MAX (now - a)); [|lia].
           destruct (Z.ltb_spec b SIZE_MAX); [|lia]. cbn [andb].
           eexists. split; [reflexivity|]. right. exists g, gi, b.
           split; [|split; [done|split; [done|left]]].
           ++ eapply lruk_choice_switch; [done|done|exact Hsw|exact Hch].
           ++ cbn. split; [done|]. split; [lia|done].
  - (* at least k accesses: finite distance *)
    assert (Hnfew : ~ few_accesses k gi) by (unfold few_accesses; lia).
    destruct Hinv as [[Hnone ->]|(v & vi & a & Hch & Ha & Hv & Hcase)].
    + cbn [scan_init max_backward_dist earliest_first_ts].
      destruct (Z.ltb_spec 0 (now - b)); [|lia].
      eexists. split; [reflexivity|]. right. exists g, gi, b.
      split; [by apply lruk_choice_first|]. do 2 (split; [done|]).
      by right.
    + destruct Hcase as [(Hvfew & Hmax & Hear)|(Hvmany & Hmax & Hear)].
      * rewrite Hmax.
        destruct (Z.ltb_spec SIZE_MAX (now - b)); [lia|].
        exists st. split; [done|]. right. exists v, vi, a.
        split; [|split; [done|split; [done|by left]]].
        eapply lruk_choice_keep; [done| |exact Hch].
        unfold lruk_prefers. repeat split; intros; done.
      * rewrite Hmax.
        destruct (Z.ltb_spec (now - a) (now - b)) as [Hlt|Hge'].
        -- eexists. split; [reflexivity|]. right. exists g, gi, b.
           split; [|split; [done|split; [done|right]]].
           ++ eapply lruk_choice_switch; [done|done| |exact Hch].
              unfold lruk_prefers. repeat split; intros; try done; lia.
           ++ cbn. done.
        -- exists st. split; [done|]. right. exists v, vi, a.
           split; [|split; [done|split; [done|by right]]].
           eapply lruk_choice_keep; [done| |exact Hch].
           unfold lruk_prefers. repeat split; intros; try done; lia.
Qed.

Lemma scan_inv_all m : forall seen st,
  Forall (fun e => history_ok now (snd e)) m ->
  scan_inv k now seen st ->
  exists st', scan k now st m = Some st' /\ scan_inv k now (seen ++ m) st'.
Proof.
  induction m as [|[g gi] m IH]; intros seen st Hall Hinv.
  - exists st. by rewrite app_nil_r.
  - apply list.Forall_cons in Hall as [Hg Hall]. cbn [snd] in Hg.
    destruct (scan_entry_inv seen st g gi Hg Hinv) as (st1 & Hst1 & Hinv1).
    destruct (IH _ _ Hall Hinv1) as (st' & Hst' & Hinv').
    exists st'. cbn [scan]. rewrite Hst1. cbn [mbind option_bind].
    split; [exact Hst'|]. by rewrite <- app_assoc in Hinv'.
Qed.

End Scan.

(** The evictable count is positive exactly when some record is
    evictable. *)
Lemma evictable_count_pos m :
  0 < evictable_count m <->
  exists g gi, (g, gi) ∈ m /\ evictable gi = true.
Proof.
  unfold evictable_count. induction m as [|[h hi] m IH]; cbn [List.filter snd].
  - split; [cbn; lia|]. intros (g & gi & Hin & _). by apply elem_of_nil in Hin.
  - destruct (evictable hi) eqn:Hh.
    + split; [|cbn [length]; lia]. intros _. exists h, hi.
      split; [apply list_elem_of_here|done].
    + rewrite IH. split.
      * intros (g & gi & Hin & Hg). exists g, gi.
        split; [by apply list_elem_of_further|done].
      * intros (g & gi & [Heq|Hin]%elem_of_cons & Hg).
        -- injection Heq as -> ->. congruence.
        -- by exists g, gi.
Qed.

Lemma evictable_count_le m : 0 <= evictable_count m <= Z.of_nat (length m).
Proof.
  unfold evictable_count. split; [lia|].
  apply inj_le, filter_length_le.
Qed.

(** Distinct [int] keys: the map has at most 2^32 records. *)
Lemma int_keys_bound (l : list Z) :
  NoDup l -> Forall (fun x => INT_MIN <= x <= INT_MAX) l ->
  Z.of_nat (length l) <= 2 ^ 32.
Proof.
  intros Hnd Hall.
  assert (Hsub : l ⊆+ seqZ INT_MIN (2 ^ 32)).
  { apply NoDup_submseteq; [done|]. intros x Hx. apply elem_of_seqZ.
    rewrite Forall_forall in Hall. apply Hall in Hx.
    unfold INT_MIN, INT_MAX in *. lia. }
  apply submseteq_length in Hsub. rewrite length_seqZ in Hsub. lia.
Qed.

Lemma replacer_wf_count r :
  replacer_wf r -> 0 <= curr_size_ r <= 2 ^ 32.
Proof.
  intros Hwf. rewrite (wf_size r Hwf).
  pose proof (evictable_count_le (frame_map_ r)) as Hle.
  pose proof (int_keys_bound (map fst (frame_map_ r)) (wf_keys r Hwf)) as Hb.
  rewrite length_map in Hb. split; [lia|].
  etrans; [apply Hle|]. apply Hb.
  apply Forall_fmap. eapply Forall_impl; [apply (wf_ids r Hwf)|].
  intros e [He _]. exact He.
Qed.

Lemma replacer_wf_key_valid r g gi :
  replacer_wf r -> (g, gi) ∈ frame_map_ r -> g <> INVALID_FRAME_ID.
Proof.
  intros Hwf Hin ->. pose proof (wf_ids r Hwf) as Hids.
  rewrite Forall_forall in Hids. apply Hids in Hin as [_ Hlt].
  pose proof (wf_capacity r Hwf) as Hcap. cbn [fst] in Hlt.
  change (size_t INVALID_FRAME_ID) with SIZE_MAX in Hlt. lia.
Qed.

(** In a well-formed replacer [Size] is zero exactly when no record is
    evictable. *)
Lemma Size_zero r :
  replacer_wf r ->
  Size r = 0 <-> forall g gi, (g, gi) ∈ frame_map_ r -> evictable gi = false.
Proof.
  intros Hwf. unfold Size.
  pose proof (evictable_count_pos (frame_map_ r)) as Hpos.
  pose proof (evictable_count_le (frame_map_ r)) as Hle.
  rewrite <- (wf_size r Hwf) in Hpos, Hle. split.
  - intros Hz g gi Hin. destruct (evictable gi) eqn:Hg; [|done].
    destruct Hpos as [_ Hpos]. assert (0 < curr_size_ r); [|lia].
    apply Hpos. by exists g, gi.
  - intros Hnone. destruct (Z.eq_dec (curr_size_ r) 0) as [|Hnz]; [done|].
    destruct Hpos as [(g & gi & Hin & Hg) _]; [lia|].
    apply Hnone in Hin. congruence.
Qed.

(** With a non-zero evictable count the scan finds a victim, which is a
    choice of the policy, and [Evict] erases it. *)
Lemma Evict_success r :
  replacer_wf r -> curr_size_ r <> 0 ->
  exists v vi a,
    Evict r
    = Some (Some v,
            set_curr_size (curr_size_ r - 1)
              (set_frame_map (fm_erase v (frame_map_ r)) r))
    /\ lruk_choice (k_ r) (frame_map_ r) v vi a.
Proof.
  intros Hwf Hnz. pose proof (replacer_wf_count r Hwf) as Hcount.
  pose proof (evictable_count_pos (frame_map_ r)) as Hpos.
  rewrite <- (wf_size r Hwf) in Hpos. unfold Evict.
  destruct (Z.eqb_spec (curr_size_ r) 0); [done|].
  destruct (scan_inv_all (k_ r) (current_timestamp_ r)
              (wf_now r Hwf) (frame_map_ r) [] scan_init (wf_hist r Hwf))
    as (st & Hscan & Hinv).
  { left. split; [|done]. intros g gi Hin. by apply elem_of_nil in Hin. }
  rewrite Hscan. cbn [mbind option_bind app] in *.
  destruct Hinv as [[Hnone _]|(v & vi & a & Hch & Ha & Hv & Hcase)].
  { destruct Hpos as [(g & gi & Hin & Hg) _]; [lia|].
    apply Hnone in Hin. congruence. }
  assert (Hvalid : v <> INVALID_FRAME_ID).
  { destruct Hch as (Hin & _). by eapply replacer_wf_key_valid. }
  rewrite Hv. destruct (Z.eqb_spec v INVALID_FRAME_ID); [done|].
  exists v, vi, a. split; [|exact Hch].
  unfold size_t. rewrite Z.mod_small; [done|lia].
Qed.

(** C1. In a well-formed replacer: with no evictable record [Evict] returns
    failure and changes nothing; with at least one, it returns an evictable
    frame [v] whose record is a choice of the LRU-K policy among all the
    evictable records (fewer than [k] accesses beats at least [k]; within
    either class the smallest front timestamp wins, which for the records
    with at least [k] accesses is the largest [current_timestamp - front];
    any other such choice has the same front timestamp), erases the record
    of [v], and decrements the evictable count. *)
Theorem Evict_spec r :
  replacer_wf r ->
  ((forall g gi, (g, gi) ∈ frame_map_ r -> evictable gi = false) ->
   Evict r = Some (None, r))
  /\ ((exists g gi, (g, gi) ∈ frame_map_ r /\ evictable gi = true) ->
      exists v vi a r',
        Evict r = Some (Some v, r')
        /\ lruk_choice (k_ r) (frame_map_ r) v vi a
        /\ (forall v' vi' a',
            lruk_choice (k_ r) (frame_map_ r) v' vi' a' -> a' = a)
        /\ (~ few_accesses (k_ r) vi ->
            forall g gi b,
              (g, gi) ∈ frame_map_ r -> evictable gi = true ->
              front (access_timestamps gi) = Some b ->
              ~ few_accesses (k_ r) gi
              /\ current_timestamp_ r - b <= current_timestamp_ r - a)
        /\ frame_map_ r' = fm_erase v (frame_map_ r)
        /\ fm_find v (frame_map_ r') = None
        /\ (forall g, g <> v ->
            fm_find g (frame_map_ r') = fm_find g (frame_map_ r))
        /\ curr_size_ r' = curr_size_ r - 1
        /\ current_timestamp_ r' = current_timestamp_ r
        /\ replacer_size_ r' = replacer_size_ r
        /\ k_ r' = k_ r).
Proof.
  intros Hwf.
  pose proof (evictable_count_pos (frame_map_ r)) as Hpos.
  rewrite <- (wf_size r Hwf) in Hpos. split.
  - intros Hnone. unfold Evict.
    destruct (Z.eqb_spec (curr_size_ r) 0) as [|Hnz]; [done|].
    pose proof (replacer_wf_count r Hwf) as Hcount.
    destruct Hpos as [(g & gi & Hin & Hg) _]; [lia|].
    apply Hnone in Hin. congruence.
  - intros Hsome. apply Hpos in Hsome.
    destruct (Evict_success r Hwf) as (v & vi & a & Hev & Hch); [lia|].
    exists v, vi, a. eexists. split; [exact Hev|]. split; [exact Hch|].
    split; [intros v' vi' a' Hch'; by eapply lruk_choice_front|].
    destruct Hch as (_ & _ & _ & Hbest). cbn.
    split; [|split; [done|split; [apply fm_find_erase_eq|split; [|done]]]].
    + intros Hmany g gi b Hin Hg Hb.
      destruct (Hbest g gi b Hin Hg Hb) as (Hfew & _ & Hle).
      specialize (Hle Hmany). split; [tauto|lia].
    + intros g Hg. by apply fm_find_erase_ne.
Qed.

End ReplacerEvict.

(** ** The representation invariant is kept by every operation *)

Section ReplacerInvariant.

Import LRUKReplacer.

Implicit Types (r : LRUKReplacer.t) (m : list (frame_id_t * FrameInfo)).
Implicit Types (fid g : frame_id_t) (fi : FrameInfo).

Lemma fm_access_keys fid f m :
  map fst (fm_access fid f m)
  = match fm_find fid m with
    | Some _ => map fst m
    | None => map fst m ++ [fid]
    end.
Proof.
  induction m as [|[g gi] m IH]; cbn [fm_access fm_find map fst app]; [done|].
  destruct (Z.eqb_spec g fid); [done|].
  cbn [map fst]. rewrite IH. by destruct (fm_find fid m).
Qed.

Lemma fm_access_Forall (P : frame_id_t * FrameInfo -> Prop) fid f m :
  Forall P m ->
  (fm_find fid m = None -> P (fid, f FrameInfo_default)) ->
  (forall fi, P (fid, fi) -> P (fid, f fi)) ->
  Forall P (fm_access fid f m).
Proof.
  intros Hall Hnew Hupd.
  induction m as [|[g gi] m IH]; cbn [fm_access fm_find] in *.
  - apply Forall_singleton. by apply Hnew.
  - apply list.Forall_cons in Hall as [Hg Hall].
    destruct (Z.eqb_spec g fid) as [->|Hne].
    + apply list.Forall_cons. split; [by apply Hupd|done].
    + apply list.Forall_cons. split; [done|by apply IH].
Qed.

Lemma fm_erase_keys fid m :
  map fst (fm_erase fid m)
  = List.filter (fun g => negb (g =? fid)) (map fst m).
Proof.
  induction m as [|[g gi] m IH]; cbn [fm_erase List.filter map fst]; [done|].
  fold (fm_erase fid m). destruct (g =? fid); cbn [negb map fst]; congruence.
Qed.

Lemma fm_erase_Forall (P : frame_id_t * FrameInfo -> Prop) fid m :
  Forall P m -> Forall P (fm_erase fid m).
Proof.
  intros Hall. rewrite Forall_forall in *. intros e He.
  apply Hall. apply list_elem_of_In. apply list_elem_of_In in He.
  by apply filter_In in He as [? _].
Qed.

Lemma NoDup_bool_filter (f : Z -> bool) (l : list Z) :
  NoDup l -> NoDup (List.filter f l).
Proof.
  induction 1 as [|x l Hx Hnd IH]; cbn [List.filter]; [constructor|].
  destruct (f x); [|done]. constructor; [|done].
  intros Hin. apply Hx. apply list_elem_of_In.
  apply list_elem_of_In in Hin. by apply filter_In in Hin as [? _].
Qed.

(** The count when the accessed record keeps its flag. *)
Lemma evictable_count_access_same fid f m :
  (forall fi, evictable (f fi) = evictable fi) ->
  evictable_count (fm_access fid f m) = evictable_count m.
Proof.
  intros Hf. unfold evictable_count. f_equal.
  induction m as [|[g gi] m IH]; cbn [fm_access List.filter snd].
  - by rewrite Hf.
  - destruct (g =? fid); cbn [List.filter snd].
    + rewrite Hf. by destruct (evictable gi).
    + destruct (evictable gi); cbn [length]; congruence.
Qed.

(** The count when the flag of an existing record flips. *)
Lemma evictable_count_flip fid b fi m :
  fm_find fid m = Some fi -> evictable fi = negb b ->
  evictable_count (fm_access fid (with_evictable b) m)
  = evictable_count m + (if b then 1 else -1).
Proof.
  unfold evictable_count.
  induction m as [|[g gi] m IH]; cbn [fm_find fm_access List.filter snd];
    [done|].
  destruct (Z.eqb_spec g fid) as [->|Hne].
  - intros [= ->] Hfi. cbn [List.filter snd with_evictable evictable].
    rewrite Hfi. destruct b; cbn [negb length]; lia.
  - intros Hfind Hfi. specialize (IH Hfind Hfi).
    cbn [List.filter snd]. destruct (evictable gi); cbn [length]; lia.
Qed.

(** The count when the only record of a key is erased. *)
Lemma evictable_count_erase fid fi m :
  NoDup (map fst m) -> fm_find fid m = Some fi ->
  evictable_count (fm_erase fid m)
  = evictable_count m - (if evictable fi then 1 else 0).
Proof.
  unfold evictable_count.
  induction m as [|[g gi] m IH];
    cbn [fm_find fm_erase List.filter map fst snd]; [done|].
  fold (fm_erase fid m). rewrite list.NoDup_cons. intros [Hg Hnd].
  destruct (Z.eqb_spec g fid) as [->|Hne]; cbn [negb].
  - intros [= ->]. apply fm_find_None in Hg.
    assert (Hid : fm_erase fid m = m).
    { clear -Hg. induction m as [|[h hi] m IH]; [done|].
      cbn [fm_find] in Hg. cbn [fm_erase List.filter fst].
      fold (fm_erase fid m). destruct (h =? fid); [done|].
      cbn [negb]. f_equal. by apply IH. }
    rewrite Hid. destruct (evictable fi); cbn [length]; lia.
  - intros Hfind. specialize (IH Hnd Hfind). cbn [List.filter snd].
    destruct (evictable gi); cbn [length]; lia.
Qed.

Lemma classic_evictable m :
  (exists g gi, (g, gi) ∈ m /\ evictable gi = true)
  \/ (forall g gi, (g, gi) ∈ m -> evictable gi = false).
Proof.
  induction m as [|[h hi] m [(g & gi & Hin & Hg)|Hall]].
  - right. intros g gi Hin. by apply elem_of_nil in Hin.
  - left. exists g, gi. split; [by apply list_elem_of_further|done].
  - destruct (evictable hi) eqn:Hh.
    + left. exists h, hi. split; [apply list_elem_of_here|done].
    + right. intros g gi [Heq|Hin]%elem_of_cons.
      * by injection Heq as -> ->.
      * by apply (Hall g).
Qed.

Lemma new_wf num_frames k r :
  num_frames <= SIZE_MAX -> new_ num_frames k = Some r -> replacer_wf r.
Proof.
  unfold new_. intros Hn. destruct (Z.leb_spec 1 k); [|done].
  intros [= <-]. split; cbn; try done; try constructor.
Qed.

Lemma RecordAccess_wf r fid r' :
  replacer_wf r -> INT_MIN <= fid <= INT_MAX ->
  current_timestamp_ r < SIZE_MAX ->
  RecordAccess fid r = Some r' -> replacer_wf r'.
Proof.
  intros Hwf Hint Hnow. unfold RecordAccess.
  destruct (Z.ltb_spec (size_t fid) (replacer_size_ r)) as [Hlt|]; [|done].
  intros [= <-]. pose proof (wf_now r Hwf) as Hnow0.
  assert (Hts : size_t (current_timestamp_ r + 1) = current_timestamp_ r + 1).
  { unfold size_t, SIZE_MAX in *. apply Z.mod_small. lia. }
  split; cbn; rewrite ?Hts.
  - apply (wf_k r Hwf).
  - lia.
  - apply (wf_capacity r Hwf).
  - rewrite fm_access_keys. destruct (fm_find fid (frame_map_ r)) eqn:Hf.
    + apply (wf_keys r Hwf).
    + apply NoDup_app. split; [apply (wf_keys r Hwf)|].
      split; [|apply NoDup_singleton].
      intros x Hx ->%list_elem_of_singleton. by apply fm_find_None in Hf.
  - apply fm_access_Forall; [apply (wf_ids r Hwf)|done|done].
  - apply fm_access_Forall.
    + eapply Forall_impl; [apply (wf_hist r Hwf)|].
      intros e [Hne Hall]. split; [done|].
      eapply Forall_impl; [exact Hall|]. cbn. lia.
    + intros _. unfold history_ok, push_timestamp. cbn.
      change (Z.of_nat 1) with 1.
      destruct (Z.ltb_spec (k_ r) 1); [pose proof (wf_k r Hwf); lia|].
      split; [done|]. apply Forall_singleton. lia.
    + intros fi [Hne Hall]. cbn [snd] in Hne, Hall.
      unfold history_ok, push_timestamp. cbn.
      assert (Hall' : Forall (fun ts => 0 <= ts < current_timestamp_ r + 1)
                        (access_timestamps fi ++ [current_timestamp_ r])).
      { apply Forall_app. split; [|apply Forall_singleton; lia].
        eapply Forall_impl; [exact Hall|]. cbn. lia. }
      destruct (access_timestamps fi) as [|t0 ts]; [congruence|].
      destruct (_ <? _); cbn [app tail].
      * split; [by destruct ts|]. cbn [app] in Hall'.
        by apply list.Forall_cons in Hall' as [_ ?].
      * split; [done|exact Hall'].
  - rewrite evictable_count_access_same; [apply (wf_size r Hwf)|done].
Qed.

Lemma SetEvictable_wf r fid b r' :
  replacer_wf r -> SetEvictable fid b r = Some r' -> replacer_wf r'.
Proof.
  intros Hwf. unfold SetEvictable.
  destruct (Z.ltb_spec (size_t fid) (replacer_size_ r)) as [Hlt|]; [|done].
  destruct (fm_find fid (frame_map_ r)) as [fi|] eqn:Hf;
    [|by intros [= <-]].
  destruct (eqb (evictable fi) b) eqn:Heq; [by intros [= <-]|].
  apply eqb_false_iff in Heq. intros [= <-].
  assert (Hfi : evictable fi = negb b) by (destruct (evictable fi), b; done).
  pose proof (replacer_wf_count r Hwf) as Hcount.
  pose proof (evictable_count_flip fid b fi _ Hf Hfi) as Hflip.
  assert (Hpos : b = false -> 0 < curr_size_ r).
  { intros ->. rewrite (wf_size r Hwf). apply evictable_count_pos.
    exists fid, fi. split; [by apply fm_find_elem|done]. }
  split; cbn.
  - apply (wf_k r Hwf).
  - apply (wf_now r Hwf).
  - apply (wf_capacity r Hwf).
  - rewrite fm_access_keys, Hf. apply (wf_keys r Hwf).
  - apply fm_access_Forall; [apply (wf_ids r Hwf)|congruence|done].
  - apply fm_access_Forall; [apply (wf_hist r Hwf)|congruence|done].
  - rewrite Hflip, <- (wf_size r Hwf). unfold size_t.
    destruct b; rewrite Z.mod_small; lia.
Qed.

Lemma erase_wf r fid fi :
  replacer_wf r -> fm_find fid (frame_map_ r) = Some fi ->
  evictable fi = true ->
  size_t (curr_size_ r - 1) = curr_size_ r - 1
  /\ replacer_wf
       (set_curr_size (curr_size_ r - 1)
          (set_frame_map (fm_erase fid (frame_map_ r)) r)).
Proof.
  intros Hwf Hf Hfi. pose proof (replacer_wf_count r Hwf) as Hcount.
  assert (Hpos : 0 < curr_size_ r).
  { rewrite (wf_size r Hwf). apply evictable_count_pos.
    exists fid, fi. split; [by apply fm_find_elem|done]. }
  split; [unfold size_t; rewrite Z.mod_small; lia|].
  split; cbn.
  - apply (wf_k r Hwf).
  - apply (wf_now r Hwf).
  - apply (wf_capacity r Hwf).
  - rewrite fm_erase_keys. apply NoDup_bool_filter, (wf_keys r Hwf).
  - apply fm_erase_Forall, (wf_ids r Hwf).
  - apply fm_erase_Forall, (wf_hist r Hwf).
  - rewrite (evictable_count_erase fid fi); [|apply (wf_keys r Hwf)|done].
    rewrite Hfi, <- (wf_size r Hwf). done.
Qed.

Lemma Remove_wf r fid r' :
  replacer_wf r -> Remove fid r = Some r' -> replacer_wf r'.
Proof.
  intros Hwf. unfold Remove.
  destruct (Z.ltb_spec (size_t fid) (replacer_size_ r)) as [Hlt|]; [|done].
  destruct (fm_find fid (frame_map_ r)) as [fi|] eqn:Hf;
    [|by intros [= <-]].
  destruct (evictable fi) eqn:Hfi; [|done]. intros [= <-].
  destruct (erase_wf r fid fi Hwf Hf Hfi) as [-> Hwf']. exact Hwf'.
Qed.

Lemma Evict_wf r res r' :
  replacer_wf r -> Evict r = Some (res, r') -> replacer_wf r'.
Proof.
  intros Hwf Hev.
  destruct (Z.eq_dec (curr_size_ r) 0) as [Hz|Hnz].
  - unfold Evict in Hev. rewrite Hz in Hev. by injection Hev as _ <-.
  - destruct (Evict_success r Hwf Hnz) as (v & vi & a & Hr1 & Hch).
    rewrite Hr1 in Hev. injection Hev as _ <-.
    destruct Hch as (Hin & Hvi & _).
    apply (erase_wf r _ vi Hwf); [|done].
    apply fm_elem_find; [apply (wf_keys r Hwf)|done].
Qed.

(** Every state reached before the clock wraps satisfies the
    representation invariant. *)
Lemma replacer_reachable_wf r : replacer_reachable r -> replacer_wf r.
Proof.
  induction 1.
  - by eapply new_wf.
  - by eapply RecordAccess_wf.
  - by eapply SetEvictable_wf.
  - by eapply Remove_wf.
  - by eapply Evict_wf.
Qed.

End ReplacerInvariant.

(** * Properties of the extendible hash table *)

Section TableFacts.

Import ExtendibleHashTable.

Context {K V : Type} `{EqDecision K}.
Variable hash : K -> Z.

Implicit Types (key : K) (value : V) (l : list (K * V)).
Implicit Types (b : Bucket K V) (ht : ExtendibleHashTable.t K V).

(** ** Buckets *)

Lemma kv_overwrite_found key value l l' :
  kv_overwrite key value l = (true, l') ->
  kv_find key l' = Some value /\ map fst l' = map fst l.
Proof.
  revert l'. induction l as [|[k v] l IH]; intros l'; cbn; [done|].
  destruct (decide (k = key)) as [->|Hne].
  - intros [= <-]. cbn. by rewrite decide_True.
  - destruct (kv_overwrite key value l) as [found r] eqn:Hr.
    intros [= -> <-]. destruct (IH r eq_refl) as [Hf Hk].
    cbn. rewrite decide_False by done. by rewrite Hk.
Qed.

Lemma kv_overwrite_not_found key value l l' :
  kv_overwrite key value l = (false, l') ->
  l' = l /\ kv_find key l = None.
Proof.
  revert l'. induction l as [|[k v] l IH]; intros l'; cbn.
  - by intros [= <-].
  - destruct (decide (k = key)) as [->|Hne]; [done|].
    destruct (kv_overwrite key value l) as [found r] eqn:Hr.
    intros [= -> <-]. destruct (IH r eq_refl) as [-> Hf]. done.
Qed.

Lemma kv_find_overwrite key value value' l :
  kv_find key l = Some value ->
  exists l', kv_overwrite key value' l = (true, l').
Proof.
  induction l as [|[k v] l IH]; cbn; [done|].
  destruct (decide (k = key)) as [->|Hne]; [by eexists|].
  intros Hf. destruct (IH Hf) as (l' & ->). by eexists.
Qed.

Lemma kv_find_app_new key value l :
  kv_find key l = None -> kv_find key (l ++ [(key, value)]) = Some value.
Proof.
  induction l as [|[k v] l IH]; cbn.
  - intros _. by rewrite decide_True.
  - destruct (decide (k = key)); [done|]. exact IH.
Qed.

Lemma kv_find_None key l : kv_find key l = None <-> key ∉ map fst l.
Proof.
  induction l as [|[k v] l IH]; cbn [kv_find map fst].
  - split; [intros _; apply not_elem_of_nil|done].
  - destruct (decide (k = key)) as [->|Hne].
    + split; [done|]. intros Hn. exfalso. apply Hn, list_elem_of_here.
    + split.
      * intros Hf [Heq|Hin]%elem_of_cons; [congruence|]. by apply IH in Hf.
      * intros Hn. apply IH. intros Hin. apply Hn.
        by apply list_elem_of_further.
Qed.

(** A successful [Bucket::Insert] leaves the key bound to the value. *)
Lemma Bucket_Insert_true key value b b' :
  Bucket_Insert key value b = (true, b') ->
  Bucket_Find key b' = Some value
  /\ max_size_ b' = max_size_ b /\ local_depth_ b' = local_depth_ b.
Proof.
  unfold Bucket_Insert, Bucket_Find.
  destruct (kv_overwrite key value (kv_pairs_ b)) as [[] l] eqn:Hl.
  - intros [= <-]. cbn. by apply kv_overwrite_found in Hl as [? _].
  - destruct (IsFull b); [done|]. intros [= <-]. cbn.
    apply kv_overwrite_not_found in Hl as [_ Hn].
    split; [by apply kv_find_app_new|done].
Qed.

(** [Bucket::Insert] on a key that is present overwrites in place: the
    keys of the bucket, in order, are unchanged. *)
Lemma Bucket_Insert_present key value value' b :
  Bucket_Find key b = Some value ->
  exists b', Bucket_Insert key value' b = (true, b')
             /\ Bucket_Find key b' = Some value'
             /\ map fst (kv_pairs_ b') = map fst (kv_pairs_ b)
             /\ max_size_ b' = max_size_ b
             /\ local_depth_ b' = local_depth_ b.
Proof.
  unfold Bucket_Find, Bucket_Insert. intros Hf.
  destruct (kv_find_overwrite key value value' _ Hf) as (l' & Hl').
  rewrite Hl'. eexists. split; [done|]. cbn.
  by apply kv_overwrite_found in Hl' as [? ?].
Qed.

(** ** Insertion *)

(** When [Insert] returns, the key is bound to the value in the bucket that
    the directory gives for it. *)
Lemma Insert_lands fuel key value : forall ht ht',
  Insert hash fuel key value ht = Some ht' ->
  exists index p b,
    IndexOf hash (global_depth_ ht') key = Some index
    /\ dir_ ht' !! Z.to_nat index = Some p
    /\ heap ht' !! p = Some b
    /\ Bucket_Find key b = Some value.
Proof.
  induction fuel as [|fuel IH]; intros ht ht'; cbn [Insert]; [done|].
  destruct (IndexOf hash (global_depth_ ht) key) as [index|] eqn:Hi;
    [|done]. cbn [mbind option_bind].
  destruct (dir_ ht !! Z.to_nat index) as [p|] eqn:Hp; [|done]. cbn.
  destruct (heap ht !! p) as [b|] eqn:Hb; [|done]. cbn.
  destruct (Bucket_Insert key value b) as [[] b'] eqn:Hins.
  - intros [= <-]. exists index, p, b'. cbn. repeat split; try done.
    + apply list_lookup_insert_eq. by apply lookup_lt_Some in Hb.
    + by apply Bucket_Insert_true in Hins as [? _].
  - destruct (SplitBucket hash p ht) as [ht1|]; [|done]. cbn. apply IH.
Qed.

(** More fuel does not change the result of [Insert]. *)
Lemma Insert_fuel_mono fuel fuel' key value : forall ht ht',
  (fuel <= fuel')%nat ->
  Insert hash fuel key value ht = Some ht' ->
  Insert hash fuel' key value ht = Some ht'.
Proof.
  revert fuel'. induction fuel as [|fuel IH]; intros fuel' ht ht' Hle;
    cbn [Insert]; [done|].
  destruct fuel' as [|fuel']; [lia|]. cbn [Insert].
  destruct (IndexOf hash (global_depth_ ht) key) as [index|]; [|done].
  cbn [mbind option_bind].
  destruct (dir_ ht !! Z.to_nat index) as [p|]; [|done]. cbn.
  destruct (heap ht !! p) as [b|]; [|done]. cbn.
  destruct (Bucket_Insert key value b) as [[] b']; [done|].
  destruct (SplitBucket hash p ht) as [ht1|]; [|done]. cbn.
  apply IH. lia.
Qed.

(** C6. If [Insert key value] returns, a following [Insert key value']
    returns within its first iteration (no split), after which [Find key]
    yields [value']; the second insertion overwrites in place: directory,
    depths, bucket count and the keys held by every bucket are as the first
    insertion left them. *)
Theorem Insert_Insert_Find fuel key value value' ht ht1 :
  Insert hash fuel key value ht = Some ht1 ->
  exists ht2,
    (forall fuel', Insert hash (S fuel') key value' ht1 = Some ht2)
    /\ Find hash key ht2 = Some (Some value')
    /\ dir_ ht2 = dir_ ht1
    /\ global_depth_ ht2 = global_depth_ ht1
    /\ num_buckets_ ht2 = num_buckets_ ht1
    /\ map (fun b => (map fst (kv_pairs_ b), local_depth_ b)) (heap ht2)
       = map (fun b => (map fst (kv_pairs_ b), local_depth_ b)) (heap ht1).
Proof.
  intros Hins.
  destruct (Insert_lands _ _ _ _ _ Hins) as (index & p & b & Hi & Hp & Hb & Hf).
  destruct (Bucket_Insert_present key value value' b Hf)
    as (b' & Hb' & Hf' & Hkeys & _ & Hld).
  pose proof (lookup_lt_Some _ _ _ Hb) as Hlt.
  exists (set_heap (<[p := b']> (heap ht1)) ht1).
  split; [|split; [|repeat split]].
  - intros fuel'. cbn [Insert]. rewrite Hi. cbn. rewrite Hp. cbn.
    rewrite Hb. cbn. by rewrite Hb'.
  - unfold Find. cbn. rewrite Hi. cbn.
    pose proof (lookup_lt_Some _ _ _ Hp) as Hlt'.
    destruct (Z.leb_spec (Z.of_nat (length (dir_ ht1))) index) as [Hle|_].
    { assert (0 <= index).
      { unfold IndexOf in Hi. destruct (int_shl1 _) as [m|] eqn:Hm; [|done].
        cbn in Hi. injection Hi as <-. unfold int_shl1 in Hm.
        destruct (_ && _) eqn:Hc; [|done]. injection Hm as <-.
        apply Z.land_nonneg. right. rewrite Z.shiftl_1_l.
        assert (0 < 2 ^ global_depth_ ht1); [|lia].
        apply Z.pow_pos_nonneg; lia. }
      lia. }
    rewrite Hp. cbn. rewrite list_lookup_insert_eq by done. cbn.
    by rewrite Hf'.
  - cbn. rewrite list_fmap_insert. cbn. rewrite Hkeys, Hld.
    apply list_insert_id. by rewrite list_lookup_fmap, Hb.
Qed.

End TableFacts.

(** ** Arithmetic of directory indices *)

Lemma mod_pow2_eq_bits x y d :
  0 <= d ->
  x mod 2 ^ d = y mod 2 ^ d <->
  forall i, 0 <= i < d -> Z.testbit x i = Z.testbit y i.
Proof.
  intros Hd. split.
  - intros Heq i Hi.
    rewrite <- (Z.mod_pow2_bits_low x d i), <- (Z.mod_pow2_bits_low y d i)
      by lia.
    by rewrite Heq.
  - intros Hbits. apply Z.bits_inj'. intros n Hn.
    rewrite !Z.testbit_mod_pow2 by done.
    destruct (Z.ltb_spec n d); [|done]. cbn. apply Hbits. lia.
Qed.

Lemma mod_pow2_weaken x y d e :
  0 <= d <= e -> x mod 2 ^ e = y mod 2 ^ e -> x mod 2 ^ d = y mod 2 ^ d.
Proof.
  intros Hde. rewrite !mod_pow2_eq_bits by lia.
  intros Hbits i Hi. apply Hbits. lia.
Qed.

Lemma mod_pow2_step x y d :
  0 <= d -> x mod 2 ^ d = y mod 2 ^ d -> Z.testbit x d = Z.testbit y d ->
  x mod 2 ^ (d + 1) = y mod 2 ^ (d + 1).
Proof.
  intros Hd. rewrite !mod_pow2_eq_bits by lia.
  intros Hbits Hbit i Hi. destruct (Z.eq_dec i d) as [->|Hne]; [done|].
  apply Hbits. lia.
Qed.

(** [(i & mask) != 0] for [mask = 1 << d] tests bit [d] of [i]. *)
Lemma land_shiftl1_testbit x d :
  0 <= d -> negb (Z.land x (Z.shiftl 1 d) =? 0) = Z.testbit x d.
Proof.
  intros Hd. rewrite Z.shiftl_1_l.
  destruct (Z.testbit x d) eqn:Hbit.
  - destruct (Z.eqb_spec (Z.land x (2 ^ d)) 0) as [Hz|]; [|done].
    assert (Hc : Z.testbit (Z.land x (2 ^ d)) d = true).
    { by rewrite Z.land_spec, Hbit, Z.pow2_bits_true. }
    rewrite Hz, Z.bits_0 in Hc. done.
  - destruct (Z.eqb_spec (Z.land x (2 ^ d)) 0) as [|Hnz]; [done|].
    exfalso. apply Hnz. apply Z.bits_inj'. intros n Hn.
    rewrite Z.land_spec, Z.bits_0, Z.pow2_bits_eqb by done.
    destruct (Z.eqb_spec d n) as [<-|]; [by rewrite Hbit|].
    apply andb_false_r.
Qed.

Lemma int_checked_Some x y :
  int_checked x = Some y -> y = x /\ INT_MIN <= x <= INT_MAX.
Proof.
  unfold int_checked.
  destruct (Z.leb_spec INT_MIN x), (Z.leb_spec x INT_MAX); cbn; try done.
  by intros [= <-].
Qed.

Section TableInvariant.

Import ExtendibleHashTable.

Context {K V : Type} `{EqDecision K}.
Variable hash : K -> Z.

Implicit Types (key : K) (value : V) (l : list (K * V)).
Implicit Types (b : Bucket K V) (ht : ExtendibleHashTable.t K V).

Lemma new_dir_inv bucket_size : dir_inv (new_ (K:=K) (V:=V) bucket_size).
Proof.
  split; cbn; try done.
  - intros [|i] p; cbn; [|done]. intros [= <-]. lia.
  - intros [|p] b; cbn; [|done]. intros [= <-]. cbn. lia.
  - intros [|i] [|j] p b; cbn; try done.
Qed.

(** Writing back a bucket whose local depth is unchanged. *)
Lemma set_heap_dir_inv ht p b b' :
  dir_inv ht -> heap ht !! p = Some b ->
  local_depth_ b' = local_depth_ b ->
  dir_inv (set_heap (<[p := b']> (heap ht)) ht).
Proof.
  intros Hinv Hb Hld. pose proof (lookup_lt_Some _ _ _ Hb) as Hlt.
  assert (Hlook : forall q c, <[p := b']> (heap ht) !! q = Some c ->
            exists c0, heap ht !! q = Some c0
                       /\ local_depth_ c = local_depth_ c0).
  { intros q c. destruct (decide (q = p)) as [->|Hne].
    - rewrite list_lookup_insert_eq by done. intros [= <-]. by exists b.
    - rewrite list_lookup_insert_ne by done. intros Hc. by exists c. }
  split; cbn.
  - apply (inv_depth ht Hinv).
  - apply (inv_size ht Hinv).
  - intros i q Hq. rewrite length_insert. by apply (inv_alloc ht Hinv i).
  - intros q c Hc. destruct (Hlook q c Hc) as (c0 & Hc0 & ->).
    by apply (inv_local ht Hinv q).
  - intros i j q c Hi Hj Hc. destruct (Hlook q c Hc) as (c0 & Hc0 & ->).
    by apply (inv_congr ht Hinv i j q).
Qed.

(** Step 1 of [SplitBucket]: doubling the directory. *)
Lemma double_dir_inv ht :
  dir_inv ht ->
  dir_inv {| heap := heap ht; dir_ := dir_ ht ++ dir_ ht;
             global_depth_ := global_depth_ ht + 1;
             bucket_size_ := bucket_size_ ht;
             num_buckets_ := num_buckets_ ht |}.
Proof.
  intros Hinv. pose proof (inv_depth ht Hinv) as Hd.
  pose proof (inv_size ht Hinv) as Hsz.
  assert (Hlook : forall i p, (dir_ ht ++ dir_ ht) !! i = Some p ->
            exists i0, dir_ ht !! i0 = Some p
                       /\ Z.of_nat i mod 2 ^ global_depth_ ht
                          = Z.of_nat i0 mod 2 ^ global_depth_ ht).
  { intros i p [Hi|[Hle Hi]]%lookup_app_Some.
    - by exists i.
    - exists (i - length (dir_ ht))%nat. split; [done|].
      rewrite Nat2Z.inj_sub, Hsz by done.
      rewrite <- (Z.mod_add (_ - _) 1) by lia. f_equal. lia. }
  split; cbn.
  - lia.
  - rewrite length_app, Nat2Z.inj_add, Hsz, Z.pow_add_r by lia. lia.
  - intros i p Hp. destruct (Hlook i p Hp) as (i0 & Hi0 & _).
    by apply (inv_alloc ht Hinv i0).
  - intros p b Hb. pose proof (inv_local ht Hinv p b Hb). lia.
  - intros i j p b Hi Hj Hb.
    destruct (Hlook i p Hi) as (i0 & Hi0 & Hci).
    destruct (Hlook j p Hj) as (j0 & Hj0 & Hcj).
    pose proof (inv_local ht Hinv p b Hb) as Hld.
    rewrite (mod_pow2_weaken _ _ _ _ Hld Hci).
    rewrite (mod_pow2_weaken _ _ _ _ Hld Hcj).
    by apply (inv_congr ht Hinv i0 j0 p).
Qed.

Lemma repoint_lookup bucket new_bucket mask (dir : list nat) i q :
  repoint bucket new_bucket mask dir !! i = Some q <->
  exists p, dir !! i = Some p
            /\ q = if (p =? bucket)%nat
                   then if negb (Z.land (Z.of_nat i) mask =? 0)
                        then new_bucket else p
                   else p.
Proof.
  unfold repoint. rewrite list_lookup_imap.
  destruct (dir !! i) as [p|]; cbn.
  - split; [intros [= <-]; by exists p|]. by intros (p' & [= <-] & ->).
  - split; [done|]. by intros (p' & ? & _).
Qed.

(** Steps 2 to 4 of [SplitBucket]: a bucket of local depth below the global
    depth gets one more bit, and the slots with that bit set move to the
    new bucket, of the same local depth. *)
Lemma repoint_dir_inv ht bucket b b2 nb :
  dir_inv ht -> heap ht !! bucket = Some b ->
  local_depth_ b < global_depth_ ht ->
  local_depth_ b2 = local_depth_ b + 1 ->
  local_depth_ nb = local_depth_ b + 1 ->
  forall count,
  dir_inv {| heap := <[bucket := b2]> (heap ht) ++ [nb];
             dir_ := repoint bucket (length (heap ht))
                       (Z.shiftl 1 (local_depth_ b)) (dir_ ht);
             global_depth_ := global_depth_ ht;
             bucket_size_ := bucket_size_ ht;
             num_buckets_ := count |}.
Proof.
  intros Hinv Hb Hlt Hb2 Hnb count.
  pose proof (lookup_lt_Some _ _ _ Hb) as Hbucket.
  pose proof (inv_local ht Hinv bucket b Hb) as Hld.
  set (d := local_depth_ b) in *.
  (* the buckets of the new heap *)
  assert (Hheap : forall q c,
            (<[bucket := b2]> (heap ht) ++ [nb]) !! q = Some c ->
            (q = length (heap ht) /\ c = nb)
            \/ (q = bucket /\ c = b2)
            \/ (q <> bucket /\ q <> length (heap ht) /\ heap ht !! q = Some c)).
  { intros q c [Hq|[Hle Hq]]%lookup_app_Some.
    - right. destruct (decide (q = bucket)) as [->|Hne].
      + left. rewrite list_lookup_insert_eq in Hq by done.
        by injection Hq as <-.
      + right. rewrite list_lookup_insert_ne in Hq by done.
        pose proof (lookup_lt_Some _ _ _ Hq). split; [done|]. split; [lia|done].
    - left. rewrite length_insert in *.
      destruct (q - length (heap ht))%nat as [|n] eqn:Hn; [|done].
      cbn in Hq. injection Hq as <-. split; [lia|done]. }
  (* the slots of the new directory *)
  assert (Hdir : forall i q,
            repoint bucket (length (heap ht)) (Z.shiftl 1 d) (dir_ ht) !! i
            = Some q ->
            (q = length (heap ht) /\ dir_ ht !! i = Some bucket
             /\ Z.testbit (Z.of_nat i) d = true)
            \/ (q = bucket /\ dir_ ht !! i = Some bucket
                /\ Z.testbit (Z.of_nat i) d = false)
            \/ (q <> bucket /\ q <> length (heap ht)
                /\ dir_ ht !! i = Some q)).
  { intros i q (p & Hp & ->)%repoint_lookup.
    rewrite land_shiftl1_testbit by lia.
    destruct (Nat.eqb_spec p bucket) as [->|Hne].
    - destruct (Z.testbit (Z.of_nat i) d); [by left|right; by left].
    - right; right. pose proof (inv_alloc ht Hinv i p Hp).
      split; [done|]. split; [lia|done]. }
  split; cbn.
  - apply (inv_depth ht Hinv).
  - unfold repoint. rewrite length_imap. apply (inv_size ht Hinv).
  - intros i q Hq. rewrite length_app, length_insert. cbn.
    destruct (Hdir i q Hq) as [(-> & _)|[(-> & _)|(_ & _ & Hq')]]; [lia|lia|].
    pose proof (inv_alloc ht Hinv i q Hq'). lia.
  - intros q c Hc.
    destruct (Hheap q c Hc) as [(_ & ->)|[(_ & ->)|(_ & _ & Hc')]];
      [lia|lia|].
    by apply (inv_local ht Hinv q).
  - intros i j q c Hi Hj Hc.
    destruct (Hdir i q Hi)
      as [(Hq & Hi' & Hbi)|[(Hq & Hi' & Hbi)|(Hq1 & Hq2 & Hi')]];
    destruct (Hdir j q Hj)
      as [(Hq' & Hj' & Hbj)|[(Hq' & Hj' & Hbj)|(Hq1' & Hq2' & Hj')]];
    try lia; try congruence.
    + destruct (Hheap q c Hc) as [(_ & ->)|[(? & _)|(_ & ? & _)]];
        [|lia|lia].
      rewrite Hnb. apply mod_pow2_step; [lia| |congruence].
      by apply (inv_congr ht Hinv i j bucket b).
    + destruct (Hheap q c Hc) as [(? & _)|[(_ & ->)|(? & _)]];
        [lia| |lia].
      rewrite Hb2. apply mod_pow2_step; [lia| |congruence].
      by apply (inv_congr ht Hinv i j bucket b).
    + destruct (Hheap q c Hc) as [(? & _)|[(? & _)|(_ & _ & Hc')]];
        [lia|lia|].
      by apply (inv_congr ht Hinv i j q c).
Qed.

Lemma Bucket_Insert_snd key value b :
  let b' := snd (Bucket_Insert key value b) in
  local_depth_ b' = local_depth_ b
  /\ max_size_ b' = max_size_ b
  /\ (NoDup (map fst (kv_pairs_ b)) -> NoDup (map fst (kv_pairs_ b'))).
Proof.
  unfold Bucket_Insert.
  destruct (kv_overwrite key value (kv_pairs_ b)) as [[] l] eqn:Hl; cbn.
  - apply kv_overwrite_found in Hl as [_ ->]. done.
  - apply kv_overwrite_not_found in Hl as [_ Hn].
    destruct (IsFull b); cbn; [done|]. repeat split.
    intros Hnd. rewrite map_app. apply NoDup_app.
    split; [done|]. split; [|apply NoDup_singleton].
    intros x Hx ->%list_elem_of_singleton. by apply kv_find_None in Hn.
Qed.

Lemma kv_remove_sublist key l : sublist (kv_remove key l).2 l.
Proof.
  induction l as [|[k v] l IH]; cbn; [done|].
  destruct (decide (k = key)); cbn; [by apply sublist_cons|].
  destruct (kv_remove key l) as [found r]. cbn in *. by apply sublist_skip.
Qed.

Lemma sublist_keys_NoDup l l' :
  sublist l' l -> NoDup (map fst l) -> NoDup (map fst l').
Proof.
  intros Hsub Hnd. eapply sublist_NoDup; [exact Hnd|].
  by apply fmap_sublist.
Qed.

Lemma rehash_spec dir gd nbk l : forall nb kept nb',
  rehash hash dir gd nbk l nb = Some (kept, nb') ->
  sublist kept l
  /\ local_depth_ nb' = local_depth_ nb
  /\ max_size_ nb' = max_size_ nb
  /\ (NoDup (map fst (kv_pairs_ nb)) -> NoDup (map fst (kv_pairs_ nb'))).
Proof.
  induction l as [|[key value] l IH]; intros nb kept nb'; cbn [rehash].
  - by intros [= <- <-].
  - destruct (IndexOf hash gd key) as [index|]; [|done]. cbn.
    destruct (dir !! Z.to_nat index) as [p|]; [|done]. cbn.
    destruct (p =? nbk)%nat.
    + intros Hr. apply IH in Hr as (Hsub & Hld & Hms & Hnd).
      destruct (Bucket_Insert_snd key value nb) as (Hld' & Hms' & Hnd').
      split; [by apply sublist_cons|]. split; [congruence|].
      split; [congruence|]. intros ?. by apply Hnd, Hnd'.
    + destruct (rehash hash dir gd nbk l nb) as [[kept0 nb0]|] eqn:Hr;
        [|done].
      cbn. intros [= <- <-]. apply IH in Hr as (Hsub & Hld & Hms & Hnd).
      split; [by apply sublist_skip|done].
Qed.

Lemma int_shl1_Some n m :
  int_shl1 n = Some m -> 0 <= n <= 30 /\ m = Z.shiftl 1 n.
Proof.
  unfold int_shl1. destruct (Z.leb_spec 0 n), (Z.leb_spec n 30); cbn;
    try done.
  intros [= <-]. done.
Qed.

Lemma IndexOf_Some gd key index :
  IndexOf hash gd key = Some index ->
  0 <= gd <= 30 /\ 0 <= index < 2 ^ gd.
Proof.
  unfold IndexOf. destruct (int_shl1 gd) as [m|] eqn:Hm; [|done].
  apply int_shl1_Some in Hm as [Hgd ->]. cbn. intros [= <-].
  split; [done|]. rewrite Z.shiftl_1_l.
  change (2 ^ gd - 1) with (Z.pred (2 ^ gd)). rewrite <- Z.ones_equiv.
  rewrite Z.land_ones by lia. apply Z.mod_pos_bound.
  apply Z.pow_pos_nonneg; lia.
Qed.

(** What a call of [SplitBucket] that returns has done. *)
Lemma SplitBucket_Some bucket ht ht' :
  SplitBucket hash bucket ht = Some ht' ->
  exists b kept nb' n,
    heap ht !! bucket = Some b
    /\ 0 <= local_depth_ b <= 30
    /\ let grow := local_depth_ b =? global_depth_ ht in
       let dir1 := if grow then dir_ ht ++ dir_ ht else dir_ ht in
       let gd1 :=
         if grow then global_depth_ ht + 1 else global_depth_ ht in
       let dir4 :=
         repoint bucket (length (heap ht)) (Z.shiftl 1 (local_depth_ b))
           dir1 in
       rehash hash dir4 gd1 (length (heap ht)) (kv_pairs_ b)
         {| kv_pairs_ := []; max_size_ := bucket_size_ ht;
            local_depth_ := local_depth_ b + 1 |} = Some (kept, nb')
       /\ ht' = {| heap :=
                     <[bucket :=
                         set_kv_pairs kept
                           (SetLocalDepth (local_depth_ b + 1) b)]>
                       (heap ht) ++ [nb'];
                   dir_ := dir4; global_depth_ := gd1;
                   bucket_size_ := bucket_size_ ht;
                   num_buckets_ := n |}.
Proof.
  unfold SplitBucket.
  destruct (heap ht !! bucket) as [b|] eqn:Hb; [|done]. cbn [mbind option_bind].
  intros Hsplit. exists b.
  assert (Hgd : exists gd1,
            (if local_depth_ b =? global_depth_ ht
             then int_checked (global_depth_ ht + 1)
             else Some (global_depth_ ht)) = Some gd1
            /\ gd1 = if local_depth_ b =? global_depth_ ht
                     then global_depth_ ht + 1 else global_depth_ ht).
  { destruct (local_depth_ b =? global_depth_ ht); [|by eexists].
    destruct (int_checked (global_depth_ ht + 1)) as [gd1|] eqn:Hc; [|done].
    apply int_checked_Some in Hc as [-> _]. by eexists. }
  destruct Hgd as (gd1 & Hgd1 & Heq). rewrite Hgd1 in Hsplit.
  cbn [mbind option_bind] in Hsplit.
  destruct (int_checked (local_depth_ b + 1)) as [nld|] eqn:Hnld; [|done].
  apply int_checked_Some in Hnld as [-> _]. cbn [mbind option_bind] in Hsplit.
  destruct (int_checked (num_buckets_ ht + 1)) as [n|]; [|done].
  cbn [mbind option_bind] in Hsplit. rewrite Z.add_simpl_r in Hsplit.
  destruct (int_shl1 (local_depth_ b)) as [mask|] eqn:Hm; [|done].
  apply int_shl1_Some in Hm as [Hd ->]. cbn [mbind option_bind] in Hsplit.
  destruct (rehash _ _ _ _ _ _) as [[kept nb']|] eqn:Hr; [|done].
  cbn in Hsplit. injection Hsplit as <-. subst gd1.
  exists kept, nb', n. cbn. done.
Qed.

(** [SplitBucket] keeps the directory invariant. *)
Lemma SplitBucket_dir_inv bucket ht ht' :
  dir_inv ht -> SplitBucket hash bucket ht = Some ht' -> dir_inv ht'.
Proof.
  intros Hinv (b & kept & nb' & n & Hb & Hd & Hr & ->)%SplitBucket_Some.
  apply rehash_spec in Hr as (_ & Hld & _). cbn in Hld.
  pose proof (inv_local ht Hinv bucket b Hb) as Hlocal.
  destruct (Z.eqb_spec (local_depth_ b) (global_depth_ ht)) as [Heq|Hne].
  - apply (repoint_dir_inv _ _ b _ _ (double_dir_inv ht Hinv)); cbn;
      try done; lia.
  - apply (repoint_dir_inv ht _ b _ _ Hinv); cbn; try done; lia.
Qed.

Lemma set_heap_keys_distinct ht p b' :
  keys_distinct ht -> NoDup (map fst (kv_pairs_ b')) ->
  keys_distinct (set_heap (<[p := b']> (heap ht)) ht).
Proof.
  intros Hk Hb' q c. cbn. destruct (decide (q = p)) as [->|Hne].
  - intros Hc. pose proof (lookup_lt_Some _ _ _ Hc) as Hlt.
    rewrite length_insert in Hlt.
    rewrite list_lookup_insert_eq in Hc by done. by injection Hc as <-.
  - rewrite list_lookup_insert_ne by done. apply Hk.
Qed.

Lemma SplitBucket_keys_distinct bucket ht ht' :
  keys_distinct ht -> SplitBucket hash bucket ht = Some ht' ->
  keys_distinct ht'.
Proof.
  intros Hk (b & kept & nb' & n & Hb & Hd & Hr & ->)%SplitBucket_Some.
  apply rehash_spec in Hr as (Hsub & _ & _ & Hnd). cbn in Hsub, Hnd.
  pose proof (lookup_lt_Some _ _ _ Hb) as Hlt.
  intros q c. cbn. intros [Hq|[Hle Hq]]%lookup_app_Some.
  - destruct (decide (q = bucket)) as [->|Hne].
    + rewrite list_lookup_insert_eq in Hq by done. injection Hq as <-.
      cbn. eapply sublist_keys_NoDup; [exact Hsub|]. by apply (Hk bucket).
    + rewrite list_lookup_insert_ne in Hq by done. by apply (Hk q).
  - destruct (q - _)%nat; [|done]. cbn in Hq. injection Hq as <-.
    apply Hnd. constructor.
Qed.

(** [Insert] keeps the invariants; when it returns, the global depth is in
    the range where [IndexOf] is defined. *)
Lemma Insert_inv fuel key value : forall ht ht',
  dir_inv ht -> keys_distinct ht ->
  Insert hash fuel key value ht = Some ht' ->
  dir_inv ht' /\ keys_distinct ht' /\ global_depth_ ht' <= 30.
Proof.
  induction fuel as [|fuel IH]; intros ht ht' Hinv Hk; cbn [Insert]; [done|].
  destruct (IndexOf hash (global_depth_ ht) key) as [index|] eqn:Hi;
    [|done]. cbn [mbind option_bind].
  apply IndexOf_Some in Hi as [Hgd _].
  destruct (dir_ ht !! Z.to_nat index) as [p|] eqn:Hp; [|done]. cbn.
  destruct (heap ht !! p) as [b|] eqn:Hb; [|done]. cbn.
  destruct (Bucket_Insert key value b) as [ok b'] eqn:Hins.
  destruct (Bucket_Insert_snd key value b) as (Hld & _ & Hnd).
  rewrite Hins in Hld, Hnd. cbn in Hld, Hnd. destruct ok.
  - intros [= <-]. split; [by eapply set_heap_dir_inv|].
    split; [|cbn; lia].
    apply set_heap_keys_distinct; [done|]. by apply Hnd, (Hk p).
  - destruct (SplitBucket hash p ht) as [ht1|] eqn:Hs; [|done]. cbn.
    apply IH.
    + by eapply SplitBucket_dir_inv.
    + by eapply SplitBucket_keys_distinct.
Qed.

Lemma Remove_inv key ht found ht' :
  dir_inv ht -> keys_distinct ht ->
  Remove hash key ht = Some (found, ht') ->
  dir_inv ht' /\ keys_distinct ht'
  /\ global_depth_ ht' = global_depth_ ht.
Proof.
  intros Hinv Hk. unfold Remove.
  destruct (IndexOf hash (global_depth_ ht) key) as [index|]; [|done].
  cbn [mbind option_bind].
  destruct (_ <=? _); [by intros [= _ <-]|].
  destruct (dir_ ht !! Z.to_nat index) as [p|] eqn:Hp; [|done]. cbn.
  destruct (heap ht !! p) as [b|] eqn:Hb; [|done]. cbn.
  unfold Bucket_Remove.
  pose proof (kv_remove_sublist key (kv_pairs_ b)) as Hsub.
  destruct (kv_remove key (kv_pairs_ b)) as [f l]. cbn in Hsub.
  intros [= _ <-]. split; [by eapply set_heap_dir_inv|]. split; [|done].
  apply set_heap_keys_distinct; [done|]. cbn.
  eapply sublist_keys_NoDup; [exact Hsub|]. by apply (Hk p).
Qed.

Lemma table_reachable_inv ht :
  table_reachable hash ht ->
  dir_inv ht /\ keys_distinct ht /\ global_depth_ ht <= 30.
Proof.
  induction 1 as [bs|fuel key value ht ht' _ (Hinv & Hk & _) Hins
                    |key ht found ht' _ (Hinv & Hk & Hgd) Hrem
                    |key ht found _ IH _].
  - split; [apply new_dir_inv|]. split; [|cbn; lia].
    intros [|p] b; cbn; [|done]. intros [= <-]. cbn. constructor.
  - by eapply Insert_inv.
  - destruct (Remove_inv _ _ _ _ Hinv Hk Hrem) as (? & ? & ->). done.
  - exact IH.
Qed.

Lemma table_reachable_wf ht : table_reachable hash ht -> table_wf ht.
Proof.
  intros (Hinv & Hk & Hgd)%table_reachable_inv. by split.
Qed.

Lemma kv_find_remove key l :
  NoDup (map fst l) -> kv_find key (kv_remove key l).2 = None.
Proof.
  induction l as [|[k v] l IH]; cbn [kv_remove kv_find map fst]; [done|].
  rewrite list.NoDup_cons. intros [Hk Hnd].
  destruct (decide (k = key)) as [->|Hne]; cbn.
  - by apply kv_find_None.
  - specialize (IH Hnd). destruct (kv_remove key l) as [found r]. cbn in *.
    by rewrite decide_False.
Qed.

(** *** The values of the table *)

Section Values.

Variable P : V -> Prop.

Lemma kv_find_value key l v :
  Forall (fun kv => P kv.2) l -> kv_find key l = Some v -> P v.
Proof.
  induction 1 as [|[k w] l Hw _ IH]; cbn; [done|].
  destruct (decide (k = key)); [by intros [= <-]|exact IH].
Qed.

Lemma kv_overwrite_values key value l :
  P value -> Forall (fun kv => P kv.2) l ->
  Forall (fun kv => P kv.2) (kv_overwrite key value l).2.
Proof.
  intros Hv. induction 1 as [|[k w] l Hw Hall IH]; cbn; [constructor|].
  destruct (decide (k = key)); cbn; [by constructor|].
  destruct (kv_overwrite key value l) as [found r]. cbn in *.
  by constructor.
Qed.

Lemma Bucket_Insert_values key value b :
  P value -> Forall (fun kv => P kv.2) (kv_pairs_ b) ->
  Forall (fun kv => P kv.2) (kv_pairs_ (Bucket_Insert key value b).2).
Proof.
  intros Hv Hall. unfold Bucket_Insert.
  pose proof (kv_overwrite_values key value _ Hv Hall) as How.
  destruct (kv_overwrite key value (kv_pairs_ b)) as [[] l]; cbn in *;
    [done|].
  destruct (IsFull b); cbn; [done|].
  apply Forall_app. split; [done|]. by apply Forall_singleton.
Qed.

Lemma rehash_values dir gd nbk l : forall nb kept nb',
  Forall (fun kv => P kv.2) l ->
  Forall (fun kv => P kv.2) (kv_pairs_ nb) ->
  rehash hash dir gd nbk l nb = Some (kept, nb') ->
  Forall (fun kv => P kv.2) kept
  /\ Forall (fun kv => P kv.2) (kv_pairs_ nb').
Proof.
  induction l as [|[key value] l IH]; intros nb kept nb' Hl Hnb;
    cbn [rehash].
  - by intros [= <- <-].
  - apply list.Forall_cons in Hl as [Hv Hl]. cbn in Hv.
    destruct (IndexOf hash gd key) as [index|]; [|done]. cbn.
    destruct (dir !! Z.to_nat index) as [p|]; [|done]. cbn.
    destruct (p =? nbk)%nat.
    + apply IH; [done|]. by apply Bucket_Insert_values.
    + destruct (rehash hash dir gd nbk l nb) as [[kept0 nb0]|] eqn:Hr;
        [|done].
      cbn. intros [= <- <-]. destruct (IH _ _ _ Hl Hnb Hr) as [? ?].
      split; [by constructor|done].
Qed.

Lemma SplitBucket_values bucket ht ht' :
  values_in P ht -> SplitBucket hash bucket ht = Some ht' ->
  values_in P ht'.
Proof.
  intros Hval (b & kept & nb' & n & Hb & Hd & Hr & ->)%SplitBucket_Some.
  apply rehash_values in Hr as [Hkept Hnb]; cbn;
    [|by apply (Hval bucket)|constructor].
  pose proof (lookup_lt_Some _ _ _ Hb) as Hlt.
  intros q c. cbn. intros [Hq|[Hle Hq]]%lookup_app_Some.
  - destruct (decide (q = bucket)) as [->|Hne].
    + rewrite list_lookup_insert_eq in Hq by done. by injection Hq as <-.
    + rewrite list_lookup_insert_ne in Hq by done. by apply (Hval q).
  - destruct (q - _)%nat; [|done]. cbn in Hq. by injection Hq as <-.
Qed.

Lemma set_heap_values ht p b' :
  values_in P ht -> Forall (fun kv => P kv.2) (kv_pairs_ b') ->
  values_in P (set_heap (<[p := b']> (heap ht)) ht).
Proof.
  intros Hval Hb' q c. cbn. destruct (decide (q = p)) as [->|Hne].
  - intros Hc. pose proof (lookup_lt_Some _ _ _ Hc) as Hlt.
    rewrite length_insert in Hlt.
    rewrite list_lookup_insert_eq in Hc by done. by injection Hc as <-.
  - rewrite list_lookup_insert_ne by done. apply Hval.
Qed.

Lemma Insert_values fuel key value : forall ht ht',
  P value -> values_in P ht ->
  Insert hash fuel key value ht = Some ht' -> values_in P ht'.
Proof.
  induction fuel as [|fuel IH]; intros ht ht' Hv Hval; cbn [Insert]; [done|].
  destruct (IndexOf hash (global_depth_ ht) key) as [index|]; [|done].
  cbn [mbind option_bind].
  destruct (dir_ ht !! Z.to_nat index) as [p|]; [|done]. cbn.
  destruct (heap ht !! p) as [b|] eqn:Hb; [|done]. cbn.
  pose proof (Bucket_Insert_values key value b Hv (Hval p b Hb)) as Hins.
  destruct (Bucket_Insert key value b) as [[] b']; cbn in Hins.
  - intros [= <-]. by apply set_heap_values.
  - destruct (SplitBucket hash p ht) as [ht1|] eqn:Hs; [|done]. cbn.
    apply IH; [done|]. by eapply SplitBucket_values.
Qed.

Lemma Remove_values key ht found ht' :
  values_in P ht -> Remove hash key ht = Some (found, ht') ->
  values_in P ht'.
Proof.
  intros Hval. unfold Remove.
  destruct (IndexOf hash (global_depth_ ht) key) as [index|]; [|done].
  cbn [mbind option_bind].
  destruct (_ <=? _); [by intros [= _ <-]|].
  destruct (dir_ ht !! Z.to_nat index) as [p|]; [|done]. cbn.
  destruct (heap ht !! p) as [b|] eqn:Hb; [|done]. cbn.
  unfold Bucket_Remove.
  pose proof (kv_remove_sublist key (kv_pairs_ b)) as Hsub.
  destruct (kv_remove key (kv_pairs_ b)) as [f l]. cbn in Hsub.
  intros [= _ <-]. apply set_heap_values; [done|]. cbn.
  apply Forall_forall. intros kv Hkv.
  pose proof (Hval p b Hb) as Hall. rewrite Forall_forall in Hall.
  apply Hall. by eapply elem_of_sublist.
Qed.

Lemma Find_value key ht v :
  values_in P ht -> Find hash key ht = Some (Some v) -> P v.
Proof.
  intros Hval. unfold Find.
  destruct (IndexOf hash (global_depth_ ht) key) as [index|]; [|done].
  cbn [mbind option_bind]. destruct (_ <=? _); [done|].
  destruct (dir_ ht !! Z.to_nat index) as [p|]; [|done]. cbn.
  destruct (heap ht !! p) as [b|] eqn:Hb; [|done]. cbn.
  intros [= Hf]. eapply kv_find_value; [|exact Hf]. by apply (Hval p).
Qed.

End Values.

Lemma new_table_wf bucket_size : table_wf (new_ (K:=K) (V:=V) bucket_size).
Proof.
  split; [apply new_dir_inv|cbn; lia|].
  intros [|p] b; cbn; [|done]. intros [= <-]. cbn. constructor.
Qed.

Lemma new_values (P : V -> Prop) bucket_size :
  values_in P (new_ (K:=K) (V:=V) bucket_size).
Proof. intros [|p] b; cbn; [|done]. intros [= <-]. cbn. constructor. Qed.

(** On a well-formed table [Find] returns. *)
Lemma Find_total key ht :
  table_wf ht -> exists found, Find hash key ht = Some found.
Proof.
  intros [Hinv Hgd Hk]. unfold Find.
  pose proof (inv_depth ht Hinv) as Hd.
  destruct (IndexOf hash (global_depth_ ht) key) as [index|] eqn:Hi.
  2:{ unfold IndexOf, int_shl1 in Hi.
      destruct (Z.leb_spec 0 (global_depth_ ht)),
        (Z.leb_spec (global_depth_ ht) 30); cbn in Hi; done || lia. }
  cbn. destruct (_ <=? _); [by eexists|].
  apply IndexOf_Some in Hi as [_ Hindex].
  destruct (lookup_lt_is_Some_2 (dir_ ht) (Z.to_nat index)) as [p Hp].
  { pose proof (inv_size ht Hinv). lia. }
  rewrite Hp. cbn.
  destruct (lookup_lt_is_Some_2 (heap ht) p) as [b Hb];
    [by apply (inv_alloc ht Hinv _ _ Hp)|].
  rewrite Hb. cbn. by eexists.
Qed.

(** On a well-formed table [Remove] returns, the table stays well formed,
    and the key is no longer found. *)
Lemma Remove_total key ht :
  table_wf ht ->
  exists found ht',
    Remove hash key ht = Some (found, ht')
    /\ table_wf ht'
    /\ Find hash key ht' = Some None.
Proof.
  intros Hwf. pose proof Hwf as [Hinv Hgd Hk]. unfold Remove, Find.
  pose proof (inv_depth ht Hinv) as Hd.
  destruct (IndexOf hash (global_depth_ ht) key) as [index|] eqn:Hi.
  2:{ unfold IndexOf, int_shl1 in Hi.
      destruct (Z.leb_spec 0 (global_depth_ ht)),
        (Z.leb_spec (global_depth_ ht) 30); cbn in Hi; done || lia. }
  cbn [mbind option_bind].
  pose proof (IndexOf_Some _ _ _ Hi) as [_ Hindex].
  pose proof (inv_size ht Hinv) as Hsz.
  destruct (Z.leb_spec (Z.of_nat (length (dir_ ht))) index) as [|_]; [lia|].
  destruct (lookup_lt_is_Some_2 (dir_ ht) (Z.to_nat index)) as [p Hp];
    [lia|].
  rewrite Hp. cbn [mbind option_bind].
  pose proof (inv_alloc ht Hinv _ _ Hp) as Hlt.
  destruct (lookup_lt_is_Some_2 (heap ht) p Hlt) as [b Hb].
  rewrite Hb. cbn [mbind option_bind]. unfold Bucket_Remove.
  pose proof (kv_remove_sublist key (kv_pairs_ b)) as Hsub.
  pose proof (kv_find_remove key (kv_pairs_ b) (Hk p b Hb)) as Hgone.
  destruct (kv_remove key (kv_pairs_ b)) as [found l]. cbn in Hsub, Hgone.
  eexists _, _. split; [reflexivity|]. split.
  - split; cbn; [by eapply set_heap_dir_inv|done|].
    apply set_heap_keys_distinct; [done|]. cbn.
    eapply sublist_keys_NoDup; [exact Hsub|]. by apply (Hk p).
  - cbn. rewrite Hi. cbn.
    destruct (Z.leb_spec (Z.of_nat (length (dir_ ht))) index) as [|_]; [lia|].
    rewrite Hp. cbn. rewrite list_lookup_insert_eq by done. cbn.
    unfold Bucket_Find. cbn. by rewrite Hgone.
Qed.

Lemma table_Insert_wf fuel key value ht ht' :
  table_wf ht -> Insert hash fuel key value ht = Some ht' -> table_wf ht'.
Proof.
  intros [Hinv Hgd Hk] Hins.
  destruct (Insert_inv _ _ _ _ _ Hinv Hk Hins) as (? & ? & ?). by split.
Qed.

Lemma table_Remove_wf key ht found ht' :
  table_wf ht -> Remove hash key ht = Some (found, ht') -> table_wf ht'.
Proof.
  intros [Hinv Hgd Hk] Hrem.
  destruct (Remove_inv _ _ _ _ Hinv Hk Hrem) as (? & ? & Heq).
  split; [done| |done]. by rewrite Heq.
Qed.

(** C7. In every state reached from a new table by [Insert], [Remove] and
    [Find], the directory slots that hold one bucket are congruent modulo
    two to the power of the local depth of that bucket. *)
Theorem directory_congruence ht i j p b :
  table_reachable hash ht ->
  dir_ ht !! i = Some p ->
  dir_ ht !! j = Some p ->
  heap ht !! p = Some b ->
  Z.of_nat i mod 2 ^ local_depth_ b = Z.of_nat j mod 2 ^ local_depth_ b.
Proof.
  intros (Hinv & _)%table_reachable_inv. apply (inv_congr ht Hinv).
Qed.

End TableInvariant.

(** * Properties of the buffer pool manager *)

Section PoolFacts.

Import BufferPoolManagerInstance.

Variable hash : page_id_t -> Z.

Implicit Types (s : BufferPoolManagerInstance.t) (ps : list Page).
Implicit Types (f g : frame_id_t) (p : Page).

Lemma page_at_Some f ps p :
  page_at f ps = Some p ->
  0 <= f /\ (Z.to_nat f < length ps)%nat /\ ps !! Z.to_nat f = Some p.
Proof.
  unfold page_at. destruct (Z.ltb_spec f 0); [done|]. intros Hp.
  split; [done|]. split; [by apply lookup_lt_Some in Hp|done].
Qed.

Lemma page_at_store_eq f ps p p' :
  page_at f ps = Some p -> page_at f (<[Z.to_nat f := p']> ps) = Some p'.
Proof.
  intros (H0 & Hlt & _)%page_at_Some. unfold page_at.
  destruct (Z.ltb_spec f 0); [lia|]. by apply list_lookup_insert_eq.
Qed.

Lemma page_at_store_ne f g ps p' :
  0 <= f -> g <> f -> page_at g (<[Z.to_nat f := p']> ps) = page_at g ps.
Proof.
  intros H0 Hne. unfold page_at. destruct (Z.ltb_spec g 0); [done|].
  apply list_lookup_insert_ne. lia.
Qed.

(** ** The replacer, one frame at a time *)

Lemma RecordAccess_find f r r' :
  LRUKReplacer.RecordAccess f r = Some r' ->
  (exists fi,
     LRUKReplacer.fm_find f (LRUKReplacer.frame_map_ r') = Some fi
     /\ LRUKReplacer.evictable fi
        = LRUKReplacer.evictable
            (default LRUKReplacer.FrameInfo_default
               (LRUKReplacer.fm_find f (LRUKReplacer.frame_map_ r))))
  /\ (forall g, g <> f ->
      LRUKReplacer.fm_find g (LRUKReplacer.frame_map_ r')
      = LRUKReplacer.fm_find g (LRUKReplacer.frame_map_ r))
  /\ LRUKReplacer.replacer_size_ r' = LRUKReplacer.replacer_size_ r.
Proof.
  unfold LRUKReplacer.RecordAccess. destruct (_ <? _); [|done].
  intros [= <-]. cbn. rewrite fm_find_access_eq. split; [by eexists|].
  split; [|done]. intros g Hg. by apply fm_find_access_ne.
Qed.

Lemma SetEvictable_find f b r :
  size_t f < LRUKReplacer.replacer_size_ r ->
  exists r',
    LRUKReplacer.SetEvictable f b r = Some r'
    /\ (forall fi,
          LRUKReplacer.fm_find f (LRUKReplacer.frame_map_ r) = Some fi ->
          exists fi',
            LRUKReplacer.fm_find f (LRUKReplacer.frame_map_ r') = Some fi'
            /\ LRUKReplacer.evictable fi' = b)
    /\ (LRUKReplacer.fm_find f (LRUKReplacer.frame_map_ r) = None ->
        LRUKReplacer.fm_find f (LRUKReplacer.frame_map_ r') = None)
    /\ (forall g, g <> f ->
        LRUKReplacer.fm_find g (LRUKReplacer.frame_map_ r')
        = LRUKReplacer.fm_find g (LRUKReplacer.frame_map_ r))
    /\ LRUKReplacer.replacer_size_ r' = LRUKReplacer.replacer_size_ r.
Proof.
  intros Hrange. unfold LRUKReplacer.SetEvictable.
  destruct (Z.ltb_spec (size_t f) (LRUKReplacer.replacer_size_ r)); [|lia].
  destruct (LRUKReplacer.fm_find f (LRUKReplacer.frame_map_ r))
    as [fi|] eqn:Hf.
  - destruct (eqb (LRUKReplacer.evictable fi) b) eqn:Heq.
    + apply eqb_prop in Heq. exists r. split; [done|].
      split; [|split; [done|done]].
      intros fi' Hfi'. exists fi. split; [done|]. congruence.
    + eexists. split; [reflexivity|]. cbn. rewrite fm_find_access_eq, Hf.
      split; [|split; [done|split; [|done]]].
      * intros _ _. by eexists.
      * intros g Hg. by apply fm_find_access_ne.
  - exists r. split; [done|]. split; [done|]. done.
Qed.

Lemma SetEvictable_find_inv f b r r' :
  LRUKReplacer.SetEvictable f b r = Some r' ->
  size_t f < LRUKReplacer.replacer_size_ r.
Proof.
  unfold LRUKReplacer.SetEvictable.
  by destruct (Z.ltb_spec (size_t f) (LRUKReplacer.replacer_size_ r)).
Qed.

Lemma Remove_find f r r' :
  LRUKReplacer.Remove f r = Some r' ->
  LRUKReplacer.fm_find f (LRUKReplacer.frame_map_ r') = None
  /\ (forall g, g <> f ->
      LRUKReplacer.fm_find g (LRUKReplacer.frame_map_ r')
      = LRUKReplacer.fm_find g (LRUKReplacer.frame_map_ r))
  /\ LRUKReplacer.replacer_size_ r' = LRUKReplacer.replacer_size_ r.
Proof.
  unfold LRUKReplacer.Remove. destruct (_ <? _); [|done].
  destruct (LRUKReplacer.fm_find f (LRUKReplacer.frame_map_ r))
    as [fi|] eqn:Hf.
  - destruct (LRUKReplacer.evictable fi); [|done]. intros [= <-]. cbn.
    split; [apply fm_find_erase_eq|]. split; [|done].
    intros g Hg. by apply fm_find_erase_ne.
  - by intros [= <-].
Qed.

Lemma Evict_find r res r' :
  LRUKReplacer.Evict r = Some (res, r') ->
  match res with
  | Some v =>
      LRUKReplacer.fm_find v (LRUKReplacer.frame_map_ r') = None
      /\ (forall g, g <> v ->
          LRUKReplacer.fm_find g (LRUKReplacer.frame_map_ r')
          = LRUKReplacer.fm_find g (LRUKReplacer.frame_map_ r))
  | None => r' = r /\ LRUKReplacer.curr_size_ r = 0
  end
  /\ LRUKReplacer.replacer_size_ r' = LRUKReplacer.replacer_size_ r.
Proof.
  unfold LRUKReplacer.Evict.
  destruct (Z.eqb_spec (LRUKReplacer.curr_size_ r) 0).
  - by intros [= <- <-].
  - destruct (LRUKReplacer.scan _ _ _ _) as [st|]; [|done]. cbn.
    destruct (_ =? _); [done|]. intros [= <- <-]. cbn.
    split; [|done]. split; [apply fm_find_erase_eq|].
    intros g Hg. by apply fm_find_erase_ne.
Qed.

(** ** [FlushAllPgsImp] *)

Lemma flush_all_loop_spec ps d :
  flush_all_loop ps d
  = (map (fun p => if needs_flush p then set_dirty false p else p) ps,
     {| writes_ := writes_ d
                   ++ map (fun p => (page_id_ p, data_ p))
                        (List.filter needs_flush ps) |}).
Proof.
  revert d. induction ps as [|p ps IH]; intros [w]; cbn.
  - by rewrite app_nil_r.
  - unfold needs_flush at 1 2. fold (needs_flush p).
    destruct (needs_flush p) eqn:Hp; rewrite IH; cbn.
    + by rewrite <- app_assoc.
    + done.
Qed.

(** C9. [FlushAllPgsImp] appends to the disk, in frame order, the buffers
    of exactly the frames whose page id is valid and whose dirty flag is
    set, and clears the dirty flag of each of them; nothing else changes.
    Afterwards no frame needs flushing, so a repeated call changes nothing:
    it performs no disk write. *)
Theorem FlushAllPgsImp_spec s :
  let s' := FlushAllPgsImp s in
  writes_ (disk_manager_ s')
  = writes_ (disk_manager_ s)
    ++ map (fun p => (page_id_ p, data_ p))
         (List.filter needs_flush (pages_ s))
  /\ pages_ s'
     = map (fun p => if needs_flush p then set_dirty false p else p)
         (pages_ s)
  /\ page_table_ s' = page_table_ s
  /\ replacer_ s' = replacer_ s
  /\ free_list_ s' = free_list_ s
  /\ next_page_id_ s' = next_page_id_ s
  /\ deallocated_ s' = deallocated_ s
  /\ Forall (fun p => needs_flush p = false) (pages_ s')
  /\ FlushAllPgsImp s' = s'
  /\ writes_ (disk_manager_ (FlushAllPgsImp s'))
     = writes_ (disk_manager_ s').
Proof.
  assert (Hclean : forall ps,
            Forall (fun p => needs_flush p = false)
              (map (fun p => if needs_flush p then set_dirty false p else p)
                 ps)).
  { intros ps. apply Forall_fmap, Forall_forall. intros p _. cbn.
    destruct (needs_flush p) eqn:Hp; [|done].
    unfold needs_flush. cbn. apply andb_false_r. }
  assert (Hidem : forall ps d,
            Forall (fun p => needs_flush p = false) ps ->
            flush_all_loop ps d = (ps, d)).
  { intros ps [w] Hall. rewrite flush_all_loop_spec. cbn.
    induction Hall as [|p ps Hp _ IH]; cbn; [by rewrite app_nil_r|].
    rewrite Hp. injection IH as IH1 IH2. by rewrite IH1, IH2. }
  unfold FlushAllPgsImp. rewrite flush_all_loop_spec. cbn.
  do 7 (split; [done|]). split; [apply Hclean|].
  rewrite Hidem by apply Hclean. cbn. done.
Qed.

(** ** [UnpinPgImp] *)

(** C4. [UnpinPgImp] returns false and leaves the pool as it is when the
    page is not resident and when it is resident with a pin count that is
    zero (or less).  Otherwise it returns true: the pin count of the frame
    is decremented, its dirty flag becomes the disjunction of [is_dirty]
    with the old flag, and the replacer is told [SetEvictable (f, true)]
    exactly when the new pin count is zero, after which a record of the
    frame is evictable; nothing else changes. *)
Theorem UnpinPgImp_spec s page_id is_dirty :
  (ExtendibleHashTable.Find hash page_id (page_table_ s) = Some None ->
   UnpinPgImp hash page_id is_dirty s = Some (false, s))
  /\ (forall f p,
        ExtendibleHashTable.Find hash page_id (page_table_ s)
        = Some (Some f) ->
        page_at f (pages_ s) = Some p ->
        pin_count_ p <= 0 ->
        UnpinPgImp hash page_id is_dirty s = Some (false, s))
  /\ (forall f p,
        ExtendibleHashTable.Find hash page_id (page_table_ s)
        = Some (Some f) ->
        page_at f (pages_ s) = Some p ->
        0 < pin_count_ p ->
        size_t f < LRUKReplacer.replacer_size_ (replacer_ s) ->
        exists s',
          UnpinPgImp hash page_id is_dirty s = Some (true, s')
          /\ pages_ s'
             = <[Z.to_nat f :=
                   {| data_ := data_ p; page_id_ := page_id_ p;
                      pin_count_ := pin_count_ p - 1;
                      is_dirty_ := is_dirty || is_dirty_ p |}]> (pages_ s)
          /\ (pin_count_ p - 1 = 0 ->
              LRUKReplacer.SetEvictable f true (replacer_ s)
              = Some (replacer_ s')
              /\ forall fi,
                   LRUKReplacer.fm_find f
                     (LRUKReplacer.frame_map_ (replacer_ s)) = Some fi ->
                   holds_evictable (replacer_ s') f)
          /\ (pin_count_ p - 1 <> 0 -> replacer_ s' = replacer_ s)
          /\ page_table_ s' = page_table_ s
          /\ free_list_ s' = free_list_ s
          /\ next_page_id_ s' = next_page_id_ s
          /\ disk_manager_ s' = disk_manager_ s
          /\ deallocated_ s' = deallocated_ s).
Proof.
  unfold UnpinPgImp. split; [|split].
  - by intros ->.
  - intros f p -> Hp Hpin. cbn. rewrite Hp. cbn.
    by destruct (Z.leb_spec (pin_count_ p) 0); [|lia].
  - intros f p -> Hp Hpin Hrange. cbn. rewrite Hp. cbn.
    destruct (Z.leb_spec (pin_count_ p) 0); [lia|].
    assert (Hpage :
      (if is_dirty then set_dirty true (set_pin_count (pin_count_ p - 1) p)
       else set_pin_count (pin_count_ p - 1) p)
      = {| data_ := data_ p; page_id_ := page_id_ p;
           pin_count_ := pin_count_ p - 1;
           is_dirty_ := is_dirty || is_dirty_ p |}).
    { by destruct is_dirty. }
    rewrite Hpage. cbn [pin_count_].
    destruct (Z.eqb_spec (pin_count_ p - 1) 0) as [Hz|Hnz].
    + destruct (SetEvictable_find f true (replacer_ s)) as (r & Hr & Hrec & _);
        [done|].
      cbn [store_page set_pages replacer_]. rewrite Hr. cbn.
      eexists. split; [reflexivity|]. cbn.
      split; [done|]. split; [|split; [done|done]].
      intros _. split; [done|]. intros fi Hfi.
      destruct (Hrec fi Hfi) as (fi' & ? & ?). by exists fi'.
    + eexists. split; [reflexivity|]. cbn.
      split; [done|]. split; [done|]. done.
Qed.

(** ** [DeletePgImp] *)

Lemma Remove_returns f r :
  size_t f < LRUKReplacer.replacer_size_ r ->
  (forall fi,
     LRUKReplacer.fm_find f (LRUKReplacer.frame_map_ r) = Some fi ->
     LRUKReplacer.evictable fi = true) ->
  exists r', LRUKReplacer.Remove f r = Some r'.
Proof.
  intros Hrange Hev. unfold LRUKReplacer.Remove.
  destruct (Z.ltb_spec (size_t f) (LRUKReplacer.replacer_size_ r)); [|lia].
  destruct (LRUKReplacer.fm_find f (LRUKReplacer.frame_map_ r)) as [fi|];
    [|by eexists].
  rewrite (Hev fi eq_refl). by eexists.
Qed.

(** C5. [DeletePgImp] on a page that is not resident deallocates the
    identifier and returns true; on a resident page with a positive pin
    count it returns false and leaves the pool as it is; otherwise (the
    table being well formed, and the replacer holding the frame, if at all,
    as evictable) it returns true after: writing the buffer to disk if the
    frame is dirty; removing the page from the page table and the frame
    from the replacer; resetting the frame to the sentinel id, pin count
    zero, clean, zeroed buffer; appending the frame to the free list; and
    deallocating the identifier. *)
Theorem DeletePgImp_spec s page_id :
  (ExtendibleHashTable.Find hash page_id (page_table_ s) = Some None ->
   DeletePgImp hash page_id s = Some (true, DeallocatePage page_id s)
   /\ deallocated_ (DeallocatePage page_id s) = deallocated_ s ++ [page_id])
  /\ (forall f p,
        ExtendibleHashTable.Find hash page_id (page_table_ s)
        = Some (Some f) ->
        page_at f (pages_ s) = Some p ->
        0 < pin_count_ p ->
        DeletePgImp hash page_id s = Some (false, s))
  /\ (forall f p,
        ExtendibleHashTable.Find hash page_id (page_table_ s)
        = Some (Some f) ->
        page_at f (pages_ s) = Some p ->
        pin_count_ p <= 0 ->
        table_wf (page_table_ s) ->
        size_t f < LRUKReplacer.replacer_size_ (replacer_ s) ->
        (forall fi,
           LRUKReplacer.fm_find f (LRUKReplacer.frame_map_ (replacer_ s))
           = Some fi ->
           LRUKReplacer.evictable fi = true) ->
        exists s' found,
          DeletePgImp hash page_id s = Some (true, s')
          /\ writes_ (disk_manager_ s')
             = writes_ (disk_manager_ s)
               ++ (if is_dirty_ p then [(page_id, data_ p)] else [])
          /\ ExtendibleHashTable.Remove hash page_id (page_table_ s)
             = Some (found, page_table_ s')
          /\ ExtendibleHashTable.Find hash page_id (page_table_ s')
             = Some None
          /\ LRUKReplacer.Remove f (replacer_ s) = Some (replacer_ s')
          /\ LRUKReplacer.fm_find f
               (LRUKReplacer.frame_map_ (replacer_ s')) = None
          /\ pages_ s'
             = <[Z.to_nat f :=
                   {| data_ := zeroed (data_ p);
                      page_id_ := INVALID_PAGE_ID;
                      pin_count_ := 0;
                      is_dirty_ := false |}]> (pages_ s)
          /\ free_list_ s' = free_list_ s ++ [f]
          /\ deallocated_ s' = deallocated_ s ++ [page_id]
          /\ next_page_id_ s' = next_page_id_ s).
Proof.
  unfold DeletePgImp. split; [|split].
  - by intros ->.
  - intros f p -> Hp Hpin. cbn. rewrite Hp. cbn.
    by destruct (Z.ltb_spec 0 (pin_count_ p)); [|lia].
  - intros f p -> Hp Hpin Hwf Hrange Hev. cbn. rewrite Hp. cbn.
    destruct (Z.ltb_spec 0 (pin_count_ p)); [lia|].
    destruct (Remove_total hash page_id (page_table_ s) Hwf)
      as (found & pt & Hrem & _ & Hgone).
    destruct (Remove_returns f (replacer_ s) Hrange Hev) as (r & Hr).
    pose proof (Remove_find _ _ _ Hr) as (Hnone & _).
    assert (Hpt : page_table_
              (if is_dirty_ p
               then set_disk_manager
                      (WritePage page_id (data_ p) (disk_manager_ s)) s
               else s) = page_table_ s) by (by destruct (is_dirty_ p)).
    assert (Hrp : replacer_
              (if is_dirty_ p
               then set_disk_manager
                      (WritePage page_id (data_ p) (disk_manager_ s)) s
               else s) = replacer_ s) by (by destruct (is_dirty_ p)).
    rewrite Hpt, Hrem. cbn. rewrite Hrp, Hr. cbn.
    eexists _, found. split; [reflexivity|]. cbn.
    destruct (is_dirty_ p); cbn; rewrite ?app_nil_r; done.
Qed.

(** ** Frame acquisition in [NewPgImp] and [FetchPgImp] *)

Lemma set_replacer_same s : set_replacer (replacer_ s) s = s.
Proof. by destruct s. Qed.

End PoolFacts.

(** ** Pin counts and evictability *)

Section PinInvariant.

Import BufferPoolManagerInstance.

Variable hash : page_id_t -> Z.

Implicit Types (s : BufferPoolManagerInstance.t) (ps : list Page).
Implicit Types (f g : frame_id_t) (p : Page) (r : LRUKReplacer.t).

Lemma pin_inv_at_ext ps r ps' r' g :
  page_at g ps' = page_at g ps ->
  LRUKReplacer.fm_find g (LRUKReplacer.frame_map_ r')
  = LRUKReplacer.fm_find g (LRUKReplacer.frame_map_ r) ->
  pin_inv_at ps r g -> pin_inv_at ps' r' g.
Proof. unfold pin_inv_at. intros -> ->. done. Qed.

(** The frame that an operation pins: its pin count is positive and the
    replacer is told of an access and of non-evictability. *)
Lemma pin_inv_pinned ps r f p0 p' r1 r2 :
  page_at f ps = Some p0 ->
  0 < pin_count_ p' ->
  LRUKReplacer.RecordAccess f r = Some r1 ->
  LRUKReplacer.SetEvictable f false r1 = Some r2 ->
  (forall g, g <> f -> pin_inv_at ps r g) ->
  forall g, pin_inv_at (<[Z.to_nat f := p']> ps) r2 g.
Proof.
  intros Hp0 Hpin Hr1 Hr2 Hinv g.
  pose proof (page_at_Some _ _ _ Hp0) as (Hf0 & _).
  destruct (RecordAccess_find _ _ _ Hr1) as ((fi1 & Hfi1 & _) & Hother1 & _).
  destruct (SetEvictable_find f false r1 (SetEvictable_find_inv _ _ _ _ Hr2))
    as (r2' & Hr2' & Hrec & _ & Hother2 & _).
  rewrite Hr2 in Hr2'. injection Hr2' as <-.
  destruct (Z.eq_dec g f) as [->|Hne].
  - intros p. rewrite (page_at_store_eq _ _ _ _ Hp0). intros [= <-].
    destruct (Hrec fi1 Hfi1) as (fi2 & Hfi2 & Hev2).
    split; [lia|]. split.
    + intros fi. rewrite Hfi2. intros [= <-]. rewrite Hev2. split; [lia|done].
    + rewrite Hfi2. done.
  - eapply pin_inv_at_ext; [| |by apply Hinv].
    + by apply page_at_store_ne.
    + rewrite Hother2 by done. by apply Hother1.
Qed.

(** The chain that finds a frame touches no other frame. *)
Lemma find_frame_frames s found s1 :
  find_frame hash s = Some (found, s1) ->
  match found with
  | Some f =>
      forall g, g <> f ->
        page_at g (pages_ s1) = page_at g (pages_ s)
        /\ LRUKReplacer.fm_find g (LRUKReplacer.frame_map_ (replacer_ s1))
           = LRUKReplacer.fm_find g
               (LRUKReplacer.frame_map_ (replacer_ s))
  | None => s1 = s
  end.
Proof.
  unfold find_frame. destruct (free_list_ s) as [|f rest].
  - destruct (LRUKReplacer.Evict (replacer_ s)) as [[[v|] r]|] eqn:Hev;
      cbn; [|by apply Evict_find in Hev as [[-> _] _];
               intros [= <- <-]; rewrite set_replacer_same|done].
    apply Evict_find in Hev as [[_ Hother] _].
    destruct (page_at v (pages_ s)) as [victim|] eqn:Hvic; [|done]. cbn.
    pose proof (page_at_Some _ _ _ Hvic) as (Hv0 & _).
    destruct (is_dirty_ victim); cbn;
      (destruct (ExtendibleHashTable.Remove _ _ _) as [[fd pt]|]; [|done]);
      cbn; intros [= <- <-]; cbn; intros g Hg.
    + split; [by apply page_at_store_ne|by apply Hother].
    + split; [done|by apply Hother].
  - by intros [= <- <-].
Qed.

Lemma NewPgImp_pin_inv fuel s res s' :
  NewPgImp hash fuel s = Some (res, s') ->
  (forall g, pin_inv_at (pages_ s) (replacer_ s) g) ->
  forall g, pin_inv_at (pages_ s') (replacer_ s') g.
Proof.
  unfold NewPgImp. intros Hnew Hinv.
  destruct (find_frame hash s) as [[[f|] s1]|] eqn:Hff; cbn in Hnew;
    [|apply find_frame_frames in Hff as ->; by injection Hnew as _ <-|done].
  apply find_frame_frames in Hff.
  destruct (page_at f (pages_ s1)) as [page|] eqn:Hp; [|done]. cbn in Hnew.
  destruct (ExtendibleHashTable.Insert _ _ _ _ _) as [pt|]; [|done].
  cbn in Hnew.
  destruct (LRUKReplacer.RecordAccess f (replacer_ s1)) as [r1|] eqn:Hr1;
    [|done]. cbn in Hnew.
  destruct (LRUKReplacer.SetEvictable f false r1) as [r2|] eqn:Hr2; [|done].
  cbn in Hnew. injection Hnew as _ <-. cbn.
  eapply pin_inv_pinned; [exact Hp|cbn; lia|exact Hr1|exact Hr2|].
  intros g Hg. destruct (Hff g Hg) as [Hpg Hrg].
  eapply pin_inv_at_ext; [exact Hpg|exact Hrg|apply Hinv].
Qed.

Lemma FetchPgImp_pin_inv fuel page_id s res s' :
  FetchPgImp hash fuel page_id s = Some (res, s') ->
  (forall g, pin_inv_at (pages_ s) (replacer_ s) g) ->
  forall g, pin_inv_at (pages_ s') (replacer_ s') g.
Proof.
  unfold FetchPgImp. intros Hfetch Hinv.
  destruct (ExtendibleHashTable.Find _ _ _) as [[f|]|]; cbn in Hfetch;
    [| |done].
  - (* resident *)
    destruct (page_at f (pages_ s)) as [page|] eqn:Hp; [|done].
    cbn in Hfetch.
    destruct (int_checked (pin_count_ page + 1)) as [pin|] eqn:Hpin; [|done].
    apply int_checked_Some in Hpin as [-> _]. cbn in Hfetch.
    destruct (LRUKReplacer.RecordAccess f _) as [r1|] eqn:Hr1; [|done].
    cbn in Hfetch.
    destruct (LRUKReplacer.SetEvictable f false r1) as [r2|] eqn:Hr2;
      [|done].
    cbn in Hfetch. injection Hfetch as _ <-. cbn.
    eapply pin_inv_pinned; [exact Hp| |exact Hr1|exact Hr2|by intros].
    cbn. destruct (Hinv f page Hp) as [H0 _]. lia.
  - (* not resident *)
    destruct (find_frame hash s) as [[[f|] s1]|] eqn:Hff; cbn in Hfetch;
      [|apply find_frame_frames in Hff as ->; by injection Hfetch as _ <-
       |done].
    apply find_frame_frames in Hff.
    destruct (page_at f (pages_ s1)) as [page|] eqn:Hp; [|done].
    cbn in Hfetch.
    destruct (ExtendibleHashTable.Insert _ _ _ _ _) as [pt|]; [|done].
    cbn in Hfetch.
    destruct (LRUKReplacer.RecordAccess f (replacer_ s1)) as [r1|] eqn:Hr1;
      [|done]. cbn in Hfetch.
    destruct (LRUKReplacer.SetEvictable f false r1) as [r2|] eqn:Hr2;
      [|done].
    cbn in Hfetch. injection Hfetch as _ <-. cbn.
    eapply pin_inv_pinned; [exact Hp|cbn; lia|exact Hr1|exact Hr2|].
    intros g Hg. destruct (Hff g Hg) as [Hpg Hrg].
    eapply pin_inv_at_ext; [exact Hpg|exact Hrg|apply Hinv].
Qed.

Lemma UnpinPgImp_pin_inv page_id is_dirty s res s' :
  UnpinPgImp hash page_id is_dirty s = Some (res, s') ->
  (forall g, pin_inv_at (pages_ s) (replacer_ s) g) ->
  forall g, pin_inv_at (pages_ s') (replacer_ s') g.
Proof.
  unfold UnpinPgImp. intros Hun Hinv.
  destruct (ExtendibleHashTable.Find _ _ _) as [[f|]|]; cbn in Hun;
    [|by injection Hun as _ <-|done].
  destruct (page_at f (pages_ s)) as [page|] eqn:Hp; [|done]. cbn in Hun.
  destruct (Z.leb_spec (pin_count_ page) 0) as [|Hpos];
    [by injection Hun as _ <-|].
  pose proof (page_at_Some _ _ _ Hp) as (Hf0 & _).
  destruct (Hinv f page Hp) as (_ & Hrec & Hnorec).
  set (page2 := if is_dirty
                then set_dirty true (set_pin_count (pin_count_ page - 1) page)
                else set_pin_count (pin_count_ page - 1) page) in *.
  assert (Hpin2 : pin_count_ page2 = pin_count_ page - 1).
  { unfold page2. by destruct is_dirty. }
  rewrite Hpin2 in Hun.
  destruct (Z.eqb_spec (pin_count_ page - 1) 0) as [Hz|Hnz].
  - cbn in Hun.
    destruct (LRUKReplacer.SetEvictable f true (replacer_ s)) as [r|] eqn:Hr;
      [|done].
    cbn in Hun. injection Hun as _ <-. cbn.
    destruct (SetEvictable_find f true (replacer_ s)
                (SetEvictable_find_inv _ _ _ _ Hr))
      as (r' & Hr' & Hset & Hnone & Hother & _).
    rewrite Hr in Hr'. injection Hr' as <-.
    intros g. destruct (Z.eq_dec g f) as [->|Hne].
    + intros p. rewrite (page_at_store_eq _ _ _ _ Hp). intros [= <-].
      rewrite Hpin2. split; [lia|]. split.
      * intros fi Hfi.
        destruct (LRUKReplacer.fm_find f
                    (LRUKReplacer.frame_map_ (replacer_ s)))
          as [fi0|] eqn:Hfi0.
        -- destruct (Hset fi0 eq_refl) as (fi' & Hfi' & Hev). split; [|done].
           intros _. congruence.
        -- rewrite Hnone in Hfi; done.
      * done.
    + eapply pin_inv_at_ext; [| |apply Hinv].
      * by apply page_at_store_ne.
      * by apply Hother.
  - injection Hun as _ <-. cbn. intros g.
    destruct (Z.eq_dec g f) as [->|Hne].
    + intros p. rewrite (page_at_store_eq _ _ _ _ Hp). intros [= <-].
      rewrite Hpin2. split; [lia|]. split.
      * intros fi Hfi. destruct (Hrec fi Hfi) as [H1 H2].
        split; [lia|]. intros Hev. apply H2 in Hev. lia.
      * intros Hnone. apply Hnorec in Hnone. lia.
    + eapply pin_inv_at_ext; [| |apply Hinv]; [|done].
      by apply page_at_store_ne.
Qed.

Lemma pin_inv_at_same_pin ps r f p0 p' :
  page_at f ps = Some p0 -> pin_count_ p' = pin_count_ p0 ->
  (forall g, pin_inv_at ps r g) ->
  forall g, pin_inv_at (<[Z.to_nat f := p']> ps) r g.
Proof.
  intros Hp0 Hpin Hinv g.
  pose proof (page_at_Some _ _ _ Hp0) as (Hf0 & _).
  destruct (Z.eq_dec g f) as [->|Hne].
  - intros p. rewrite (page_at_store_eq _ _ _ _ Hp0). intros [= <-].
    rewrite Hpin. by apply Hinv.
  - eapply pin_inv_at_ext; [| |apply Hinv]; [|done].
    by apply page_at_store_ne.
Qed.

Lemma FlushPgImp_pin_inv page_id s res s' :
  FlushPgImp hash page_id s = Some (res, s') ->
  (forall g, pin_inv_at (pages_ s) (replacer_ s) g) ->
  forall g, pin_inv_at (pages_ s') (replacer_ s') g.
Proof.
  unfold FlushPgImp. intros Hfl Hinv. destruct (_ =? _);
    [by injection Hfl as _ <-|].
  destruct (ExtendibleHashTable.Find _ _ _) as [[f|]|]; cbn in Hfl;
    [|by injection Hfl as _ <-|done].
  destruct (page_at f (pages_ s)) as [page|] eqn:Hp; [|done]. cbn in Hfl.
  injection Hfl as _ <-. cbn. by eapply pin_inv_at_same_pin.
Qed.

Lemma page_at_map (h : Page -> Page) g ps :
  page_at g (map h ps) = h <$> page_at g ps.
Proof.
  unfold page_at. destruct (_ <? _); [done|]. apply list_lookup_fmap.
Qed.

Lemma FlushAllPgsImp_pin_inv s :
  (forall g, pin_inv_at (pages_ s) (replacer_ s) g) ->
  forall g,
    pin_inv_at (pages_ (FlushAllPgsImp s)) (replacer_ (FlushAllPgsImp s)) g.
Proof.
  intros Hinv g. unfold FlushAllPgsImp. rewrite flush_all_loop_spec. cbn.
  intros p. rewrite page_at_map.
  destruct (page_at g (pages_ s)) as [p0|] eqn:Hp0; [|done]. cbn.
  intros [= <-].
  assert (Hpin : pin_count_ (if needs_flush p0 then set_dirty false p0
                             else p0) = pin_count_ p0).
  { by destruct (needs_flush p0). }
  rewrite Hpin. by apply Hinv.
Qed.

Lemma DeletePgImp_pin_inv page_id s res s' :
  DeletePgImp hash page_id s = Some (res, s') ->
  (forall g, pin_inv_at (pages_ s) (replacer_ s) g) ->
  forall g, pin_inv_at (pages_ s') (replacer_ s') g.
Proof.
  unfold DeletePgImp. intros Hdel Hinv.
  destruct (ExtendibleHashTable.Find _ _ _) as [[f|]|]; cbn in Hdel;
    [|by injection Hdel as _ <-|done].
  destruct (page_at f (pages_ s)) as [page|] eqn:Hp; [|done]. cbn in Hdel.
  destruct (_ <? _); [by injection Hdel as _ <-|].
  pose proof (page_at_Some _ _ _ Hp) as (Hf0 & _).
  assert (Hrp : replacer_
            (if is_dirty_ page
             then set_disk_manager
                    (WritePage page_id (data_ page) (disk_manager_ s)) s
             else s) = replacer_ s) by (by destruct (is_dirty_ page)).
  assert (Hps : pages_
            (if is_dirty_ page
             then set_disk_manager
                    (WritePage page_id (data_ page) (disk_manager_ s)) s
             else s) = pages_ s) by (by destruct (is_dirty_ page)).
  destruct (ExtendibleHashTable.Remove _ _ _) as [[fd pt]|]; [|done].
  cbn in Hdel. rewrite Hrp in Hdel.
  destruct (LRUKReplacer.Remove f (replacer_ s)) as [r|] eqn:Hr; [|done].
  cbn in Hdel. injection Hdel as _ <-. cbn. rewrite Hps.
  apply Remove_find in Hr as (Hnone & Hother & _).
  intros g. destruct (Z.eq_dec g f) as [->|Hne].
  - intros p. rewrite (page_at_store_eq _ _ _ _ Hp). intros [= <-]. cbn.
    split; [lia|]. rewrite Hnone. done.
  - eapply pin_inv_at_ext; [| |apply Hinv].
    + by apply page_at_store_ne.
    + by apply Hother.
Qed.

Lemma new_pin_inv pool_size disk_manager replacer_k bucket_size page_size s :
  new_ pool_size disk_manager replacer_k bucket_size page_size = Some s ->
  forall g, pin_inv_at (pages_ s) (replacer_ s) g.
Proof.
  unfold new_, LRUKReplacer.new_. destruct (_ <=? _); [|done]. cbn.
  intros [= <-] g p. cbn. unfold page_at. destruct (_ <? _); [done|].
  intros [-> _]%lookup_replicate. cbn. done.
Qed.

Lemma pool_reachable_pin_inv h s :
  pool_reachable hash h s ->
  forall g, pin_inv_at (pages_ s) (replacer_ s) g.
Proof.
  induction 1.
  - by eapply new_pin_inv.
  - by eapply NewPgImp_pin_inv.
  - by eapply NewPgImp_pin_inv.
  - by eapply FetchPgImp_pin_inv.
  - by eapply FetchPgImp_pin_inv.
  - by eapply UnpinPgImp_pin_inv.
  - by eapply FlushPgImp_pin_inv.
  - by apply FlushAllPgsImp_pin_inv.
  - by eapply DeletePgImp_pin_inv.
  - by eapply (pin_inv_at_same_pin (pages_ s) (replacer_ s) f p).
Qed.

(** A frame without a record in the replacer (never accessed, or removed
    by [DeletePgImp]) is not pinned. *)
Lemma pin_count_without_record h s f p :
  pool_reachable hash h s ->
  page_at f (pages_ s) = Some p ->
  LRUKReplacer.fm_find f (LRUKReplacer.frame_map_ (replacer_ s)) = None ->
  pin_count_ p = 0.
Proof.
  intros Hreach Hp Hnone.
  destruct (pool_reachable_pin_inv h s Hreach f p Hp) as (_ & _ & Hno).
  by apply Hno.
Qed.

(** C8, amended. In every reachable state of the pool, for every frame
    that has a record in the replacer, the pin count is zero if and only
    if the replacer holds the frame as evictable. *)
Theorem pin_count_evictable h s f p fi :
  pool_reachable hash h s ->
  page_at f (pages_ s) = Some p ->
  LRUKReplacer.fm_find f (LRUKReplacer.frame_map_ (replacer_ s)) = Some fi ->
  pin_count_ p = 0 <-> holds_evictable (replacer_ s) f.
Proof.
  intros Hreach Hp Hfi.
  destruct (pool_reachable_pin_inv h s Hreach f p Hp) as (_ & Hrec & _).
  rewrite (Hrec fi Hfi). unfold holds_evictable. rewrite Hfi. split.
  - intros Hev. by exists fi.
  - by intros (fi' & [= <-] & Hev).
Qed.

End PinInvariant.

(** ** Well-formed pools *)

Section PoolInvariant.

Import BufferPoolManagerInstance.

Variable hash : page_id_t -> Z.

Implicit Types (s : BufferPoolManagerInstance.t) (ps : list Page).
Implicit Types (f g : frame_id_t) (p : Page) (r : LRUKReplacer.t).

(** A change of state that keeps the number of frames, the size of the
    replacer, and a well-formed table with valid values. *)
Lemma pool_wf_step s s' :
  length (pages_ s') = length (pages_ s) ->
  LRUKReplacer.replacer_size_ (replacer_ s')
  = LRUKReplacer.replacer_size_ (replacer_ s) ->
  table_wf (page_table_ s') ->
  values_in (frame_valid s) (page_table_ s') ->
  pool_wf s -> pool_wf s'.
Proof.
  intros Hlen Hsize Htable Hval [_ _ Hrs].
  assert (Heq : forall f, frame_valid s' f <-> frame_valid s f).
  { intros f. unfold frame_valid, pool_size_. by rewrite Hlen. }
  split; [done| |].
  - intros q b Hb. eapply Forall_impl; [by apply (Hval q)|].
    intros kv Hkv. by apply Heq.
  - rewrite Hsize, Hrs. unfold pool_size_. by rewrite Hlen.
Qed.

Lemma page_at_valid s f p : page_at f (pages_ s) = Some p -> frame_valid s f.
Proof.
  intros (H0 & Hlt & _)%page_at_Some. unfold frame_valid, pool_size_. lia.
Qed.

Lemma find_frame_wf s found s1 :
  find_frame hash s = Some (found, s1) -> pool_wf s ->
  pool_wf s1 /\ length (pages_ s1) = length (pages_ s).
Proof.
  unfold find_frame. intros Hff Hwf. destruct (free_list_ s) as [|f rest].
  - destruct (LRUKReplacer.Evict (replacer_ s)) as [[[v|] r]|] eqn:Hev;
      cbn in Hff; [| |done].
    + apply Evict_find in Hev as [_ Hsize].
      destruct (page_at v (pages_ s)) as [victim|]; [|done]. cbn in Hff.
      assert (Hgen : forall s2,
        length (pages_ s2) = length (pages_ s) ->
        replacer_ s2 = r -> page_table_ s2 = page_table_ s ->
        ('(_, pt) ← ExtendibleHashTable.Remove hash (page_id_ victim)
                    (page_table_ s2);
         Some (Some v, set_page_table pt s2)) = Some (found, s1) ->
        pool_wf s1 /\ length (pages_ s1) = length (pages_ s)).
      { clear Hff. intros s2 Hlen Hr Hpt. rewrite Hpt.
        destruct (ExtendibleHashTable.Remove _ _ _) as [[fd pt]|] eqn:Hrem;
          [|done].
        cbn. intros [= <- <-]. cbn. split; [|done].
        apply (pool_wf_step s); cbn; [done|by rewrite Hr| | |done].
        - eapply table_Remove_wf; [apply (pwf_table s Hwf)|exact Hrem].
        - eapply Remove_values; [apply (pwf_values s Hwf)|exact Hrem]. }
      destruct (is_dirty_ victim); apply (Hgen _) in Hff; try done.
      cbn. by rewrite length_insert.
    + apply Evict_find in Hev as [[-> _] _]. injection Hff as _ <-.
      by rewrite set_replacer_same.
  - injection Hff as _ <-. split; [|done].
    apply (pool_wf_step s); cbn; try done;
      [apply (pwf_table s Hwf)|apply (pwf_values s Hwf)].
Qed.

(** The part that [NewPgImp] and the miss path of [FetchPgImp] share after
    the frame is found. *)
Lemma install_wf s1 f page' fuel page_id pt r1 r2 :
  pool_wf s1 -> frame_valid s1 f ->
  ExtendibleHashTable.Insert hash fuel page_id f (page_table_ s1) = Some pt ->
  LRUKReplacer.RecordAccess f (replacer_ s1) = Some r1 ->
  LRUKReplacer.SetEvictable f false r1 = Some r2 ->
  pool_wf (set_replacer r2 (set_page_table pt (store_page f page' s1))).
Proof.
  intros Hwf Hf Hins Hr1 Hr2.
  apply RecordAccess_find in Hr1 as (_ & _ & Hs1).
  destruct (SetEvictable_find f false r1 (SetEvictable_find_inv _ _ _ _ Hr2))
    as (r2' & Hr2' & _ & _ & _ & Hs2).
  rewrite Hr2 in Hr2'. injection Hr2' as <-.
  apply (pool_wf_step s1); cbn.
  - by rewrite length_insert.
  - congruence.
  - eapply table_Insert_wf; [apply (pwf_table s1 Hwf)|exact Hins].
  - eapply Insert_values; [exact Hf|apply (pwf_values s1 Hwf)|exact Hins].
  - exact Hwf.
Qed.

Lemma NewPgImp_wf fuel s res s' :
  NewPgImp hash fuel s = Some (res, s') -> pool_wf s ->
  pool_wf s' /\ length (pages_ s') = length (pages_ s).
Proof.
  unfold NewPgImp. intros Hnew Hwf.
  destruct (find_frame hash s) as [[[f|] s1]|] eqn:Hff; cbn in Hnew;
    [|injection Hnew as _ <-; by eapply find_frame_wf|done].
  destruct (find_frame_wf _ _ _ Hff Hwf) as [Hwf1 Hlen1].
  destruct (page_at f (pages_ s1)) as [page|] eqn:Hp; [|done]. cbn in Hnew.
  destruct (ExtendibleHashTable.Insert _ _ _ _ _) as [pt|] eqn:Hins;
    [|done].
  cbn in Hnew.
  destruct (LRUKReplacer.RecordAccess f (replacer_ s1)) as [r1|] eqn:Hr1;
    [|done]. cbn in Hnew.
  destruct (LRUKReplacer.SetEvictable f false r1) as [r2|] eqn:Hr2; [|done].
  cbn in Hnew. injection Hnew as _ <-. split.
  - pose proof (install_wf
                  (set_next_page_id (int_wrap (next_page_id_ s1 + 1)) s1)
                  f {| data_ := data_ page; page_id_ := next_page_id_ s1;
                       pin_count_ := 1; is_dirty_ := false |}
                  fuel (next_page_id_ s1) pt r1 r2) as Hinst.
    apply Hinst; try done.
    + apply (pool_wf_step s1); cbn; try done;
        [apply (pwf_table s1 Hwf1)|apply (pwf_values s1 Hwf1)].
    + by eapply (page_at_valid s1).
  - cbn. by rewrite length_insert.
Qed.

Lemma FetchPgImp_wf fuel page_id s res s' :
  FetchPgImp hash fuel page_id s = Some (res, s') -> pool_wf s ->
  pool_wf s' /\ length (pages_ s') = length (pages_ s).
Proof.
  unfold FetchPgImp. intros Hfetch Hwf.
  destruct (ExtendibleHashTable.Find _ _ _) as [[f|]|]; cbn in Hfetch;
    [| |done].
  - destruct (page_at f (pages_ s)) as [page|] eqn:Hp; [|done].
    cbn in Hfetch.
    destruct (int_checked (pin_count_ page + 1)) as [pin|]; [|done].
    cbn in Hfetch.
    destruct (LRUKReplacer.RecordAccess f _) as [r1|] eqn:Hr1; [|done].
    cbn in Hfetch.
    destruct (LRUKReplacer.SetEvictable f false r1) as [r2|] eqn:Hr2;
      [|done].
    cbn in Hfetch. injection Hfetch as _ <-. cbn in Hr1.
    apply RecordAccess_find in Hr1 as (_ & _ & Hs1).
    destruct (SetEvictable_find f false r1
                (SetEvictable_find_inv _ _ _ _ Hr2))
      as (r2' & Hr2' & _ & _ & _ & Hs2).
    rewrite Hr2 in Hr2'. injection Hr2' as <-.
    split; [|cbn; by rewrite length_insert].
    apply (pool_wf_step s); cbn;
      [by rewrite length_insert|congruence|apply (pwf_table s Hwf)
      |apply (pwf_values s Hwf)|done].
  - destruct (find_frame hash s) as [[[f|] s1]|] eqn:Hff; cbn in Hfetch;
      [|injection Hfetch as _ <-; by eapply find_frame_wf|done].
    destruct (find_frame_wf _ _ _ Hff Hwf) as [Hwf1 Hlen1].
    destruct (page_at f (pages_ s1)) as [page|] eqn:Hp; [|done].
    cbn in Hfetch.
    destruct (ExtendibleHashTable.Insert _ _ _ _ _) as [pt|] eqn:Hins;
      [|done].
    cbn in Hfetch.
    destruct (LRUKReplacer.RecordAccess f (replacer_ s1)) as [r1|] eqn:Hr1;
      [|done]. cbn in Hfetch.
    destruct (LRUKReplacer.SetEvictable f false r1) as [r2|] eqn:Hr2;
      [|done].
    cbn in Hfetch. injection Hfetch as _ <-. split.
    + eapply install_wf; try done. by eapply page_at_valid.
    + cbn. by rewrite length_insert.
Qed.

Lemma UnpinPgImp_wf page_id is_dirty s res s' :
  UnpinPgImp hash page_id is_dirty s = Some (res, s') -> pool_wf s ->
  pool_wf s' /\ length (pages_ s') = length (pages_ s).
Proof.
  unfold UnpinPgImp. intros Hun Hwf.
  destruct (ExtendibleHashTable.Find _ _ _) as [[f|]|]; cbn in Hun;
    [|by injection Hun as _ <-|done].
  destruct (page_at f (pages_ s)) as [page|] eqn:Hp; [|done]. cbn in Hun.
  destruct (_ <=? _); [by injection Hun as _ <-|].
  destruct (_ =? _).
  - cbn in Hun.
    destruct (LRUKReplacer.SetEvictable f true (replacer_ s)) as [r|] eqn:Hr;
      [|done].
    cbn in Hun. injection Hun as _ <-.
    destruct (SetEvictable_find f true (replacer_ s)
                (SetEvictable_find_inv _ _ _ _ Hr))
      as (r' & Hr' & _ & _ & _ & Hs).
    rewrite Hr in Hr'. injection Hr' as <-.
    split; [|cbn; by rewrite length_insert].
    apply (pool_wf_step s); cbn;
      [by rewrite length_insert|done|apply (pwf_table s Hwf)
      |apply (pwf_values s Hwf)|done].
  - injection Hun as _ <-. split; [|cbn; by rewrite length_insert].
    apply (pool_wf_step s); cbn;
      [by rewrite length_insert|done|apply (pwf_table s Hwf)
      |apply (pwf_values s Hwf)|done].
Qed.

Lemma FlushPgImp_wf page_id s res s' :
  FlushPgImp hash page_id s = Some (res, s') -> pool_wf s ->
  pool_wf s' /\ length (pages_ s') = length (pages_ s).
Proof.
  unfold FlushPgImp. intros Hfl Hwf.
  destruct (_ =? _); [by injection Hfl as _ <-|].
  destruct (ExtendibleHashTable.Find _ _ _) as [[f|]|]; cbn in Hfl;
    [|by injection Hfl as _ <-|done].
  destruct (page_at f (pages_ s)) as [page|]; [|done]. cbn in Hfl.
  injection Hfl as _ <-. split; [|cbn; by rewrite length_insert].
  apply (pool_wf_step s); cbn;
    [by rewrite length_insert|done|apply (pwf_table s Hwf)
    |apply (pwf_values s Hwf)|done].
Qed.

Lemma FlushAllPgsImp_wf s :
  pool_wf s ->
  pool_wf (FlushAllPgsImp s)
  /\ length (pages_ (FlushAllPgsImp s)) = length (pages_ s).
Proof.
  intros Hwf. unfold FlushAllPgsImp. rewrite flush_all_loop_spec. cbn.
  split; [|by rewrite length_map].
  apply (pool_wf_step s); cbn;
    [by rewrite length_map|done|apply (pwf_table s Hwf)
    |apply (pwf_values s Hwf)|done].
Qed.

Lemma DeletePgImp_wf page_id s res s' :
  DeletePgImp hash page_id s = Some (res, s') -> pool_wf s ->
  pool_wf s' /\ length (pages_ s') = length (pages_ s).
Proof.
  unfold DeletePgImp. intros Hdel Hwf.
  destruct (ExtendibleHashTable.Find _ _ _) as [[f|]|]; cbn in Hdel;
    [| |done].
  2:{ injection Hdel as _ <-. split; [|done].
      apply (pool_wf_step s); cbn; try done;
        [apply (pwf_table s Hwf)|apply (pwf_values s Hwf)]. }
  destruct (page_at f (pages_ s)) as [page|] eqn:Hp; [|done]. cbn in Hdel.
  destruct (_ <? _); [by injection Hdel as _ <-|].
  assert (Hrp : replacer_
            (if is_dirty_ page
             then set_disk_manager
                    (WritePage page_id (data_ page) (disk_manager_ s)) s
             else s) = replacer_ s) by (by destruct (is_dirty_ page)).
  assert (Hps : pages_
            (if is_dirty_ page
             then set_disk_manager
                    (WritePage page_id (data_ page) (disk_manager_ s)) s
             else s) = pages_ s) by (by destruct (is_dirty_ page)).
  assert (Hpt : page_table_
            (if is_dirty_ page
             then set_disk_manager
                    (WritePage page_id (data_ page) (disk_manager_ s)) s
             else s) = page_table_ s) by (by destruct (is_dirty_ page)).
  rewrite Hpt, Hrp in Hdel.
  destruct (ExtendibleHashTable.Remove _ _ _) as [[fd pt]|] eqn:Hrem;
    [|done].
  cbn in Hdel.
  destruct (LRUKReplacer.Remove f (replacer_ s)) as [r|] eqn:Hr; [|done].
  cbn in Hdel. injection Hdel as _ <-. cbn. rewrite Hps.
  apply Remove_find in Hr as (_ & _ & Hs).
  split; [|by rewrite length_insert].
  apply (pool_wf_step s); cbn;
    [by rewrite length_insert, ?Hps|done| | |done].
  - eapply table_Remove_wf; [apply (pwf_table s Hwf)|exact Hrem].
  - eapply Remove_values; [apply (pwf_values s Hwf)|exact Hrem].
Qed.

Lemma new_wf_pool pool_size disk_manager replacer_k bucket_size page_size s :
  0 <= pool_size ->
  new_ pool_size disk_manager replacer_k bucket_size page_size = Some s ->
  pool_wf s.
Proof.
  unfold new_, LRUKReplacer.new_. intros Hn. destruct (_ <=? _); [|done].
  cbn. intros [= <-]. split; cbn.
  - apply new_table_wf.
  - apply new_values.
  - unfold pool_size_. cbn. rewrite length_replicate. lia.
Qed.

Lemma pool_reachable_wf h s : pool_reachable hash h s -> pool_wf s.
Proof.
  induction 1 as [n d k bs psz s [Hn _] Hnew| | | | | | | | |].
  - by eapply new_wf_pool.
  - by eapply NewPgImp_wf.
  - by eapply NewPgImp_wf.
  - by eapply FetchPgImp_wf.
  - by eapply FetchPgImp_wf.
  - by eapply UnpinPgImp_wf.
  - by eapply FlushPgImp_wf.
  - by apply FlushAllPgsImp_wf.
  - by eapply DeletePgImp_wf.
  - apply (pool_wf_step s); cbn;
      [by rewrite length_insert|done|by apply pwf_table|by apply pwf_values
      |done].
Qed.

(** In a reachable pool of at most 2^64 frames, a resident page is in a
    frame of the pool, within the range of the replacer, and the replacer
    holds that frame as evictable whenever it is not pinned and has a
    record: the side conditions of the statements on [UnpinPgImp] and
    [DeletePgImp] hold. *)
Lemma resident_frame h s page_id f :
  pool_reachable hash h s ->
  pool_size_ s <= SIZE_MAX + 1 ->
  ExtendibleHashTable.Find hash page_id (page_table_ s) = Some (Some f) ->
  table_wf (page_table_ s)
  /\ size_t f < LRUKReplacer.replacer_size_ (replacer_ s)
  /\ exists p,
       page_at f (pages_ s) = Some p
       /\ (pin_count_ p <= 0 ->
           forall fi,
             LRUKReplacer.fm_find f
               (LRUKReplacer.frame_map_ (replacer_ s)) = Some fi ->
             LRUKReplacer.evictable fi = true).
Proof.
  intros Hreach Hsz Hfind.
  pose proof (pool_reachable_wf h s Hreach) as [Htable Hval Hrs].
  pose proof (Find_value hash _ _ _ _ Hval Hfind) as Hf.
  unfold frame_valid, pool_size_ in *.
  split; [done|]. split.
  - rewrite Hrs. unfold size_t, SIZE_MAX in *. rewrite Z.mod_small; lia.
  - destruct (lookup_lt_is_Some_2 (pages_ s) (Z.to_nat f)) as [p Hp]; [lia|].
    assert (Hpa : page_at f (pages_ s) = Some p).
    { unfold page_at. destruct (Z.ltb_spec f 0); [lia|done]. }
    exists p. split; [done|]. intros Hpin fi Hfi.
    destruct (pool_reachable_pin_inv hash h s Hreach f p Hpa)
      as (H0 & Hrec & _).
    apply (Hrec fi Hfi). lia.
Qed.

End PoolInvariant.

(** * Examples *)

Section Examples.

Import LRUKReplacer.

(** The scenarios of the specification. *)

Example evict_earliest_first_access :
  fst <$> (replacer_once ≫= Evict) = Some (Some 1).
Proof. vm_compute. reflexivity. Qed.

Example evict_largest_k_distance :
  fst <$> (replacer_thrice ≫= Evict) = Some (Some 2).
Proof. vm_compute. reflexivity. Qed.

Example evict_on_empty :
  fst <$> (new_ 7 2 ≫= Evict) = Some None.
Proof. vm_compute. reflexivity. Qed.

Example directory_doubling :
  (ExtendibleHashTable.GetGlobalDepth <$> table_ones) = Some 3
  /\ (table_ones ≫= ExtendibleHashTable.Find std_hash_int 1)
     = Some (Some 10)
  /\ (table_ones ≫= ExtendibleHashTable.Find std_hash_int 3)
     = Some (Some 30)
  /\ (table_ones ≫= ExtendibleHashTable.Find std_hash_int 7)
     = Some (Some 70)
  /\ (table_ones ≫= ExtendibleHashTable.Find std_hash_int 15)
     = Some (Some 150).
Proof. vm_compute. repeat split; reflexivity. Qed.

Lemma replacer_example_wf : replacer_wf replacer_example.
Proof.
  split; cbn; try (unfold SIZE_MAX; lia).
  - repeat (apply NoDup_cons_2;
            [intros Hin;
             repeat (apply elem_of_cons in Hin as [Hin|Hin]; [done|]);
             by apply elem_of_nil in Hin|]).
    apply NoDup_nil_2.
  - repeat (apply list.Forall_cons; split;
            [vm_compute; repeat split; discriminate|]).
    apply Forall_nil_2.
  - repeat (apply list.Forall_cons; split;
            [split; [done|repeat constructor; lia]|]).
    apply Forall_nil_2.
  - done.
Qed.

(** C1 at [replacer_example]: frame 2, with fewer than [k] accesses, is
    evicted although frame 1 holds the oldest timestamp. *)
Lemma Evict_spec_witness :
  replacer_wf replacer_example
  /\ exists vi a r',
       Evict replacer_example = Some (Some 2, r')
       /\ lruk_choice 2 (frame_map_ replacer_example) 2 vi a
       /\ fm_find 2 (frame_map_ r') = None
       /\ curr_size_ r' = 1.
Proof.
  split; [exact replacer_example_wf|].
  destruct (Evict_spec replacer_example replacer_example_wf) as [_ Hsome].
  destruct Hsome
    as (v & vi & a & r' & Hev & Hch & _ & _ & _ & Hgone & _ & Hsz & _).
  { exists 1, {| access_timestamps := [0; 3]; evictable := true |}.
    split; [apply list_elem_of_here|done]. }
  assert (Hv : v = 2).
  { vm_compute in Hev. by injection Hev as <- _. }
  subst v. by exists vi, a, r'.
Defined.

(** C2 at [replacer_example]: a second access to frame 2. *)
Lemma RecordAccess_spec_witness :
  size_t 2 < replacer_size_ replacer_example
  /\ exists r',
       RecordAccess 2 replacer_example = Some r'
       /\ fm_find 2 (frame_map_ r')
          = Some {| access_timestamps := [1; 4]; evictable := true |}
       /\ current_timestamp_ r' = 5.
Proof.
  assert (Hrange : size_t 2 < replacer_size_ replacer_example)
    by (vm_compute; done).
  split; [exact Hrange|].
  destruct (RecordAccess_spec replacer_example 2 Hrange)
    as (r' & Hr & Hrec & _ & _ & Hts & _).
  exists r'. split; [exact Hr|]. split; [exact Hrec|].
  apply Hts. vm_compute. split; [discriminate|done].
Defined.

(** C10 at [replacer_example]: frame 5 is in range and has no record. *)
Lemma Remove_without_record_witness :
  size_t 5 < replacer_size_ replacer_example
  /\ Remove 5 replacer_example = Some replacer_example.
Proof.
  assert (Hrange : size_t 5 < replacer_size_ replacer_example)
    by (vm_compute; done).
  split; [exact Hrange|].
  destruct (Remove_without_record replacer_example 5 Hrange) as [Hnone _].
  by apply Hnone.
Defined.

(** C6 at [table_one], with buckets of one pair: key 3 collides with key 1
    until the directory has four slots. *)
Lemma Insert_Insert_Find_witness :
  ExtendibleHashTable.Insert std_hash_int 8 3 30 table_one
  = Some table_example
  /\ exists ht2,
       ExtendibleHashTable.Insert std_hash_int 1 3 31 table_example
       = Some ht2
       /\ ExtendibleHashTable.Find std_hash_int 3 ht2 = Some (Some 31)
       /\ ExtendibleHashTable.dir_ ht2
          = ExtendibleHashTable.dir_ table_example.
Proof.
  assert (Hins :
    ExtendibleHashTable.Insert std_hash_int 8 3 30 table_one
    = Some table_example) by (vm_compute; reflexivity).
  split; [exact Hins|].
  destruct (Insert_Insert_Find std_hash_int 8 3 30 31 _ _ Hins)
    as (ht2 & Hre & Hfind & Hdir & _).
  exists ht2. split; [apply (Hre 0%nat)|]. split; [exact Hfind|exact Hdir].
Defined.

Lemma table_example_reachable : table_reachable std_hash_int table_example.
Proof.
  apply (reach_table_Insert std_hash_int 8 3 30 table_one);
    [|by vm_compute].
  apply (reach_table_Insert std_hash_int 8 1 10 (ExtendibleHashTable.new_ 1));
    [|by vm_compute].
  apply reach_table_new.
Qed.

(** C7 at [table_example]: slots 0 and 2 hold bucket 0, of local depth 1. *)
Lemma directory_congruence_witness :
  table_reachable std_hash_int table_example
  /\ ExtendibleHashTable.dir_ table_example !! 0%nat = Some 0%nat
  /\ ExtendibleHashTable.dir_ table_example !! 2%nat = Some 0%nat
  /\ Z.of_nat 0 mod 2 ^ 1 = Z.of_nat 2 mod 2 ^ 1.
Proof.
  split; [exact table_example_reachable|]. split; [reflexivity|].
  split; [reflexivity|].
  exact (directory_congruence std_hash_int table_example 0 2 0
           {| ExtendibleHashTable.kv_pairs_ := [];
              ExtendibleHashTable.max_size_ := 1;
              ExtendibleHashTable.local_depth_ := 1 |}
           table_example_reachable eq_refl eq_refl eq_refl).
Defined.

End Examples.

Section PoolExamples.

Import BufferPoolManagerInstance.

Lemma pool_new_reachable : pool_reachable std_hash_int [] pool_new.
Proof.
  apply (reach_pool_new std_hash_int 3 {| writes_ := [] |} 2 2 4);
    [by vm_compute|done].
Qed.

Lemma pool_pinned_reachable : pool_reachable std_hash_int [0] pool_pinned.
Proof.
  apply (reach_NewPg std_hash_int [] pool_new 4 0 0);
    [exact pool_new_reachable|by vm_compute].
Qed.

Lemma pool_unpinned_reachable :
  pool_reachable std_hash_int [0] pool_unpinned.
Proof.
  apply (reach_UnpinPg std_hash_int [0] pool_pinned 0 true true);
    [exact pool_pinned_reachable|by vm_compute].
Qed.

Lemma pool_deleted_reachable :
  pool_reachable std_hash_int [0] pool_deleted.
Proof.
  apply (reach_DeletePg std_hash_int [0] pool_unpinned 0 true);
    [exact pool_unpinned_reachable|by vm_compute].
Qed.

(** Basic churn: with three frames all unpinned, a fourth page evicts frame
    0, whose page was written to once; one disk write results. *)
Example basic_churn :
  (fun '(res, s) => (res, writes_ (disk_manager_ s)))
    <$> NewPgImp std_hash_int 4 pool_full
  = Some (Some (0, 3), [(0, [0; 0; 0; 0])]).
Proof. vm_compute. reflexivity. Qed.

(** Deleting a pinned page fails; after unpinning it succeeds. *)
Example delete_pinned :
  fst <$> DeletePgImp std_hash_int 0 pool_pinned = Some false
  /\ fst <$> DeletePgImp std_hash_int 0 pool_unpinned = Some true.
Proof. vm_compute. split; reflexivity. Qed.

(** Fetching with every frame pinned fails. *)
Example fetch_all_pinned :
  fst <$> ((NewPgImp std_hash_int 4 pool_pinned
            ≫= (fun '(_, s) => NewPgImp std_hash_int 4 s))
           ≫= (fun '(_, s) => FetchPgImp std_hash_int 4 9 s))
  = Some None.
Proof. vm_compute. reflexivity. Qed.

Lemma pool_full_reachable : pool_reachable std_hash_int [2; 1; 0] pool_full.
Proof.
  apply (reach_UnpinPg std_hash_int _ pool_third_pinned 2 false true);
    [|by vm_compute].
  apply (reach_NewPg std_hash_int _ pool_second 4 2 2); [|by vm_compute].
  apply (reach_UnpinPg std_hash_int _ pool_second_pinned 1 false true);
    [|by vm_compute].
  apply (reach_NewPg std_hash_int _ pool_unpinned 4 1 1); [|by vm_compute].
  exact pool_unpinned_reachable.
Qed.

(** C4 at [pool_pinned]: the only pin of page 0 is released, dirty. *)
Lemma UnpinPgImp_spec_witness :
  exists s',
    UnpinPgImp std_hash_int 0 true pool_pinned = Some (true, s')
    /\ page_at 0 (pages_ s')
       = Some {| data_ := [0; 0; 0; 0]; page_id_ := 0; pin_count_ := 0;
                 is_dirty_ := true |}
    /\ holds_evictable (replacer_ s') 0.
Proof.
  destruct (UnpinPgImp_spec std_hash_int pool_pinned 0 true)
    as (_ & _ & Hunpin).
  destruct (Hunpin 0 {| data_ := [0; 0; 0; 0]; page_id_ := 0;
                        pin_count_ := 1; is_dirty_ := false |})
    as (s' & Hun & Hpages & Hev & _);
    [by vm_compute|by vm_compute|by vm_compute|by vm_compute|].
  exists s'. split; [exact Hun|]. split; [by rewrite Hpages|].
  destruct (Hev eq_refl) as [_ Hhold].
  apply (Hhold {| LRUKReplacer.access_timestamps := [0];
                  LRUKReplacer.evictable := false |}).
  by vm_compute.
Defined.

(** C5 at [pool_unpinned]: page 0, dirty and unpinned, is deleted. *)
Lemma DeletePgImp_spec_witness :
  exists s',
    DeletePgImp std_hash_int 0 pool_unpinned = Some (true, s')
    /\ writes_ (disk_manager_ s') = [(0, [0; 0; 0; 0])]
    /\ ExtendibleHashTable.Find std_hash_int 0 (page_table_ s') = Some None
    /\ free_list_ s' = [1; 2; 0]
    /\ deallocated_ s' = [0].
Proof.
  destruct (DeletePgImp_spec std_hash_int pool_unpinned 0)
    as (_ & _ & Hdelete).
  destruct (Hdelete 0 {| data_ := [0; 0; 0; 0]; page_id_ := 0;
                         pin_count_ := 0; is_dirty_ := true |})
    as (s' & found & Hdel & Hw & _ & Hgone & _ & _ & _ & Hfl & Hde & _).
  - by vm_compute.
  - by vm_compute.
  - by vm_compute.
  - apply (pwf_table pool_unpinned).
    exact (pool_reachable_wf std_hash_int _ _ pool_unpinned_reachable).
  - by vm_compute.
  - intros fi. vm_compute. by intros [= <-].
  - exists s'. by repeat split.
Defined.

(** C8, amended, at [pool_unpinned]: frame 0 has a record, a pin count of
    zero, and is evictable. *)
Lemma pin_count_evictable_witness :
  pool_reachable std_hash_int [0] pool_unpinned
  /\ (0 = 0 <-> holds_evictable (replacer_ pool_unpinned) 0).
Proof.
  split; [exact pool_unpinned_reachable|].
  exact (pin_count_evictable std_hash_int [0] pool_unpinned 0
           {| data_ := [0; 0; 0; 0]; page_id_ := 0; pin_count_ := 0;
              is_dirty_ := true |}
           {| LRUKReplacer.access_timestamps := [0];
              LRUKReplacer.evictable := true |}
           pool_unpinned_reachable eq_refl eq_refl).
Defined.

(** C8 as stated fails after [DeletePgImp]: frame 0 of [pool_deleted] was
    handed to [RecordAccess], its pin count is zero, and the replacer,
    which no longer has a record of it, does not hold it as evictable. *)
Lemma pin_count_evictable_ever_accessed_counterexample :
  ~ (forall hash h s f p,
       pool_reachable hash h s ->
       f ∈ h ->
       page_at f (pages_ s) = Some p ->
       (pin_count_ p = 0 <-> holds_evictable (replacer_ s) f)).
Proof.
  intros Hclaim.
  destruct (Hclaim std_hash_int [0] pool_deleted 0
              {| data_ := [0; 0; 0; 0]; page_id_ := INVALID_PAGE_ID;
                 pin_count_ := 0; is_dirty_ := false |}
              pool_deleted_reachable (list_elem_of_here 0 []) eq_refl)
    as [Hhold _].
  destruct (Hhold eq_refl) as (fi & Hfi & _). by vm_compute in Hfi.
Qed.

End PoolExamples.

(** * Further properties of the extendible hash table *)

Section TablePlacementFacts.

Import ExtendibleHashTable.

Context {K V : Type} `{EqDecision K}.
Variable hash : K -> Z.

Implicit Types (key : K) (value : V) (l : list (K * V)).
Implicit Types (b : Bucket K V) (ht : ExtendibleHashTable.t K V).

Lemma IndexOf_slot gd key index :
  IndexOf hash gd key = Some index ->
  Z.to_nat index = slot_of hash gd key /\ 0 <= gd <= 30.
Proof.
  unfold IndexOf, slot_of.
  destruct (int_shl1 gd) as [m|] eqn:Hm; [|done].
  apply int_shl1_Some in Hm as [Hgd ->]. cbn. intros [= <-].
  split; [|done]. rewrite Z.shiftl_1_l.
  change (2 ^ gd - 1) with (Z.pred (2 ^ gd)). rewrite <- Z.ones_equiv.
  by rewrite Z.land_ones by lia.
Qed.

Lemma IndexOf_total gd key :
  0 <= gd <= 30 ->
  IndexOf hash gd key = Some (size_t (hash key) mod 2 ^ gd).
Proof.
  intros Hgd. unfold IndexOf, int_shl1.
  destruct (Z.leb_spec 0 gd), (Z.leb_spec gd 30); try lia. cbn.
  rewrite Z.shiftl_1_l.
  change (2 ^ gd - 1) with (Z.pred (2 ^ gd)). rewrite <- Z.ones_equiv.
  by rewrite Z.land_ones by lia.
Qed.

Lemma slot_of_lt gd key :
  0 <= gd -> Z.of_nat (slot_of hash gd key) < 2 ^ gd.
Proof.
  intros Hgd. unfold slot_of.
  assert (0 < 2 ^ gd) by (apply Z.pow_pos_nonneg; lia).
  pose proof (Z.mod_pos_bound (size_t (hash key)) (2 ^ gd)). lia.
Qed.

Lemma slot_of_lookup ht key :
  dir_inv ht ->
  exists p b, dir_ ht !! slot_of hash (global_depth_ ht) key = Some p
              /\ heap ht !! p = Some b.
Proof.
  intros Hinv.
  pose proof (slot_of_lt (global_depth_ ht) key (inv_depth ht Hinv)) as Hlt.
  rewrite <- (inv_size ht Hinv) in Hlt.
  destruct (lookup_lt_is_Some_2 (dir_ ht)
              (slot_of hash (global_depth_ ht) key)) as [p Hp]; [lia|].
  destruct (lookup_lt_is_Some_2 (heap ht) p) as [b Hb].
  { by eapply inv_alloc. }
  by exists p, b.
Qed.

(** On a well-formed table [Find] returns, with the value held for the key
    by the bucket of its slot. *)
Lemma Find_stored ht key :
  dir_inv ht -> global_depth_ ht <= 30 ->
  Find hash key ht = Some (stored hash ht key).
Proof.
  intros Hinv Hgd. unfold Find, stored.
  pose proof (inv_depth ht Hinv) as H0.
  rewrite IndexOf_total by lia. cbn [mbind option_bind].
  pose proof (slot_of_lt (global_depth_ ht) key H0) as Hlt.
  destruct (slot_of_lookup ht key Hinv) as (p & b & Hp & Hb).
  rewrite <- (inv_size ht Hinv) in Hlt. unfold slot_of in *.
  assert (0 <= size_t (hash key) mod 2 ^ global_depth_ ht).
  { apply Z.mod_pos_bound. apply Z.pow_pos_nonneg; lia. }
  destruct (Z.leb_spec (Z.of_nat (length (dir_ ht)))
              (size_t (hash key) mod 2 ^ global_depth_ ht)); [lia|].
  rewrite Hp. cbn. rewrite Hb. done.
Qed.

(** Whenever [Find] returns, its result is the stored value. *)
Lemma Find_Some_stored ht key r :
  Find hash key ht = Some (Some r) -> stored hash ht key = Some r.
Proof.
  unfold Find, stored.
  destruct (IndexOf hash (global_depth_ ht) key) as [index|] eqn:Hi; [|done].
  apply IndexOf_slot in Hi as [<- _]. cbn [mbind option_bind].
  destruct (_ <=? _); [done|].
  destruct (dir_ ht !! Z.to_nat index) as [p|]; [|done]. cbn.
  destruct (heap ht !! p) as [b|]; [|done]. cbn. by intros [= Hr].
Qed.

Lemma kv_find_app_other key k v l :
  k <> key -> kv_find key (l ++ [(k, v)]) = kv_find key l.
Proof.
  intros Hne. induction l as [|[k' v'] l IH]; cbn.
  - by rewrite decide_False.
  - by destruct (decide (k' = key)).
Qed.

Lemma kv_find_overwrite_other key k v l :
  k <> key -> kv_find key (kv_overwrite k v l).2 = kv_find key l.
Proof.
  intros Hne. induction l as [|[k' v'] l IH]; cbn; [done|].
  destruct (decide (k' = k)) as [->|Hk]; cbn.
  - by rewrite !decide_False.
  - destruct (kv_overwrite k v l) as [f r]. cbn in *.
    by destruct (decide (k' = key)).
Qed.

Lemma kv_find_remove_other key k l :
  k <> key -> kv_find key (kv_remove k l).2 = kv_find key l.
Proof.
  intros Hne. induction l as [|[k' v'] l IH]; cbn; [done|].
  destruct (decide (k' = k)) as [->|Hk]; cbn.
  - by rewrite decide_False.
  - destruct (kv_remove k l) as [f r]. cbn in *.
    by destruct (decide (k' = key)).
Qed.

Lemma kv_overwrite_length key value l :
  length (kv_overwrite key value l).2 = length l.
Proof.
  induction l as [|[k v] l IH]; cbn; [done|].
  destruct (decide (k = key)); cbn; [done|].
  destruct (kv_overwrite key value l). cbn in *. by rewrite IH.
Qed.

(** What [Bucket::Insert] leaves in the bucket when it returns true. *)
Lemma Bucket_Insert_find key value b b' k :
  Bucket_Insert key value b = (true, b') ->
  kv_find k (kv_pairs_ b')
  = if decide (k = key) then Some value else kv_find k (kv_pairs_ b).
Proof.
  intros Hins. destruct (decide (k = key)) as [->|Hne].
  - by apply Bucket_Insert_true in Hins as [? _].
  - revert Hins. unfold Bucket_Insert.
    pose proof (kv_find_overwrite_other k key value (kv_pairs_ b)) as Ho.
    destruct (kv_overwrite key value (kv_pairs_ b)) as [found r].
    cbn in Ho. destruct found.
    + intros [= <-]. cbn. apply Ho. congruence.
    + destruct (IsFull b); [done|]. intros [= <-]. cbn.
      apply kv_find_app_other. congruence.
Qed.

Lemma Bucket_Insert_capacity key value b :
  Z.of_nat (length (kv_pairs_ b)) <= Z.max 0 (max_size_ b) ->
  Z.of_nat (length (kv_pairs_ (Bucket_Insert key value b).2))
  <= Z.max 0 (max_size_ b).
Proof.
  intros Hcap. unfold Bucket_Insert, IsFull.
  pose proof (kv_overwrite_length key value (kv_pairs_ b)) as Hlen.
  destruct (kv_overwrite key value (kv_pairs_ b)) as [found r].
  cbn in Hlen. destruct found; cbn; [lia|].
  destruct (Z.leb_spec (max_size_ b) (Z.of_nat (length (kv_pairs_ b))));
    cbn; [done|].
  rewrite length_app. cbn. lia.
Qed.

(** A pair that does not fit is not inserted: the bucket is unchanged. *)
Lemma Bucket_Insert_false key value b b' :
  Bucket_Insert key value b = (false, b') ->
  b' = b /\ kv_find key (kv_pairs_ b) = None
  /\ max_size_ b <= Z.of_nat (length (kv_pairs_ b)).
Proof.
  unfold Bucket_Insert, IsFull.
  destruct (kv_overwrite key value (kv_pairs_ b)) as [found r] eqn:Ho.
  destruct found; [done|].
  apply kv_overwrite_not_found in Ho as [_ Hnone].
  destruct (Z.leb_spec (max_size_ b) (Z.of_nat (length (kv_pairs_ b))));
    [|done].
  by intros [= <-].
Qed.

(** The pairs of a split bucket are divided by the slot of their key:
    those whose slot holds the new bucket move, the others stay, and none
    is lost when the new bucket has room for them. *)
Lemma rehash_find dir gd nbk l : forall nb kept nb',
  rehash hash dir gd nbk l nb = Some (kept, nb') ->
  NoDup (map fst l) ->
  Z.of_nat (length (kv_pairs_ nb)) + Z.of_nat (length l)
  <= Z.max 0 (max_size_ nb) ->
  (forall k, k ∈ map fst l -> kv_find k (kv_pairs_ nb) = None) ->
  Z.of_nat (length (kv_pairs_ nb'))
  <= Z.of_nat (length (kv_pairs_ nb)) + Z.of_nat (length l)
  /\ forall k,
       kv_find k kept
       = (if decide (dir !! slot_of hash gd k = Some nbk) then None
          else kv_find k l)
       /\ kv_find k (kv_pairs_ nb')
          = (if decide (dir !! slot_of hash gd k = Some nbk)
             then from_option Some (kv_find k (kv_pairs_ nb)) (kv_find k l)
             else kv_find k (kv_pairs_ nb)).
Proof.
  induction l as [|[key value] l IH]; intros nb kept nb'; cbn [rehash].
  - intros [= <- <-] _ _ _. split; [cbn; lia|]. intros k. cbn.
    by destruct (decide _).
  - destruct (IndexOf hash gd key) as [index|] eqn:Hi; [|done]. cbn [mbind option_bind].
    apply IndexOf_slot in Hi as [Hslot _].
    destruct (dir !! Z.to_nat index) as [p|] eqn:Hp; [|done].
    cbn [mbind option_bind]. rewrite Hslot in Hp.
    cbn [map fst length]. rewrite list.NoDup_cons.
    intros Hr [Hkey Hnd] Hcap Hfresh.
    destruct (Nat.eqb_spec p nbk) as [->|Hne].
    + (* the pair moves to the new bucket *)
      assert (Hnone : kv_find key (kv_pairs_ nb) = None).
      { apply Hfresh. left. }
      assert (Hins : Bucket_Insert key value nb
                     = (true, set_kv_pairs (kv_pairs_ nb ++ [(key, value)]) nb)).
      { unfold Bucket_Insert, IsFull.
        destruct (kv_overwrite key value (kv_pairs_ nb)) as [found r] eqn:Ho.
        destruct found.
        - apply kv_overwrite_found in Ho as [Hsome Hmap].
          apply kv_find_None in Hnone. rewrite <- Hmap in Hnone.
          apply kv_find_None in Hnone. congruence.
        - destruct (Z.leb_spec (max_size_ nb)
                      (Z.of_nat (length (kv_pairs_ nb)))); [lia|done]. }
      rewrite Hins in Hr. cbn [snd] in Hr.
      assert (Hcap' :
                Z.of_nat (length (kv_pairs_ nb ++ [(key, value)]))
                + Z.of_nat (length l) <= Z.max 0 (max_size_ nb)).
      { rewrite length_app. cbn. lia. }
      assert (Hfresh' : forall k, k ∈ map fst l ->
                kv_find k (kv_pairs_ nb ++ [(key, value)]) = None).
      { intros k Hk. rewrite kv_find_app_other.
        - apply Hfresh. by right.
        - intros ->. done. }
      destruct (IH _ _ _ Hr Hnd Hcap' Hfresh') as [Hlen Hfind].
      cbn [set_kv_pairs kv_pairs_] in Hlen, Hfind.
      rewrite length_app in Hlen. cbn [length] in Hlen.
      split; [lia|].
      intros k. destruct (Hfind k) as [Hkept Hnew]. rewrite Hkept, Hnew.
      cbn [kv_find].
      destruct (decide (key = k)) as [<-|Hk].
      * destruct (decide (dir !! slot_of hash gd key = Some nbk)); [|done].
        split; [done|].
        rewrite (proj2 (kv_find_None key l) Hkey).
        cbn. by apply kv_find_app_new.
      * rewrite kv_find_app_other by done. done.
    + (* the pair stays *)
      destruct (rehash hash dir gd nbk l nb) as [[kept0 nb0]|] eqn:Hr0;
        [|done].
      cbn in Hr. injection Hr as <- <-.
      assert (Hfresh' : forall k, k ∈ map fst l ->
                kv_find k (kv_pairs_ nb) = None).
      { intros k Hk. apply Hfresh. by right. }
      assert (Hcap' :
                Z.of_nat (length (kv_pairs_ nb)) + Z.of_nat (length l)
                <= Z.max 0 (max_size_ nb)) by lia.
      destruct (IH _ _ _ Hr0 Hnd Hcap' Hfresh') as [Hlen Hfind].
      split; [lia|]. intros k. destruct (Hfind k) as [Hkept Hnew].
      rewrite Hnew. cbn [kv_find].
      destruct (decide (key = k)) as [<-|Hk]; [|by rewrite Hkept].
      destruct (decide (dir !! slot_of hash gd key = Some nbk)) as [Hm|Hm];
        [|done].
      rewrite Hp in Hm. by injection Hm.
Qed.

(** Doubling the directory leaves every key in the bucket it was in. *)
Lemma double_slot (dir : list nat) gd key :
  0 <= gd -> Z.of_nat (length dir) = 2 ^ gd ->
  (dir ++ dir) !! slot_of hash (gd + 1) key = dir !! slot_of hash gd key.
Proof.
  intros Hgd Hlen. unfold slot_of.
  assert (Hpos : 0 < 2 ^ gd) by (apply Z.pow_pos_nonneg; lia).
  rewrite Z.pow_add_r, Z.pow_1_r by lia.
  rewrite Z.rem_mul_r by lia.
  pose proof (Z.mod_pos_bound (size_t (hash key)) (2 ^ gd) Hpos) as Hlow.
  pose proof (Z.mod_pos_bound (size_t (hash key) / 2 ^ gd) 2) as Hbit.
  destruct (Z.eq_dec ((size_t (hash key) / 2 ^ gd) mod 2) 0) as [->|Hone].
  - rewrite Z.mul_0_r, Z.add_0_r. apply lookup_app_l. lia.
  - assert ((size_t (hash key) / 2 ^ gd) mod 2 = 1) as -> by lia.
    rewrite Z.mul_1_r, lookup_app_r by lia. f_equal. lia.
Qed.

Lemma double_placed ht :
  dir_inv ht -> keys_placed hash ht -> within_capacity ht ->
  let ht1 := {| heap := heap ht; dir_ := dir_ ht ++ dir_ ht;
                global_depth_ := global_depth_ ht + 1;
                bucket_size_ := bucket_size_ ht;
                num_buckets_ := num_buckets_ ht |} in
  keys_placed hash ht1 /\ within_capacity ht1
  /\ forall key, stored hash ht1 key = stored hash ht key.
Proof.
  intros Hinv Hpl Hcap ht1.
  assert (Hslot : forall key,
            dir_ ht1 !! slot_of hash (global_depth_ ht1) key
            = dir_ ht !! slot_of hash (global_depth_ ht) key).
  { intros key. apply double_slot; [apply Hinv|apply (inv_size ht Hinv)]. }
  split; [|split].
  - intros p b key Hb Hfound. rewrite Hslot. by eapply Hpl.
  - exact Hcap.
  - intros key. unfold stored. by rewrite Hslot.
Qed.

(** Steps 2 to 5 of [SplitBucket], on a bucket whose local depth is below
    the global depth: every key stays in the bucket of its slot, no bucket
    overflows and no pair is lost. *)
Lemma split_placed ht bucket b kept nb' count :
  dir_inv ht -> keys_distinct ht -> keys_placed hash ht ->
  within_capacity ht ->
  heap ht !! bucket = Some b ->
  let dir4 :=
    repoint bucket (length (heap ht)) (Z.shiftl 1 (local_depth_ b))
      (dir_ ht) in
  rehash hash dir4 (global_depth_ ht) (length (heap ht)) (kv_pairs_ b)
    {| kv_pairs_ := []; max_size_ := bucket_size_ ht;
       local_depth_ := local_depth_ b + 1 |} = Some (kept, nb') ->
  let ht' :=
    {| heap := <[bucket := set_kv_pairs kept
                             (SetLocalDepth (local_depth_ b + 1) b)]>
                 (heap ht) ++ [nb'];
       dir_ := dir4; global_depth_ := global_depth_ ht;
       bucket_size_ := bucket_size_ ht; num_buckets_ := count |} in
  keys_placed hash ht' /\ within_capacity ht'
  /\ forall key, stored hash ht' key = stored hash ht key.
Proof.
  intros Hinv Hk Hpl Hcap Hb dir4 Hr ht'.
  pose proof (lookup_lt_Some _ _ _ Hb) as Hlt.
  destruct (Hcap bucket b Hb) as [Hmax Hlen].
  destruct (rehash_spec hash _ _ _ _ _ _ _ Hr) as (Hsub & _ & Hmax' & _).
  cbn in Hmax'.
  apply rehash_find in Hr as [Hlen' Hfind]; cbn; [| |lia|done].
  2: { by apply (Hk bucket). }
  cbn in Hlen', Hfind.
  (* the slot of a key after the split *)
  assert (Hd4 : forall key p0,
            dir_ ht !! slot_of hash (global_depth_ ht) key = Some p0 ->
            (p0 <> bucket ->
             dir4 !! slot_of hash (global_depth_ ht) key = Some p0)
            /\ (p0 = bucket ->
                dir4 !! slot_of hash (global_depth_ ht) key = Some bucket
                \/ dir4 !! slot_of hash (global_depth_ ht) key
                   = Some (length (heap ht)))).
  { intros key p0 Hp0. split.
    - intros Hne. apply repoint_lookup. exists p0. split; [done|].
      by destruct (Nat.eqb_spec p0 bucket).
    - intros ->.
      destruct (negb (Z.land
                  (Z.of_nat (slot_of hash (global_depth_ ht) key))
                  (Z.shiftl 1 (local_depth_ b)) =? 0)) eqn:Hbit.
      + right. apply repoint_lookup. exists bucket. split; [done|].
        by rewrite Nat.eqb_refl, Hbit.
      + left. apply repoint_lookup. exists bucket. split; [done|].
        by rewrite Nat.eqb_refl, Hbit. }
  assert (Hheap_old : forall q, q <> bucket -> (q < length (heap ht))%nat ->
            heap ht' !! q = heap ht !! q).
  { intros q Hne Hq. cbn.
    rewrite lookup_app_l by (by rewrite length_insert).
    by rewrite list_lookup_insert_ne. }
  assert (Hheap_bucket :
            heap ht' !! bucket
            = Some (set_kv_pairs kept (SetLocalDepth (local_depth_ b + 1) b))).
  { cbn. rewrite lookup_app_l by (by rewrite length_insert).
    by rewrite list_lookup_insert_eq. }
  assert (Hheap_new : heap ht' !! length (heap ht) = Some nb').
  { cbn. rewrite lookup_app_r by (rewrite length_insert; lia).
    by rewrite length_insert, Nat.sub_diag. }
  assert (Hcases : forall q c, heap ht' !! q = Some c ->
            (q = bucket
             /\ c = set_kv_pairs kept (SetLocalDepth (local_depth_ b + 1) b))
            \/ (q = length (heap ht) /\ c = nb')
            \/ (q <> bucket /\ heap ht !! q = Some c)).
  { intros q c Hq. destruct (decide (q = bucket)) as [->|Hne].
    - left. rewrite Hheap_bucket in Hq. by injection Hq as <-.
    - destruct (decide (q = length (heap ht))) as [->|Hne'].
      + right; left. rewrite Hheap_new in Hq. by injection Hq as <-.
      + right; right. split; [done|]. rewrite <- Hheap_old; [done..|].
        apply lookup_lt_Some in Hq. cbn in Hq.
        rewrite length_app, length_insert in Hq. cbn in Hq. lia. }
  split; [|split].
  - (* placement *)
    intros q c key Hq Hfound. cbn [global_depth_ dir_ ht'].
    destruct (Hcases q c Hq) as [[-> ->]|[[-> ->]|[Hne Hq']]].
    + cbn in Hfound. destruct (Hfind key) as [Hkept _].
      rewrite Hkept in Hfound.
      destruct (decide (dir4 !! _ = _)) as [|Hnot];
        [by destruct Hfound|].
      pose proof (Hpl bucket b key Hb Hfound) as Hslot.
      destruct (Hd4 key bucket Hslot) as [_ Hor].
      destruct (Hor eq_refl) as [?|?]; done.
    + destruct (Hfind key) as [_ Hnew]. rewrite Hnew in Hfound.
      destruct (decide (dir4 !! _ = _)) as [|Hnot]; [done|].
      by destruct Hfound.
    + pose proof (Hpl q c key Hq' Hfound) as Hslot.
      by apply (Hd4 key q Hslot).
  - (* capacity *)
    intros q c Hq. cbn [bucket_size_ ht'].
    destruct (Hcases q c Hq) as [[-> ->]|[[-> ->]|[Hne Hq']]].
    + cbn. split; [done|]. apply sublist_length in Hsub. lia.
    + split; [done|]. rewrite Hmax'. lia.
    + by apply (Hcap q).
  - (* no pair is lost *)
    intros key. unfold stored. cbn [global_depth_ dir_ ht'].
    destruct (slot_of_lookup ht key Hinv) as (p0 & b0 & Hp0 & Hb0).
    rewrite Hp0. cbn [mbind option_bind].
    destruct (Hd4 key p0 Hp0) as [Hother Hsame].
    destruct (decide (p0 = bucket)) as [->|Hne].
    + rewrite Hb. cbn [mbind option_bind].
      destruct (Hfind key) as [Hkept Hnew].
      destruct (Hsame eq_refl) as [Hs|Hs]; rewrite Hs; cbn [mbind option_bind].
      * rewrite Hheap_bucket. cbn. rewrite Hkept.
        destruct (decide (dir4 !! _ = _)) as [Heq|]; [|done].
        rewrite Hs in Heq. injection Heq. lia.
      * rewrite Hheap_new. cbn. rewrite Hnew.
        rewrite decide_True by done. by destruct (kv_find key (kv_pairs_ b)).
    + rewrite (Hother Hne). cbn [mbind option_bind].
      rewrite Hheap_old; [done..|]. by apply lookup_lt_Some in Hb0.
Qed.

(** [SplitBucket] keeps every key in the bucket of its slot and loses no
    pair. *)
Lemma SplitBucket_placed bucket ht ht' :
  dir_inv ht -> keys_distinct ht -> keys_placed hash ht ->
  within_capacity ht ->
  SplitBucket hash bucket ht = Some ht' ->
  keys_placed hash ht' /\ within_capacity ht'
  /\ forall key, stored hash ht' key = stored hash ht key.
Proof.
  intros Hinv Hk Hpl Hcap
    (b & kept & nb' & n & Hb & Hd & Hr & ->)%SplitBucket_Some.
  destruct (Z.eqb_spec (local_depth_ b) (global_depth_ ht)) as [Heq|Hne].
  - destruct (double_placed ht Hinv Hpl Hcap) as (Hpl1 & Hcap1 & Hst1).
    destruct (split_placed _ bucket b kept nb' n (double_dir_inv ht Hinv)
                Hk Hpl1 Hcap1 Hb Hr) as (Hpl' & Hcap' & Hst').
    split; [done|]. split; [done|]. intros key.
    etrans; [apply Hst'|apply Hst1].
  - exact (split_placed ht bucket b kept nb' n Hinv Hk Hpl Hcap Hb Hr).
Qed.

(** Replacing the pairs of one bucket: the other keys are untouched. *)
Lemma set_heap_stored ht p b b' key :
  heap ht !! p = Some b ->
  (forall k, k <> key ->
             kv_find k (kv_pairs_ b') = kv_find k (kv_pairs_ b)) ->
  forall k, k <> key ->
    stored hash (set_heap (<[p := b']> (heap ht)) ht) k = stored hash ht k.
Proof.
  intros Hb Hsame k Hne. unfold stored. cbn.
  destruct (dir_ ht !! slot_of hash (global_depth_ ht) k) as [q|]; [|done].
  cbn. destruct (decide (q = p)) as [->|Hq].
  - rewrite list_lookup_insert_eq by (by eapply lookup_lt_Some).
    rewrite Hb. cbn. by apply Hsame.
  - by rewrite list_lookup_insert_ne.
Qed.

Lemma set_heap_Find ht p b b' key :
  heap ht !! p = Some b ->
  (forall k, k <> key ->
             kv_find k (kv_pairs_ b') = kv_find k (kv_pairs_ b)) ->
  forall k, k <> key ->
    Find hash k (set_heap (<[p := b']> (heap ht)) ht) = Find hash k ht.
Proof.
  intros Hb Hsame k Hne. unfold Find. cbn.
  destruct (IndexOf hash (global_depth_ ht) k) as [index|]; [|done].
  cbn [mbind option_bind]. destruct (_ <=? _); [done|].
  destruct (dir_ ht !! Z.to_nat index) as [q|]; [|done].
  cbn. destruct (decide (q = p)) as [->|Hq].
  - rewrite list_lookup_insert_eq by (by eapply lookup_lt_Some).
    rewrite Hb. cbn. unfold Bucket_Find. by rewrite Hsame.
  - by rewrite list_lookup_insert_ne.
Qed.

Lemma set_heap_placed ht p b b' :
  keys_placed hash ht -> heap ht !! p = Some b ->
  (forall k, is_Some (kv_find k (kv_pairs_ b')) ->
             is_Some (kv_find k (kv_pairs_ b))
             \/ dir_ ht !! slot_of hash (global_depth_ ht) k = Some p) ->
  keys_placed hash (set_heap (<[p := b']> (heap ht)) ht).
Proof.
  intros Hpl Hb Hsub q c k. cbn. destruct (decide (q = p)) as [->|Hne].
  - rewrite list_lookup_insert_eq by (by eapply lookup_lt_Some).
    intros [= <-] Hfound. destruct (Hsub k Hfound) as [Hold|Hslot]; [|done].
    by apply (Hpl p b).
  - rewrite list_lookup_insert_ne by done. apply Hpl.
Qed.

Lemma set_heap_capacity ht p b b' :
  within_capacity ht -> heap ht !! p = Some b ->
  max_size_ b' = max_size_ b ->
  Z.of_nat (length (kv_pairs_ b')) <= Z.max 0 (max_size_ b) ->
  within_capacity (set_heap (<[p := b']> (heap ht)) ht).
Proof.
  intros Hcap Hb Hmax Hlen q c. cbn. destruct (decide (q = p)) as [->|Hne].
  - rewrite list_lookup_insert_eq by (by eapply lookup_lt_Some).
    intros [= <-]. destruct (Hcap p b Hb) as [Hm _]. rewrite Hmax. done.
  - rewrite list_lookup_insert_ne by done. apply Hcap.
Qed.

(** [Insert] keeps every key in the bucket of its slot, overflows no
    bucket, and leaves the values held for the other keys as they were. *)
Lemma Insert_placed fuel key value : forall ht ht',
  dir_inv ht -> keys_distinct ht -> keys_placed hash ht ->
  within_capacity ht ->
  Insert hash fuel key value ht = Some ht' ->
  keys_placed hash ht' /\ within_capacity ht'
  /\ forall k, k <> key -> stored hash ht' k = stored hash ht k.
Proof.
  induction fuel as [|fuel IH]; intros ht ht' Hinv Hk Hpl Hcap;
    cbn [Insert]; [done|].
  destruct (IndexOf hash (global_depth_ ht) key) as [index|] eqn:Hi;
    [|done]. cbn [mbind option_bind].
  apply IndexOf_slot in Hi as [Hslot Hgd]. rewrite Hslot.
  destruct (dir_ ht !! slot_of hash (global_depth_ ht) key) as [p|] eqn:Hp;
    [|done]. cbn.
  destruct (heap ht !! p) as [b|] eqn:Hb; [|done]. cbn.
  destruct (Bucket_Insert key value b) as [ok b'] eqn:Hins.
  destruct ok.
  - intros [= <-].
    pose proof (Bucket_Insert_find key value b b') as Hfind.
    pose proof (Bucket_Insert_true key value b b' Hins) as (_ & Hmax & _).
    pose proof (Bucket_Insert_capacity key value b) as Hlen.
    rewrite Hins in Hlen. cbn in Hlen.
    split; [|split].
    + eapply set_heap_placed; [done..|]. intros k.
      rewrite (Hfind k Hins). destruct (decide (k = key)) as [->|]; auto.
    + eapply set_heap_capacity; [done..|]. apply Hlen.
      by apply (Hcap p).
    + eapply set_heap_stored; [done|]. intros k Hne.
      rewrite (Hfind k Hins). by rewrite decide_False.
  - destruct (SplitBucket hash p ht) as [ht1|] eqn:Hs; [|done]. cbn.
    intros Hrec.
    destruct (SplitBucket_placed p ht ht1 Hinv Hk Hpl Hcap Hs)
      as (Hpl1 & Hcap1 & Hst1).
    destruct (IH ht1 ht') as (Hpl' & Hcap' & Hst'); try done.
    + by eapply SplitBucket_dir_inv.
    + by eapply SplitBucket_keys_distinct.
    + split; [done|]. split; [done|]. intros k Hne.
      rewrite Hst' by done. apply Hst1.
Qed.

Lemma kv_remove_found key l :
  (kv_remove key l).1 = true <-> is_Some (kv_find key l).
Proof.
  induction l as [|[k v] l IH]; cbn.
  - split; [done|]. by intros [? ?].
  - destruct (decide (k = key)); cbn.
    + split; [by eexists|done].
    + by destruct (kv_remove key l).
Qed.

Lemma kv_find_remove_Some key k l :
  is_Some (kv_find k (kv_remove key l).2) -> is_Some (kv_find k l).
Proof.
  induction l as [|[k' v] l IH]; cbn; [done|].
  destruct (decide (k' = key)) as [->|Hne]; cbn.
  - destruct (decide (key = k)); [by eexists|done].
  - destruct (kv_remove key l) as [f r]. cbn in *.
    by destruct (decide (k' = k)).
Qed.

(** [Remove] keeps the placement and the capacity, and leaves the values
    held for the other keys as they were. *)
Lemma Remove_placed key ht found ht' :
  keys_placed hash ht -> within_capacity ht ->
  Remove hash key ht = Some (found, ht') ->
  keys_placed hash ht' /\ within_capacity ht'
  /\ (forall k, k <> key -> stored hash ht' k = stored hash ht k)
  /\ (forall k, k <> key -> Find hash k ht' = Find hash k ht)
  /\ (found = true <-> is_Some (stored hash ht key)).
Proof.
  intros Hpl Hcap. unfold Remove, stored.
  destruct (IndexOf hash (global_depth_ ht) key) as [index|] eqn:Hi;
    [|done]. cbn [mbind option_bind].
  apply IndexOf_slot in Hi as [Hslot Hgd]. rewrite <- Hslot.
  destruct (Z.leb_spec (Z.of_nat (length (dir_ ht))) index) as [Hout|Hin].
  - intros [= <- <-]. do 4 (split; [done|]).
    rewrite lookup_ge_None_2 by lia. cbn. split; [done|]. by intros [? ?].
  - destruct (dir_ ht !! Z.to_nat index) as [p|] eqn:Hp; [|done]. cbn.
    destruct (heap ht !! p) as [b|] eqn:Hb; [|done]. cbn.
    unfold Bucket_Remove.
    pose proof (kv_remove_sublist key (kv_pairs_ b)) as Hsub.
    pose proof (kv_remove_found key (kv_pairs_ b)) as Hfound.
    pose proof (fun k => kv_find_remove_other k key (kv_pairs_ b)) as Hother.
    pose proof (fun k => kv_find_remove_Some key k (kv_pairs_ b)) as Hsome.
    destruct (kv_remove key (kv_pairs_ b)) as [f l]. cbn in *.
    intros [= <- <-]. split; [|split; [|split; [|split]]].
    + eapply set_heap_placed; [done..|]. cbn. intros k Hk. left. auto.
    + eapply set_heap_capacity; [done..|]. cbn.
      apply sublist_length in Hsub. destruct (Hcap p b Hb). lia.
    + eapply set_heap_stored; [done|]. cbn. intros k Hne. apply Hother.
      congruence.
    + eapply set_heap_Find; [done|]. cbn. intros k Hne. apply Hother.
      congruence.
    + done.
Qed.

Lemma new_placed bucket_size :
  keys_placed hash (new_ (K:=K) (V:=V) bucket_size)
  /\ within_capacity (new_ (K:=K) (V:=V) bucket_size).
Proof.
  split.
  - intros [|p] b key; cbn; [|done]. intros [= <-]. cbn. by intros [? ?].
  - intros [|p] b; cbn; [|done]. intros [= <-]. cbn. lia.
Qed.

Lemma table_reachable_placed ht :
  table_reachable hash ht -> keys_placed hash ht /\ within_capacity ht.
Proof.
  induction 1 as [bs|fuel key value ht ht' Hreach [Hpl Hcap] Hins
                    |key ht found ht' Hreach [Hpl Hcap] Hrem
                    |key ht found _ IH _].
  - apply new_placed.
  - destruct (table_reachable_inv hash ht Hreach) as (Hinv & Hk & _).
    destruct (Insert_placed _ _ _ _ _ Hinv Hk Hpl Hcap Hins) as (? & ? & _).
    done.
  - destruct (Remove_placed _ _ _ _ Hpl Hcap Hrem) as (? & ? & _). done.
  - exact IH.
Qed.

Lemma kv_find_elem key value l :
  NoDup (map fst l) -> (key, value) ∈ l -> kv_find key l = Some value.
Proof.
  induction l as [|[k v] l IH]; cbn [map fst kv_find].
  - by intros _ ?%elem_of_nil.
  - rewrite list.NoDup_cons. intros [Hk Hnd] [Heq|Hin]%elem_of_cons.
    + injection Heq as -> ->. by rewrite decide_True.
    + destruct (decide (k = key)) as [->|Hne]; [|by apply IH].
      exfalso. apply Hk.
      change key with (fst (key, value)). by apply list_elem_of_fmap_2.
Qed.

(** [Find] after [Insert], on the inserted key and on the others. *)
Lemma Insert_finds fuel key value ht ht' :
  Insert hash fuel key value ht = Some ht' ->
  Find hash key ht' = Some (Some value).
Proof.
  intros (index & p & b & Hi & Hp & Hb & Hfind)%Insert_lands.
  unfold Find. rewrite Hi. cbn [mbind option_bind].
  apply IndexOf_Some in Hi as [_ Hindex].
  pose proof (lookup_lt_Some _ _ _ Hp) as Hlt.
  destruct (Z.leb_spec (Z.of_nat (length (dir_ ht'))) index); [lia|].
  rewrite Hp. cbn. rewrite Hb. cbn. by rewrite Hfind.
Qed.

Lemma Insert_Find_other fuel key value key' ht ht' :
  table_reachable hash ht ->
  Insert hash fuel key value ht = Some ht' ->
  key' <> key ->
  Find hash key' ht' = Find hash key' ht.
Proof.
  intros Hreach Hins Hne.
  destruct (table_reachable_inv hash ht Hreach) as (Hinv & Hk & Hgd).
  destruct (table_reachable_placed ht Hreach) as [Hpl Hcap].
  destruct (Insert_inv hash _ _ _ _ _ Hinv Hk Hins) as (Hinv' & _ & Hgd').
  destruct (Insert_placed _ _ _ _ _ Hinv Hk Hpl Hcap Hins)
    as (_ & _ & Hst).
  rewrite !Find_stored by done. by rewrite Hst.
Qed.

(** [Find] after [Remove], on the removed key and on the others. *)
Lemma Remove_Find key ht found ht' :
  table_reachable hash ht ->
  Remove hash key ht = Some (found, ht') ->
  (found = true <-> exists value, Find hash key ht = Some (Some value))
  /\ Find hash key ht' = Some None
  /\ forall key', key' <> key -> Find hash key' ht' = Find hash key' ht.
Proof.
  intros Hreach Hrem.
  destruct (table_reachable_inv hash ht Hreach) as (Hinv & Hk & Hgd).
  destruct (table_reachable_placed ht Hreach) as [Hpl Hcap].
  destruct (Remove_total hash key ht (table_reachable_wf hash ht Hreach))
    as (found0 & ht0 & Hrem0 & _ & Hgone).
  rewrite Hrem in Hrem0. injection Hrem0 as <- <-.
  destruct (Remove_placed _ _ _ _ Hpl Hcap Hrem)
    as (_ & _ & _ & Hother & Hfound).
  split; [|done]. rewrite Hfound, Find_stored by done.
  split.
  - intros [v Hv]. exists v. by rewrite Hv.
  - intros [v [= Hv]]. by exists v.
Qed.

End TablePlacementFacts.

(** ** The buckets of the directory *)

Section TableBuckets.

Import ExtendibleHashTable.

Context {K V : Type} `{EqDecision K}.
Variable hash : K -> Z.

Implicit Types (key : K) (value : V) (l : list (K * V)).
Implicit Types (b : Bucket K V) (ht : ExtendibleHashTable.t K V).

Lemma new_buckets_inv bucket_size :
  buckets_inv (new_ (K:=K) (V:=V) bucket_size).
Proof.
  split; cbn.
  - intros [|i] [|j] p b; cbn; try done; lia.
  - intros p Hp. exists 0%nat. cbn. f_equal. lia.
  - done.
Qed.

Lemma set_heap_buckets_inv ht p b b' :
  buckets_inv ht -> heap ht !! p = Some b ->
  local_depth_ b' = local_depth_ b ->
  buckets_inv (set_heap (<[p := b']> (heap ht)) ht).
Proof.
  intros Hinv Hb Hld. pose proof (lookup_lt_Some _ _ _ Hb) as Hlt.
  split; cbn.
  - intros i j q c Hi Hc Hj.
    destruct (decide (q = p)) as [->|Hne].
    + rewrite list_lookup_insert_eq in Hc by done. injection Hc as <-.
      rewrite Hld. by apply (binv_complete ht Hinv).
    + rewrite list_lookup_insert_ne in Hc by done.
      by apply (binv_complete ht Hinv).
  - intros q. rewrite length_insert. apply (binv_referenced ht Hinv).
  - rewrite length_insert. apply (binv_count ht Hinv).
Qed.

Lemma lookup_double (dir : list nat) gd j :
  0 <= gd -> Z.of_nat (length dir) = 2 ^ gd ->
  (j < length (dir ++ dir))%nat ->
  exists j0, (j0 < length dir)%nat
             /\ (dir ++ dir) !! j = dir !! j0
             /\ Z.of_nat j mod 2 ^ gd = Z.of_nat j0 mod 2 ^ gd.
Proof.
  intros Hgd Hsz. rewrite length_app. intros Hj.
  destruct (Nat.lt_ge_cases j (length dir)) as [Hlt|Hge].
  - exists j. split; [done|]. split; [|done]. by apply lookup_app_l.
  - exists (j - length dir)%nat. split; [lia|]. split.
    + by apply lookup_app_r.
    + rewrite Nat2Z.inj_sub, Hsz by done.
      rewrite <- (Z.mod_add (_ - _) 1) by lia. f_equal. lia.
Qed.

Lemma double_buckets_inv ht :
  dir_inv ht -> buckets_inv ht ->
  buckets_inv {| heap := heap ht; dir_ := dir_ ht ++ dir_ ht;
                 global_depth_ := global_depth_ ht + 1;
                 bucket_size_ := bucket_size_ ht;
                 num_buckets_ := num_buckets_ ht |}.
Proof.
  intros Hinv Hbk. pose proof (inv_depth ht Hinv) as Hd.
  pose proof (inv_size ht Hinv) as Hsz.
  split; cbn.
  - intros i j p b Hi Hb Hj Hmod.
    pose proof (lookup_lt_Some _ _ _ Hi) as Hi'.
    destruct (lookup_double (dir_ ht) _ i Hd Hsz Hi') as (i0 & _ & Hi0 & Hci).
    destruct (lookup_double (dir_ ht) _ j Hd Hsz Hj) as (j0 & Hj0 & Hj1 & Hcj).
    rewrite Hi0 in Hi. rewrite Hj1.
    pose proof (inv_local ht Hinv p b Hb) as Hld.
    apply (binv_complete ht Hbk i0 j0 p b); [done..|].
    rewrite <- (mod_pow2_weaken _ _ _ _ Hld Hci).
    rewrite <- (mod_pow2_weaken _ _ _ _ Hld Hcj). done.
  - intros p Hp. destruct (binv_referenced ht Hbk p Hp) as [i Hi].
    exists i. by apply lookup_app_l_Some.
  - apply (binv_count ht Hbk).
Qed.

(** The slots of the directory after step 4 of [SplitBucket]. *)
Lemma repoint_cases ht bucket d i q :
  dir_inv ht -> (bucket < length (heap ht))%nat -> 0 <= d ->
  repoint bucket (length (heap ht)) (Z.shiftl 1 d) (dir_ ht) !! i = Some q
  <->
  (q = length (heap ht) /\ dir_ ht !! i = Some bucket
   /\ Z.testbit (Z.of_nat i) d = true)
  \/ (q = bucket /\ dir_ ht !! i = Some bucket
      /\ Z.testbit (Z.of_nat i) d = false)
  \/ (q <> bucket /\ q <> length (heap ht) /\ dir_ ht !! i = Some q).
Proof.
  intros Hinv Hbucket Hd. rewrite repoint_lookup. split.
  - intros (p & Hp & ->). rewrite land_shiftl1_testbit by lia.
    destruct (Nat.eqb_spec p bucket) as [->|Hne].
    + destruct (Z.testbit (Z.of_nat i) d); [by left|right; by left].
    + right; right. pose proof (inv_alloc ht Hinv i p Hp).
      split; [done|]. split; [lia|done].
  - intros [(-> & Hi & Hbit)|[(-> & Hi & Hbit)|(Hq1 & Hq2 & Hi)]].
    + exists bucket. split; [done|].
      by rewrite Nat.eqb_refl, land_shiftl1_testbit, Hbit by lia.
    + exists bucket. split; [done|].
      by rewrite Nat.eqb_refl, land_shiftl1_testbit, Hbit by lia.
    + exists q. split; [done|]. by destruct (Nat.eqb_spec q bucket).
Qed.

(** The buckets of the arena after steps 2 and 3 of [SplitBucket]. *)
Lemma split_heap_cases ht bucket b2 nb q c :
  (bucket < length (heap ht))%nat ->
  (<[bucket := b2]> (heap ht) ++ [nb]) !! q = Some c ->
  (q = length (heap ht) /\ c = nb)
  \/ (q = bucket /\ c = b2)
  \/ (q <> bucket /\ q <> length (heap ht) /\ heap ht !! q = Some c).
Proof.
  intros Hbucket [Hq|[Hle Hq]]%lookup_app_Some.
  - right. destruct (decide (q = bucket)) as [->|Hne].
    + left. rewrite list_lookup_insert_eq in Hq by done.
      by injection Hq as <-.
    + right. rewrite list_lookup_insert_ne in Hq by done.
      pose proof (lookup_lt_Some _ _ _ Hq). split; [done|]. split; [lia|done].
  - left. rewrite length_insert in *.
    destruct (q - length (heap ht))%nat as [|n] eqn:Hn; [|done].
    cbn in Hq. injection Hq as <-. split; [lia|done].
Qed.

(** Among the slots congruent to [i] modulo [2 ^ d] and below
    [2 ^ (d + 1)], one has bit [d] clear and one has it set. *)
Lemma residue_slots i d :
  0 <= d -> 0 <= i ->
  let j0 := i mod 2 ^ d in
  let j1 := i mod 2 ^ d + 2 ^ d in
  0 <= j0 < 2 ^ (d + 1) /\ 0 <= j1 < 2 ^ (d + 1)
  /\ j0 mod 2 ^ d = i mod 2 ^ d /\ j1 mod 2 ^ d = i mod 2 ^ d
  /\ Z.testbit j0 d = false /\ Z.testbit j1 d = true.
Proof.
  intros Hd Hi j0 j1. subst j0 j1.
  assert (Hpos : 0 < 2 ^ d) by (apply Z.pow_pos_nonneg; lia).
  pose proof (Z.mod_pos_bound i (2 ^ d) Hpos) as Hr.
  rewrite Z.pow_add_r, Z.pow_1_r by lia.
  split; [lia|]. split; [lia|].
  split; [by rewrite Z.mod_mod by lia|].
  split.
  { rewrite <- (Z.mul_1_l (2 ^ d)) at 2. rewrite Z.mod_add by lia.
    by rewrite Z.mod_mod by lia. }
  split.
  - apply Z.testbit_false; [done|]. by rewrite Z.div_small.
  - apply Z.testbit_true; [done|].
    rewrite <- (Z.mul_1_l (2 ^ d)) at 2. rewrite Z.div_add by lia.
    by rewrite Z.div_small.
Qed.

Lemma repoint_buckets_inv ht bucket b b2 nb count :
  dir_inv ht -> buckets_inv ht -> heap ht !! bucket = Some b ->
  local_depth_ b < global_depth_ ht ->
  local_depth_ b2 = local_depth_ b + 1 ->
  local_depth_ nb = local_depth_ b + 1 ->
  count = num_buckets_ ht + 1 ->
  buckets_inv {| heap := <[bucket := b2]> (heap ht) ++ [nb];
                 dir_ := repoint bucket (length (heap ht))
                           (Z.shiftl 1 (local_depth_ b)) (dir_ ht);
                 global_depth_ := global_depth_ ht;
                 bucket_size_ := bucket_size_ ht;
                 num_buckets_ := count |}.
Proof.
  intros Hinv Hbk Hb Hlt Hb2 Hnb ->.
  pose proof (lookup_lt_Some _ _ _ Hb) as Hbucket.
  pose proof (inv_local ht Hinv bucket b Hb) as Hld.
  set (d := local_depth_ b) in *.
  assert (Hd : 0 <= d) by lia.
  split; cbn.
  - intros i j q c Hi Hc Hj Hmod.
    unfold repoint in Hj. rewrite length_imap in Hj.
    apply (repoint_cases ht bucket d _ _ Hinv Hbucket Hd).
    apply (repoint_cases ht bucket d _ _ Hinv Hbucket Hd) in Hi.
    destruct Hi as [(-> & Hi & Hbit)|[(-> & Hi & Hbit)|(Hq1 & Hq2 & Hi)]].
    + left. split; [done|].
      destruct (split_heap_cases ht bucket b2 nb _ c Hbucket Hc)
        as [(_ & ->)|[(? & _)|(_ & ? & _)]]; [|lia|lia].
      rewrite Hnb in Hmod. split.
      * apply (binv_complete ht Hbk i j bucket b); [done..|].
        apply (mod_pow2_weaken _ _ d (d + 1)); [lia|done].
      * rewrite <- Hbit.
        apply (proj1 (mod_pow2_eq_bits _ _ (d + 1) ltac:(lia)) Hmod). lia.
    + right; left. split; [done|].
      destruct (split_heap_cases ht bucket b2 nb _ c Hbucket Hc)
        as [(? & _)|[(_ & ->)|(? & _)]]; [lia| |lia].
      rewrite Hb2 in Hmod. split.
      * apply (binv_complete ht Hbk i j bucket b); [done..|].
        apply (mod_pow2_weaken _ _ d (d + 1)); [lia|done].
      * rewrite <- Hbit.
        apply (proj1 (mod_pow2_eq_bits _ _ (d + 1) ltac:(lia)) Hmod). lia.
    + right; right. split; [done|]. split; [done|].
      destruct (split_heap_cases ht bucket b2 nb _ c Hbucket Hc)
        as [(? & _)|[(? & _)|(_ & _ & Hc')]]; [lia|lia|].
      by apply (binv_complete ht Hbk i j q c).
  - intros q. rewrite length_app, length_insert. cbn. intros Hq.
    destruct (binv_referenced ht Hbk bucket Hbucket) as [i Hi].
    destruct (residue_slots (Z.of_nat i) d Hd ltac:(lia))
      as (Hj0 & Hj1 & Hm0 & Hm1 & Hb0 & Hb1).
    pose proof (inv_size ht Hinv) as Hsz.
    assert (Hle : 2 ^ (d + 1) <= 2 ^ global_depth_ ht).
    { apply Z.pow_le_mono_r; lia. }
    destruct (decide (q = length (heap ht))) as [->|Hnew].
    { exists (Z.to_nat (Z.of_nat i mod 2 ^ d + 2 ^ d)).
      apply (repoint_cases ht bucket d _ _ Hinv Hbucket Hd). left.
      split; [done|]. rewrite Z2Nat.id by lia. split; [|done].
      apply (binv_complete ht Hbk i _ bucket b); [done..|lia|].
      by rewrite Z2Nat.id by lia. }
    destruct (decide (q = bucket)) as [->|Hold].
    { exists (Z.to_nat (Z.of_nat i mod 2 ^ d)).
      apply (repoint_cases ht bucket d _ _ Hinv Hbucket Hd). right; left.
      split; [done|]. rewrite Z2Nat.id by lia. split; [|done].
      apply (binv_complete ht Hbk i _ bucket b); [done..|lia|].
      by rewrite Z2Nat.id by lia. }
    destruct (binv_referenced ht Hbk q ltac:(lia)) as [i' Hi'].
    exists i'. apply (repoint_cases ht bucket d _ _ Hinv Hbucket Hd).
    by right; right.
  - rewrite length_app, length_insert, (binv_count ht Hbk). cbn. lia.
Qed.

(** [SplitBucket] allocates one bucket and counts it. *)
Lemma SplitBucket_count bucket ht ht' :
  SplitBucket hash bucket ht = Some ht' ->
  num_buckets_ ht' = num_buckets_ ht + 1
  /\ length (heap ht') = S (length (heap ht))
  /\ bucket_size_ ht' = bucket_size_ ht.
Proof.
  unfold SplitBucket.
  destruct (heap ht !! bucket) as [b|]; [|done]. cbn [mbind option_bind].
  destruct (local_depth_ b =? global_depth_ ht);
    [destruct (int_checked (global_depth_ ht + 1)) as [gd1|]; [|done]|];
    cbn [mbind option_bind];
    (destruct (int_checked (local_depth_ b + 1)) as [nld|]; [|done]);
    cbn [mbind option_bind];
    (destruct (int_checked (num_buckets_ ht + 1)) as [n|] eqn:Hn; [|done]);
    apply int_checked_Some in Hn as [-> _]; cbn [mbind option_bind];
    (destruct (int_shl1 _) as [mask|]; [|done]); cbn [mbind option_bind];
    (destruct (rehash _ _ _ _ _ _) as [[kept nb']|]; [|done]);
    cbn; intros [= <-]; cbn; (split; [done|]); (split; [|done]);
    rewrite length_app, length_insert; cbn; lia.
Qed.

Lemma SplitBucket_buckets_inv bucket ht ht' :
  dir_inv ht -> buckets_inv ht ->
  SplitBucket hash bucket ht = Some ht' -> buckets_inv ht'.
Proof.
  intros Hinv Hbk Hs.
  destruct (SplitBucket_count _ _ _ Hs) as (Hcount & _).
  apply SplitBucket_Some in Hs
    as (b & kept & nb' & n & Hb & Hd & Hr & ->).
  cbn in Hcount. subst n.
  apply rehash_spec in Hr as (_ & Hld & _). cbn in Hld.
  pose proof (inv_local ht Hinv bucket b Hb) as Hlocal.
  destruct (Z.eqb_spec (local_depth_ b) (global_depth_ ht)) as [Heq|Hne].
  - apply (repoint_buckets_inv _ _ b _ _ _ (double_dir_inv ht Hinv)
             (double_buckets_inv ht Hinv Hbk)); cbn; try done; lia.
  - apply (repoint_buckets_inv ht _ b _ _ _ Hinv Hbk); cbn; try done; lia.
Qed.

Lemma Insert_buckets_inv fuel key value : forall ht ht',
  dir_inv ht -> buckets_inv ht ->
  Insert hash fuel key value ht = Some ht' -> buckets_inv ht'.
Proof.
  induction fuel as [|fuel IH]; intros ht ht' Hinv Hbk; cbn [Insert];
    [done|].
  destruct (IndexOf hash (global_depth_ ht) key) as [index|]; [|done].
  cbn [mbind option_bind].
  destruct (dir_ ht !! Z.to_nat index) as [p|] eqn:Hp; [|done]. cbn.
  destruct (heap ht !! p) as [b|] eqn:Hb; [|done]. cbn.
  destruct (Bucket_Insert key value b) as [ok b'] eqn:Hins.
  destruct (Bucket_Insert_snd key value b) as (Hld & _ & _).
  rewrite Hins in Hld. cbn in Hld. destruct ok.
  - intros [= <-]. by eapply set_heap_buckets_inv.
  - destruct (SplitBucket hash p ht) as [ht1|] eqn:Hs; [|done]. cbn.
    apply IH.
    + by eapply SplitBucket_dir_inv.
    + by eapply SplitBucket_buckets_inv.
Qed.

Lemma Remove_buckets_inv key ht found ht' :
  buckets_inv ht -> Remove hash key ht = Some (found, ht') ->
  buckets_inv ht'.
Proof.
  intros Hbk. unfold Remove.
  destruct (IndexOf hash (global_depth_ ht) key) as [index|]; [|done].
  cbn [mbind option_bind].
  destruct (_ <=? _); [by intros [= _ <-]|].
  destruct (dir_ ht !! Z.to_nat index) as [p|] eqn:Hp; [|done]. cbn.
  destruct (heap ht !! p) as [b|] eqn:Hb; [|done]. cbn.
  unfold Bucket_Remove.
  destruct (kv_remove key (kv_pairs_ b)) as [f l].
  intros [= _ <-]. by eapply set_heap_buckets_inv.
Qed.

Lemma table_reachable_buckets ht :
  table_reachable hash ht -> buckets_inv ht.
Proof.
  induction 1 as [bs|fuel key value ht ht' Hreach Hbk Hins
                    |key ht found ht' Hreach Hbk Hrem
                    |key ht found _ IH _].
  - apply new_buckets_inv.
  - destruct (table_reachable_inv hash ht Hreach) as (Hinv & _).
    by eapply Insert_buckets_inv.
  - by eapply Remove_buckets_inv.
  - exact IH.
Qed.

End TableBuckets.

(** ** The table as a finite map *)

Section TableMap.

Import ExtendibleHashTable.

Context {K V : Type} `{EqDecision K}.
Variable hash : K -> Z.

Implicit Types (key : K) (value : V) (l : list (K * V)).
Implicit Types (b : Bucket K V) (ht : ExtendibleHashTable.t K V).

(** X1. Whenever [Insert] returns, [Find] on the key returns the inserted
    value, on any table and whatever the number of splits. *)
Theorem Insert_then_Find fuel key value ht ht' :
  Insert hash fuel key value ht = Some ht' ->
  Find hash key ht' = Some (Some value).
Proof. apply Insert_finds. Qed.

(** X2. On a table built by [Insert] and [Remove], an insertion leaves the
    result of [Find] on every other key as it was, splits and directory
    doublings included. *)
Theorem Insert_keeps_other_keys fuel key value key' ht ht' :
  table_reachable hash ht ->
  Insert hash fuel key value ht = Some ht' ->
  key' <> key ->
  Find hash key' ht' = Find hash key' ht.
Proof. apply Insert_Find_other. Qed.

(** X3. On a table built by [Insert] and [Remove], [Remove] returns; it
    returns true exactly when [Find] found the key; afterwards [Find] does
    not find the key, and finds every other key as before. *)
Theorem table_Remove_spec key ht :
  table_reachable hash ht ->
  exists found ht',
    Remove hash key ht = Some (found, ht')
    /\ (found = true <-> exists value, Find hash key ht = Some (Some value))
    /\ Find hash key ht' = Some None
    /\ forall key', key' <> key -> Find hash key' ht' = Find hash key' ht.
Proof.
  intros Hreach.
  destruct (Remove_total hash key ht (table_reachable_wf hash ht Hreach))
    as (found & ht' & Hrem & _).
  exists found, ht'. split; [done|]. by apply Remove_Find.
Qed.

(** X4. On a table built by [Insert] and [Remove], [Find] returns a value
    for a key exactly when some bucket of the table holds the pair: no pair
    is misplaced, shadowed or lost by a split. *)
Theorem Find_iff_stored key value ht :
  table_reachable hash ht ->
  Find hash key ht = Some (Some value)
  <-> exists p b, heap ht !! p = Some b /\ (key, value) ∈ kv_pairs_ b.
Proof.
  intros Hreach.
  destruct (table_reachable_inv hash ht Hreach) as (Hinv & Hk & Hgd).
  destruct (table_reachable_placed hash ht Hreach) as [Hpl Hcap].
  rewrite Find_stored by done. unfold stored. split.
  - intros [= Hst].
    destruct (slot_of_lookup hash ht key Hinv) as (p & b & Hp & Hb).
    rewrite Hp in Hst. cbn in Hst. rewrite Hb in Hst. cbn in Hst.
    exists p, b. split; [done|]. clear -Hst.
    induction (kv_pairs_ b) as [|[k v] l IH]; cbn in Hst; [done|].
    destruct (decide (k = key)) as [->|Hne].
    + injection Hst as ->. apply list_elem_of_here.
    + apply list_elem_of_further. by apply IH.
  - intros (p & b & Hb & Hin).
    assert (Hfind : kv_find key (kv_pairs_ b) = Some value).
    { apply kv_find_elem; [|done]. by apply (Hk p). }
    rewrite (Hpl p b key Hb) by (by eexists). cbn. rewrite Hb. cbn.
    by rewrite Hfind.
Qed.

(** X5. On a table built by [Insert] and [Remove], every bucket has the
    capacity given to the constructor and never holds more pairs than
    that. *)
Theorem bucket_within_capacity ht p b :
  table_reachable hash ht ->
  heap ht !! p = Some b ->
  max_size_ b = bucket_size_ ht
  /\ Z.of_nat (length (kv_pairs_ b)) <= Z.max 0 (bucket_size_ ht).
Proof.
  intros Hreach Hb.
  destruct (table_reachable_placed hash ht Hreach) as [_ Hcap].
  destruct (Hcap p b Hb) as [Hmax Hlen]. split; [done|]. by rewrite <- Hmax.
Qed.

(** X6. On a table built by [Insert] and [Remove], the directory has two
    to the power of the global depth slots, the global depth is at most
    30, and [GetLocalDepth] is defined exactly on the indices of the
    directory, with a result between zero and the global depth. *)
Theorem directory_shape ht :
  table_reachable hash ht ->
  0 <= GetGlobalDepth ht <= 30
  /\ Z.of_nat (length (dir_ ht)) = 2 ^ GetGlobalDepth ht
  /\ forall dir_index,
       if (0 <=? dir_index) && (dir_index <? 2 ^ GetGlobalDepth ht)
       then exists depth, GetLocalDepth dir_index ht = Some depth
                          /\ 0 <= depth <= GetGlobalDepth ht
       else GetLocalDepth dir_index ht = None.
Proof.
  intros Hreach. unfold GetGlobalDepth.
  destruct (table_reachable_inv hash ht Hreach) as (Hinv & Hk & Hgd).
  pose proof (inv_depth ht Hinv) as H0.
  pose proof (inv_size ht Hinv) as Hsz.
  split; [lia|]. split; [done|]. intros i. unfold GetLocalDepth.
  rewrite Hsz.
  destruct (Z.leb_spec 0 i), (Z.ltb_spec i (2 ^ global_depth_ ht)); cbn;
    try done.
  destruct (lookup_lt_is_Some_2 (dir_ ht) (Z.to_nat i)) as [p Hp]; [lia|].
  destruct (lookup_lt_is_Some_2 (heap ht) p) as [b Hb].
  { by eapply inv_alloc. }
  rewrite Hp. cbn. rewrite Hb. cbn. exists (local_depth_ b).
  split; [done|]. by apply (inv_local ht Hinv p).
Qed.

(** X7. On a table built by [Insert] and [Remove], the set of bucket
    pointers that the destructor collects from the directory has no
    duplicate, holds every allocated bucket, and has [GetNumBuckets]
    members. *)
Theorem unique_buckets_count ht :
  table_reachable hash ht ->
  NoDup (unique_buckets ht)
  /\ (forall p, p ∈ unique_buckets ht <-> (p < length (heap ht))%nat)
  /\ GetNumBuckets ht = Z.of_nat (length (unique_buckets ht)).
Proof.
  intros Hreach. unfold unique_buckets, GetNumBuckets.
  destruct (table_reachable_inv hash ht Hreach) as (Hinv & _).
  pose proof (table_reachable_buckets hash ht Hreach) as Hbk.
  assert (Hmem : forall p, p ∈ remove_dups (dir_ ht)
                           <-> (p < length (heap ht))%nat).
  { intros p. rewrite elem_of_remove_dups. split.
    - intros [i Hi]%list_elem_of_lookup_1. by apply (inv_alloc ht Hinv i).
    - intros Hp. destruct (binv_referenced ht Hbk p Hp) as [i Hi].
      by eapply list_elem_of_lookup_2. }
  split; [apply NoDup_remove_dups|]. split; [done|].
  rewrite (binv_count ht Hbk). f_equal.
  assert (Hperm : seq 0 (length (heap ht)) ≡ₚ remove_dups (dir_ ht)).
  { apply NoDup_Permutation.
    - apply NoDup_seq.
    - apply NoDup_remove_dups.
    - intros p. rewrite Hmem, elem_of_seq. lia. }
  apply Permutation_length in Hperm. by rewrite length_seq in Hperm.
Qed.

End TableMap.

(** ** The loop of [Insert] *)

Section TableInsertLoop.

Import ExtendibleHashTable.

Context {K V : Type} `{EqDecision K}.
Variable hash : K -> Z.

Implicit Types (key : K) (value : V) (l : list (K * V)).
Implicit Types (b : Bucket K V) (ht : ExtendibleHashTable.t K V).

(** After the split of the bucket of a key, the bucket of the key has one
    more bit of local depth. *)
Lemma SplitBucket_target key p b ht ht1 :
  dir_inv ht ->
  dir_ ht !! slot_of hash (global_depth_ ht) key = Some p ->
  heap ht !! p = Some b ->
  SplitBucket hash p ht = Some ht1 ->
  exists p' b',
    dir_ ht1 !! slot_of hash (global_depth_ ht1) key = Some p'
    /\ heap ht1 !! p' = Some b'
    /\ local_depth_ b' = local_depth_ b + 1.
Proof.
  intros Hinv Hp Hb (b0 & kept & nb' & n & Hb0 & Hd & Hr & ->)%SplitBucket_Some.
  rewrite Hb in Hb0. injection Hb0 as <-.
  apply rehash_spec in Hr as (_ & Hld & _). cbn in Hld.
  pose proof (lookup_lt_Some _ _ _ Hb) as Hlt. cbn.
  set (dir1 := if local_depth_ b =? global_depth_ ht
               then dir_ ht ++ dir_ ht else dir_ ht).
  set (gd1 := if local_depth_ b =? global_depth_ ht
              then global_depth_ ht + 1 else global_depth_ ht).
  assert (Hp1 : dir1 !! slot_of hash gd1 key = Some p).
  { subst dir1 gd1. destruct (local_depth_ b =? global_depth_ ht); [|done].
    rewrite double_slot; [done|apply Hinv|apply (inv_size ht Hinv)]. }
  destruct (negb (Z.land (Z.of_nat (slot_of hash gd1 key))
                    (Z.shiftl 1 (local_depth_ b)) =? 0)) eqn:Hbit.
  - exists (length (heap ht)), nb'. split; [|split; [|done]].
    + apply repoint_lookup. exists p. split; [done|].
      by rewrite Nat.eqb_refl, Hbit.
    + rewrite lookup_app_r by (rewrite length_insert; lia).
      by rewrite length_insert, Nat.sub_diag.
  - exists p, (set_kv_pairs kept (SetLocalDepth (local_depth_ b + 1) b)).
    split; [|split; [|done]].
    + apply repoint_lookup. exists p. split; [done|].
      by rewrite Nat.eqb_refl, Hbit.
    + rewrite lookup_app_l by (by rewrite length_insert).
      by rewrite list_lookup_insert_eq.
Qed.

(** When the bucket of the key has a local depth of at least [31 - n], the
    loop of [Insert] ends within [n + 1] iterations. *)
Lemma Insert_bounded key value : forall n ht,
  dir_inv ht ->
  (forall p b,
     dir_ ht !! slot_of hash (global_depth_ ht) key = Some p ->
     heap ht !! p = Some b -> 31 - Z.of_nat n <= local_depth_ b) ->
  forall fuel, (S n <= fuel)%nat ->
    Insert hash fuel key value ht = Insert hash (S n) key value ht.
Proof.
  induction n as [|n IH]; intros ht Hinv Hdepth fuel Hfuel;
    (destruct fuel as [|fuel]; [lia|]); cbn [Insert];
    (destruct (IndexOf hash (global_depth_ ht) key) as [index|] eqn:Hi;
       [|done]); cbn [mbind option_bind];
    apply IndexOf_slot in Hi as [Hslot Hgd]; rewrite Hslot;
    (destruct (dir_ ht !! slot_of hash (global_depth_ ht) key) as [p|] eqn:Hp;
       [|done]); cbn [mbind option_bind];
    (destruct (heap ht !! p) as [b|] eqn:Hb; [|done]);
    cbn [mbind option_bind];
    (destruct (Bucket_Insert key value b) as [[] b']; [done|]);
    (destruct (SplitBucket hash p ht) as [ht1|] eqn:Hs; [|done]);
    cbn [mbind option_bind];
    pose proof (inv_local ht Hinv p b Hb) as Hlocal;
    pose proof (Hdepth p b eq_refl Hb) as Hlow.
  - lia.
  - destruct (SplitBucket_target key p b ht ht1 Hinv Hp Hb Hs)
      as (p1 & b1 & Hp1 & Hb1 & Hld).
    apply IH; [by eapply SplitBucket_dir_inv| |lia].
    intros q c Hq Hc. rewrite Hp1 in Hq. injection Hq as <-.
    rewrite Hb1 in Hc. injection Hc as <-. lia.
Qed.

(** X8. On a table built by [Insert] and [Remove], the loop of [Insert]
    runs at most 32 times: with more iterations allowed the result is the
    same, be it the new table or an undefined depth. *)
Theorem Insert_fuel_bound fuel key value ht :
  table_reachable hash ht ->
  (32 <= fuel)%nat ->
  Insert hash fuel key value ht = Insert hash 32 key value ht.
Proof.
  intros Hreach Hfuel.
  destruct (table_reachable_inv hash ht Hreach) as (Hinv & _).
  apply (Insert_bounded key value 31 ht Hinv); [|done].
  intros p b _ Hb. pose proof (inv_local ht Hinv p b Hb). lia.
Qed.

(** X9. [Remove] never shrinks the table: the directory, the depths and
    the number of buckets are as before, and when the key is not found the
    table is unchanged. *)
Theorem Remove_keeps_directory key ht found ht' :
  Remove hash key ht = Some (found, ht') ->
  dir_ ht' = dir_ ht
  /\ GetGlobalDepth ht' = GetGlobalDepth ht
  /\ GetNumBuckets ht' = GetNumBuckets ht
  /\ local_depth_ <$> heap ht' = local_depth_ <$> heap ht
  /\ (found = false -> ht' = ht).
Proof.
  unfold Remove, GetGlobalDepth, GetNumBuckets.
  destruct (IndexOf hash (global_depth_ ht) key) as [index|]; [|done].
  cbn [mbind option_bind].
  destruct (_ <=? _); [by intros [= <- <-]|].
  destruct (dir_ ht !! Z.to_nat index) as [p|] eqn:Hp; [|done]. cbn.
  destruct (heap ht !! p) as [b|] eqn:Hb; [|done]. cbn.
  unfold Bucket_Remove.
  assert (Hsame : (kv_remove key (kv_pairs_ b)).1 = false ->
                  (kv_remove key (kv_pairs_ b)).2 = kv_pairs_ b).
  { clear. induction (kv_pairs_ b) as [|[k v] l IH]; cbn; [done|].
    destruct (decide (k = key)); cbn; [done|].
    destruct (kv_remove key l) as [f r]. cbn in *. intros ->.
    by rewrite IH. }
  destruct (kv_remove key (kv_pairs_ b)) as [f l]. cbn in Hsame.
  intros [= <- <-]. cbn. do 3 (split; [done|]). split.
  - rewrite list_fmap_insert. cbn. apply list_insert_id.
    by rewrite list_lookup_fmap, Hb.
  - intros ->. rewrite Hsame by done. destruct ht as [h d g s n]. cbn in *.
    unfold set_heap. cbn. f_equal. apply list_insert_id. by destruct b.
Qed.

End TableInsertLoop.

(** * Further properties of the replacer *)

Section ReplacerHistories.

Import LRUKReplacer.

Implicit Types (r : LRUKReplacer.t) (fi : FrameInfo).
Implicit Types (m : list (frame_id_t * FrameInfo)).

Lemma increasing_snoc ts now :
  increasing ts -> Forall (fun t => t < now) ts -> increasing (ts ++ [now]).
Proof.
  intros Hinc Hlt i j a b Hi Hj Hij.
  apply lookup_app_Some in Hj as [Hj|[Hle Hj]].
  - rewrite lookup_app_l in Hi by (apply lookup_lt_Some in Hj; lia).
    by eapply Hinc.
  - destruct (j - length ts)%nat as [|n] eqn:Hn; [|done].
    cbn in Hj. injection Hj as <-.
    rewrite lookup_app_l in Hi by lia.
    rewrite Forall_lookup in Hlt. by eapply Hlt.
Qed.

Lemma increasing_tail ts : increasing ts -> increasing (tail ts).
Proof.
  intros Hinc i j a b Hi Hj Hij. rewrite lookup_tail in Hi, Hj.
  eapply Hinc; [done..|lia].
Qed.

Lemma elem_of_tail (t : Z) ts : t ∈ tail ts -> t ∈ ts.
Proof. destruct ts; cbn; [done|]. apply list_elem_of_further. Qed.

(** The history written by [RecordAccess]. *)
Lemma push_timestamp_recent k now fi :
  1 <= k -> history_recent k fi ->
  Forall (fun t => 0 <= t < now) (access_timestamps fi) ->
  history_recent k (push_timestamp k now fi).
Proof.
  intros Hk [Hlen Hinc] Hold. unfold push_timestamp, history_recent. cbn.
  assert (Hsnoc : increasing (access_timestamps fi ++ [now])).
  { apply increasing_snoc; [done|].
    eapply Forall_impl; [exact Hold|]. cbn. lia. }
  destruct (Z.ltb_spec k
              (Z.of_nat (length (access_timestamps fi ++ [now])))) as [Hgt|Hle].
  - split; [|by apply increasing_tail].
    assert (Htl : forall l : list Z, length (tail l) = pred (length l))
      by (by intros []).
    rewrite Htl, length_app. cbn. lia.
  - done.
Qed.

Lemma push_timestamp_elem k now fi t :
  t ∈ access_timestamps (push_timestamp k now fi) ->
  t ∈ access_timestamps fi \/ t = now.
Proof.
  unfold push_timestamp. cbn. intros Hin.
  assert (Hin' : t ∈ access_timestamps fi ++ [now]).
  { destruct (_ <? _); [by apply elem_of_tail|done]. }
  apply elem_of_app in Hin' as [?|?%list_elem_of_singleton]; auto.
Qed.

Lemma history_recent_default k : 0 <= k -> history_recent k FrameInfo_default.
Proof. intros Hk. split; cbn; [lia|]. by intros i j a b ?. Qed.

Lemma fm_erase_disjoint fid m :
  histories_disjoint m -> histories_disjoint (fm_erase fid m).
Proof.
  intros Hdis g gi h hi t Hg Hh. 
  destruct (Z.eq_dec g fid) as [->|Hgne].
  { by rewrite fm_find_erase_eq in Hg. }
  destruct (Z.eq_dec h fid) as [->|Hhne].
  { by rewrite fm_find_erase_eq in Hh. }
  rewrite fm_find_erase_ne in Hg, Hh by done. by eapply Hdis.
Qed.

Lemma fm_access_disjoint fid f m :
  histories_disjoint m ->
  (forall fi, access_timestamps (f fi) = access_timestamps fi) ->
  histories_disjoint (fm_access fid f m).
Proof.
  intros Hdis Hsame.
  assert (Hfind : forall g gi,
            fm_find g (fm_access fid f m) = Some gi ->
            g <> fid \/ fm_find fid m <> None ->
            exists gi0, fm_find g m = Some gi0
                        /\ access_timestamps gi = access_timestamps gi0).
  { intros g gi Hg Hor. destruct (Z.eq_dec g fid) as [->|Hne].
    - rewrite fm_find_access_eq in Hg. injection Hg as <-.
      destruct (fm_find fid m) as [fi0|]; [|by destruct Hor].
      exists fi0. split; [done|]. apply Hsame.
    - rewrite fm_find_access_ne in Hg by done. by exists gi. }
  intros g gi h hi t Hg Hh Hgt Hht.
  destruct (Z.eq_dec g fid) as [->|Hgne];
    destruct (Z.eq_dec h fid) as [->|Hhne]; [done| | |].
  - rewrite fm_find_access_eq in Hg. injection Hg as <-.
    rewrite Hsame in Hgt.
    destruct (fm_find fid m) as [fi0|] eqn:Hf; cbn in Hgt;
      [|by apply elem_of_nil in Hgt].
    rewrite fm_find_access_ne in Hh by done. by eapply Hdis.
  - rewrite fm_find_access_eq in Hh. injection Hh as <-.
    rewrite Hsame in Hht.
    destruct (fm_find fid m) as [fi0|] eqn:Hf; cbn in Hht;
      [|by apply elem_of_nil in Hht].
    rewrite fm_find_access_ne in Hg by done. by eapply Hdis.
  - rewrite fm_find_access_ne in Hg, Hh by done. by eapply Hdis.
Qed.

Lemma find_history_ok now m g gi :
  Forall (fun e => history_ok now (snd e)) m ->
  fm_find g m = Some gi -> history_ok now gi.
Proof.
  intros Hall Hg%fm_find_elem. rewrite Forall_forall in Hall.
  by apply (Hall (g, gi)).
Qed.

Lemma RecordAccess_disjoint k now fid m :
  Forall (fun e => history_ok now (snd e)) m ->
  histories_disjoint m ->
  histories_disjoint (fm_access fid (push_timestamp k now) m).
Proof.
  intros Hok Hdis g gi h hi t Hg Hh Hgt Hht.
  assert (Hold : forall g0 gi0 t0,
            fm_find g0 m = Some gi0 -> t0 ∈ access_timestamps gi0 ->
            t0 < now).
  { intros g0 gi0 t0 Hg0 Ht0.
    destruct (find_history_ok now m g0 gi0 Hok Hg0) as [_ Hall].
    rewrite Forall_forall in Hall. apply Hall in Ht0. lia. }
  assert (Hnew : forall fi0 t0,
            fm_find fid (fm_access fid (push_timestamp k now) m) = Some fi0 ->
            t0 ∈ access_timestamps fi0 ->
            t0 = now
            \/ exists fi1, fm_find fid m = Some fi1
                           /\ t0 ∈ access_timestamps fi1).
  { intros fi0 t0 Hf Ht0. rewrite fm_find_access_eq in Hf.
    injection Hf as <-. apply push_timestamp_elem in Ht0 as [Ht0 | ->];
      [|by left].
    destruct (fm_find fid m) as [fi1|]; cbn in Ht0;
      [|by apply elem_of_nil in Ht0].
    right. by exists fi1. }
  destruct (Z.eq_dec g fid) as [->|Hgne];
    destruct (Z.eq_dec h fid) as [->|Hhne]; [done| | |].
  - rewrite fm_find_access_ne in Hh by done.
    pose proof (Hold h hi t Hh Hht) as Hlt.
    destruct (Hnew gi t Hg Hgt) as [->|(fi1 & Hf1 & Ht1)]; [lia|].
    by eapply Hdis.
  - rewrite fm_find_access_ne in Hg by done.
    pose proof (Hold g gi t Hg Hgt) as Hlt.
    destruct (Hnew hi t Hh Hht) as [->|(fi1 & Hf1 & Ht1)]; [lia|].
    by eapply Hdis.
  - rewrite fm_find_access_ne in Hg, Hh by done. by eapply Hdis.
Qed.

Lemma fm_access_recent k now fid m :
  1 <= k ->
  Forall (fun e => history_ok now (snd e)) m ->
  Forall (fun e => history_recent k (snd e)) m ->
  Forall (fun e => history_recent k (snd e))
    (fm_access fid (push_timestamp k now) m).
Proof.
  intros Hk. induction m as [|[g fi] m IH]; cbn [fm_access].
  - intros _ _. constructor; [|constructor]. cbn.
    apply push_timestamp_recent; [done| |constructor].
    apply history_recent_default. lia.
  - rewrite !list.Forall_cons. cbn [snd]. intros [[_ Hold] Hok] [Hrec Hall].
    destruct (g =? fid).
    + constructor; [|done]. cbn. by apply push_timestamp_recent.
    + constructor; [done|]. by apply IH.
Qed.

Lemma fm_access_recent_flag k fid b m :
  0 <= k ->
  Forall (fun e => history_recent k (snd e)) m ->
  Forall (fun e => history_recent k (snd e))
    (fm_access fid (with_evictable b) m).
Proof.
  intros Hk. induction m as [|[g fi] m IH]; cbn [fm_access].
  - intros _. constructor; [|constructor]. cbn. split; cbn; [lia|].
    by intros i j x y ?.
  - rewrite !list.Forall_cons. cbn [snd]. intros [Hrec Hall].
    destruct (g =? fid); constructor; auto.
Qed.

(** Every state of the replacer keeps at most [k] timestamps per frame, in
    increasing order, and no timestamp for two frames. *)
Lemma replacer_reachable_hist r :
  replacer_reachable r ->
  Forall (fun e => history_recent (k_ r) (snd e)) (frame_map_ r)
  /\ histories_disjoint (frame_map_ r).
Proof.
  induction 1 as [n k r Hn Hnew
                 |fid r r' Hreach [Hrec Hdis] Hfid Hclock Hacc
                 |fid b r r' Hreach [Hrec Hdis] Hset
                 |fid r r' Hreach [Hrec Hdis] Hrem
                 |r res r' Hreach [Hrec Hdis] Hev].
  - unfold new_ in Hnew. destruct (1 <=? k); [|done].
    injection Hnew as <-. cbn. split; [constructor|]. by intros g gi h hi t ?.
  - pose proof (replacer_reachable_wf r Hreach) as Hwf.
    unfold RecordAccess in Hacc. destruct (_ <? _); [|done].
    injection Hacc as <-. cbn. split.
    + apply fm_access_recent; [apply (wf_k r Hwf)|apply (wf_hist r Hwf)|done].
    + apply RecordAccess_disjoint; [apply (wf_hist r Hwf)|done].
  - unfold SetEvictable in Hset. destruct (_ <? _); [|done].
    destruct (fm_find fid (frame_map_ r)) as [fi|]; [|by injection Hset as <-].
    destruct (eqb _ _); [by injection Hset as <-|].
    injection Hset as <-. cbn. split.
    + apply fm_access_recent_flag; [|done].
      pose proof (wf_k r (replacer_reachable_wf r Hreach)). lia.
    + by apply fm_access_disjoint.
  - unfold Remove in Hrem. destruct (_ <? _); [|done].
    destruct (fm_find fid (frame_map_ r)) as [fi|]; [|by injection Hrem as <-].
    destruct (evictable fi); [|done]. injection Hrem as <-. cbn. split.
    + by apply fm_erase_Forall.
    + by apply fm_erase_disjoint.
  - unfold Evict in Hev. destruct (_ =? 0); [by injection Hev as _ <-|].
    destruct (scan _ _ _ _) as [st|]; [|done]. cbn in Hev.
    destruct (_ =? _); [done|]. injection Hev as _ <-. cbn. split.
    + by apply fm_erase_Forall.
    + by apply fm_erase_disjoint.
Qed.

End ReplacerHistories.

Section ReplacerExtras.

Import LRUKReplacer.

Implicit Types (r : LRUKReplacer.t) (fi : FrameInfo).
Implicit Types (m : list (frame_id_t * FrameInfo)).

Lemma evictable_count_Permutation m m' :
  m' ≡ₚ m -> evictable_count m' = evictable_count m.
Proof.
  unfold evictable_count. intros Hperm. f_equal.
  induction Hperm as [|x l l' _ IH|x y l|l l' l'' _ IH1 _ IH2]; cbn.
  - done.
  - destruct (evictable x.2); cbn; by rewrite IH.
  - by destruct (evictable x.2), (evictable y.2).
  - by rewrite IH1.
Qed.

Lemma replacer_wf_Permutation r m' :
  replacer_wf r -> m' ≡ₚ frame_map_ r -> replacer_wf (set_frame_map m' r).
Proof.
  intros Hwf Hperm. split; cbn.
  - apply (wf_k r Hwf).
  - apply (wf_now r Hwf).
  - apply (wf_capacity r Hwf).
  - assert (Hkeys : fst <$> m' ≡ₚ fst <$> frame_map_ r) by (by rewrite Hperm).
    change (NoDup (fst <$> m')). rewrite Hkeys. apply (wf_keys r Hwf).
  - rewrite Hperm. apply (wf_ids r Hwf).
  - rewrite Hperm. apply (wf_hist r Hwf).
  - rewrite (evictable_count_Permutation _ _ Hperm). apply (wf_size r Hwf).
Qed.

Lemma front_elem ts a : front ts = Some a -> a ∈ ts.
Proof. destruct ts; cbn; [done|]. intros [= ->]. apply list_elem_of_here. Qed.

(** With distinct timestamps the record preferred by the policy is
    unique. *)
Lemma lruk_choice_unique k m v vi a v' vi' a' :
  NoDup (map fst m) -> histories_disjoint m ->
  lruk_choice k m v vi a -> lruk_choice k m v' vi' a' -> v = v'.
Proof.
  intros Hnd Hdis Hch Hch'.
  pose proof (lruk_choice_front k m v vi a v' vi' a' Hch Hch') as <-.
  destruct Hch as (Hin & _ & Hfront & _).
  destruct Hch' as (Hin' & _ & Hfront' & _).
  apply (Hdis v vi v' vi' a).
  - by apply fm_elem_find.
  - by apply fm_elem_find.
  - by apply front_elem.
  - by apply front_elem.
Qed.

(** X10. In every state of a replacer, the history of a frame holds
    between one and [k] timestamps, in strictly increasing order, all
    before the clock, and shares no timestamp with the history of another
    frame. *)
Theorem replacer_histories r fid fi :
  replacer_reachable r ->
  fm_find fid (frame_map_ r) = Some fi ->
  1 <= Z.of_nat (length (access_timestamps fi)) <= k_ r
  /\ increasing (access_timestamps fi)
  /\ Forall (fun ts => 0 <= ts < current_timestamp_ r) (access_timestamps fi)
  /\ forall g gi ts,
       fm_find g (frame_map_ r) = Some gi ->
       ts ∈ access_timestamps gi -> ts ∈ access_timestamps fi -> g = fid.
Proof.
  intros Hreach Hfind.
  pose proof (replacer_reachable_wf r Hreach) as Hwf.
  destruct (replacer_reachable_hist r Hreach) as [Hrec Hdis].
  destruct (find_history_ok _ _ _ _ (wf_hist r Hwf) Hfind) as [Hne Hold].
  rewrite Forall_forall in Hrec.
  destruct (Hrec (fid, fi) (fm_find_elem _ _ _ Hfind)) as [Hlen Hinc].
  cbn in Hlen, Hinc. split; [|split; [done|split; [done|]]].
  - split; [|done]. destruct (access_timestamps fi); [done|]. cbn. lia.
  - intros g gi ts Hg Hgt Hft. by apply (Hdis g gi fid fi ts).
Qed.

(** X11. The frame that [Evict] gives does not depend on the order in
    which the loop meets the records of the map. *)
Theorem Evict_order_independent r m' :
  replacer_reachable r ->
  m' ≡ₚ frame_map_ r ->
  fst <$> Evict (set_frame_map m' r) = fst <$> Evict r.
Proof.
  intros Hreach Hperm.
  pose proof (replacer_reachable_wf r Hreach) as Hwf.
  pose proof (replacer_wf_Permutation r m' Hwf Hperm) as Hwf'.
  destruct (replacer_reachable_hist r Hreach) as [_ Hdis].
  destruct (Z.eq_dec (curr_size_ r) 0) as [Hz|Hnz].
  - unfold Evict. cbn. by rewrite Hz.
  - destruct (Evict_success r Hwf Hnz) as (v & vi & a & -> & Hch).
    destruct (Evict_success _ Hwf' Hnz) as (v' & vi' & a' & -> & Hch').
    cbn. do 2 f_equal.
    eapply (lruk_choice_unique _ _ _ _ _ _ _ _ (wf_keys r Hwf) Hdis);
      [|exact Hch].
    destruct Hch' as (Hin & Hev & Hfront & Hpref). cbn in Hin, Hpref.
    split; [by rewrite <- Hperm|]. split; [done|]. split; [done|].
    intros g gi b Hg. apply (Hpref g). by rewrite Hperm.
Qed.

(** X12. With [k = 1] the replacer is an LRU replacer: every record keeps
    one timestamp, and the evicted frame is the evictable frame with the
    smallest one. *)
Theorem Evict_least_recently_used r v r' :
  replacer_reachable r ->
  k_ r = 1 ->
  Evict r = Some (Some v, r') ->
  exists ts,
    fm_find v (frame_map_ r)
    = Some {| access_timestamps := [ts]; evictable := true |}
    /\ forall g gi,
         fm_find g (frame_map_ r) = Some gi -> evictable gi = true ->
         g <> v ->
         exists ts', access_timestamps gi = [ts'] /\ ts < ts'.
Proof.
  intros Hreach Hk Hev.
  pose proof (replacer_reachable_wf r Hreach) as Hwf.
  destruct (replacer_reachable_hist r Hreach) as [Hrec Hdis].
  rewrite Forall_forall in Hrec.
  assert (Hone : forall g gi, fm_find g (frame_map_ r) = Some gi ->
            exists t, access_timestamps gi = [t]).
  { intros g gi Hg.
    destruct (find_history_ok _ _ _ _ (wf_hist r Hwf) Hg) as [Hne _].
    destruct (Hrec (g, gi) (fm_find_elem _ _ _ Hg)) as [Hlen _].
    cbn in Hlen. rewrite Hk in Hlen.
    destruct (access_timestamps gi) as [|t [|t' l]]; [done| |cbn in Hlen; lia].
    by exists t. }
  assert (Hnz : curr_size_ r <> 0).
  { intros Hz. unfold Evict in Hev. by rewrite Hz in Hev. }
  destruct (Evict_success r Hwf Hnz) as (v0 & vi & a & Hev0 & Hch).
  rewrite Hev0 in Hev. injection Hev as -> _.
  destruct Hch as (Hin & Hevict & Hfront & Hpref).
  pose proof (fm_elem_find _ _ _ (wf_keys r Hwf) Hin) as Hv.
  destruct (Hone v vi Hv) as [t Ht].
  rewrite Ht in Hfront. cbn in Hfront. injection Hfront as ->.
  exists a. split.
  { rewrite Hv. f_equal. destruct vi as [l e]. cbn in *. by subst. }
  intros g gi Hg Hge Hne. destruct (Hone g gi Hg) as [u Hu].
  exists u. split; [done|].
  destruct (Hpref g gi u (fm_find_elem _ _ _ Hg) Hge) as (_ & _ & Hle).
  { by rewrite Hu. }
  assert (a <= u).
  { apply Hle. unfold few_accesses. rewrite Ht, Hk. cbn. lia. }
  assert (a <> u); [|lia].
  intros ->. apply Hne. apply (Hdis g gi v vi u); [done..| |].
  - rewrite Hu. apply list_elem_of_here.
  - rewrite Ht. apply list_elem_of_here.
Qed.

Lemma with_evictable_same fi : with_evictable (evictable fi) fi = fi.
Proof. by destruct fi. Qed.

(** X13. [SetEvictable] on a frame in range returns; it sets the flag of
    the record of the frame, if there is one, leaves the other records as
    they are, and moves [Size] by the change of the flag. *)
Theorem SetEvictable_spec r fid b :
  replacer_wf r ->
  size_t fid < replacer_size_ r ->
  exists r',
    SetEvictable fid b r = Some r'
    /\ fm_find fid (frame_map_ r')
       = with_evictable b <$> fm_find fid (frame_map_ r)
    /\ (forall g, g <> fid ->
          fm_find g (frame_map_ r') = fm_find g (frame_map_ r))
    /\ Size r'
       = Size r
         + match fm_find fid (frame_map_ r) with
           | Some fi => Z.b2z b - Z.b2z (evictable fi)
           | None => 0
           end
    /\ current_timestamp_ r' = current_timestamp_ r
    /\ replacer_size_ r' = replacer_size_ r
    /\ k_ r' = k_ r.
Proof.
  intros Hwf Hrange. unfold SetEvictable, Size.
  destruct (Z.ltb_spec (size_t fid) (replacer_size_ r)); [|lia].
  destruct (fm_find fid (frame_map_ r)) as [fi|] eqn:Hfind.
  2: { exists r. rewrite Hfind. cbn. repeat split; lia. }
  destruct (eqb (evictable fi) b) eqn:Heq.
  - apply eqb_prop in Heq as <-. exists r. rewrite Hfind. cbn.
    rewrite with_evictable_same. repeat split; lia.
  - apply eqb_false_iff in Heq. eexists. split; [done|]. cbn.
    rewrite fm_find_access_eq, Hfind. cbn. split; [done|].
    split; [intros g Hg; by apply fm_find_access_ne|].
    split; [|done].
    pose proof (replacer_wf_count r Hwf) as Hcount.
    assert (Hpos : evictable fi = true -> 0 < curr_size_ r).
    { intros He. rewrite (wf_size r Hwf). apply evictable_count_pos.
      exists fid, fi. split; [by apply fm_find_elem|done]. }
    unfold size_t. destruct b, (evictable fi); try done; cbn.
    + rewrite Z.mod_small; lia.
    + rewrite Z.mod_small; [lia|]. specialize (Hpos eq_refl). lia.
Qed.

Lemma fm_access_twice fid f f' m fi :
  fm_find fid m = Some fi ->
  fm_access fid f' (fm_access fid f m) = fm_access fid (fun x => f' (f x)) m.
Proof.
  induction m as [|[g gi] m IH]; cbn; [done|].
  destruct (Z.eqb_spec g fid) as [->|Hne]; cbn.
  - by rewrite Z.eqb_refl.
  - intros Hf. destruct (Z.eqb_spec g fid); [done|]. by rewrite IH.
Qed.

Lemma fm_access_id fid f m fi :
  fm_find fid m = Some fi -> f fi = fi -> fm_access fid f m = m.
Proof.
  induction m as [|[g gi] m IH]; cbn; [done|].
  destruct (Z.eqb_spec g fid) as [->|Hne].
  - by intros [= ->] ->.
  - intros Hf Hid. by rewrite IH.
Qed.

(** X14. Setting the flag of a record back to what it was undoes
    [SetEvictable]: the replacer is as before, [Size] included. *)
Theorem SetEvictable_undo r fid b fi r1 :
  replacer_wf r ->
  fm_find fid (frame_map_ r) = Some fi ->
  SetEvictable fid b r = Some r1 ->
  SetEvictable fid (evictable fi) r1 = Some r.
Proof.
  intros Hwf Hfind. unfold SetEvictable.
  destruct (Z.ltb_spec (size_t fid) (replacer_size_ r)) as [Hlt|]; [|done].
  rewrite Hfind. destruct (eqb (evictable fi) b) eqn:Heq.
  - intros [= <-]. apply eqb_prop in Heq as <-.
    destruct (Z.ltb_spec (size_t fid) (replacer_size_ r)); [|lia].
    by rewrite Hfind, eqb_reflx.
  - intros [= <-]. cbn.
    destruct (Z.ltb_spec (size_t fid) (replacer_size_ r)); [|lia].
    rewrite fm_find_access_eq, Hfind. cbn.
    apply eqb_false_iff in Heq.
    assert (Hne : eqb b (evictable fi) = false).
    { apply eqb_false_iff. congruence. }
    rewrite Hne. f_equal.
    rewrite (fm_access_twice _ _ _ _ fi Hfind).
    rewrite (fm_access_id _ _ _ fi Hfind) by (by destruct fi).
    pose proof (replacer_wf_count r Hwf) as Hcount.
    assert (Hpos : evictable fi = true -> 0 < curr_size_ r).
    { intros He. rewrite (wf_size r Hwf). apply evictable_count_pos.
      exists fid, fi. split; [by apply fm_find_elem|done]. }
    destruct r as [m now c rs k]. unfold set_frame_map, set_curr_size. cbn in *.
    f_equal. unfold size_t.
    destruct b, (evictable fi); try done.
    + rewrite (Z.mod_small (c + 1)) by lia. rewrite Z.mod_small; lia.
    + specialize (Hpos eq_refl).
      rewrite (Z.mod_small (c - 1)) by lia. rewrite Z.mod_small; lia.
Qed.

(** X15. [Remove] on an evictable record erases it, leaves the other
    records as they are, and takes one from [Size]. *)
Theorem Remove_evictable r fid fi :
  replacer_wf r ->
  fm_find fid (frame_map_ r) = Some fi ->
  evictable fi = true ->
  exists r',
    Remove fid r = Some r'
    /\ fm_find fid (frame_map_ r') = None
    /\ (forall g, g <> fid ->
          fm_find g (frame_map_ r') = fm_find g (frame_map_ r))
    /\ Size r' = Size r - 1
    /\ current_timestamp_ r' = current_timestamp_ r
    /\ replacer_wf r'.
Proof.
  intros Hwf Hfind Hev. unfold Remove, Size.
  pose proof (wf_ids r Hwf) as Hids. rewrite Forall_forall in Hids.
  destruct (Hids (fid, fi) (fm_find_elem _ _ _ Hfind)) as [_ Hrange].
  cbn in Hrange.
  destruct (Z.ltb_spec (size_t fid) (replacer_size_ r)); [|lia].
  rewrite Hfind, Hev.
  destruct (erase_wf r fid fi Hwf Hfind Hev) as [Hsz Hwf'].
  eexists. split; [done|]. cbn. rewrite Hsz.
  split; [apply fm_find_erase_eq|].
  split; [intros g Hg; by apply fm_find_erase_ne|].
  split; [done|]. split; [done|].
  destruct r. exact Hwf'.
Qed.

Lemma size_t_int_inj x y :
  INT_MIN <= x <= INT_MAX -> INT_MIN <= y <= INT_MAX ->
  size_t x = size_t y -> x = y.
Proof.
  unfold INT_MIN, INT_MAX, size_t. intros Hx Hy Heq.
  assert (Hmod : (x - y) mod 2 ^ 64 = 0).
  { rewrite Zminus_mod, Heq, Z.sub_diag. done. }
  apply Z.mod_divide in Hmod as [c Hc]; lia.
Qed.

(** X16. In every state of a replacer [Size] is the number of evictable
    records, which is at most the number of records, which is at most the
    capacity given to the constructor. *)
Theorem Size_counts_evictable r :
  replacer_reachable r ->
  Size r = evictable_count (frame_map_ r)
  /\ 0 <= Size r <= Z.of_nat (length (frame_map_ r))
  /\ Z.of_nat (length (frame_map_ r)) <= Z.max 0 (replacer_size_ r).
Proof.
  intros Hreach. pose proof (replacer_reachable_wf r Hreach) as Hwf.
  unfold Size. rewrite (wf_size r Hwf).
  split; [done|]. split; [apply evictable_count_le|].
  pose proof (wf_ids r Hwf) as Hids. rewrite Forall_forall in Hids.
  assert (Hsub : (size_t <$> (fst <$> frame_map_ r))
                 ⊆+ seqZ 0 (replacer_size_ r)).
  { apply NoDup_submseteq.
    - apply NoDup_fmap_2_strong; [|apply (wf_keys r Hwf)].
      intros x y [[x' fx] [-> Hx]]%list_elem_of_fmap
        [[y' fy] [-> Hy]]%list_elem_of_fmap.
      apply size_t_int_inj; [by apply (Hids _ Hx)|by apply (Hids _ Hy)].
    - intros x [k [-> [[k' fk] [-> Hk]]%list_elem_of_fmap]]%list_elem_of_fmap.
      apply elem_of_seqZ. destruct (Hids _ Hk) as [_ Hlt]. cbn in *.
      unfold size_t in *.
      pose proof (Z.mod_pos_bound k' (2 ^ 64) ltac:(lia)). lia. }
  apply submseteq_length in Hsub.
  rewrite !length_fmap, length_seqZ in Hsub. lia.
Qed.

End ReplacerExtras.

(** * Further properties of the buffer pool manager *)

Section PoolShapes.

Import BufferPoolManagerInstance.

Variable hash : page_id_t -> Z.

(** What a call of [find_frame] that gives a frame has done: either the
    frame was the head of the free list, or the free list was empty and the
    frame comes from [Evict], its page is written back if dirty and leaves
    the page table. *)
Lemma find_frame_shape s f s1 :
  find_frame hash s = Some (Some f, s1) ->
  next_page_id_ s1 = next_page_id_ s
  /\ deallocated_ s1 = deallocated_ s
  /\ ((free_list_ s = f :: free_list_ s1
       /\ pages_ s1 = pages_ s
       /\ page_table_ s1 = page_table_ s
       /\ replacer_ s1 = replacer_ s
       /\ disk_manager_ s1 = disk_manager_ s)
      \/ (free_list_ s = [] /\ free_list_ s1 = []
          /\ exists victim found,
               LRUKReplacer.Evict (replacer_ s) = Some (Some f, replacer_ s1)
               /\ page_at f (pages_ s) = Some victim
               /\ pages_ s1
                  = <[Z.to_nat f := set_dirty false victim]> (pages_ s)
               /\ ExtendibleHashTable.Remove hash (page_id_ victim)
                    (page_table_ s) = Some (found, page_table_ s1)
               /\ disk_manager_ s1
                  = (if is_dirty_ victim
                     then WritePage (page_id_ victim) (data_ victim)
                            (disk_manager_ s)
                     else disk_manager_ s))).
Proof.
  unfold find_frame. destruct (free_list_ s) as [|g rest] eqn:Hfl.
  - destruct (LRUKReplacer.Evict (replacer_ s)) as [[[v|] r]|] eqn:Hev;
      cbn; [| |done].
    2: { by intros [= ]. }
    destruct (page_at v (pages_ s)) as [victim|] eqn:Hv; [|done]. cbn.
    pose proof (page_at_Some _ _ _ Hv) as (_ & _ & Hlook).
    destruct (is_dirty_ victim) eqn:Hd; cbn.
    + destruct (ExtendibleHashTable.Remove _ _ _) as [[fd pt]|] eqn:Hrem;
        [|done].
      cbn. intros [= <- <-]. cbn. do 2 (split; [done|]). right.
      do 2 (split; [done|]). exists victim, fd. rewrite Hd. done.
    + destruct (ExtendibleHashTable.Remove _ _ _) as [[fd pt]|] eqn:Hrem;
        [|done].
      cbn. intros [= <- <-]. cbn. do 2 (split; [done|]). right.
      do 2 (split; [done|]). exists victim, fd. rewrite Hd.
      split; [done|]. split; [done|]. split; [|done].
      symmetry. apply list_insert_id. rewrite Hlook. f_equal.
      destruct victim. cbn in *. by subst.
  - intros [= <- <-]. cbn. do 2 (split; [done|]). by left.
Qed.

(** A call of [find_frame] that gives no frame leaves the pool as it
    was. *)
Lemma find_frame_none s s1 :
  find_frame hash s = Some (None, s1) ->
  s1 = s /\ free_list_ s = []
  /\ LRUKReplacer.Size (replacer_ s) = 0.
Proof.
  unfold find_frame. destruct (free_list_ s) as [|g rest]; [|done].
  destruct (LRUKReplacer.Evict (replacer_ s)) as [[[v|] r]|] eqn:Hev;
    cbn; [| |done].
  - destruct (page_at v (pages_ s)); [|done]. cbn.
    by destruct (ExtendibleHashTable.Remove _ _ _) as [[? ?]|].
  - apply Evict_find in Hev as [[-> Hz] _]. intros [= <-].
    by rewrite set_replacer_same.
Qed.

(** What a call of [NewPgImp] that gives a page has done. *)
Lemma NewPgImp_shape fuel s f id s' :
  NewPgImp hash fuel s = Some (Some (f, id), s') ->
  exists s1 page r1,
    find_frame hash s = Some (Some f, s1)
    /\ id = next_page_id_ s
    /\ page_at f (pages_ s1) = Some page
    /\ ExtendibleHashTable.Insert hash fuel id f (page_table_ s1)
       = Some (page_table_ s')
    /\ LRUKReplacer.RecordAccess f (replacer_ s1) = Some r1
    /\ LRUKReplacer.SetEvictable f false r1 = Some (replacer_ s')
    /\ pages_ s'
       = <[Z.to_nat f := {| data_ := data_ page; page_id_ := id;
                            pin_count_ := 1; is_dirty_ := false |}]>
           (pages_ s1)
    /\ free_list_ s' = free_list_ s1
    /\ next_page_id_ s' = int_wrap (id + 1)
    /\ disk_manager_ s' = disk_manager_ s1
    /\ deallocated_ s' = deallocated_ s.
Proof.
  unfold NewPgImp.
  destruct (find_frame hash s) as [[[g|] s1]|] eqn:Hff; cbn; [|done..].
  destruct (find_frame_shape _ _ _ Hff) as (Hnext & Hdealloc & _).
  destruct (page_at g (pages_ s1)) as [page|] eqn:Hp; [|done]. cbn.
  destruct (ExtendibleHashTable.Insert _ _ _ _ _) as [pt|] eqn:Hins;
    [|done].
  cbn.
  destruct (LRUKReplacer.RecordAccess g (replacer_ s1)) as [r1|] eqn:Hr1;
    [|done]. cbn.
  destruct (LRUKReplacer.SetEvictable g false r1) as [r2|] eqn:Hr2; [|done].
  cbn. intros [= <- <- <-]. exists s1, page, r1. cbn.
  rewrite <- Hnext. by rewrite Hdealloc.
Qed.

(** What a call of [FetchPgImp] has done when the page is in the pool. *)
Lemma FetchPgImp_hit_shape fuel page_id s f res s' :
  ExtendibleHashTable.Find hash page_id (page_table_ s) = Some (Some f) ->
  FetchPgImp hash fuel page_id s = Some (res, s') ->
  exists page r1,
    res = Some f
    /\ page_at f (pages_ s) = Some page
    /\ INT_MIN <= pin_count_ page + 1 <= INT_MAX
    /\ LRUKReplacer.RecordAccess f (replacer_ s) = Some r1
    /\ LRUKReplacer.SetEvictable f false r1 = Some (replacer_ s')
    /\ pages_ s'
       = <[Z.to_nat f := set_pin_count (pin_count_ page + 1) page]>
           (pages_ s)
    /\ page_table_ s' = page_table_ s
    /\ free_list_ s' = free_list_ s
    /\ next_page_id_ s' = next_page_id_ s
    /\ disk_manager_ s' = disk_manager_ s
    /\ deallocated_ s' = deallocated_ s.
Proof.
  intros Hfind. unfold FetchPgImp. rewrite Hfind. cbn.
  destruct (page_at f (pages_ s)) as [page|] eqn:Hp; [|done]. cbn.
  destruct (int_checked (pin_count_ page + 1)) as [n|] eqn:Hn; [|done].
  apply int_checked_Some in Hn as [-> Hn]. cbn.
  destruct (LRUKReplacer.RecordAccess f (replacer_ s)) as [r1|] eqn:Hr1;
    [|done]. cbn.
  destruct (LRUKReplacer.SetEvictable f false r1) as [r2|] eqn:Hr2; [|done].
  cbn. intros [= <- <-]. by exists page, r1.
Qed.

(** What a call of [FetchPgImp] that gives a page has done when the page
    was not in the pool. *)
Lemma FetchPgImp_miss_shape fuel page_id s f s' :
  ExtendibleHashTable.Find hash page_id (page_table_ s) = Some None ->
  FetchPgImp hash fuel page_id s = Some (Some f, s') ->
  exists s1 page r1,
    find_frame hash s = Some (Some f, s1)
    /\ page_at f (pages_ s1) = Some page
    /\ ExtendibleHashTable.Insert hash fuel page_id f (page_table_ s1)
       = Some (page_table_ s')
    /\ LRUKReplacer.RecordAccess f (replacer_ s1) = Some r1
    /\ LRUKReplacer.SetEvictable f false r1 = Some (replacer_ s')
    /\ pages_ s'
       = <[Z.to_nat f :=
             {| data_ := ReadPage page_id (data_ page) (disk_manager_ s1);
                page_id_ := page_id; pin_count_ := 1;
                is_dirty_ := false |}]> (pages_ s1)
    /\ free_list_ s' = free_list_ s1
    /\ next_page_id_ s' = next_page_id_ s
    /\ disk_manager_ s' = disk_manager_ s1
    /\ deallocated_ s' = deallocated_ s.
Proof.
  intros Hfind. unfold FetchPgImp. rewrite Hfind. cbn.
  destruct (find_frame hash s) as [[[g|] s1]|] eqn:Hff; cbn; [|done..].
  destruct (find_frame_shape _ _ _ Hff) as (Hnext & Hdealloc & _).
  destruct (page_at g (pages_ s1)) as [page|] eqn:Hp; [|done]. cbn.
  destruct (ExtendibleHashTable.Insert _ _ _ _ _) as [pt|] eqn:Hins;
    [|done].
  cbn.
  destruct (LRUKReplacer.RecordAccess g (replacer_ s1)) as [r1|] eqn:Hr1;
    [|done]. cbn.
  destruct (LRUKReplacer.SetEvictable g false r1) as [r2|] eqn:Hr2; [|done].
  cbn. intros [= <- <-]. exists s1, page, r1. cbn. done.
Qed.

End PoolShapes.

(** ** How a frame is obtained *)

Section FrameAcquisition.

Import BufferPoolManagerInstance.

Variable hash : page_id_t -> Z.

Lemma pool_eq (s s' : BufferPoolManagerInstance.t) :
  pages_ s = pages_ s' -> page_table_ s = page_table_ s' ->
  replacer_ s = replacer_ s' -> free_list_ s = free_list_ s' ->
  next_page_id_ s = next_page_id_ s' ->
  disk_manager_ s = disk_manager_ s' ->
  deallocated_ s = deallocated_ s' -> s = s'.
Proof. destruct s, s'. cbn. by intros -> -> -> -> -> -> ->. Qed.

(** [find_frame] on a pool whose free list is empty and whose replacer
    gives a victim. *)
Lemma find_frame_evict s f r victim found pt :
  free_list_ s = [] ->
  LRUKReplacer.Evict (replacer_ s) = Some (Some f, r) ->
  page_at f (pages_ s) = Some victim ->
  ExtendibleHashTable.Remove hash (page_id_ victim) (page_table_ s)
  = Some (found, pt) ->
  exists s1,
    find_frame hash s = Some (Some f, s1)
    /\ pages_ s1 = <[Z.to_nat f := set_dirty false victim]> (pages_ s)
    /\ page_table_ s1 = pt /\ replacer_ s1 = r /\ free_list_ s1 = []
    /\ next_page_id_ s1 = next_page_id_ s
    /\ disk_manager_ s1
       = (if is_dirty_ victim
          then WritePage (page_id_ victim) (data_ victim) (disk_manager_ s)
          else disk_manager_ s)
    /\ deallocated_ s1 = deallocated_ s.
Proof.
  intros Hfl Hev Hv Hrem. unfold find_frame. rewrite Hfl, Hev. cbn.
  rewrite Hv. cbn.
  pose proof (page_at_Some _ _ _ Hv) as (_ & _ & Hlook).
  destruct (is_dirty_ victim) eqn:Hd; cbn; rewrite Hrem; cbn.
  - eexists. split; [done|]. cbn. done.
  - eexists. split; [done|]. cbn. split; [|done].
    symmetry. apply list_insert_id. rewrite Hlook. f_equal.
    destruct victim. cbn in *. by subst.
Qed.

(** The frame that [find_frame] gives, in the terms of [frame_acquired]:
    the state after the page is installed in it. *)
Lemma install_acquired fuel s f s1 page page_id buf next r1 s' :
  find_frame hash s = Some (Some f, s1) ->
  page_at f (pages_ s1) = Some page ->
  ExtendibleHashTable.Insert hash fuel page_id f (page_table_ s1)
  = Some (page_table_ s') ->
  LRUKReplacer.RecordAccess f (replacer_ s1) = Some r1 ->
  LRUKReplacer.SetEvictable f false r1 = Some (replacer_ s') ->
  pages_ s'
  = <[Z.to_nat f := {| data_ := buf; page_id_ := page_id; pin_count_ := 1;
                       is_dirty_ := false |}]> (pages_ s1) ->
  free_list_ s' = free_list_ s1 ->
  next_page_id_ s' = next ->
  disk_manager_ s' = disk_manager_ s1 ->
  deallocated_ s' = deallocated_ s ->
  exists old,
    page_at f (pages_ s) = Some old /\ data_ old = data_ page
    /\ frame_acquired hash fuel s f page_id buf next s'.
Proof.
  intros Hff Hp Hins Hr1 Hr2 Hps Hfl Hnext Hdisk Hde.
  destruct (find_frame_shape _ _ _ _ Hff) as (_ & _ & Hshape).
  destruct Hshape as [(Hfl1 & Hps1 & Hpt1 & Hrp1 & Hd1)
                     |(Hfl0 & Hfl1 & victim & found & Hev & Hv & Hps1 & Hrem
                       & Hd1)].
  - exists page. rewrite <- Hps1. split; [done|]. split; [done|].
    split; [by rewrite Hps, Hps1|]. split; [done|]. split; [done|]. left.
    rewrite Hfl, <- Hpt1, <- Hrp1, Hdisk. split; [done|]. split; [done|].
    split; [done|]. by exists r1.
  - exists victim. split; [done|].
    rewrite Hps1, (page_at_store_eq _ _ _ _ Hv) in Hp. injection Hp as <-.
    split; [done|].
    split; [by rewrite Hps, Hps1, list_insert_insert_eq|].
    split; [done|]. split; [done|]. right.
    split; [done|]. split; [by rewrite Hfl|].
    exists (replacer_ s1), victim, found, (page_table_ s1), r1.
    by rewrite Hdisk.
Qed.

(** C3. [NewPgImp] returns a page in frame [f], and [FetchPgImp] returns
    the frame [f] for a page that is not in the page table, exactly when
    [f] is obtained as [frame_acquired] says and the pool is left as it
    says: [f] is the head of the free list when the list is not empty, and
    then nothing is evicted, written or erased; otherwise [f] is the victim
    of [Evict], whose buffer is written to disk exactly when it is dirty
    and whose page is removed from the page table before the new page is
    inserted.  What is removed from a well-formed page table is no longer
    found, nor is it found after the insertion of another page when the
    table was built by [Insert] and [Remove].  With an empty free list and
    no evictable frame both functions return null and leave the pool, the
    page id allocator included, as it is. *)
Theorem frame_acquisition s fuel page_id f s' :
  (forall id,
     NewPgImp hash fuel s = Some (Some (f, id), s')
     <-> id = next_page_id_ s
         /\ exists old,
              page_at f (pages_ s) = Some old
              /\ frame_acquired hash fuel s f id (data_ old)
                   (int_wrap (id + 1)) s')
  /\ (ExtendibleHashTable.Find hash page_id (page_table_ s) = Some None ->
      FetchPgImp hash fuel page_id s = Some (Some f, s')
      <-> exists old,
            page_at f (pages_ s) = Some old
            /\ frame_acquired hash fuel s f page_id
                 (ReadPage page_id (data_ old) (disk_manager_ s'))
                 (next_page_id_ s) s')
  /\ (table_wf (page_table_ s) ->
      forall victim_id found pt,
        ExtendibleHashTable.Remove hash victim_id (page_table_ s)
        = Some (found, pt) ->
        ExtendibleHashTable.Find hash victim_id pt = Some None
        /\ (table_reachable hash (page_table_ s) ->
            forall id pt',
              id <> victim_id ->
              ExtendibleHashTable.Insert hash fuel id f pt = Some pt' ->
              ExtendibleHashTable.Find hash victim_id pt' = Some None))
  /\ (free_list_ s = [] ->
      LRUKReplacer.Size (replacer_ s) = 0 ->
      NewPgImp hash fuel s = Some (None, s)
      /\ (ExtendibleHashTable.Find hash page_id (page_table_ s)
          = Some None ->
          FetchPgImp hash fuel page_id s = Some (None, s))).
Proof.
  (* the state that the two functions build once the frame is found *)
  assert (Hbuild : forall s1 page buf id next pt r1 r2,
            find_frame hash s = Some (Some f, s1) ->
            page_at f (pages_ s1) = Some page ->
            ExtendibleHashTable.Insert hash fuel id f (page_table_ s1)
            = Some pt ->
            LRUKReplacer.RecordAccess f (replacer_ s1) = Some r1 ->
            LRUKReplacer.SetEvictable f false r1 = Some r2 ->
            forall s2,
              pages_ s2
              = <[Z.to_nat f := {| data_ := buf; page_id_ := id;
                                   pin_count_ := 1; is_dirty_ := false |}]>
                  (pages_ s1) ->
              page_table_ s2 = pt -> replacer_ s2 = r2 ->
              free_list_ s2 = free_list_ s1 -> next_page_id_ s2 = next ->
              disk_manager_ s2 = disk_manager_ s1 ->
              deallocated_ s2 = deallocated_ s1 ->
              frame_acquired hash fuel s f id buf next s' ->
              s2 = s').
  { intros s1 page buf id next pt r1 r2 Hff Hp Hins Hr1 Hr2 s2 Hps Hpt Hrp
      Hfl Hnext Hdisk Hde (Hps' & Hnext' & Hde' & Hcase).
    destruct (find_frame_shape _ _ _ _ Hff) as (_ & Hde1 & Hshape).
    destruct Hshape as [(Hfl1 & Hps1 & Hpt1 & Hrp1 & Hd1)
                       |(Hfl0 & Hfl1 & victim & found & Hev & Hv & Hps1
                         & Hrem & Hd1)];
      destruct Hcase as [(Hfl' & Hd' & Hins' & r1' & Hr1' & Hr2')
                        |(Hfl0' & Hfl1' & r' & victim' & found' & pt' & r1'
                          & Hev' & Hv' & Hd' & Hrem' & Hins' & Hr1' & Hr2')];
      try congruence.
    - apply pool_eq; congruence.
    - rewrite Hev in Hev'. injection Hev' as <-.
      rewrite Hv in Hv'. injection Hv' as <-.
      rewrite Hrem in Hrem'. injection Hrem' as <- <-.
      apply pool_eq; try congruence.
      rewrite Hps, Hps', Hps1. apply list_insert_insert_eq. }
  split; [|split; [|split]].
  - intros id. split.
    + intros (s1 & page & r1 & Hff & Hid & Hp & Hins & Hr1 & Hr2 & Hps & Hfl
              & Hnext & Hdisk & Hde)%NewPgImp_shape.
      split; [done|].
      destruct (install_acquired fuel s f s1 page id (data_ page)
                  (int_wrap (id + 1)) r1 s' Hff Hp Hins Hr1 Hr2 Hps Hfl
                  Hnext Hdisk Hde) as (old & Hold & Hdata & Hacq).
      exists old. by rewrite Hdata.
    + intros (-> & old & Hold & Hacq).
      pose proof Hacq as (Hps' & Hnext' & Hde' & Hcase).
      assert (Hff : exists s1 r1,
                find_frame hash s = Some (Some f, s1)
                /\ next_page_id_ s1 = next_page_id_ s
                /\ (exists page, page_at f (pages_ s1) = Some page
                                 /\ data_ page = data_ old)
                /\ ExtendibleHashTable.Insert hash fuel (next_page_id_ s) f
                     (page_table_ s1) = Some (page_table_ s')
                /\ LRUKReplacer.RecordAccess f (replacer_ s1) = Some r1
                /\ LRUKReplacer.SetEvictable f false r1
                   = Some (replacer_ s')).
      { destruct Hcase as [(Hfl' & Hd' & Hins' & r1' & Hr1' & Hr2')
                          |(Hfl0' & Hfl1' & r' & victim' & found' & pt' & r1'
                            & Hev' & Hv' & Hd' & Hrem' & Hins' & Hr1'
                            & Hr2')].
        - exists (set_free_list (free_list_ s') s), r1'.
          unfold find_frame. rewrite Hfl'. cbn. split; [done|].
          split; [done|]. split; [by exists old|done].
        - destruct (find_frame_evict s f r' victim' found' pt' Hfl0' Hev'
                      Hv' Hrem')
            as (s1 & Hff & Hps1 & Hpt1 & Hrp1 & _ & Hn1 & _).
          exists s1, r1'. split; [done|]. split; [done|].
          rewrite Hps1, Hpt1, Hrp1, (page_at_store_eq _ _ _ _ Hv').
          split; [|done]. exists (set_dirty false victim'). split; [done|].
          rewrite Hold in Hv'. by injection Hv' as <-. }
      destruct Hff as (s1 & r1 & Hff & Hn1 & (page & Hp & Hdata) & Hins & Hr1
                       & Hr2).
      unfold NewPgImp. rewrite Hff. cbn. rewrite Hp. cbn.
      rewrite Hn1, Hins. cbn. rewrite Hr1. cbn. rewrite Hr2. cbn.
      do 2 f_equal.
      eapply (Hbuild s1 page (data_ page) (next_page_id_ s)
                (int_wrap (next_page_id_ s + 1)) _ r1 _ Hff Hp);
        [by rewrite <- Hins|exact Hr1|exact Hr2|cbn..|].
      all: try reflexivity.
      by rewrite Hdata.
  - intros Hmiss. split.
    + intros (s1 & page & r1 & Hff & Hp & Hins & Hr1 & Hr2 & Hps & Hfl
              & Hnext & Hdisk & Hde)%FetchPgImp_miss_shape; [|done].
      rewrite <- Hdisk in Hps.
      destruct (install_acquired fuel s f s1 page page_id
                  (ReadPage page_id (data_ page) (disk_manager_ s'))
                  (next_page_id_ s) r1 s' Hff Hp Hins Hr1 Hr2 Hps Hfl
                  Hnext Hdisk Hde) as (old & Hold & Hdata & Hacq).
      exists old. by rewrite Hdata.
    + intros (old & Hold & Hacq).
      pose proof Hacq as (Hps' & Hnext' & Hde' & Hcase).
      assert (Hff : exists s1 r1,
                find_frame hash s = Some (Some f, s1)
                /\ disk_manager_ s1 = disk_manager_ s'
                /\ (exists page, page_at f (pages_ s1) = Some page
                                 /\ data_ page = data_ old)
                /\ ExtendibleHashTable.Insert hash fuel page_id f
                     (page_table_ s1) = Some (page_table_ s')
                /\ LRUKReplacer.RecordAccess f (replacer_ s1) = Some r1
                /\ LRUKReplacer.SetEvictable f false r1
                   = Some (replacer_ s')).
      { destruct Hcase as [(Hfl' & Hd' & Hins' & r1' & Hr1' & Hr2')
                          |(Hfl0' & Hfl1' & r' & victim' & found' & pt' & r1'
                            & Hev' & Hv' & Hd' & Hrem' & Hins' & Hr1'
                            & Hr2')].
        - exists (set_free_list (free_list_ s') s), r1'.
          unfold find_frame. rewrite Hfl'. cbn. split; [done|].
          split; [done|]. split; [by exists old|done].
        - destruct (find_frame_evict s f r' victim' found' pt' Hfl0' Hev'
                      Hv' Hrem')
            as (s1 & Hff & Hps1 & Hpt1 & Hrp1 & _ & _ & Hd1 & _).
          exists s1, r1'. split; [done|]. split; [congruence|].
          rewrite Hps1, Hpt1, Hrp1, (page_at_store_eq _ _ _ _ Hv').
          split; [|done]. exists (set_dirty false victim'). split; [done|].
          rewrite Hold in Hv'. by injection Hv' as <-. }
      destruct Hff as (s1 & r1 & Hff & Hd1 & (page & Hp & Hdata) & Hins & Hr1
                       & Hr2).
      unfold FetchPgImp. rewrite Hmiss. cbn. rewrite Hff. cbn.
      rewrite Hp. cbn. rewrite Hins. cbn. rewrite Hr1. cbn. rewrite Hr2.
      cbn. do 2 f_equal.
      destruct (find_frame_shape _ _ _ _ Hff) as (Hn1 & _).
      eapply (Hbuild s1 page
                (ReadPage page_id (data_ page) (disk_manager_ s1)) page_id
                (next_page_id_ s) _ r1 _ Hff Hp);
        [by rewrite <- Hins|exact Hr1|exact Hr2|cbn..|].
      all: try reflexivity.
      * done.
      * by rewrite Hdata, Hd1.
  - intros Hwf victim_id found pt Hrem.
    destruct (Remove_total hash victim_id (page_table_ s) Hwf)
      as (found0 & pt0 & Hrem0 & _ & Hgone).
    rewrite Hrem in Hrem0. injection Hrem0 as <- <-.
    split; [done|]. intros Hreach id pt' Hne Hins.
    rewrite (Insert_Find_other hash fuel id f victim_id pt pt'); [done| |done
      |congruence].
    eapply reach_table_Remove; [exact Hreach|exact Hrem].
  - intros Hfl Hsize.
    assert (Hff : find_frame hash s = Some (None, s)).
    { unfold find_frame, LRUKReplacer.Evict. rewrite Hfl.
      unfold LRUKReplacer.Size in Hsize. rewrite Hsize. cbn.
      by rewrite set_replacer_same. }
    split.
    + unfold NewPgImp. by rewrite Hff.
    + intros Hmiss. unfold FetchPgImp. rewrite Hmiss. cbn. by rewrite Hff.
Qed.

End FrameAcquisition.

(** ** The page table, the frames and the free list *)

Section PoolConsistencyFacts.

Import BufferPoolManagerInstance.

Variable hash : page_id_t -> Z.

Implicit Types (s : BufferPoolManagerInstance.t) (f g : frame_id_t).

Lemma RecordAccess_keys f r r' :
  LRUKReplacer.RecordAccess f r = Some r' ->
  NoDup (map fst (LRUKReplacer.frame_map_ r)) ->
  NoDup (map fst (LRUKReplacer.frame_map_ r')).
Proof.
  unfold LRUKReplacer.RecordAccess. destruct (_ <? _); [|done].
  intros [= <-] Hnd. cbn. rewrite fm_access_keys.
  destruct (LRUKReplacer.fm_find f _) eqn:Hf; [done|].
  apply NoDup_app. split; [done|]. split; [|apply NoDup_singleton].
  intros x Hx ->%list_elem_of_singleton. by apply fm_find_None in Hf.
Qed.

Lemma SetEvictable_keys f b r r' :
  LRUKReplacer.SetEvictable f b r = Some r' ->
  NoDup (map fst (LRUKReplacer.frame_map_ r)) ->
  NoDup (map fst (LRUKReplacer.frame_map_ r')).
Proof.
  unfold LRUKReplacer.SetEvictable. destruct (_ <? _); [|done].
  destruct (LRUKReplacer.fm_find f _) eqn:Hf; [|by intros [= <-]].
  destruct (eqb _ _); [by intros [= <-]|].
  intros [= <-]. cbn. by rewrite fm_access_keys, Hf.
Qed.

Lemma Remove_keys f r r' :
  LRUKReplacer.Remove f r = Some r' ->
  NoDup (map fst (LRUKReplacer.frame_map_ r)) ->
  NoDup (map fst (LRUKReplacer.frame_map_ r')).
Proof.
  unfold LRUKReplacer.Remove. destruct (_ <? _); [|done].
  destruct (LRUKReplacer.fm_find f _) as [fi|]; [|by intros [= <-]].
  destruct (LRUKReplacer.evictable fi); [|done].
  intros [= <-]. cbn. rewrite fm_erase_keys. apply NoDup_bool_filter.
Qed.

Lemma Evict_keys r res r' :
  LRUKReplacer.Evict r = Some (res, r') ->
  NoDup (map fst (LRUKReplacer.frame_map_ r)) ->
  NoDup (map fst (LRUKReplacer.frame_map_ r')).
Proof.
  unfold LRUKReplacer.Evict. destruct (_ =? 0); [by intros [= _ <-]|].
  destruct (LRUKReplacer.scan _ _ _ _) as [st|]; [|done]. cbn.
  destruct (_ =? _); [done|]. intros [= _ <-]. cbn.
  rewrite fm_erase_keys. apply NoDup_bool_filter.
Qed.

(** The frame found by [find_frame] is held by nothing: the page table
    does not map to it and it is not in the free list. *)
Lemma find_frame_inv s f s1 :
  pool_inv hash s -> find_frame hash s = Some (Some f, s1) ->
  pool_inv hash s1 /\ frame_unmapped hash s1 f /\ (f ∉ free_list_ s1)
  /\ is_Some (page_at f (pages_ s1)).
Proof.
  intros Hinv (_ & _ & Hshape)%find_frame_shape.
  destruct Hshape as [(Hfl & Hps & Hpt & Hr & _)
                     |(Hfl & Hfl1 & victim & found & Hev & Hv & Hps & Hrem
                       & _)].
  - pose proof (pinv_free_nodup hash s Hinv) as Hnd.
    rewrite Hfl in Hnd. apply list.NoDup_cons in Hnd as [Hnotin Hnd].
    assert (Hfree : forall g, g ∈ f :: free_list_ s1 -> frame_free hash s1 g).
    { intros g Hg. rewrite <- Hfl in Hg.
      destruct (pinv_free hash s Hinv g Hg) as (Hun & Hrec & Hpage).
      unfold frame_free, frame_unmapped. rewrite Hps, Hpt, Hr. done. }
    split; [|split; [|split; [done|]]].
    + split.
      * rewrite Hpt. apply (pinv_table hash s Hinv).
      * rewrite Hr. apply (pinv_keys hash s Hinv).
      * rewrite Hpt, Hps. apply (pinv_resident hash s Hinv).
      * done.
      * intros g Hg. apply Hfree. by apply list_elem_of_further.
    + apply (Hfree f). apply list_elem_of_here.
    + destruct (Hfree f) as (_ & _ & p & Hp & _); [apply list_elem_of_here|].
      by exists p.
  - pose proof (pinv_table hash s Hinv) as Htable.
    destruct (Remove_Find hash _ _ _ _ Htable Hrem) as (_ & Hgone & Hother).
    pose proof (page_at_Some _ _ _ Hv) as (Hf0 & _).
    assert (Hold : forall k g,
              ExtendibleHashTable.Find hash k (page_table_ s1)
              = Some (Some g) ->
              k <> page_id_ victim
              /\ ExtendibleHashTable.Find hash k (page_table_ s)
                 = Some (Some g)
              /\ g <> f).
    { intros k g Hk. assert (Hne : k <> page_id_ victim).
      { intros ->. by rewrite Hgone in Hk. }
      rewrite Hother in Hk by done. split; [done|]. split; [done|].
      intros ->. destruct (pinv_resident hash s Hinv k f Hk) as (p & Hp & Hid).
      rewrite Hv in Hp. injection Hp as <-. done. }
    split; [|split; [|split]].
    + split.
      * eapply reach_table_Remove; [exact Htable|exact Hrem].
      * eapply Evict_keys; [exact Hev|apply (pinv_keys hash s Hinv)].
      * intros k g Hk. destruct (Hold k g Hk) as (_ & Hk' & Hg).
        rewrite Hps, page_at_store_ne by done.
        by apply (pinv_resident hash s Hinv).
      * rewrite Hfl1. apply NoDup_nil_2.
      * rewrite Hfl1. by intros g ?%elem_of_nil.
    + intros k Hk. by destruct (Hold k f Hk) as (_ & _ & ?).
    + rewrite Hfl1. by intros ?%elem_of_nil.
    + rewrite Hps, (page_at_store_eq _ _ _ _ Hv). by eexists.
Qed.

(** The part that [NewPgImp] and the miss path of [FetchPgImp] share after
    the frame is found: the page is installed in a frame held by nothing. *)
Lemma install_inv s1 f page page' fuel page_id r1 s' :
  pool_inv hash s1 -> frame_unmapped hash s1 f -> f ∉ free_list_ s1 ->
  page_at f (pages_ s1) = Some page ->
  page_id_ page' = page_id ->
  ExtendibleHashTable.Insert hash fuel page_id f (page_table_ s1)
  = Some (page_table_ s') ->
  LRUKReplacer.RecordAccess f (replacer_ s1) = Some r1 ->
  LRUKReplacer.SetEvictable f false r1 = Some (replacer_ s') ->
  pages_ s' = <[Z.to_nat f := page']> (pages_ s1) ->
  free_list_ s' = free_list_ s1 ->
  pool_inv hash s'.
Proof.
  intros Hinv Hun Hnotin Hp Hid Hins Hr1 Hr2 Hps Hfl.
  pose proof (pinv_table hash s1 Hinv) as Htable.
  pose proof (page_at_Some _ _ _ Hp) as (Hf0 & _).
  pose proof (Insert_finds hash _ _ _ _ _ Hins) as Hnew.
  pose proof (fun k => Insert_Find_other hash _ _ _ k _ _ Htable Hins)
    as Hother.
  destruct (RecordAccess_find _ _ _ Hr1) as (_ & Hrec1 & _).
  destruct (SetEvictable_find f false r1 (SetEvictable_find_inv _ _ _ _ Hr2))
    as (r2 & Hr2' & _ & _ & Hrec2 & _).
  rewrite Hr2 in Hr2'. injection Hr2' as <-.
  split.
  - eapply reach_table_Insert; [exact Htable|exact Hins].
  - eapply SetEvictable_keys; [exact Hr2|].
    eapply RecordAccess_keys; [exact Hr1|apply (pinv_keys hash s1 Hinv)].
  - intros k g Hk. rewrite Hps.
    destruct (Z.eq_dec k page_id) as [->|Hne].
    + rewrite Hnew in Hk. injection Hk as <-.
      exists page'. split; [by eapply page_at_store_eq|done].
    + rewrite Hother in Hk by done.
      assert (g <> f) by (intros ->; by apply (Hun k)).
      rewrite page_at_store_ne by done.
      by apply (pinv_resident hash s1 Hinv).
  - rewrite Hfl. apply (pinv_free_nodup hash s1 Hinv).
  - intros g Hg. rewrite Hfl in Hg.
    assert (Hgf : g <> f) by (by intros ->).
    destruct (pinv_free hash s1 Hinv g Hg) as (Hung & Hrec & Hpage).
    split; [|split].
    + intros k Hk. destruct (Z.eq_dec k page_id) as [->|Hne].
      * rewrite Hnew in Hk. by injection Hk.
      * rewrite Hother in Hk by done. by apply (Hung k).
    + by rewrite Hrec2, Hrec1.
    + by rewrite Hps, page_at_store_ne.
Qed.

(** A change of the pin count, of the dirty flag or of the buffer of a
    frame that holds a page of the page table. *)
Lemma update_inv s page_id f p p' s' :
  pool_inv hash s ->
  ExtendibleHashTable.Find hash page_id (page_table_ s) = Some (Some f) ->
  page_at f (pages_ s) = Some p ->
  page_id_ p' = page_id_ p ->
  pages_ s' = <[Z.to_nat f := p']> (pages_ s) ->
  page_table_ s' = page_table_ s ->
  free_list_ s' = free_list_ s ->
  NoDup (map fst (LRUKReplacer.frame_map_ (replacer_ s'))) ->
  (forall g, g <> f ->
     LRUKReplacer.fm_find g (LRUKReplacer.frame_map_ (replacer_ s'))
     = LRUKReplacer.fm_find g (LRUKReplacer.frame_map_ (replacer_ s))) ->
  pool_inv hash s'.
Proof.
  intros Hinv Hfind Hp Hid Hps Hpt Hfl Hkeys Hrec.
  pose proof (page_at_Some _ _ _ Hp) as (Hf0 & _).
  split.
  - rewrite Hpt. apply (pinv_table hash s Hinv).
  - done.
  - intros k g. rewrite Hpt, Hps. intros Hk.
    destruct (pinv_resident hash s Hinv k g Hk) as (q & Hq & Hqid).
    destruct (Z.eq_dec g f) as [->|Hne].
    + rewrite Hp in Hq. injection Hq as <-.
      exists p'. split; [by eapply page_at_store_eq|congruence].
    + exists q. by rewrite page_at_store_ne.
  - rewrite Hfl. apply (pinv_free_nodup hash s Hinv).
  - intros g. rewrite Hfl. intros Hg.
    destruct (pinv_free hash s Hinv g Hg) as (Hung & Hrecg & Hpage).
    assert (Hgf : g <> f) by (intros ->; by apply (Hung page_id)).
    unfold frame_free, frame_unmapped. rewrite Hpt, Hps, Hrec by done.
    by rewrite page_at_store_ne.
Qed.

Lemma NewPgImp_inv fuel s res s' :
  pool_inv hash s -> NewPgImp hash fuel s = Some (res, s') ->
  pool_inv hash s'.
Proof.
  intros Hinv Hnew. destruct res as [[f id]|].
  - destruct (NewPgImp_shape hash _ _ _ _ _ Hnew)
      as (s1 & page & r1 & Hff & _ & Hp & Hins & Hr1 & Hr2 & Hps & Hfl & _).
    destruct (find_frame_inv _ _ _ Hinv Hff) as (Hinv1 & Hun & Hnotin & _).
    eapply (install_inv s1 f page _ fuel id r1 s' Hinv1 Hun Hnotin Hp);
      [|exact Hins|exact Hr1|exact Hr2|exact Hps|exact Hfl]; reflexivity.
  - unfold NewPgImp in Hnew.
    destruct (find_frame hash s) as [[[g|] s1]|] eqn:Hff; cbn in Hnew;
      [|injection Hnew as <-;
        by apply find_frame_none in Hff as [-> _]|done].
    destruct (page_at g _); [|done]. cbn in Hnew.
    destruct (ExtendibleHashTable.Insert _ _ _ _ _); [|done]. cbn in Hnew.
    destruct (LRUKReplacer.RecordAccess _ _); [|done]. cbn in Hnew.
    by destruct (LRUKReplacer.SetEvictable _ _ _).
Qed.

Lemma FetchPgImp_inv fuel page_id s res s' :
  pool_inv hash s -> FetchPgImp hash fuel page_id s = Some (res, s') ->
  pool_inv hash s'.
Proof.
  intros Hinv Hfetch.
  destruct (ExtendibleHashTable.Find hash page_id (page_table_ s))
    as [[f|]|] eqn:Hfind.
  - destruct (FetchPgImp_hit_shape hash _ _ _ _ _ _ Hfind Hfetch)
      as (page & r1 & _ & Hp & _ & Hr1 & Hr2 & Hps & Hpt & Hfl & _).
    destruct (RecordAccess_find _ _ _ Hr1) as (_ & Hrec1 & _).
    destruct (SetEvictable_find f false r1
                (SetEvictable_find_inv _ _ _ _ Hr2))
      as (r2 & Hr2' & _ & _ & Hrec2 & _).
    rewrite Hr2 in Hr2'. injection Hr2' as Heq.
    eapply (update_inv s page_id f page
              (set_pin_count (pin_count_ page + 1) page)); try done.
    + eapply SetEvictable_keys; [exact Hr2|].
      eapply RecordAccess_keys; [exact Hr1|apply (pinv_keys hash s Hinv)].
    + intros g Hg. by rewrite Heq, Hrec2, Hrec1.
  - destruct res as [f|].
    + destruct (FetchPgImp_miss_shape hash _ _ _ _ _ Hfind Hfetch)
        as (s1 & page & r1 & Hff & Hp & Hins & Hr1 & Hr2 & Hps & Hfl & _).
      destruct (find_frame_inv _ _ _ Hinv Hff) as (Hinv1 & Hun & Hnotin & _).
      eapply (install_inv s1 f page _ fuel page_id r1 s' Hinv1 Hun Hnotin
                Hp);
        [|exact Hins|exact Hr1|exact Hr2|exact Hps|exact Hfl]; reflexivity.
    + unfold FetchPgImp in Hfetch. rewrite Hfind in Hfetch. cbn in Hfetch.
      destruct (find_frame hash s) as [[[g|] s1]|] eqn:Hff; cbn in Hfetch;
        [|injection Hfetch as <-;
          by apply find_frame_none in Hff as [-> _]|done].
      destruct (page_at g _); [|done]. cbn in Hfetch.
      destruct (ExtendibleHashTable.Insert _ _ _ _ _); [|done].
      cbn in Hfetch.
      destruct (LRUKReplacer.RecordAccess _ _); [|done]. cbn in Hfetch.
      by destruct (LRUKReplacer.SetEvictable _ _ _).
  - unfold FetchPgImp in Hfetch. by rewrite Hfind in Hfetch.
Qed.

Lemma UnpinPgImp_inv page_id is_dirty s res s' :
  pool_inv hash s -> UnpinPgImp hash page_id is_dirty s = Some (res, s') ->
  pool_inv hash s'.
Proof.
  intros Hinv. unfold UnpinPgImp.
  destruct (ExtendibleHashTable.Find hash page_id (page_table_ s))
    as [[f|]|] eqn:Hfind; cbn; [|by intros [= _ <-]|done].
  destruct (page_at f (pages_ s)) as [page|] eqn:Hp; [|done]. cbn.
  destruct (_ <=? 0); [by intros [= _ <-]|].
  set (page2 := if is_dirty then _ else _).
  assert (Hid : page_id_ page2 = page_id_ page)
    by (subst page2; by destruct is_dirty).
  destruct (pin_count_ page2 =? 0).
  - destruct (LRUKReplacer.SetEvictable f true (replacer_ s)) as [r|] eqn:Hr;
      [|done].
    cbn. intros [= _ <-].
    destruct (SetEvictable_find f true (replacer_ s)
                (SetEvictable_find_inv _ _ _ _ Hr))
      as (r' & Hr' & _ & _ & Hrec & _).
    rewrite Hr in Hr'. injection Hr' as <-.
    eapply (update_inv s page_id f page page2); try done; cbn.
    eapply SetEvictable_keys; [exact Hr|apply (pinv_keys hash s Hinv)].
  - intros [= _ <-].
    eapply (update_inv s page_id f page page2); try done; cbn.
    apply (pinv_keys hash s Hinv).
Qed.

Lemma FlushPgImp_inv page_id s res s' :
  pool_inv hash s -> FlushPgImp hash page_id s = Some (res, s') ->
  pool_inv hash s'.
Proof.
  intros Hinv. unfold FlushPgImp.
  destruct (_ =? _); [by intros [= _ <-]|].
  destruct (ExtendibleHashTable.Find hash page_id (page_table_ s))
    as [[f|]|] eqn:Hfind; cbn; [|by intros [= _ <-]|done].
  destruct (page_at f (pages_ s)) as [page|] eqn:Hp; [|done]. cbn.
  intros [= _ <-].
  eapply (update_inv s page_id f page (set_dirty false page)); try done; cbn.
  apply (pinv_keys hash s Hinv).
Qed.

Lemma FlushAllPgsImp_inv s :
  pool_inv hash s -> pool_inv hash (FlushAllPgsImp s).
Proof.
  intros Hinv. unfold FlushAllPgsImp. rewrite flush_all_loop_spec.
  set (h := fun p => if needs_flush p then set_dirty false p else p).
  assert (Hh : forall p, page_id_ (h p) = page_id_ p
                         /\ pin_count_ (h p) = pin_count_ p
                         /\ data_ (h p) = data_ p
                         /\ (is_dirty_ p = false -> is_dirty_ (h p) = false)).
  { intros p. subst h. cbn. by destruct (needs_flush p). }
  split;
    cbn [pages_ page_table_ replacer_ free_list_ set_pages set_disk_manager];
    unfold frame_free, frame_unmapped;
    cbn [pages_ page_table_ replacer_ free_list_ set_pages set_disk_manager].
  - apply (pinv_table hash s Hinv).
  - apply (pinv_keys hash s Hinv).
  - intros k g Hk.
    destruct (pinv_resident hash s Hinv k g Hk) as (q & Hq & Hqid).
    exists (h q). rewrite page_at_map, Hq. split; [done|].
    by rewrite (proj1 (Hh q)).
  - apply (pinv_free_nodup hash s Hinv).
  - intros g Hg.
    destruct (pinv_free hash s Hinv g Hg)
      as (Hung & Hrec & q & Hq & Hqid & Hpin & Hdirty & Hzero).
    split; [done|]. split; [done|]. exists (h q).
    rewrite page_at_map, Hq. destruct (Hh q) as (-> & -> & -> & Hd).
    split; [done|]. split; [done|]. split; [done|]. split; [auto|done].
Qed.

Lemma DeletePgImp_inv page_id s res s' :
  pool_inv hash s -> DeletePgImp hash page_id s = Some (res, s') ->
  pool_inv hash s'.
Proof.
  intros Hinv. unfold DeletePgImp.
  destruct (ExtendibleHashTable.Find hash page_id (page_table_ s))
    as [[f|]|] eqn:Hfind; cbn; [| |done].
  2: { intros [= _ <-]. by destruct Hinv. }
  destruct (page_at f (pages_ s)) as [page|] eqn:Hp; [|done]. cbn.
  destruct (_ <? _); [by intros [= _ <-]|].
  set (s1 := if is_dirty_ page then _ else s).
  assert (Hs1 : replacer_ s1 = replacer_ s /\ pages_ s1 = pages_ s
                /\ page_table_ s1 = page_table_ s
                /\ free_list_ s1 = free_list_ s)
    by (subst s1; by destruct (is_dirty_ page)).
  destruct Hs1 as (Hr1 & Hps1 & Hpt1 & Hfl1). rewrite Hpt1, Hr1.
  destruct (ExtendibleHashTable.Remove _ _ _) as [[fd pt]|] eqn:Hrem;
    [|done].
  cbn.
  destruct (LRUKReplacer.Remove f (replacer_ s)) as [r|] eqn:Hr; [|done].
  cbn. intros [= _ <-].
  pose proof (pinv_table hash s Hinv) as Htable.
  destruct (Remove_Find hash _ _ _ _ Htable Hrem) as (_ & Hgone & Hother).
  pose proof (page_at_Some _ _ _ Hp) as (Hf0 & _).
  destruct (Remove_find _ _ _ Hr) as (Hnone & Hrec & _).
  assert (Hold : forall k g,
            ExtendibleHashTable.Find hash k pt = Some (Some g) ->
            ExtendibleHashTable.Find hash k (page_table_ s) = Some (Some g)
            /\ g <> f).
  { intros k g Hk. assert (Hne : k <> page_id).
    { intros ->. by rewrite Hgone in Hk. }
    rewrite Hother in Hk by done. split; [done|].
    intros ->. destruct (pinv_resident hash s Hinv k f Hk) as (q & Hq & Hqid).
    destruct (pinv_resident hash s Hinv page_id f Hfind)
      as (q' & Hq' & Hqid').
    congruence. }
  assert (Hnotin : f ∉ free_list_ s).
  { intros Hin. destruct (pinv_free hash s Hinv f Hin) as (Hun & _).
    by apply (Hun page_id). }
  split; cbn; rewrite ?Hps1, ?Hfl1.
  - eapply reach_table_Remove; [exact Htable|exact Hrem].
  - eapply Remove_keys; [exact Hr|apply (pinv_keys hash s Hinv)].
  - intros k g Hk. destruct (Hold k g Hk) as [Hk' Hg].
    rewrite page_at_store_ne by done.
    by apply (pinv_resident hash s Hinv).
  - apply NoDup_app. split; [apply (pinv_free_nodup hash s Hinv)|].
    split; [|apply NoDup_singleton].
    by intros x Hx ->%list_elem_of_singleton.
  - intros g [Hg | ->%list_elem_of_singleton]%elem_of_app.
    + assert (Hgf : g <> f) by (by intros ->).
      destruct (pinv_free hash s Hinv g Hg) as (Hung & Hrecg & Hpage).
      split; [|split].
      * intros k Hk. cbn in Hk. destruct (Hold k g Hk) as [Hk' _].
        by apply (Hung k).
      * cbn. by rewrite Hrec.
      * cbn. rewrite ?Hps1. by rewrite page_at_store_ne.
    + split; [|split].
      * intros k Hk. cbn in Hk. by destruct (Hold k f Hk).
      * done.
      * cbn. rewrite ?Hps1. eexists. split; [by eapply page_at_store_eq|].
        cbn. do 3 (split; [done|]).
        unfold zeroed. apply Forall_forall. intros x Hx.
        apply list_elem_of_In, in_map_iff in Hx as (y & <- & _). done.
Qed.

Lemma int_wrap_small x : 0 <= x <= INT_MAX -> int_wrap x = x.
Proof.
  unfold int_wrap, INT_MAX. intros Hx.
  rewrite Z.mod_small; lia.
Qed.

Lemma new_inv pool_size disk_manager replacer_k bucket_size page_size s :
  0 <= pool_size <= INT_MAX + 1 ->
  new_ pool_size disk_manager replacer_k bucket_size page_size = Some s ->
  pool_inv hash s.
Proof.
  intros Hsize. unfold new_.
  destruct (LRUKReplacer.new_ pool_size replacer_k) as [r|] eqn:Hr; [|done].
  cbn. intros [= <-].
  unfold LRUKReplacer.new_ in Hr. destruct (1 <=? replacer_k); [|done].
  injection Hr as <-.
  assert (Hfl : int_wrap <$> seqZ 0 pool_size = seqZ 0 pool_size).
  { rewrite <- (list_fmap_id (seqZ 0 pool_size)) at 2.
    apply list_fmap_ext. intros i x Hx. cbn.
    apply list_elem_of_lookup_2, elem_of_seqZ in Hx.
    apply int_wrap_small. lia. }
  assert (Hempty : forall k,
            ExtendibleHashTable.Find hash k
              (ExtendibleHashTable.new_ (V:=frame_id_t) bucket_size)
            = Some None).
  { intros k. unfold ExtendibleHashTable.Find, ExtendibleHashTable.IndexOf.
    cbn. by rewrite Z.land_0_r. }
  split; unfold frame_free, frame_unmapped;
    cbn [pages_ page_table_ replacer_ free_list_ LRUKReplacer.frame_map_
         LRUKReplacer.fm_find map].
  - apply reach_table_new.
  - apply NoDup_nil_2.
  - intros k g. by rewrite Hempty.
  - rewrite Hfl. apply NoDup_seqZ.
  - intros g. rewrite Hfl. intros Hg%elem_of_seqZ.
    split; [|split; [done|]].
    + intros k. by rewrite Hempty.
    + exists (Page_default page_size). cbn. split.
      * unfold page_at. destruct (Z.ltb_spec g 0); [lia|].
        apply lookup_replicate_2. lia.
      * do 3 (split; [done|]). apply Forall_forall.
        by intros x [-> _]%elem_of_replicate.
Qed.

(** The caller writes to the buffer of a pinned page. *)
Lemma write_data_inv s f p buf :
  pool_inv hash s ->
  page_at f (pages_ s) = Some p ->
  0 < pin_count_ p ->
  pool_inv hash (store_page f (set_data buf p) s).
Proof.
  intros Hinv Hp Hpin.
  pose proof (page_at_Some _ _ _ Hp) as (Hf0 & _).
  split; unfold frame_free, frame_unmapped;
    cbn [store_page set_pages pages_ page_table_ replacer_ free_list_].
  - apply (pinv_table hash s Hinv).
  - apply (pinv_keys hash s Hinv).
  - intros k g Hk.
    destruct (pinv_resident hash s Hinv k g Hk) as (q & Hq & Hqid).
    destruct (Z.eq_dec g f) as [->|Hne].
    + rewrite Hp in Hq. injection Hq as <-.
      exists (set_data buf p). split; [by eapply page_at_store_eq|done].
    + exists q. by rewrite page_at_store_ne.
  - apply (pinv_free_nodup hash s Hinv).
  - intros g Hg.
    destruct (pinv_free hash s Hinv g Hg)
      as (Hun & Hrec & q & Hq & Hqid & Hqpin & Hqd & Hqz).
    split; [exact Hun|]. split; [exact Hrec|].
    exists q. split; [|done].
    rewrite page_at_store_ne; [done|done|].
    intros ->. rewrite Hp in Hq. injection Hq as <-. lia.
Qed.

(** Every state of a pool of at most [INT_MAX + 1] frames keeps the
    invariant. *)
Lemma pool_reachable_inv h s :
  pool_reachable hash h s ->
  pool_size_ s <= INT_MAX + 1 ->
  pool_inv hash s.
Proof.
  induction 1 as [pool_size disk_manager replacer_k bucket_size page_size s
                    Hsize Hnew
                 |h s fuel f id s' Hreach IH Hop
                 |h s fuel s' Hreach IH Hop
                 |h s fuel page_id f s' Hreach IH Hop
                 |h s fuel page_id s' Hreach IH Hop
                 |h s page_id is_dirty res s' Hreach IH Hop
                 |h s page_id res s' Hreach IH Hop
                 |h s Hreach IH
                 |h s page_id res s' Hreach IH Hop
                 |h s f p buf Hreach IH Hp Hpin Hlen];
    intros Hbound.
  - apply (new_inv pool_size disk_manager replacer_k bucket_size page_size);
      [|done].
    unfold new_ in Hnew.
    destruct (LRUKReplacer.new_ _ _); [|done]. injection Hnew as <-.
    unfold pool_size_ in Hbound. cbn in Hbound.
    rewrite length_replicate in Hbound. lia.
  - pose proof (pool_reachable_wf hash h s Hreach) as Hwf.
    destruct (NewPgImp_wf hash _ _ _ _ Hop Hwf) as [_ Hlen].
    eapply NewPgImp_inv; [|exact Hop].
    apply IH. unfold pool_size_ in *. by rewrite <- Hlen.
  - pose proof (pool_reachable_wf hash h s Hreach) as Hwf.
    destruct (NewPgImp_wf hash _ _ _ _ Hop Hwf) as [_ Hlen].
    eapply NewPgImp_inv; [|exact Hop].
    apply IH. unfold pool_size_ in *. by rewrite <- Hlen.
  - pose proof (pool_reachable_wf hash h s Hreach) as Hwf.
    destruct (FetchPgImp_wf hash _ _ _ _ _ Hop Hwf) as [_ Hlen].
    eapply FetchPgImp_inv; [|exact Hop].
    apply IH. unfold pool_size_ in *. by rewrite <- Hlen.
  - pose proof (pool_reachable_wf hash h s Hreach) as Hwf.
    destruct (FetchPgImp_wf hash _ _ _ _ _ Hop Hwf) as [_ Hlen].
    eapply FetchPgImp_inv; [|exact Hop].
    apply IH. unfold pool_size_ in *. by rewrite <- Hlen.
  - pose proof (pool_reachable_wf hash h s Hreach) as Hwf.
    destruct (UnpinPgImp_wf hash _ _ _ _ _ Hop Hwf) as [_ Hlen].
    eapply UnpinPgImp_inv; [|exact Hop].
    apply IH. unfold pool_size_ in *. by rewrite <- Hlen.
  - pose proof (pool_reachable_wf hash h s Hreach) as Hwf.
    destruct (FlushPgImp_wf hash _ _ _ _ Hop Hwf) as [_ Hlen].
    eapply FlushPgImp_inv; [|exact Hop].
    apply IH. unfold pool_size_ in *. by rewrite <- Hlen.
  - pose proof (pool_reachable_wf hash h s Hreach) as Hwf.
    destruct (FlushAllPgsImp_wf s Hwf) as [_ Hlen].
    apply FlushAllPgsImp_inv.
    apply IH. unfold pool_size_ in *. by rewrite <- Hlen.
  - pose proof (pool_reachable_wf hash h s Hreach) as Hwf.
    destruct (DeletePgImp_wf hash _ _ _ _ Hop Hwf) as [_ Hlen].
    eapply DeletePgImp_inv; [|exact Hop].
    apply IH. unfold pool_size_ in *. by rewrite <- Hlen.
  - apply (write_data_inv s f p buf); [|done|done].
    apply IH. unfold pool_size_ in *. cbn in Hbound.
    by rewrite length_insert in Hbound.
Qed.

End PoolConsistencyFacts.

(** ** What the operations of the pool do *)

Section PoolExtras.

Import BufferPoolManagerInstance.

Variable hash : page_id_t -> Z.

Implicit Types (s : BufferPoolManagerInstance.t) (f g : frame_id_t).

(** The victim of the scan loop is the key of an evictable record. *)
Lemma scan_victim k now m : forall st st',
  LRUKReplacer.scan k now st m = Some st' ->
  LRUKReplacer.victim_fid st' = LRUKReplacer.victim_fid st
  \/ exists fi, (LRUKReplacer.victim_fid st', fi) ∈ m
                /\ LRUKReplacer.evictable fi = true.
Proof.
  induction m as [|[g gi] m IH]; intros st st'; cbn [LRUKReplacer.scan].
  - intros [= <-]. by left.
  - destruct (LRUKReplacer.scan_entry k now st (g, gi)) as [st1|] eqn:Hentry;
      [|done].
    cbn. intros Hscan.
    assert (Hone : LRUKReplacer.victim_fid st1 = LRUKReplacer.victim_fid st
                   \/ (LRUKReplacer.victim_fid st1 = g
                       /\ LRUKReplacer.evictable gi = true)).
    { revert Hentry. unfold LRUKReplacer.scan_entry.
      destruct (LRUKReplacer.evictable gi); cbn; [|intros [= <-]; by left].
      destruct (_ <? k).
      - destruct (LRUKReplacer.front _) as [first_ts|]; [|done]. cbn.
        destruct (_ <? _); [intros [= <-]; by right|].
        destruct (_ && _); intros [= <-]; [by right|by left].
      - destruct (LRUKReplacer.front _) as [kth_ts|]; [|done]. cbn.
        destruct (_ <? _); intros [= <-]; [by right|by left]. }
    destruct (IH _ _ Hscan) as [Heq|(fi & Hin & Hev)].
    + rewrite Heq. destruct Hone as [->|[-> Hev]]; [by left|].
      right. exists gi. split; [apply list_elem_of_here|done].
    + right. exists fi. split; [by apply list_elem_of_further|done].
Qed.

(** [Evict] only gives a frame that has an evictable record. *)
Lemma Evict_victim r v r' :
  LRUKReplacer.Evict r = Some (Some v, r') ->
  exists fi, (v, fi) ∈ LRUKReplacer.frame_map_ r
             /\ LRUKReplacer.evictable fi = true.
Proof.
  unfold LRUKReplacer.Evict. destruct (_ =? 0); [done|].
  destruct (LRUKReplacer.scan _ _ _ _) as [st|] eqn:Hscan; [|done]. cbn.
  destruct (Z.eqb_spec (LRUKReplacer.victim_fid st) INVALID_FRAME_ID)
    as [|Hne]; [done|].
  intros [= <- _].
  by destruct (scan_victim _ _ _ _ _ Hscan) as [Heq|?].
Qed.

(** X17. In a pool of at most [INT_MAX + 1] frames, a page of the page
    table is held by the frame it is mapped to: the frame carries the
    identifier of the page, no other page is mapped to the frame, and the
    frame is not in the free list. *)
Theorem page_table_consistent h s page_id f :
  pool_reachable hash h s ->
  pool_size_ s <= INT_MAX + 1 ->
  ExtendibleHashTable.Find hash page_id (page_table_ s) = Some (Some f) ->
  (exists p, page_at f (pages_ s) = Some p /\ page_id_ p = page_id)
  /\ (forall page_id',
        ExtendibleHashTable.Find hash page_id' (page_table_ s)
        = Some (Some f) ->
        page_id' = page_id)
  /\ f ∉ free_list_ s.
Proof.
  intros Hreach Hbound Hfind.
  pose proof (pool_reachable_inv hash h s Hreach Hbound) as Hinv.
  destruct (pinv_resident hash s Hinv page_id f Hfind) as (p & Hp & Hid).
  split; [by exists p|]. split.
  - intros k Hk.
    destruct (pinv_resident hash s Hinv k f Hk) as (q & Hq & Hqid).
    congruence.
  - intros Hin. destruct (pinv_free hash s Hinv f Hin) as (Hun & _).
    by apply (Hun page_id).
Qed.

(** X18. In a pool of at most [INT_MAX + 1] frames, the free list has no
    duplicate, and a frame of the free list holds no page of the page
    table, has no record in the replacer, and is as the constructor made
    it: no page identifier, pin count zero, clean, buffer zeroed. *)
Theorem free_list_frames h s :
  pool_reachable hash h s ->
  pool_size_ s <= INT_MAX + 1 ->
  NoDup (free_list_ s)
  /\ forall f, f ∈ free_list_ s -> frame_free hash s f.
Proof.
  intros Hreach Hbound.
  pose proof (pool_reachable_inv hash h s Hreach Hbound) as Hinv.
  split; [apply (pinv_free_nodup hash s Hinv)|apply (pinv_free hash s Hinv)].
Qed.

(** X19. In a pool of at most [INT_MAX + 1] frames, the frame in which
    [NewPgImp] creates a page, or into which [FetchPgImp] reads a page
    that was not in the page table, had a pin count of zero, whether it
    comes from the free list or from the replacer: a pinned page is never
    replaced. *)
Theorem replaced_frame_unpinned h s fuel f s' :
  pool_reachable hash h s ->
  pool_size_ s <= INT_MAX + 1 ->
  (exists id, NewPgImp hash fuel s = Some (Some (f, id), s'))
  \/ (exists page_id,
        ExtendibleHashTable.Find hash page_id (page_table_ s) = Some None
        /\ FetchPgImp hash fuel page_id s = Some (Some f, s')) ->
  exists p, page_at f (pages_ s) = Some p /\ pin_count_ p = 0.
Proof.
  intros Hreach Hbound Hop.
  assert (Hff : exists s1, find_frame hash s = Some (Some f, s1)).
  { destruct Hop as [[id Hnew]|(page_id & Hfind & Hfetch)].
    - apply NewPgImp_shape in Hnew as (s1 & _ & _ & Hff & _).
      by exists s1.
    - apply FetchPgImp_miss_shape in Hfetch as (s1 & _ & _ & Hff & _);
        [|done].
      by exists s1. }
  destruct Hff as (s1 & (_ & _ & Hshape)%find_frame_shape).
  pose proof (pool_reachable_inv hash h s Hreach Hbound) as Hinv.
  destruct Hshape as [(Hfl & _)
                     |(_ & _ & victim & found & Hev & Hv & _)].
  - destruct (pinv_free hash s Hinv f) as (_ & _ & p & Hp & _ & Hpin & _).
    { rewrite Hfl. apply list_elem_of_here. }
    by exists p.
  - exists victim. split; [done|].
    destruct (Evict_victim _ _ _ Hev) as (fi & Hin & Hevictable).
    pose proof (fm_elem_find _ _ _ (pinv_keys hash s Hinv) Hin) as Hrec.
    destruct (pool_reachable_pin_inv hash h s Hreach f victim Hv)
      as (_ & Hiff & _).
    by apply (Hiff fi Hrec).
Qed.

(** X20. When [NewPgImp] gives a page: its identifier is the old
    [next_page_id_], which is incremented; the page table maps it to the
    frame; the frame has pin count one, is clean and keeps the buffer it
    had, which is not reset; the record of the frame in the replacer is not
    evictable; and the other frames are untouched. *)
Theorem NewPgImp_spec fuel s f id s' :
  NewPgImp hash fuel s = Some (Some (f, id), s') ->
  id = next_page_id_ s
  /\ next_page_id_ s' = int_wrap (id + 1)
  /\ ExtendibleHashTable.Find hash id (page_table_ s') = Some (Some f)
  /\ (exists old,
        page_at f (pages_ s) = Some old
        /\ page_at f (pages_ s')
           = Some {| data_ := data_ old; page_id_ := id; pin_count_ := 1;
                     is_dirty_ := false |})
  /\ (exists fi,
        LRUKReplacer.fm_find f (LRUKReplacer.frame_map_ (replacer_ s'))
        = Some fi
        /\ LRUKReplacer.evictable fi = false)
  /\ (forall g, g <> f -> page_at g (pages_ s') = page_at g (pages_ s))
  /\ deallocated_ s' = deallocated_ s.
Proof.
  intros (s1 & page & r1 & Hff & Hid & Hp & Hins & Hr1 & Hr2 & Hps & _
          & Hnext & _ & Hde)%NewPgImp_shape.
  split; [done|]. split; [done|].
  split; [by eapply Insert_finds|].
  pose proof (page_at_Some _ _ _ Hp) as (Hf0 & _).
  assert (Hold : exists old, page_at f (pages_ s) = Some old
                             /\ data_ old = data_ page
                             /\ forall g, g <> f ->
                                  page_at g (pages_ s1) = page_at g (pages_ s)).
  { destruct (find_frame_shape _ _ _ _ Hff) as (_ & _ & Hshape).
    destruct Hshape as [(_ & Hps1 & _)|(_ & _ & victim & fd & _ & Hv & Hps1 & _)].
    - exists page. rewrite <- Hps1. by split.
    - exists victim. split; [done|].
      rewrite Hps1, (page_at_store_eq _ _ _ _ Hv) in Hp. injection Hp as <-.
      split; [done|]. intros g Hg. rewrite Hps1. by apply page_at_store_ne. }
  destruct Hold as (old & Hold & Hdata & Hothers).
  split.
  { exists old. split; [done|].
    rewrite Hps, (page_at_store_eq _ _ _ _ Hp). by rewrite Hdata. }
  split.
  { destruct (RecordAccess_find _ _ _ Hr1) as ((fi & Hfi & _) & _).
    destruct (SetEvictable_find f false r1
                (SetEvictable_find_inv _ _ _ _ Hr2))
      as (r2 & Hr2' & Hflag & _).
    rewrite Hr2 in Hr2'. injection Hr2' as <-. by apply (Hflag fi). }
  split; [|done].
  intros g Hg. rewrite Hps, page_at_store_ne by done. by apply Hothers.
Qed.

(** X21. On any state of the pool, with any buffers and any disk:
    [FetchPgImp] on a page that the page table maps to the frame [f],
    when [f] is a frame of the pool that the replacer accepts and its pin
    count is below [INT_MAX], returns [f] with one more pin, marks it not
    evictable, and does nothing else: the buffer, the page identifier and
    the dirty flag of the frame are as they were, no frame is taken, and
    nothing is read or written.  In a state reached by the operations of
    the pool, the frame of a page of the page table is such a frame
    ([resident_frame]) and its pin count is not negative
    ([pool_reachable_pin_inv]). *)
Theorem FetchPgImp_resident fuel page_id s f page :
  ExtendibleHashTable.Find hash page_id (page_table_ s) = Some (Some f) ->
  page_at f (pages_ s) = Some page ->
  INT_MIN <= pin_count_ page < INT_MAX ->
  size_t f < LRUKReplacer.replacer_size_ (replacer_ s) ->
  exists s',
    FetchPgImp hash fuel page_id s = Some (Some f, s')
    /\ pages_ s'
       = <[Z.to_nat f := {| data_ := data_ page; page_id_ := page_id_ page;
                            pin_count_ := pin_count_ page + 1;
                            is_dirty_ := is_dirty_ page |}]> (pages_ s)
    /\ (exists fi,
          LRUKReplacer.fm_find f (LRUKReplacer.frame_map_ (replacer_ s'))
          = Some fi
          /\ LRUKReplacer.evictable fi = false)
    /\ page_table_ s' = page_table_ s
    /\ free_list_ s' = free_list_ s
    /\ next_page_id_ s' = next_page_id_ s
    /\ disk_manager_ s' = disk_manager_ s
    /\ deallocated_ s' = deallocated_ s.
Proof.
  intros Hfind Hp Hpin Hrange.
  unfold FetchPgImp. rewrite Hfind. cbn. rewrite Hp. cbn.
  unfold int_checked.
  destruct (Z.leb_spec INT_MIN (pin_count_ page + 1)); [|lia].
  destruct (Z.leb_spec (pin_count_ page + 1) INT_MAX); [|lia]. cbn.
  unfold LRUKReplacer.RecordAccess at 1.
  destruct (Z.ltb_spec (size_t f)
              (LRUKReplacer.replacer_size_ (replacer_ s))); [|lia].
  cbn.
  destruct (SetEvictable_find f false
              (LRUKReplacer.set_current_timestamp
                 (size_t (LRUKReplacer.current_timestamp_ (replacer_ s) + 1))
                 (LRUKReplacer.set_frame_map
                    (LRUKReplacer.fm_access f
                       (LRUKReplacer.push_timestamp
                          (LRUKReplacer.k_ (replacer_ s))
                          (LRUKReplacer.current_timestamp_ (replacer_ s)))
                       (LRUKReplacer.frame_map_ (replacer_ s)))
                    (replacer_ s))))
    as (r2 & Hr2 & Hflag & _); [done|].
  rewrite Hr2. cbn. eexists. split; [done|].
  cbn. split; [done|]. split; [|done].
  apply (Hflag _ (fm_find_access_eq _ _ _)).
Qed.

(** X22. When [FetchPgImp] gives a frame for a page that was not in the
    page table: the page table maps the page to the frame; the buffer of
    the frame is what [ReadPage] gives after the write-back of the victim;
    the frame has pin count one and is clean; its record in the replacer
    is not evictable; no page identifier is allocated; and the other
    frames are untouched. *)
Theorem FetchPgImp_miss fuel page_id s f s' :
  ExtendibleHashTable.Find hash page_id (page_table_ s) = Some None ->
  FetchPgImp hash fuel page_id s = Some (Some f, s') ->
  ExtendibleHashTable.Find hash page_id (page_table_ s') = Some (Some f)
  /\ (exists old,
        page_at f (pages_ s) = Some old
        /\ page_at f (pages_ s')
           = Some {| data_ := ReadPage page_id (data_ old) (disk_manager_ s');
                     page_id_ := page_id; pin_count_ := 1;
                     is_dirty_ := false |})
  /\ (exists fi,
        LRUKReplacer.fm_find f (LRUKReplacer.frame_map_ (replacer_ s'))
        = Some fi
        /\ LRUKReplacer.evictable fi = false)
  /\ (forall g, g <> f -> page_at g (pages_ s') = page_at g (pages_ s))
  /\ next_page_id_ s' = next_page_id_ s
  /\ deallocated_ s' = deallocated_ s.
Proof.
  intros Hfind (s1 & page & r1 & Hff & Hp & Hins & Hr1 & Hr2 & Hps & _
                & Hnext & Hdisk & Hde)%FetchPgImp_miss_shape; [|done].
  split; [by eapply Insert_finds|].
  pose proof (page_at_Some _ _ _ Hp) as (Hf0 & _).
  assert (Hold : exists old, page_at f (pages_ s) = Some old
                             /\ data_ old = data_ page
                             /\ forall g, g <> f ->
                                  page_at g (pages_ s1) = page_at g (pages_ s)).
  { destruct (find_frame_shape _ _ _ _ Hff) as (_ & _ & Hshape).
    destruct Hshape as [(_ & Hps1 & _)|(_ & _ & victim & fd & _ & Hv & Hps1 & _)].
    - exists page. rewrite <- Hps1. by split.
    - exists victim. split; [done|].
      rewrite Hps1, (page_at_store_eq _ _ _ _ Hv) in Hp. injection Hp as <-.
      split; [done|]. intros g Hg. rewrite Hps1. by apply page_at_store_ne. }
  destruct Hold as (old & Hold & Hdata & Hothers).
  split.
  { exists old. split; [done|].
    rewrite Hps, (page_at_store_eq _ _ _ _ Hp). by rewrite Hdata, Hdisk. }
  split.
  { destruct (RecordAccess_find _ _ _ Hr1) as ((fi & Hfi & _) & _).
    destruct (SetEvictable_find f false r1
                (SetEvictable_find_inv _ _ _ _ Hr2))
      as (r2 & Hr2' & Hflag & _).
    rewrite Hr2 in Hr2'. injection Hr2' as <-. by apply (Hflag fi). }
  split; [|done].
  intros g Hg. rewrite Hps, page_at_store_ne by done. by apply Hothers.
Qed.

(** X23. [FlushPgImp] returns false, and does nothing, for the invalid
    page identifier and for a page that is not in the page table; for a
    page of the page table it writes the buffer of the frame to disk,
    whether the page is dirty or not and whatever its pin count, and
    clears the dirty flag. *)
Theorem FlushPgImp_spec s page_id :
  (page_id = INVALID_PAGE_ID -> FlushPgImp hash page_id s = Some (false, s))
  /\ (ExtendibleHashTable.Find hash page_id (page_table_ s) = Some None ->
      FlushPgImp hash page_id s = Some (false, s))
  /\ (forall f p,
        page_id <> INVALID_PAGE_ID ->
        ExtendibleHashTable.Find hash page_id (page_table_ s)
        = Some (Some f) ->
        page_at f (pages_ s) = Some p ->
        exists s',
          FlushPgImp hash page_id s = Some (true, s')
          /\ writes_ (disk_manager_ s')
             = writes_ (disk_manager_ s) ++ [(page_id, data_ p)]
          /\ pages_ s' = <[Z.to_nat f := set_dirty false p]> (pages_ s)
          /\ page_table_ s' = page_table_ s
          /\ replacer_ s' = replacer_ s
          /\ free_list_ s' = free_list_ s
          /\ next_page_id_ s' = next_page_id_ s
          /\ deallocated_ s' = deallocated_ s).
Proof.
  unfold FlushPgImp. split; [|split].
  - intros ->. by rewrite Z.eqb_refl.
  - intros ->. cbn. by destruct (_ =? _).
  - intros f p Hne Hfind Hp.
    destruct (Z.eqb_spec page_id INVALID_PAGE_ID); [done|].
    rewrite Hfind. cbn. rewrite Hp. cbn. by eexists.
Qed.

(** X24. When [NewPgImp] or [FetchPgImp] returns the null pointer, the
    pool is exactly as before (no page identifier is used up); the free
    list was empty and the replacer had nothing to evict. *)
Theorem null_result_unchanged fuel s :
  (forall s',
     NewPgImp hash fuel s = Some (None, s') ->
     s' = s /\ free_list_ s = []
     /\ LRUKReplacer.Size (replacer_ s) = 0)
  /\ (forall page_id s',
        FetchPgImp hash fuel page_id s = Some (None, s') ->
        s' = s /\ free_list_ s = []
        /\ LRUKReplacer.Size (replacer_ s) = 0
        /\ ExtendibleHashTable.Find hash page_id (page_table_ s)
           = Some None).
Proof.
  split.
  - intros s'. unfold NewPgImp.
    destruct (find_frame hash s) as [[[g|] s1]|] eqn:Hff; cbn; [| |done].
    + destruct (page_at g _); [|done]. cbn.
      destruct (ExtendibleHashTable.Insert _ _ _ _ _); [|done]. cbn.
      destruct (LRUKReplacer.RecordAccess _ _); [|done]. cbn.
      by destruct (LRUKReplacer.SetEvictable _ _ _).
    + intros [= <-]. by apply find_frame_none in Hff.
  - intros page_id s'. unfold FetchPgImp.
    destruct (ExtendibleHashTable.Find hash page_id (page_table_ s))
      as [[f|]|]; cbn; [| |done].
    + destruct (page_at f _); [|done]. cbn.
      destruct (int_checked _); [|done]. cbn.
      destruct (LRUKReplacer.RecordAccess _ _); [|done]. cbn.
      by destruct (LRUKReplacer.SetEvictable _ _ _).
    + destruct (find_frame hash s) as [[[g|] s1]|] eqn:Hff; cbn; [| |done].
      * destruct (page_at g _); [|done]. cbn.
        destruct (ExtendibleHashTable.Insert _ _ _ _ _); [|done]. cbn.
        destruct (LRUKReplacer.RecordAccess _ _); [|done]. cbn.
        by destruct (LRUKReplacer.SetEvictable _ _ _).
      * intros [= <-]. apply find_frame_none in Hff as (-> & ? & ?). done.
Qed.

End PoolExtras.

(** ** The global depth *)

Section TableDepth.

Import ExtendibleHashTable.

Context {K V : Type} `{EqDecision K}.
Variable hash : K -> Z.

Implicit Types (key : K) (value : V) (l : list (K * V)).
Implicit Types (b : Bucket K V) (ht : ExtendibleHashTable.t K V).

Lemma set_heap_full_depth ht p b b' :
  heap ht !! p = Some b -> local_depth_ b' = local_depth_ b ->
  (exists q c, heap ht !! q = Some c /\ local_depth_ c = global_depth_ ht) ->
  exists q c, heap (set_heap (<[p := b']> (heap ht)) ht) !! q = Some c
              /\ local_depth_ c
                 = global_depth_ (set_heap (<[p := b']> (heap ht)) ht).
Proof.
  intros Hb Hld (q & c & Hc & Hfull). cbn.
  destruct (decide (q = p)) as [->|Hne].
  - exists p, b'. rewrite list_lookup_insert_eq by (by eapply lookup_lt_Some).
    split; [done|]. congruence.
  - exists q, c. by rewrite list_lookup_insert_ne.
Qed.

Lemma SplitBucket_full_depth bucket ht ht' :
  (exists q c, heap ht !! q = Some c /\ local_depth_ c = global_depth_ ht) ->
  SplitBucket hash bucket ht = Some ht' ->
  exists q c, heap ht' !! q = Some c /\ local_depth_ c = global_depth_ ht'.
Proof.
  intros (q & c & Hc & Hfull)
    (b & kept & nb' & n & Hb & Hd & Hr & ->)%SplitBucket_Some.
  pose proof (lookup_lt_Some _ _ _ Hb) as Hlt. cbn.
  destruct (Z.eqb_spec (local_depth_ b) (global_depth_ ht)) as [Heq|Hne].
  - exists bucket. eexists.
    rewrite lookup_app_l by (by rewrite length_insert).
    rewrite list_lookup_insert_eq by done. split; [done|]. cbn. lia.
  - assert (q <> bucket) by (intros ->; congruence).
    exists q, c. rewrite lookup_app_l
      by (rewrite length_insert; by eapply lookup_lt_Some).
    by rewrite list_lookup_insert_ne.
Qed.

Lemma Insert_full_depth fuel key value : forall ht ht',
  (exists q c, heap ht !! q = Some c /\ local_depth_ c = global_depth_ ht) ->
  Insert hash fuel key value ht = Some ht' ->
  exists q c, heap ht' !! q = Some c /\ local_depth_ c = global_depth_ ht'.
Proof.
  induction fuel as [|fuel IH]; intros ht ht' Hfull; cbn [Insert]; [done|].
  destruct (IndexOf hash (global_depth_ ht) key) as [index|]; [|done].
  cbn [mbind option_bind].
  destruct (dir_ ht !! Z.to_nat index) as [p|]; [|done]. cbn.
  destruct (heap ht !! p) as [b|] eqn:Hb; [|done]. cbn.
  destruct (Bucket_Insert key value b) as [ok b'] eqn:Hins.
  destruct (Bucket_Insert_snd key value b) as (Hld & _ & _).
  rewrite Hins in Hld. cbn in Hld. destruct ok.
  - intros [= <-]. by eapply set_heap_full_depth.
  - destruct (SplitBucket hash p ht) as [ht1|] eqn:Hs; [|done]. cbn.
    apply IH. by eapply SplitBucket_full_depth.
Qed.

Lemma table_reachable_full_depth ht :
  table_reachable hash ht ->
  exists q c, heap ht !! q = Some c /\ local_depth_ c = global_depth_ ht.
Proof.
  induction 1 as [bs|fuel key value ht ht' _ IH Hins
                    |key ht found ht' _ IH Hrem
                    |key ht found _ IH _].
  - exists 0%nat. by eexists.
  - by eapply Insert_full_depth.
  - revert Hrem. unfold Remove.
    destruct (IndexOf hash (global_depth_ ht) key) as [index|]; [|done].
    cbn [mbind option_bind].
    destruct (_ <=? _); [by intros [= _ <-]|].
    destruct (dir_ ht !! Z.to_nat index) as [p|]; [|done]. cbn.
    destruct (heap ht !! p) as [b|] eqn:Hb; [|done]. cbn.
    unfold Bucket_Remove. destruct (kv_remove key (kv_pairs_ b)) as [f l].
    intros [= _ <-]. by eapply set_heap_full_depth.
  - exact IH.
Qed.

(** X25. On a table built by [Insert] and [Remove], the global depth is
    the largest local depth: some slot of the directory holds a bucket
    whose local depth is the global depth, and no slot holds a deeper
    one. *)
Theorem global_depth_is_max_local_depth ht :
  table_reachable hash ht ->
  (exists dir_index,
     GetLocalDepth dir_index ht = Some (GetGlobalDepth ht))
  /\ forall dir_index depth,
       GetLocalDepth dir_index ht = Some depth ->
       depth <= GetGlobalDepth ht.
Proof.
  intros Hreach. unfold GetGlobalDepth.
  destruct (table_reachable_inv hash ht Hreach) as (Hinv & _).
  pose proof (table_reachable_buckets hash ht Hreach) as Hbk.
  split.
  - destruct (table_reachable_full_depth ht Hreach) as (q & c & Hc & Hfull).
    destruct (binv_referenced ht Hbk q) as [i Hi];
      [by eapply lookup_lt_Some|].
    exists (Z.of_nat i). unfold GetLocalDepth.
    pose proof (lookup_lt_Some _ _ _ Hi) as Hlt.
    destruct (Z.leb_spec 0 (Z.of_nat i)); [|lia].
    destruct (Z.ltb_spec (Z.of_nat i) (Z.of_nat (length (dir_ ht)))); [|lia].
    cbn. rewrite Nat2Z.id, Hi. cbn. rewrite Hc. cbn. by rewrite Hfull.
  - intros i d. unfold GetLocalDepth. destruct (_ && _); [|done].
    destruct (dir_ ht !! Z.to_nat i) as [p|]; [|done]. cbn.
    destruct (heap ht !! p) as [b|] eqn:Hb; [|done]. cbn. intros [= <-].
    by apply (inv_local ht Hinv p).
Qed.

End TableDepth.

(** ** The range of frame identifiers *)

Section ReplacerRange.

Import LRUKReplacer.

Lemma size_t_in_range fid n :
  INT_MIN <= fid <= INT_MAX -> 0 <= n <= 2 ^ 63 ->
  size_t fid < n <-> 0 <= fid < n.
Proof.
  unfold INT_MIN, INT_MAX, size_t. intros Hfid Hn.
  destruct (Z.lt_ge_cases fid 0) as [Hneg|Hpos].
  - assert (fid mod 2 ^ 64 = fid + 2 ^ 64) as ->.
    { symmetry. apply (Z.mod_unique _ _ (-1)); lia. }
    lia.
  - rewrite Z.mod_small by lia. lia.
Qed.

(** X26. For a replacer of at most [2 ^ 63] frames and a frame identifier
    that is an [int], [RecordAccess] and [SetEvictable] return exactly when
    the identifier is between zero and the capacity, and [Remove] returns
    only then: a negative identifier, converted to [size_t] by the
    comparison, fails the assertion. *)
Theorem frame_id_range r fid b :
  INT_MIN <= fid <= INT_MAX ->
  0 <= replacer_size_ r <= 2 ^ 63 ->
  (is_Some (RecordAccess fid r) <-> 0 <= fid < replacer_size_ r)
  /\ (is_Some (SetEvictable fid b r) <-> 0 <= fid < replacer_size_ r)
  /\ (is_Some (Remove fid r) -> 0 <= fid < replacer_size_ r).
Proof.
  intros Hfid Hsize.
  pose proof (size_t_in_range fid (replacer_size_ r) Hfid Hsize) as Hiff.
  unfold RecordAccess, SetEvictable, Remove.
  destruct (Z.ltb_spec (size_t fid) (replacer_size_ r)) as [Hlt|Hge].
  - apply Hiff in Hlt. split; [|split; [|done]].
    + split; [done|]. by eexists.
    + split; [done|]. intros _.
      destruct (fm_find fid (frame_map_ r)); [|by eexists].
      destruct (eqb _ _); by eexists.
  - assert (Hout : ~ (0 <= fid < replacer_size_ r)).
    { intros Hin. apply Hiff in Hin. lia. }
    split; [|split].
    + split; [by intros [? ?]|done].
    + split; [by intros [? ?]|done].
    + by intros [? ?].
Qed.

End ReplacerRange.

(** ** The pool never fails an assertion of the replacer *)

Section PoolReturns.

Import BufferPoolManagerInstance.

Variable hash : page_id_t -> Z.

(** X27. In a pool, pin counts are never negative, and [UnpinPgImp],
    [FlushPgImp] and [DeletePgImp] always return: the frame they index is
    in the pool, and the calls of [SetEvictable] and [Remove] they make
    never fail an assertion of the replacer. *)
Theorem pool_operations_return h s page_id is_dirty :
  pool_reachable hash h s ->
  pool_size_ s <= SIZE_MAX + 1 ->
  (forall f p, page_at f (pages_ s) = Some p -> 0 <= pin_count_ p)
  /\ is_Some (UnpinPgImp hash page_id is_dirty s)
  /\ is_Some (FlushPgImp hash page_id s)
  /\ is_Some (DeletePgImp hash page_id s).
Proof.
  intros Hreach Hbound.
  pose proof (pool_reachable_wf hash h s Hreach) as Hwf.
  split.
  { intros f p Hp.
    by destruct (pool_reachable_pin_inv hash h s Hreach f p Hp). }
  destruct (Find_total hash page_id (page_table_ s) (pwf_table s Hwf))
    as [[f|] Hfind].
  2: { unfold UnpinPgImp, FlushPgImp, DeletePgImp. rewrite Hfind. cbn.
       split; [by eexists|]. split; [|by eexists].
       destruct (_ =? _); by eexists. }
  destruct (resident_frame hash h s page_id f Hreach Hbound Hfind)
    as (Htable & Hrange & p & Hp & Hevict).
  split; [|split].
  - unfold UnpinPgImp. rewrite Hfind. cbn. rewrite Hp. cbn.
    destruct (_ <=? 0); [by eexists|].
    destruct (_ =? 0); [|by eexists].
    cbn.
    destruct (SetEvictable_find f true (replacer_ s) Hrange)
      as (r & -> & _). by eexists.
  - unfold FlushPgImp. destruct (_ =? _); [by eexists|].
    rewrite Hfind. cbn. rewrite Hp. by eexists.
  - unfold DeletePgImp. rewrite Hfind. cbn. rewrite Hp. cbn.
    destruct (Z.ltb_spec 0 (pin_count_ p)) as [|Hzero]; [by eexists|].
    assert (Hsame : forall s1,
              s1 = (if is_dirty_ p
                    then set_disk_manager
                           (WritePage page_id (data_ p) (disk_manager_ s)) s
                    else s) ->
              page_table_ s1 = page_table_ s /\ replacer_ s1 = replacer_ s).
    { intros s1 ->. by destruct (is_dirty_ p). }
    destruct (Hsame _ eq_refl) as [-> ->].
    destruct (Remove_total hash page_id (page_table_ s) Htable)
      as (found & pt & -> & _).
    cbn.
    destruct (Remove_returns f (replacer_ s) Hrange (Hevict Hzero))
      as [r ->].
    by eexists.
Qed.

End PoolReturns.

(** ** Pinning and unpinning *)

Section PoolPinUnpin.

Import BufferPoolManagerInstance.

Variable hash : page_id_t -> Z.

(** X28. On any state of the pool, with any buffers and any disk:
    [UnpinPgImp] with a false dirty argument undoes the [FetchPgImp] of a
    page of the page table whose pin count was not negative: it returns
    true, and the frames, with their buffers, pin counts and dirty flags,
    the page table, the free list and the disk are as they were before
    the fetch.  In a state reached by the operations of the pool no pin
    count is negative ([pool_reachable_pin_inv]). *)
Theorem FetchPgImp_UnpinPgImp fuel page_id s f s1 :
  ExtendibleHashTable.Find hash page_id (page_table_ s) = Some (Some f) ->
  (forall p, page_at f (pages_ s) = Some p -> 0 <= pin_count_ p) ->
  FetchPgImp hash fuel page_id s = Some (Some f, s1) ->
  exists s2,
    UnpinPgImp hash page_id false s1 = Some (true, s2)
    /\ pages_ s2 = pages_ s
    /\ page_table_ s2 = page_table_ s
    /\ free_list_ s2 = free_list_ s
    /\ next_page_id_ s2 = next_page_id_ s
    /\ disk_manager_ s2 = disk_manager_ s
    /\ deallocated_ s2 = deallocated_ s.
Proof.
  intros Hfind Hpin Hfetch.
  destruct (FetchPgImp_hit_shape hash _ _ _ _ _ _ Hfind Hfetch)
    as (page & r1 & _ & Hp & _ & Hr1 & Hr2 & Hps & Hpt & Hfl & Hnext & Hdisk
        & Hde).
  pose proof (Hpin page Hp) as Hpos.
  pose proof (SetEvictable_find_inv _ _ _ _ Hr2) as Hrange.
  destruct (SetEvictable_find f false r1 Hrange)
    as (r2 & Hr2' & _ & _ & _ & Hsz2).
  rewrite Hr2 in Hr2'. injection Hr2' as Hr2eq.
  pose proof (page_at_Some _ _ _ Hp) as (Hf0 & Hlt & Hlook).
  assert (Hback : <[Z.to_nat f :=
                      set_pin_count (pin_count_ page + 1 - 1)
                        (set_pin_count (pin_count_ page + 1) page)]>
                    (pages_ s1) = pages_ s).
  { rewrite Hps, list_insert_insert_eq. apply list_insert_id.
    rewrite Hlook. f_equal. destruct page. unfold set_pin_count. cbn.
    f_equal. lia. }
  unfold UnpinPgImp. rewrite Hpt, Hfind. cbn.
  rewrite Hps, (page_at_store_eq _ _ _ _ Hp). cbn.
  destruct (Z.leb_spec (pin_count_ page + 1) 0); [lia|].
  destruct (Z.eqb_spec (pin_count_ page + 1 - 1) 0).
  - destruct (SetEvictable_find f true (replacer_ s1)) as (r & Hr & _).
    { rewrite Hr2eq, Hsz2. exact Hrange. }
    cbn. rewrite Hr. cbn. eexists. split; [done|]. cbn.
    by rewrite Hback.
  - eexists. split; [done|]. cbn. by rewrite Hback.
Qed.

End PoolPinUnpin.

(** ** The table properties at [table_example] *)

Section TableWitnesses.

(** X1 at [table_one]: key 3 is found after its insertion, which splits
    twice. *)
Lemma Insert_then_Find_witness :
  ExtendibleHashTable.Insert std_hash_int 8 3 30 table_one
  = Some table_example
  /\ ExtendibleHashTable.Find std_hash_int 3 table_example
     = Some (Some 30).
Proof.
  assert (Hins :
    ExtendibleHashTable.Insert std_hash_int 8 3 30 table_one
    = Some table_example) by (vm_compute; reflexivity).
  split; [exact Hins|].
  exact (Insert_then_Find std_hash_int 8 3 30 table_one table_example Hins).
Defined.

(** X2 at [table_example]: the insertion of key 5 splits the bucket of
    key 1 and leaves key 3 as it was. *)
Lemma Insert_keeps_other_keys_witness :
  table_reachable std_hash_int table_example
  /\ ExtendibleHashTable.Insert std_hash_int 8 5 50 table_example
     = Some table_five
  /\ 3 <> 5
  /\ ExtendibleHashTable.Find std_hash_int 3 table_five
     = ExtendibleHashTable.Find std_hash_int 3 table_example.
Proof.
  assert (Hins :
    ExtendibleHashTable.Insert std_hash_int 8 5 50 table_example
    = Some table_five) by (vm_compute; reflexivity).
  assert (Hne : 3 <> 5) by lia.
  split; [exact table_example_reachable|]. split; [exact Hins|].
  split; [exact Hne|].
  exact (Insert_keeps_other_keys std_hash_int 8 5 50 3 table_example
           table_five table_example_reachable Hins Hne).
Defined.

(** X3 at [table_example], for key 3. *)
Lemma table_Remove_spec_witness :
  table_reachable std_hash_int table_example
  /\ exists found ht',
       ExtendibleHashTable.Remove std_hash_int 3 table_example
       = Some (found, ht')
       /\ (found = true
           <-> exists value,
                 ExtendibleHashTable.Find std_hash_int 3 table_example
                 = Some (Some value))
       /\ ExtendibleHashTable.Find std_hash_int 3 ht' = Some None
       /\ forall key', key' <> 3 ->
            ExtendibleHashTable.Find std_hash_int key' ht'
            = ExtendibleHashTable.Find std_hash_int key' table_example.
Proof.
  split; [exact table_example_reachable|].
  exact (table_Remove_spec std_hash_int 3 table_example
           table_example_reachable).
Defined.

(** X4 at [table_example], for the pair of key 3. *)
Lemma Find_iff_stored_witness :
  table_reachable std_hash_int table_example
  /\ (ExtendibleHashTable.Find std_hash_int 3 table_example
      = Some (Some 30)
      <-> exists p b,
            ExtendibleHashTable.heap table_example !! p = Some b
            /\ (3, 30) ∈ ExtendibleHashTable.kv_pairs_ b).
Proof.
  split; [exact table_example_reachable|].
  exact (Find_iff_stored std_hash_int 3 30 table_example
           table_example_reachable).
Defined.

(** X5 at [table_example]: bucket 0 is empty, with room for one pair. *)
Lemma bucket_within_capacity_witness :
  table_reachable std_hash_int table_example
  /\ ExtendibleHashTable.heap table_example !! 0%nat
     = Some {| ExtendibleHashTable.kv_pairs_ := [];
               ExtendibleHashTable.max_size_ := 1;
               ExtendibleHashTable.local_depth_ := 1 |}
  /\ 1 = ExtendibleHashTable.bucket_size_ table_example
  /\ Z.of_nat 0 <= Z.max 0 (ExtendibleHashTable.bucket_size_ table_example).
Proof.
  split; [exact table_example_reachable|]. split; [reflexivity|].
  exact (bucket_within_capacity std_hash_int table_example 0
           {| ExtendibleHashTable.kv_pairs_ := [];
              ExtendibleHashTable.max_size_ := 1;
              ExtendibleHashTable.local_depth_ := 1 |}
           table_example_reachable eq_refl).
Defined.

(** X6 at [table_example]. *)
Lemma directory_shape_witness :
  table_reachable std_hash_int table_example
  /\ 0 <= ExtendibleHashTable.GetGlobalDepth table_example <= 30
  /\ Z.of_nat (length (ExtendibleHashTable.dir_ table_example))
     = 2 ^ ExtendibleHashTable.GetGlobalDepth table_example.
Proof.
  split; [exact table_example_reachable|].
  destruct (directory_shape std_hash_int table_example
              table_example_reachable) as (Hdepth & Hsize & _).
  split; [exact Hdepth|exact Hsize].
Defined.

(** X7 at [table_example]: three buckets for four slots. *)
Lemma unique_buckets_count_witness :
  table_reachable std_hash_int table_example
  /\ NoDup (ExtendibleHashTable.unique_buckets table_example)
  /\ ExtendibleHashTable.GetNumBuckets table_example
     = Z.of_nat (length (ExtendibleHashTable.unique_buckets table_example)).
Proof.
  split; [exact table_example_reachable|].
  destruct (unique_buckets_count std_hash_int table_example
              table_example_reachable) as (Hnd & _ & Hcount).
  split; [exact Hnd|exact Hcount].
Defined.

(** X8 at [table_example], for the insertion of key 5. *)
Lemma Insert_fuel_bound_witness :
  table_reachable std_hash_int table_example
  /\ (32 <= 40)%nat
  /\ ExtendibleHashTable.Insert std_hash_int 40 5 50 table_example
     = ExtendibleHashTable.Insert std_hash_int 32 5 50 table_example.
Proof.
  assert (Hfuel : (32 <= 40)%nat) by lia.
  split; [exact table_example_reachable|]. split; [exact Hfuel|].
  exact (Insert_fuel_bound std_hash_int 40 5 50 table_example
           table_example_reachable Hfuel).
Defined.

(** X9 at [table_example]: the removal of key 3 empties a bucket and
    keeps the four slots and the three buckets. *)
Lemma Remove_keeps_directory_witness :
  ExtendibleHashTable.Remove std_hash_int 3 table_example
  = Some (true, table_without_three)
  /\ ExtendibleHashTable.dir_ table_without_three
     = ExtendibleHashTable.dir_ table_example
  /\ ExtendibleHashTable.GetGlobalDepth table_without_three
     = ExtendibleHashTable.GetGlobalDepth table_example
  /\ ExtendibleHashTable.GetNumBuckets table_without_three
     = ExtendibleHashTable.GetNumBuckets table_example.
Proof.
  assert (Hrem :
    ExtendibleHashTable.Remove std_hash_int 3 table_example
    = Some (true, table_without_three)) by (vm_compute; reflexivity).
  split; [exact Hrem|].
  destruct (Remove_keeps_directory std_hash_int 3 table_example true
              table_without_three Hrem) as (Hdir & Hdepth & Hcount & _).
  split; [exact Hdir|]. split; [exact Hdepth|exact Hcount].
Defined.

End TableWitnesses.

(** ** The replacer properties at concrete replacers *)

Section ReplacerWitnesses.

Import LRUKReplacer.

Lemma replacer_lru_reachable : replacer_reachable replacer_lru.
Proof.
  assert (Hint : forall x, 0 <= x <= 7 -> INT_MIN <= x <= INT_MAX).
  { unfold INT_MIN, INT_MAX. lia. }
  assert (Hclock : forall x, 0 <= x <= 7 -> x < SIZE_MAX).
  { unfold SIZE_MAX. lia. }
  pose proof (reach_replacer_new 7 1 _ ltac:(unfold SIZE_MAX; lia) eq_refl)
    as H0.
  pose proof (reach_RecordAccess 1 _ _ H0 (Hint 1 ltac:(lia))
                (Hclock 0 ltac:(lia)) eq_refl) as H1.
  pose proof (reach_RecordAccess 2 _ _ H1 (Hint 2 ltac:(lia))
                (Hclock 1 ltac:(lia)) eq_refl) as H2.
  pose proof (reach_RecordAccess 1 _ _ H2 (Hint 1 ltac:(lia))
                (Hclock 2 ltac:(lia)) eq_refl) as H3.
  pose proof (reach_SetEvictable 1 true _ _ H3 eq_refl) as H4.
  exact (reach_SetEvictable 2 true _ _ H4 eq_refl).
Qed.

(** X10 at [replacer_lru]: frame 1 keeps the time of its last access. *)
Lemma replacer_histories_witness :
  replacer_reachable replacer_lru
  /\ fm_find 1 (frame_map_ replacer_lru)
     = Some {| access_timestamps := [2]; evictable := true |}
  /\ 1 <= Z.of_nat (length [2]) <= k_ replacer_lru
  /\ increasing [2].
Proof.
  split; [exact replacer_lru_reachable|]. split; [reflexivity|].
  destruct (replacer_histories replacer_lru 1
              {| access_timestamps := [2]; evictable := true |}
              replacer_lru_reachable eq_refl) as (Hlen & Hinc & _).
  split; [exact Hlen|exact Hinc].
Defined.

(** X11 at [replacer_lru], with the two records in the other order. *)
Lemma Evict_order_independent_witness :
  replacer_reachable replacer_lru
  /\ reverse (frame_map_ replacer_lru) ≡ₚ frame_map_ replacer_lru
  /\ fst <$> Evict (set_frame_map (reverse (frame_map_ replacer_lru))
                      replacer_lru)
     = fst <$> Evict replacer_lru.
Proof.
  assert (Hperm : reverse (frame_map_ replacer_lru)
                  ≡ₚ frame_map_ replacer_lru) by apply reverse_Permutation.
  split; [exact replacer_lru_reachable|]. split; [exact Hperm|].
  exact (Evict_order_independent replacer_lru _ replacer_lru_reachable Hperm).
Defined.

(** X12 at [replacer_lru]: frame 2, accessed at time 1, goes before
    frame 1, last accessed at time 2. *)
Lemma Evict_least_recently_used_witness :
  replacer_reachable replacer_lru
  /\ k_ replacer_lru = 1
  /\ (fst <$> Evict replacer_lru) = Some (Some 2)
  /\ exists ts,
       fm_find 2 (frame_map_ replacer_lru)
       = Some {| access_timestamps := [ts]; evictable := true |}
       /\ forall g gi,
            fm_find g (frame_map_ replacer_lru) = Some gi ->
            evictable gi = true -> g <> 2 ->
            exists ts', access_timestamps gi = [ts'] /\ ts < ts'.
Proof.
  split; [exact replacer_lru_reachable|]. split; [reflexivity|].
  split; [reflexivity|].
  destruct (Evict replacer_lru) as [[[v|] r']|] eqn:Hev;
    try (vm_compute in Hev; discriminate).
  assert (Hv : v = 2) by (vm_compute in Hev; by injection Hev as <- _).
  subst v.
  exact (Evict_least_recently_used replacer_lru 2 r'
           replacer_lru_reachable eq_refl Hev).
Defined.

(** X13 at [replacer_example]: frame 3 becomes evictable. *)
Lemma SetEvictable_spec_witness :
  replacer_wf replacer_example
  /\ size_t 3 < replacer_size_ replacer_example
  /\ exists r',
       SetEvictable 3 true replacer_example = Some r'
       /\ fm_find 3 (frame_map_ r')
          = Some {| access_timestamps := [2]; evictable := true |}
       /\ Size r' = 3.
Proof.
  assert (Hrange : size_t 3 < replacer_size_ replacer_example)
    by (vm_compute; reflexivity).
  split; [exact replacer_example_wf|]. split; [exact Hrange|].
  destruct (SetEvictable_spec replacer_example 3 true replacer_example_wf
              Hrange) as (r' & Hset & Hfind & _ & Hsize & _).
  exists r'. split; [exact Hset|]. split; [exact Hfind|exact Hsize].
Defined.

(** X14 at [replacer_example]: frame 3 is marked evictable, then not
    evictable again. *)
Lemma SetEvictable_undo_witness :
  replacer_wf replacer_example
  /\ fm_find 3 (frame_map_ replacer_example)
     = Some {| access_timestamps := [2]; evictable := false |}
  /\ SetEvictable 3 true replacer_example = Some replacer_three_evictable
  /\ SetEvictable 3 false replacer_three_evictable = Some replacer_example.
Proof.
  split; [exact replacer_example_wf|]. split; [reflexivity|].
  split; [reflexivity|].
  exact (SetEvictable_undo replacer_example 3 true
           {| access_timestamps := [2]; evictable := false |}
           replacer_three_evictable replacer_example_wf eq_refl eq_refl).
Defined.

(** X15 at [replacer_example]: frame 2 is removed. *)
Lemma Remove_evictable_witness :
  replacer_wf replacer_example
  /\ fm_find 2 (frame_map_ replacer_example)
     = Some {| access_timestamps := [1]; evictable := true |}
  /\ exists r',
       Remove 2 replacer_example = Some r'
       /\ fm_find 2 (frame_map_ r') = None
       /\ Size r' = Size replacer_example - 1.
Proof.
  split; [exact replacer_example_wf|]. split; [reflexivity|].
  destruct (Remove_evictable replacer_example 2
              {| access_timestamps := [1]; evictable := true |}
              replacer_example_wf eq_refl eq_refl)
    as (r' & Hrem & Hgone & _ & Hsize & _).
  exists r'. split; [exact Hrem|]. split; [exact Hgone|exact Hsize].
Defined.

(** X16 at [replacer_lru]: two evictable records for seven frames. *)
Lemma Size_counts_evictable_witness :
  replacer_reachable replacer_lru
  /\ Size replacer_lru = evictable_count (frame_map_ replacer_lru)
  /\ Z.of_nat (length (frame_map_ replacer_lru))
     <= Z.max 0 (replacer_size_ replacer_lru).
Proof.
  split; [exact replacer_lru_reachable|].
  destruct (Size_counts_evictable replacer_lru replacer_lru_reachable)
    as (Hsize & _ & Hcap).
  split; [exact Hsize|exact Hcap].
Defined.

End ReplacerWitnesses.

(** ** The pool properties at concrete pools *)

Section PoolWitnesses.

Import BufferPoolManagerInstance.

Lemma pool_three_frames s :
  length (pages_ s) = 3%nat -> pool_size_ s <= INT_MAX + 1.
Proof. unfold pool_size_, INT_MAX. intros ->. lia. Qed.

Lemma pool_filled_reachable : pool_reachable std_hash_int [0] pool_filled.
Proof.
  apply (reach_write_data std_hash_int [0] pool_pinned 0
           {| data_ := [0; 0; 0; 0]; page_id_ := 0; pin_count_ := 1;
              is_dirty_ := false |} [1; 2; 3; 4]);
    [exact pool_pinned_reachable|reflexivity|reflexivity|reflexivity].
Qed.

Lemma pool_filled_unpinned_reachable :
  pool_reachable std_hash_int [0] pool_filled_unpinned.
Proof.
  apply (reach_UnpinPg std_hash_int [0] pool_filled 0 true true);
    [exact pool_filled_reachable|by vm_compute].
Qed.

Lemma pool_filled_deleted_reachable :
  pool_reachable std_hash_int [0] pool_filled_deleted.
Proof.
  apply (reach_DeletePg std_hash_int [0] pool_filled_unpinned 0 true);
    [exact pool_filled_unpinned_reachable|by vm_compute].
Qed.

(** C3 at [pool_filled_full], whose free list is empty: [NewPgImp] takes
    frame 0 from the replacer, the buffer of the dirty page 0 is written
    to disk and page 0 leaves the page table; then [FetchPgImp] of page 0
    takes frame 1, whose page is clean and is not written.  At
    [pool_all_pinned] no frame can be had. *)
Lemma frame_acquisition_witness :
  NewPgImp std_hash_int 4 pool_filled_full
  = Some (Some (0, 3), pool_filled_evicted)
  /\ writes_ (disk_manager_ pool_filled_evicted) = [(0, [1; 2; 3; 4])]
  /\ ExtendibleHashTable.Find std_hash_int 0 (page_table_ pool_filled_evicted)
     = Some None
  /\ FetchPgImp std_hash_int 4 0 pool_filled_evicted
     = Some (Some 1, pool_filled_refetched)
  /\ disk_manager_ pool_filled_refetched = disk_manager_ pool_filled_evicted
  /\ page_at 1 (pages_ pool_filled_refetched)
     = Some {| data_ := [1; 2; 3; 4]; page_id_ := 0; pin_count_ := 1;
               is_dirty_ := false |}
  /\ NewPgImp std_hash_int 4 pool_all_pinned = Some (None, pool_all_pinned).
Proof.
  destruct (frame_acquisition std_hash_int pool_filled_full 4 0 0
              pool_filled_evicted) as (Hnew & _ & _).
  destruct (frame_acquisition std_hash_int pool_filled_evicted 4 0 1
              pool_filled_refetched) as (_ & Hfetch & _).
  destruct (frame_acquisition std_hash_int pool_all_pinned 4 0 0
              pool_all_pinned) as (_ & _ & _ & Hnull).
  split.
  { apply (Hnew 3). split; [reflexivity|].
    exists {| data_ := [1; 2; 3; 4]; page_id_ := 0; pin_count_ := 0;
              is_dirty_ := true |}.
    split; [reflexivity|]. split; [reflexivity|]. split; [reflexivity|].
    split; [reflexivity|]. right. split; [reflexivity|].
    split; [reflexivity|].
    exists (state_after_replacer
              (LRUKReplacer.Evict (replacer_ pool_filled_full))),
      {| data_ := [1; 2; 3; 4]; page_id_ := 0; pin_count_ := 0;
         is_dirty_ := true |}, true,
      (default (page_table_ pool_filled_full)
         (snd <$> ExtendibleHashTable.Remove std_hash_int 0
                    (page_table_ pool_filled_full))),
      (default (replacer_ pool_filled_full)
         (LRUKReplacer.RecordAccess 0
            (state_after_replacer
               (LRUKReplacer.Evict (replacer_ pool_filled_full))))).
    repeat (split; [vm_compute; reflexivity|]). vm_compute; reflexivity. }
  split; [reflexivity|]. split; [reflexivity|].
  split.
  { apply Hfetch; [reflexivity|].
    exists {| data_ := [0; 0; 0; 0]; page_id_ := 1; pin_count_ := 0;
              is_dirty_ := false |}.
    split; [reflexivity|]. split; [reflexivity|]. split; [reflexivity|].
    split; [reflexivity|]. right. split; [reflexivity|].
    split; [reflexivity|].
    exists (state_after_replacer
              (LRUKReplacer.Evict (replacer_ pool_filled_evicted))),
      {| data_ := [0; 0; 0; 0]; page_id_ := 1; pin_count_ := 0;
         is_dirty_ := false |}, true,
      (default (page_table_ pool_filled_evicted)
         (snd <$> ExtendibleHashTable.Remove std_hash_int 1
                    (page_table_ pool_filled_evicted))),
      (default (replacer_ pool_filled_evicted)
         (LRUKReplacer.RecordAccess 1
            (state_after_replacer
               (LRUKReplacer.Evict (replacer_ pool_filled_evicted))))).
    repeat (split; [vm_compute; reflexivity|]). vm_compute; reflexivity. }
  split; [reflexivity|]. split; [reflexivity|].
  by destruct (Hnull eq_refl eq_refl) as [Hn _].
Defined.

(** X17 at [pool_full]: page 1 is in frame 1. *)
Lemma page_table_consistent_witness :
  pool_reachable std_hash_int [2; 1; 0] pool_full
  /\ pool_size_ pool_full <= INT_MAX + 1
  /\ ExtendibleHashTable.Find std_hash_int 1 (page_table_ pool_full)
     = Some (Some 1)
  /\ (exists p, page_at 1 (pages_ pool_full) = Some p /\ page_id_ p = 1)
  /\ 1 ∉ free_list_ pool_full.
Proof.
  assert (Hsize : pool_size_ pool_full <= INT_MAX + 1)
    by (by apply pool_three_frames).
  split; [exact pool_full_reachable|]. split; [exact Hsize|].
  split; [reflexivity|].
  destruct (page_table_consistent std_hash_int _ pool_full 1 1
              pool_full_reachable Hsize eq_refl) as (Hpage & _ & Hfree).
  split; [exact Hpage|exact Hfree].
Defined.

(** X18 at [pool_filled_deleted], where page 0, whose buffer the caller
    had filled with [1; 2; 3; 4], was deleted: the free list is [1; 2; 0],
    and frame 0 is zeroed again. *)
Lemma free_list_frames_witness :
  pool_reachable std_hash_int [0] pool_filled_deleted
  /\ pool_size_ pool_filled_deleted <= INT_MAX + 1
  /\ NoDup (free_list_ pool_filled_deleted)
  /\ frame_free std_hash_int pool_filled_deleted 0.
Proof.
  assert (Hsize : pool_size_ pool_filled_deleted <= INT_MAX + 1)
    by (by apply pool_three_frames).
  split; [exact pool_filled_deleted_reachable|]. split; [exact Hsize|].
  destruct (free_list_frames std_hash_int _ pool_filled_deleted
              pool_filled_deleted_reachable Hsize) as [Hnd Hfree].
  split; [exact Hnd|]. apply Hfree.
  do 2 apply list_elem_of_further. apply list_elem_of_here.
Defined.

(** X19 at [pool_full]: frame 0, taken from the replacer for page 3, was
    not pinned. *)
Lemma replaced_frame_unpinned_witness :
  pool_reachable std_hash_int [2; 1; 0] pool_full
  /\ pool_size_ pool_full <= INT_MAX + 1
  /\ NewPgImp std_hash_int 4 pool_full = Some (Some (0, 3), pool_evicted)
  /\ exists p, page_at 0 (pages_ pool_full) = Some p /\ pin_count_ p = 0.
Proof.
  assert (Hsize : pool_size_ pool_full <= INT_MAX + 1)
    by (by apply pool_three_frames).
  assert (Hnew : NewPgImp std_hash_int 4 pool_full
                 = Some (Some (0, 3), pool_evicted))
    by (vm_compute; reflexivity).
  split; [exact pool_full_reachable|]. split; [exact Hsize|].
  split; [exact Hnew|].
  exact (replaced_frame_unpinned std_hash_int _ pool_full 4 0 pool_evicted
           pool_full_reachable Hsize
           (or_introl (ex_intro _ 3 Hnew))).
Defined.

(** X20 at [pool_full]: page 3 is created in frame 0. *)
Lemma NewPgImp_spec_witness :
  NewPgImp std_hash_int 4 pool_full = Some (Some (0, 3), pool_evicted)
  /\ 3 = next_page_id_ pool_full
  /\ next_page_id_ pool_evicted = int_wrap (3 + 1)
  /\ ExtendibleHashTable.Find std_hash_int 3 (page_table_ pool_evicted)
     = Some (Some 0).
Proof.
  assert (Hnew : NewPgImp std_hash_int 4 pool_full
                 = Some (Some (0, 3), pool_evicted))
    by (vm_compute; reflexivity).
  split; [exact Hnew|].
  destruct (NewPgImp_spec std_hash_int 4 pool_full 0 3 pool_evicted Hnew)
    as (Hid & Hnext & Hfind & _).
  split; [exact Hid|]. split; [exact Hnext|exact Hfind].
Defined.

(** X21 at [pool_filled_unpinned]: page 0, dirty and with the buffer
    that the caller filled, is pinned again in frame 0. *)
Lemma FetchPgImp_resident_witness :
  ExtendibleHashTable.Find std_hash_int 0 (page_table_ pool_filled_unpinned)
  = Some (Some 0)
  /\ page_at 0 (pages_ pool_filled_unpinned)
     = Some {| data_ := [1; 2; 3; 4]; page_id_ := 0; pin_count_ := 0;
               is_dirty_ := true |}
  /\ exists s',
       FetchPgImp std_hash_int 4 0 pool_filled_unpinned = Some (Some 0, s')
       /\ page_at 0 (pages_ s')
          = Some {| data_ := [1; 2; 3; 4]; page_id_ := 0; pin_count_ := 1;
                    is_dirty_ := true |}
       /\ disk_manager_ s' = disk_manager_ pool_filled_unpinned.
Proof.
  split; [reflexivity|]. split; [reflexivity|].
  destruct (FetchPgImp_resident std_hash_int 4 0 pool_filled_unpinned 0
              {| data_ := [1; 2; 3; 4]; page_id_ := 0; pin_count_ := 0;
                 is_dirty_ := true |})
    as (s' & Hfetch & Hps & _ & _ & _ & _ & Hdisk & _);
    [reflexivity|reflexivity|by vm_compute|by vm_compute|].
  exists s'. split; [exact Hfetch|]. split; [by rewrite Hps|exact Hdisk].
Defined.

(** X22 at [pool_evicted]: page 0, written back when it was evicted, is
    read into frame 1. *)
Lemma FetchPgImp_miss_witness :
  ExtendibleHashTable.Find std_hash_int 0 (page_table_ pool_evicted)
  = Some None
  /\ FetchPgImp std_hash_int 4 0 pool_evicted = Some (Some 1, pool_refetched)
  /\ ExtendibleHashTable.Find std_hash_int 0 (page_table_ pool_refetched)
     = Some (Some 1)
  /\ next_page_id_ pool_refetched = next_page_id_ pool_evicted.
Proof.
  assert (Hfetch : FetchPgImp std_hash_int 4 0 pool_evicted
                   = Some (Some 1, pool_refetched))
    by (vm_compute; reflexivity).
  split; [reflexivity|]. split; [exact Hfetch|].
  destruct (FetchPgImp_miss std_hash_int 4 0 pool_evicted 1 pool_refetched
              eq_refl Hfetch) as (Hfind & _ & _ & _ & Hnext & _).
  split; [exact Hfind|exact Hnext].
Defined.

(** X23 at [pool_pinned]: page 0, clean and pinned, is written. *)
Lemma FlushPgImp_spec_witness :
  exists s',
    FlushPgImp std_hash_int 0 pool_pinned = Some (true, s')
    /\ writes_ (disk_manager_ s') = [(0, [0; 0; 0; 0])].
Proof.
  destruct (FlushPgImp_spec std_hash_int pool_pinned 0) as (_ & _ & Hflush).
  destruct (Hflush 0 {| data_ := [0; 0; 0; 0]; page_id_ := 0;
                        pin_count_ := 1; is_dirty_ := false |})
    as (s' & Hfl & Hw & _); [by vm_compute|by vm_compute|by vm_compute|].
  exists s'. split; [exact Hfl|exact Hw].
Defined.

(** X24 at [pool_all_pinned]: no frame can be had. *)
Lemma null_result_unchanged_witness :
  NewPgImp std_hash_int 4 pool_all_pinned = Some (None, pool_all_pinned)
  /\ free_list_ pool_all_pinned = []
  /\ LRUKReplacer.Size (replacer_ pool_all_pinned) = 0.
Proof.
  assert (Hnew : NewPgImp std_hash_int 4 pool_all_pinned
                 = Some (None, pool_all_pinned))
    by (vm_compute; reflexivity).
  split; [exact Hnew|].
  destruct (null_result_unchanged std_hash_int 4 pool_all_pinned)
    as [Hnull _].
  destruct (Hnull pool_all_pinned Hnew) as (_ & Hfl & Hsize).
  split; [exact Hfl|exact Hsize].
Defined.

End PoolWitnesses.

(** ** Depth, range and pinning at concrete states *)

Section MoreWitnesses.

Import BufferPoolManagerInstance.

(** X25 at [table_example]: the global depth is 2. *)
Lemma global_depth_is_max_local_depth_witness :
  table_reachable std_hash_int table_example
  /\ exists dir_index,
       ExtendibleHashTable.GetLocalDepth dir_index table_example
       = Some (ExtendibleHashTable.GetGlobalDepth table_example).
Proof.
  split; [exact table_example_reachable|].
  destruct (global_depth_is_max_local_depth std_hash_int table_example
              table_example_reachable) as [Hmax _].
  exact Hmax.
Defined.

(** X26 at [replacer_example], of seven frames: frame -1 is refused. *)
Lemma frame_id_range_witness :
  INT_MIN <= -1 <= INT_MAX
  /\ 0 <= LRUKReplacer.replacer_size_ replacer_example <= 2 ^ 63
  /\ ~ is_Some (LRUKReplacer.RecordAccess (-1) replacer_example).
Proof.
  assert (Hfid : INT_MIN <= -1 <= INT_MAX)
    by (vm_compute; split; discriminate).
  assert (Hsize : 0 <= LRUKReplacer.replacer_size_ replacer_example <= 2 ^ 63)
    by (vm_compute; split; discriminate).
  split; [exact Hfid|]. split; [exact Hsize|].
  destruct (frame_id_range replacer_example (-1) true Hfid Hsize)
    as [Hrec _].
  intros Hsome. apply Hrec in Hsome. lia.
Defined.

(** X27 at [pool_unpinned], for page 0. *)
Lemma pool_operations_return_witness :
  pool_reachable std_hash_int [0] pool_unpinned
  /\ pool_size_ pool_unpinned <= SIZE_MAX + 1
  /\ is_Some (UnpinPgImp std_hash_int 0 false pool_unpinned)
  /\ is_Some (FlushPgImp std_hash_int 0 pool_unpinned)
  /\ is_Some (DeletePgImp std_hash_int 0 pool_unpinned).
Proof.
  assert (Hsize : pool_size_ pool_unpinned <= SIZE_MAX + 1)
    by (vm_compute; discriminate).
  split; [exact pool_unpinned_reachable|]. split; [exact Hsize|].
  destruct (pool_operations_return std_hash_int _ pool_unpinned 0 false
              pool_unpinned_reachable Hsize) as (_ & Hrest).
  exact Hrest.
Defined.

(** X28 at [pool_filled_unpinned]: page 0, dirty and with the buffer
    that the caller filled, is fetched, then unpinned. *)
Lemma FetchPgImp_UnpinPgImp_witness :
  ExtendibleHashTable.Find std_hash_int 0 (page_table_ pool_filled_unpinned)
  = Some (Some 0)
  /\ FetchPgImp std_hash_int 4 0 pool_filled_unpinned
     = Some (Some 0, pool_filled_fetched)
  /\ page_at 0 (pages_ pool_filled_fetched)
     = Some {| data_ := [1; 2; 3; 4]; page_id_ := 0; pin_count_ := 1;
               is_dirty_ := true |}
  /\ exists s2,
       UnpinPgImp std_hash_int 0 false pool_filled_fetched = Some (true, s2)
       /\ pages_ s2 = pages_ pool_filled_unpinned
       /\ page_at 0 (pages_ s2)
          = Some {| data_ := [1; 2; 3; 4]; page_id_ := 0; pin_count_ := 0;
                    is_dirty_ := true |}.
Proof.
  assert (Hfetch : FetchPgImp std_hash_int 4 0 pool_filled_unpinned
                   = Some (Some 0, pool_filled_fetched))
    by (vm_compute; reflexivity).
  assert (Hpin : forall p, page_at 0 (pages_ pool_filled_unpinned) = Some p ->
                           0 <= pin_count_ p).
  { intros p [= <-]. by vm_compute. }
  split; [reflexivity|]. split; [exact Hfetch|]. split; [reflexivity|].
  destruct (FetchPgImp_UnpinPgImp std_hash_int 4 0 pool_filled_unpinned 0
              pool_filled_fetched eq_refl Hpin Hfetch)
    as (s2 & Hunpin & Hpages & _).
  exists s2. split; [exact Hunpin|]. split; [exact Hpages|].
  by rewrite Hpages.
Defined.

End MoreWitnesses.
